(** * Single-source shortest paths (exp/apps/sssp/FifoSSSP.cpp) and the
      edge-list loader of tools/dist-graph-convert: a shallow embedding.

    Distances are the 32-bit unsigned values of the source ([Dist]),
    kept in [Z] with the wrap-around of [unsigned int] written out.  The
    node-data array of the graph is a [list Dist] indexed by node number;
    the topology is the CSR adjacency: for each node the list of its
    out-edges [(destination, weight)], in edge-iterator order. *)

From Stdlib Require Import ZArith Lia List Bool.
From stdpp Require Import base numbers list gmap.

Local Open Scope Z_scope.

(** ** Data model *)

Abbreviation Dist := Z (only parsing).
Abbreviation GNode := nat (only parsing).

(** [Dist] arithmetic is C++ [unsigned int] arithmetic: sums are reduced
    modulo 2^32. *)
Definition wrap32 (x : Z) : Dist := x mod 2 ^ 32.

(** Modelled from the spec: the constant DIST_INFINITY is declared in SSSP.h,
    which is not among the sources; the spec gives "Sentinel INF = 2^32 - 1
    means unreached". *)
Definition DIST_INFINITY : Dist := 2 ^ 32 - 1.

(** UpdateRequestCommon<GNode>: a node and the proposed distance. *)
Record UpdateRequest := mkReq { req_n : GNode; req_w : Dist }.

#[global] Instance UpdateRequest_eq_dec : EqDecision UpdateRequest.
Proof. solve_decision. Defined.

(** An out-edge: getEdgeDst and getEdgeData. *)
Abbreviation Edge := (GNode * Dist)%type (only parsing).
Abbreviation Topology := (list (list Edge)) (only parsing).

Definition out_edges (g : Topology) (n : GNode) : list Edge :=
  default [] (g !! n).

(** The mutable part of a run: the [dist] field of every node and the two
    global statistics ([trackWork] is the constant [true]). *)
Record State := mkState {
  dist : list Dist;
  BadWork : nat;
  WLEmptyWork : nat
}.

(** graph.getData(n).dist.  Reading outside the node array is undefined in
    the source; the model reads the sentinel there and the theorems assume
    node numbers in range. *)
Definition getDist (d : list Dist) (n : GNode) : Dist :=
  default DIST_INFINITY (d !! n).

Definition set_dist (st : State) (n : GNode) (x : Dist) : State :=
  mkState (<[n := x]> (dist st)) (BadWork st) (WLEmptyWork st).

Definition add_BadWork (st : State) : State :=
  mkState (dist st) (S (BadWork st)) (WLEmptyWork st).

Definition add_WLEmptyWork (st : State) : State :=
  mkState (dist st) (BadWork st) (S (WLEmptyWork st)).

(** if (trackWork && oldDist != DIST_INFINITY) *BadWork += 1; *)
Definition track_bad (oldDist : Dist) (st : State) : State :=
  if oldDist =? DIST_INFINITY then st else add_BadWork st.

(** ** AsyncAlgo<UseCas>: requests carry the proposed distance *)

Module AsyncAlgo.
Section UseCas.
Variable UseCas : bool.

(** The while loop of relaxEdge once [newDist] is computed.  With no other
    thread writing [dist], compare_exchange_weak can only fail spuriously;
    [spurious] is the number of times it does so before it succeeds. *)
Fixpoint relaxEdge_while (spurious : nat) (st : State) (dst : GNode)
    (newDist : Dist) (pusher : list UpdateRequest)
    : State * list UpdateRequest :=
  let oldDist := getDist (dist st) dst in
  if newDist <? oldDist then
    match UseCas, spurious with
    | true, S k => relaxEdge_while k st dst newDist pusher
    | _, _ =>
        (track_bad oldDist (set_dist st dst newDist),
         pusher ++ [mkReq dst newDist])
    end
  else (st, pusher).

Definition relaxEdge (spurious : nat) (st : State) (sdist : Dist) (ii : Edge)
    (pusher : list UpdateRequest) : State * list UpdateRequest :=
  let dst := fst ii in
  let d := snd ii in
  let newDist := wrap32 (sdist + d) in
  relaxEdge_while spurious st dst newDist pusher.

(** The test of relaxNode, made at its entry and again in every iteration
    of its for loop: the request no longer carries the distance of its
    node.  [sdist] is a reference to the atomic cell and is read again at
    every use. *)
Definition stale (st : State) (req : UpdateRequest) : bool :=
  negb (req_w req =? getDist (dist st) (req_n req)).

(** One iteration of the for loop of relaxNode; [None] is the break taken
    when the request has become stale. *)
Definition for_body (spurious : nat) (st : State) (req : UpdateRequest)
    (ii : Edge) (pusher : list UpdateRequest)
    : option (State * list UpdateRequest) :=
  if stale st req then None
  else Some (relaxEdge spurious st (getDist (dist st) (req_n req)) ii pusher).

(** The for loop over the remaining edges.  [spur] gives the spurious CAS
    failures of the successive relaxEdge calls. *)
Fixpoint relaxNode_for (spur : list nat) (st : State) (req : UpdateRequest)
    (edges : list Edge) (pusher : list UpdateRequest)
    : State * list UpdateRequest :=
  match edges with
  | [] => (st, pusher)
  | ii :: rest =>
      match for_body (hd 0%nat spur) st req ii pusher with
      | None => (add_WLEmptyWork st, pusher)
      | Some (st', pusher') => relaxNode_for (tl spur) st' req rest pusher'
      end
  end.

Definition relaxNode (g : Topology) (spur : list nat) (st : State)
    (req : UpdateRequest) (pusher : list UpdateRequest)
    : State * list UpdateRequest :=
  if stale st req then (add_WLEmptyWork st, pusher)
  else relaxNode_for spur st req (out_edges g (req_n req)) pusher.

(** Initialize, applied to every node by do_all_local. *)
Definition Initialize (st : State) : State :=
  mkState (replicate (length (dist st)) DIST_INFINITY)
          (BadWork st) (WLEmptyWork st).

(** InitialProcess::operator() called on the edges of a list, one call
    after the other: every call passes the current sdata.dist and runs to
    its end before the next one starts. *)
Fixpoint InitialProcess (spur : list nat) (st : State) (source : GNode)
    (edges : list Edge) (bag : list UpdateRequest)
    : State * list UpdateRequest :=
  match edges with
  | [] => (st, bag)
  | ii :: rest =>
      let '(st', bag') :=
        relaxEdge (hd 0%nat spur) st (getDist (dist st) source) ii bag in
      InitialProcess (tl spur) st' source rest bag'
  end.

(** operator() up to the for_each_local call, when the calls of
    InitialProcess that do_all makes are taken one after the other in the
    order [sched]: the source gets distance 0 and the edges are relaxed
    into the initial bag. *)
Definition operator_seed (spur : list nat) (st : State) (source : GNode)
    (sched : list Edge) : State * list UpdateRequest :=
  InitialProcess spur (set_dist st source 0) source sched [].

(** *** The do_all of operator()

    do_all runs InitialProcess on every out-edge of the source, each edge
    once, on any number of threads and with no lock (UNPROTECTED).  With
    CAS a call changes the node data at one instant, that of its
    successful compare-and-swap: the calls take effect one at a time, in
    some order.  Without CAS a call loads ddata and tests it, and stores
    newDist afterwards: other calls may load and store in between, and a
    store can overwrite a smaller distance stored since the load.

    An event of the do_all is the start of a call on an edge (with CAS the
    whole call; without CAS the read of sdata.dist, the load of ddata and
    the test) or, without CAS, the rest of a call whose test succeeded:
    the store, the count in BadWork and the push.  [seed_waiting] holds
    the calls that are between their test and their store, each with its
    destination, its newDist and the oldDist it loaded.  The bag is a
    container without order: [seed_bag] lists its items in the order in
    which the calls took effect, and the work list hands them out in any
    order. *)
Inductive SeedEvent :=
| Call (ii : Edge) (spurious : nat)
| Store (k : nat).

Record Seeding := mkSeeding {
  seed_mem : State;
  seed_bag : list UpdateRequest;
  seed_waiting : list (GNode * Dist * Dist)
}.

Definition seed_step (source : GNode) (ev : SeedEvent) (s : Seeding)
    : option Seeding :=
  match ev with
  | Call ii spurious =>
      let sdist := getDist (dist (seed_mem s)) source in
      if UseCas then
        let '(st', bag') :=
          relaxEdge spurious (seed_mem s) sdist ii (seed_bag s) in
        Some (mkSeeding st' bag' (seed_waiting s))
      else
        let dst := fst ii in
        let newDist := wrap32 (sdist + snd ii) in
        let oldDist := getDist (dist (seed_mem s)) dst in
        if newDist <? oldDist then
          Some (mkSeeding (seed_mem s) (seed_bag s)
                          (seed_waiting s ++ [(dst, newDist, oldDist)]))
        else Some s
  | Store k =>
      match seed_waiting s !! k with
      | None => None
      | Some (dst, newDist, oldDist) =>
          Some (mkSeeding (track_bad oldDist (set_dist (seed_mem s) dst newDist))
                          (seed_bag s ++ [mkReq dst newDist])
                          (delete k (seed_waiting s)))
      end
  end.

Fixpoint seed_exec (source : GNode) (events : list SeedEvent) (s : Seeding)
    : option Seeding :=
  match events with
  | [] => Some s
  | ev :: rest =>
      match seed_step source ev s with
      | Some s' => seed_exec source rest s'
      | None => None
      end
  end.

(** The edges on which the events call InitialProcess, and the spurious
    failures of these calls, in the order of the calls. *)
Fixpoint called (events : list SeedEvent) : list Edge :=
  match events with
  | [] => []
  | Call ii _ :: rest => ii :: called rest
  | Store _ :: rest => called rest
  end.

Fixpoint spurious_of (events : list SeedEvent) : list nat :=
  match events with
  | [] => []
  | Call _ spurious :: rest => spurious :: spurious_of rest
  | Store _ :: rest => spurious_of rest
  end.

(** No call on an edge into a node starts while another call on an edge
    into the same node is between its test and its store. *)
Fixpoint race_free (source : GNode) (events : list SeedEvent) (s : Seeding)
    : bool :=
  match events with
  | [] => true
  | ev :: rest =>
      match ev with
      | Call ii _ =>
          bool_decide (fst ii ∉ (fun w => fst (fst w)) <$> seed_waiting s)
      | Store _ => true
      end &&
      match seed_step source ev s with
      | Some s' => race_free source rest s'
      | None => true
      end
  end.

(** operator() up to the for_each_local call: the source gets distance 0
    and do_all runs the events.  [None]: the events are not a run of this
    do_all, because they do not call InitialProcess once on every out-edge
    of the source, or take a store that no call waits for, or leave a call
    before its store. *)
Definition operator_do_all (g : Topology) (events : list SeedEvent)
    (st : State) (source : GNode) : option (State * list UpdateRequest) :=
  if bool_decide (called events ≡ₚ out_edges g source) then
    match seed_exec source events (mkSeeding (set_dist st source 0) [] []) with
    | Some s =>
        match seed_waiting s with
        | [] => Some (seed_mem s, seed_bag s)
        | _ :: _ => None
        end
    | None => None
    end
  else None.

Definition calls_race_free (events : list SeedEvent) (st : State)
    (source : GNode) : bool :=
  race_free source events (mkSeeding (set_dist st source 0) [] []).

(** *** for_each_local over the work list

    Modelled from the spec: the runtime (for_each_local, the OBIM and
    chunked FIFO work lists) is not among the sources.  Following the spec
    (sections 4.C and 5) a worker pops some pending item, whichever the
    scheduler hands out, runs the operator on it, and pushes go back to the
    work list; the run is over when no item is pending and no operator is
    running.  Operators of several workers interleave: a running operator
    is a request with the out-edges it has still to scan, and one step of
    it is one iteration of the for loop of relaxNode. *)
Record Run := mkRun {
  mem : State;
  wl : list UpdateRequest;
  tasks : list (UpdateRequest * list Edge)
}.

Inductive Choice :=
| Pop (i : nat)                (* a worker takes the i-th pending item *)
| Iter (j : nat) (spurious : nat).  (* the j-th running operator advances *)

Definition step (g : Topology) (c : Choice) (r : Run) : option Run :=
  match c with
  | Pop i =>
      match wl r !! i with
      | None => None
      | Some req =>
          if stale (mem r) req then
            Some (mkRun (add_WLEmptyWork (mem r)) (delete i (wl r)) (tasks r))
          else
            Some (mkRun (mem r) (delete i (wl r))
                        (tasks r ++ [(req, out_edges g (req_n req))]))
      end
  | Iter j spurious =>
      match tasks r !! j with
      | None => None
      | Some (req, []) => Some (mkRun (mem r) (wl r) (delete j (tasks r)))
      | Some (req, ii :: rest) =>
          match for_body spurious (mem r) req ii [] with
          | None =>
              Some (mkRun (add_WLEmptyWork (mem r)) (wl r) (delete j (tasks r)))
          | Some (st', pushed) =>
              Some (mkRun st' (wl r ++ pushed) (<[j := (req, rest)]> (tasks r)))
          end
      end
  end.

Fixpoint exec (g : Topology) (sched : list Choice) (r : Run) : option Run :=
  match sched with
  | [] => Some r
  | c :: sched' =>
      match step g c r with
      | Some r' => exec g sched' r'
      | None => None
      end
  end.

Definition terminal (r : Run) : bool :=
  match wl r, tasks r with
  | [], [] => true
  | _, _ => false
  end.

(** run<Algo> from Initialize to the for_each_local call, the do_all
    running the events [events]. *)
Definition start (events : list SeedEvent) (g : Topology) (st0 : State)
    (source : GNode) : option Run :=
  match operator_do_all g events (Initialize st0) source with
  | Some (st, bag) => Some (mkRun st bag [])
  | None => None
  end.

End UseCas.
End AsyncAlgo.

(** ** AsyncSetAlgo<UseCas>: requests are bare nodes *)

Module AsyncSetAlgo.

(** SetNode: the [dist] fields live in [State]; the [inSet] flags are a
    second array, written by Initialize and by the marking work list. *)
Definition Initialize (st : State) (inSet : list bool) : State * list bool :=
  (mkState (replicate (length (dist st)) DIST_INFINITY)
           (BadWork st) (WLEmptyWork st),
   replicate (length inSet) false).

Section UseCas.
Variable UseCas : bool.

(** relaxEdge reads sdata.dist itself.  The loop body runs at most once
    when no other thread writes [dist]: the strong compare-and-swap then
    succeeds, and so does the plain store of the variant without CAS. *)
Definition relaxEdge (st : State) (sdata : GNode) (ii : Edge)
    (pusher : list GNode) : State * list GNode :=
  let dst := fst ii in
  let d := snd ii in
  let newDist := wrap32 (getDist (dist st) sdata + d) in
  let oldDist := getDist (dist st) dst in
  if newDist <? oldDist then
    let st' :=
      if UseCas then set_dist st dst newDist  (* compare-and-swap *)
      else set_dist st dst newDist            (* ddata.dist = newDist *) in
    (track_bad oldDist st', pusher ++ [dst])
  else (st, pusher).

Fixpoint relaxNode_for (st : State) (req : GNode) (edges : list Edge)
    (pusher : list GNode) : State * list GNode :=
  match edges with
  | [] => (st, pusher)
  | ii :: rest =>
      let '(st', pusher') := relaxEdge st req ii pusher in
      relaxNode_for st' req rest pusher'
  end.

Definition relaxNode (g : Topology) (st : State) (req : GNode)
    (pusher : list GNode) : State * list GNode :=
  relaxNode_for st req (out_edges g req) pusher.

(** *** The do_all of operator()

    InitialProcess calls relaxEdge with the source as [sdata]; do_all runs
    it on every out-edge of the source, each edge once, on any number of
    threads and with no lock.  As in AsyncAlgo, a call with CAS takes
    effect at one instant, and a call without CAS loads and tests
    ddata.dist and stores newDist afterwards, other calls loading and
    storing in between.  An event is the start of a call (with CAS the
    whole call; without CAS up to the test) or, without CAS, the store, the
    count and the push of a call whose test succeeded. *)
Inductive SeedEvent :=
| Call (ii : Edge)
| Store (k : nat).

Record Seeding := mkSeeding {
  seed_mem : State;
  seed_bag : list GNode;
  seed_waiting : list (GNode * Dist * Dist)
}.

Definition seed_step (source : GNode) (ev : SeedEvent) (s : Seeding)
    : option Seeding :=
  match ev with
  | Call ii =>
      if UseCas then
        let '(st', bag') := relaxEdge (seed_mem s) source ii (seed_bag s) in
        Some (mkSeeding st' bag' (seed_waiting s))
      else
        let dst := fst ii in
        let newDist := wrap32 (getDist (dist (seed_mem s)) source + snd ii) in
        let oldDist := getDist (dist (seed_mem s)) dst in
        if newDist <? oldDist then
          Some (mkSeeding (seed_mem s) (seed_bag s)
                          (seed_waiting s ++ [(dst, newDist, oldDist)]))
        else Some s
  | Store k =>
      match seed_waiting s !! k with
      | None => None
      | Some (dst, newDist, oldDist) =>
          Some (mkSeeding (track_bad oldDist (set_dist (seed_mem s) dst newDist))
                          (seed_bag s ++ [dst])
                          (delete k (seed_waiting s)))
      end
  end.

Fixpoint seed_exec (source : GNode) (events : list SeedEvent) (s : Seeding)
    : option Seeding :=
  match events with
  | [] => Some s
  | ev :: rest =>
      match seed_step source ev s with
      | Some s' => seed_exec source rest s'
      | None => None
      end
  end.

Fixpoint called (events : list SeedEvent) : list Edge :=
  match events with
  | [] => []
  | Call ii :: rest => ii :: called rest
  | Store _ :: rest => called rest
  end.

(** No call on an edge into a node starts while another call on an edge
    into the same node is between its test and its store. *)
Fixpoint race_free (source : GNode) (events : list SeedEvent) (s : Seeding)
    : bool :=
  match events with
  | [] => true
  | ev :: rest =>
      match ev with
      | Call ii =>
          bool_decide (fst ii ∉ (fun w => fst (fst w)) <$> seed_waiting s)
      | Store _ => true
      end &&
      match seed_step source ev s with
      | Some s' => race_free source rest s'
      | None => true
      end
  end.

(** operator() up to the switch over the work lists.  [None]: the events
    are not a run of this do_all. *)
Definition operator_do_all (g : Topology) (events : list SeedEvent)
    (st : State) (source : GNode) : option (State * list GNode) :=
  if bool_decide (called events ≡ₚ out_edges g source) then
    match seed_exec source events (mkSeeding (set_dist st source 0) [] []) with
    | Some s =>
        match seed_waiting s with
        | [] => Some (seed_mem s, seed_bag s)
        | _ :: _ => None
        end
    | None => None
    end
  else None.

Definition calls_race_free (events : list SeedEvent) (st : State)
    (source : GNode) : bool :=
  race_free source events (mkSeeding (set_dist st source 0) [] []).

(** *** for_each_local over the work list, with or without a work-set

    Modelled from the spec: the runtime and the work-set work lists
    (Galois/WorkList/WorkSet.h, MarkingSet.h) are not among the sources.
    Following the spec (section 4.D), with a work-set a push that finds the
    vertex already in the set is dropped, and the vertex leaves the set
    when it is popped, before the operator reads its distance; the marking
    set keeps the membership in the [inSet] flag of the node.  Without a
    work-set every push is queued. *)
Record Run := mkRun {
  mem : State;
  inSet : list bool;
  wl : list GNode;
  tasks : list (GNode * list Edge)
}.

Definition ws_push (workSet : bool) (acc : list bool * list GNode)
    (u : GNode) : list bool * list GNode :=
  if workSet then
    if default false (fst acc !! u) then acc
    else (<[u := true]> (fst acc), snd acc ++ [u])
  else (fst acc, snd acc ++ [u]).

Inductive Choice :=
| Pop (i : nat)
| Iter (j : nat).

Definition step (workSet : bool) (g : Topology) (c : Choice) (r : Run)
    : option Run :=
  match c with
  | Pop i =>
      match wl r !! i with
      | None => None
      | Some u =>
          Some (mkRun (mem r)
                      (if workSet then <[u := false]> (inSet r) else inSet r)
                      (delete i (wl r))
                      (tasks r ++ [(u, out_edges g u)]))
      end
  | Iter j =>
      match tasks r !! j with
      | None => None
      | Some (u, []) =>
          Some (mkRun (mem r) (inSet r) (wl r) (delete j (tasks r)))
      | Some (u, ii :: rest) =>
          let '(st', pushed) := relaxEdge (mem r) u ii [] in
          let '(inSet', wl') :=
            fold_left (ws_push workSet) pushed (inSet r, wl r) in
          Some (mkRun st' inSet' wl' (<[j := (u, rest)]> (tasks r)))
      end
  end.

Fixpoint exec (workSet : bool) (g : Topology) (sched : list Choice) (r : Run)
    : option Run :=
  match sched with
  | [] => Some r
  | c :: sched' =>
      match step workSet g c r with
      | Some r' => exec workSet g sched' r'
      | None => None
      end
  end.

Definition terminal (r : Run) : bool :=
  match wl r, tasks r with
  | [], [] => true
  | _, _ => false
  end.

(** run<Algo> from Initialize to the for_each_local call, the do_all
    running the events [events]: the items of the initial bag enter the
    work list through the same push. *)
Definition start (workSet : bool) (events : list SeedEvent) (g : Topology)
    (st0 : State) (source : GNode) : option Run :=
  let '(st1, inSet1) := Initialize st0 (replicate (length (dist st0)) false) in
  match operator_do_all g events st1 source with
  | Some (st, bag) =>
      let '(inSet', wl') := fold_left (ws_push workSet) bag (inSet1, []) in
      Some (mkRun st inSet' wl' [])
  | None => None
  end.

End UseCas.
End AsyncSetAlgo.

(** ** AsyncAlgoPP: push and pull *)

Module AsyncAlgoPP.

(** relaxEdge with the caller's [sdata] passed by reference: the result
    carries its new value.  [spurious] counts the spurious failures of
    compare_exchange_weak inside the do-while loop. *)
Fixpoint relaxEdge_do (spurious : nat) (st : State) (dst : GNode)
    (newDist oldDist : Dist) (pusher : list UpdateRequest)
    : State * list UpdateRequest :=
  match spurious with
  | S k =>
      let oldDist' := getDist (dist st) dst in
      if newDist <? oldDist' then relaxEdge_do k st dst newDist oldDist' pusher
      else (st, pusher)
  | O =>
      (track_bad oldDist (set_dist st dst newDist),
       pusher ++ [mkReq dst newDist])
  end.

Definition relaxEdge (spurious : nat) (st : State) (sdata : Dist) (ii : Edge)
    (pusher : list UpdateRequest) : State * Dist * list UpdateRequest :=
  let dst := fst ii in
  let d := snd ii in
  let newDist := wrap32 (sdata + d) in
  let oldDist := getDist (dist st) dst in
  if newDist <? oldDist then
    let '(st', pusher') := relaxEdge_do spurious st dst newDist oldDist pusher in
    (st', sdata, pusher')
  else (st, Z.min (wrap32 (oldDist + d)) sdata, pusher).

Fixpoint Process_for (spur : list nat) (st : State) (sdist : Dist)
    (edges : list Edge) (ctx : list UpdateRequest)
    : State * Dist * list UpdateRequest :=
  match edges with
  | [] => (st, sdist, ctx)
  | ii :: rest =>
      let '(st', sdist', ctx') := relaxEdge (hd 0%nat spur) st sdist ii ctx in
      Process_for (tl spur) st' sdist' rest ctx'
  end.

(** Process::operator().  The result also shows the final value of the
    local [sdist]; the source drops it when the operator returns (the
    pull write-back that follows the loop is commented out). *)
Definition Process (g : Topology) (spur : list nat) (st : State)
    (req : UpdateRequest) (ctx : list UpdateRequest)
    : State * Dist * list UpdateRequest :=
  let sdist := getDist (dist st) (req_n req) in
  if negb (req_w req =? sdist) then (add_WLEmptyWork st, sdist, ctx)
  else Process_for spur st sdist (out_edges g (req_n req)) ctx.

(** InitialProcess over a list of edges of the source: every call starts
    from a local [d] = 0, which is dropped when the call returns. *)
Fixpoint InitialProcess (spur : list nat) (st : State) (edges : list Edge)
    (bag : list UpdateRequest) : State * list UpdateRequest :=
  match edges with
  | [] => (st, bag)
  | ii :: rest =>
      let '(st', _, bag') := relaxEdge (hd 0%nat spur) st 0 ii bag in
      InitialProcess (tl spur) st' rest bag'
  end.

(** operator() up to the for_each_local call. *)
Definition operator_seed (spur : list nat) (st : State) (source : GNode)
    (sched : list Edge) : State * list UpdateRequest :=
  InitialProcess spur (set_dist st source 0) sched [].

(** Initialize, applied to every node by do_all_local. *)
Definition Initialize (st : State) : State :=
  mkState (replicate (length (dist st)) DIST_INFINITY)
          (BadWork st) (WLEmptyWork st).

(** *** for_each_local with one worker

    Modelled from the spec: the runtime is not among the sources.  With
    one worker the operators run one after the other, each to its end;
    the requests are taken here in the order of their arrival, which is
    the order of an OBIM work list whose requests all fall into one
    bucket.  [fuel] bounds the number of operators; [None] means that it
    was not enough. *)
Fixpoint for_each_one_worker (fuel : nat) (g : Topology) (st : State)
    (wl : list UpdateRequest) : option State :=
  match wl with
  | [] => Some st
  | req :: rest =>
      match fuel with
      | O => None
      | S fuel' =>
          let '(st', _, pushed) := Process g [] st req [] in
          for_each_one_worker fuel' g st' (rest ++ pushed)
      end
  end.

(** operator() with one worker: the do_all takes the out-edges of the
    source in their order. *)
Definition operator_one_worker (fuel : nat) (g : Topology) (st : State)
    (source : GNode) : option State :=
  let '(st1, bag) := operator_seed [] st source (out_edges g source) in
  for_each_one_worker fuel g st1 bag.

End AsyncAlgoPP.

(** ** SerialAlgo *)

Module SerialAlgo.
Section Order.
(** std::less<UpdateRequest>: operator< of UpdateRequestCommon is declared
    in SSSP.h, which is not among the sources, so the comparison is a
    parameter. *)
Variable less : UpdateRequest -> UpdateRequest -> bool.

(** std::set::insert on the sorted sequence of the elements: an element
    equivalent to one already present is not inserted. *)
Fixpoint set_insert (r : UpdateRequest) (s : list UpdateRequest)
    : list UpdateRequest :=
  match s with
  | [] => [r]
  | x :: s' =>
      if less r x then r :: s
      else if less x r then x :: set_insert r s'
      else s
  end.

(** The for loop over the out-edges of req.n once data.dist is written. *)
Fixpoint scan_edges (d : list Dist) (reqw : Dist) (edges : list Edge)
    (initial : list UpdateRequest) : list UpdateRequest :=
  match edges with
  | [] => initial
  | ii :: rest =>
      let dst := fst ii in
      let newDist := wrap32 (reqw + snd ii) in
      scan_edges d reqw rest
        (if newDist <? getDist d dst then set_insert (mkReq dst newDist) initial
         else initial)
  end.

(** The while loop; [fuel] bounds the number of iterations and [None]
    means that it was not enough.  The result carries the Iterations
    counter. *)
Fixpoint loop (fuel : nat) (g : Topology) (d : list Dist)
    (initial : list UpdateRequest) (counter : nat)
    : option (list Dist * nat) :=
  match initial with
  | [] => Some (d, counter)
  | req :: initial' =>
      match fuel with
      | O => None
      | S fuel' =>
          if req_w req <? getDist d (req_n req) then
            let d' := <[req_n req := req_w req]> d in
            loop fuel' g d'
              (scan_edges d' (req_w req) (out_edges g (req_n req)) initial')
              (S counter)
          else loop fuel' g d initial' (S counter)
      end
  end.

Definition Initialize (d : list Dist) : list Dist :=
  replicate (length d) DIST_INFINITY.

Definition operator (fuel : nat) (g : Topology) (d : list Dist) (src : GNode)
    : option (list Dist * nat) :=
  loop fuel g d (set_insert (mkReq src 0) []) 0%nat.

End Order.
End SerialAlgo.

(** A comparison in the style of a priority queue: by proposed distance,
    ties by node number. *)
Definition less_by_dist (a b : UpdateRequest) : bool :=
  (req_w a <? req_w b) ||
  ((req_w a =? req_w b) && (req_n a <? req_n b)%nat).

(** ** The verifier *)

(** What the driver prints, by message. *)
Inductive Msg :=
| MsgSourceNonZero              (* source has non-zero dist value *)
| MsgUnvisited (count : nat)    (* <count> unvisited nodes; this is an error
                                   if the graph is strongly connected *)
| MsgIncorrectDistance          (* node found with incorrect distance *)
| MsgMaxDist (m : Dist)         (* max dist: <m> *)
| MsgFailedToSet (report start : Z)
                                (* failed to set report: <report> or failed
                                   to set source: <start> *)
| MsgNodeDistance (report : Z) (d : Dist)
                                (* Node <report> has distance <d> *)
| MsgVerificationSuccessful
| MsgVerificationFailed.

Definition not_visited (d : list Dist) (n : GNode) : bool :=
  DIST_INFINITY <=? getDist d n.

(** The specialisation for graphs that are not segmented (all graph types
    of this file). *)
Definition not_consistent (g : Topology) (d : list Dist) (n : GNode) : bool :=
  let dist := getDist d n in
  if dist =? DIST_INFINITY then false
  else
    existsb (fun ii => wrap32 (dist + snd ii) <? getDist d (fst ii))
            (out_edges g n).

(** max_dist into a GReduceMax<Dist>. *)
Definition max_dist (d : list Dist) (m : Dist) (n : GNode) : Dist :=
  let x := getDist d n in
  if x =? DIST_INFINITY then m else Z.max m x.

(** graph.begin() .. graph.end() *)
Definition graph_nodes (g : Topology) : list GNode := seq 0 (length g).

Definition verify (g : Topology) (d : list Dist) (source : GNode)
    : bool * list Msg :=
  if negb (getDist d source =? 0) then (false, [MsgSourceNonZero])
  else
    let notVisited := length (List.filter (not_visited d) (graph_nodes g)) in
    let warn :=
      match notVisited with
      | O => []
      | S _ => [MsgUnvisited notVisited]
      end in
    let consistent := negb (existsb (not_consistent g d) (graph_nodes g)) in
    if negb consistent then (false, warn ++ [MsgIncorrectDistance])
    else
      let m := fold_left (max_dist d) (graph_nodes g) 0 in
      (true, warn ++ [MsgMaxDist m]).

(** ** The driver *)

(** The command line: startNode and reportNode are unsigned, delta (the
    variable stepShift) is a signed int. *)
Record Config := mkConfig {
  startNode : Z;
  reportNode : Z;
  stepShift : Z;
  skipVerify : bool
}.

(** initialize after readGraph: the two nodes, or the message printed
    before abort(). *)
Definition initialize (cfg : Config) (g : Topology) : Msg + GNode * GNode :=
  let size := Z.of_nat (length g) in
  if (size <=? startNode cfg) || (size <=? reportNode cfg) then
    inl (MsgFailedToSet (reportNode cfg) (startNode cfg))
  else inr (Z.to_nat (startNode cfg), Z.to_nat (reportNode cfg)).

(** The members of the template parameter Algo that run uses.  [Sched] is
    what the embedding of operator() takes besides the graph: fuel for the
    serial loop, a schedule for a work list; [None] means that the operator
    phase did not finish under it. *)
Record AlgoT := mkAlgoT {
  Sched : Type;
  algo_Initialize : State -> State;
  algo_operator : Sched -> Topology -> State -> GNode -> option State
}.

Inductive Exit :=
| Returned0      (* run returns, main returns 0 *)
| Aborted        (* abort() in initialize *)
| Died.          (* GALOIS_DIE("Verification failed") *)

(** run<Algo>(): the exit, the node data when the process ends, and the
    messages. *)
Definition run (A : AlgoT) (s : Sched A) (cfg : Config) (g : Topology)
    (st : State) : option (Exit * State * list Msg) :=
  match initialize cfg g with
  | inl msg => Some (Aborted, st, [msg])
  | inr (source, report) =>
      match algo_operator A s g (algo_Initialize A st) source with
      | None => None
      | Some st' =>
          let out := [MsgNodeDistance (reportNode cfg)
                                      (getDist (dist st') report)] in
          if skipVerify cfg then Some (Returned0, st', out)
          else
            let '(ok, msgs) := verify g (dist st') source in
            if ok then
              Some (Returned0, st', out ++ msgs ++ [MsgVerificationSuccessful])
            else Some (Died, st', out ++ msgs ++ [MsgVerificationFailed])
      end
  end.

Definition SerialAlgoT (less : UpdateRequest -> UpdateRequest -> bool)
    : AlgoT :=
  mkAlgoT nat
    (fun st => mkState (SerialAlgo.Initialize (dist st))
                       (BadWork st) (WLEmptyWork st))
    (fun fuel g st source =>
       match SerialAlgo.operator less fuel g (dist st) source with
       | Some (d, _) => Some (mkState d (BadWork st) (WLEmptyWork st))
       | None => None
       end).

(** The schedule of the parallel algorithms: the events of the do_all
    that seeds the initial bag, then the choices of the work list. *)
Definition AsyncAlgoT (UseCas : bool) : AlgoT :=
  mkAlgoT (list AsyncAlgo.SeedEvent * list AsyncAlgo.Choice)
    AsyncAlgo.Initialize
    (fun s g st source =>
       match AsyncAlgo.operator_do_all UseCas g (fst s) st source with
       | Some (st1, bag) =>
           match AsyncAlgo.exec UseCas g (snd s)
                   (AsyncAlgo.mkRun st1 bag []) with
           | Some r =>
               if AsyncAlgo.terminal r then Some (AsyncAlgo.mem r) else None
           | None => None
           end
       | None => None
       end).

Definition AsyncSetAlgoT (UseCas workSet : bool) : AlgoT :=
  mkAlgoT (list AsyncSetAlgo.SeedEvent * list AsyncSetAlgo.Choice)
    (fun st =>
       fst (AsyncSetAlgo.Initialize st (replicate (length (dist st)) false)))
    (fun s g st source =>
       match AsyncSetAlgo.operator_do_all UseCas g (fst s) st source with
       | Some (st1, bag) =>
           let '(inSet', wl') :=
             fold_left (AsyncSetAlgo.ws_push workSet) bag
                       (replicate (length (dist st)) false, []) in
           match AsyncSetAlgo.exec UseCas workSet g (snd s)
                   (AsyncSetAlgo.mkRun st1 inSet' wl' []) with
           | Some r =>
               if AsyncSetAlgo.terminal r then Some (AsyncSetAlgo.mem r)
               else None
           | None => None
           end
       | None => None
       end).

(** AsyncAlgoPP run by one worker; the schedule is the fuel. *)
Definition AsyncAlgoPPT : AlgoT :=
  mkAlgoT nat AsyncAlgoPP.Initialize AsyncAlgoPP.operator_one_worker.

(** The enumeration Algo and the switch of main. *)
Inductive Algo :=
| async | asyncFifo
| asyncBlindObim | asyncBlindFifo
| asyncBlindFifoHSet | asyncBlindFifoMSet | asyncBlindFifoOSet
| asyncBlindObimHSet | asyncBlindObimMSet | asyncBlindObimOSet
| asyncWithCas | asyncWithCasFifo
| asyncWithCasBlindObim | asyncWithCasBlindFifo
| asyncWithCasBlindFifoHSet | asyncWithCasBlindFifoMSet
| asyncWithCasBlindFifoOSet
| asyncWithCasBlindObimHSet | asyncWithCasBlindObimMSet
| asyncWithCasBlindObimOSet
| asyncPP | graphlab | ligra | ligraChi | serial.

Inductive Impl :=
| RunSerialAlgo
| RunAsyncAlgo (UseCas : bool)
| RunAsyncSetAlgo (UseCas : bool)
| RunAsyncAlgoPP
| RunGraphLabAlgo
| UnknownAlgorithm.

Definition main_switch (a : Algo) : Impl :=
  match a with
  | serial => RunSerialAlgo
  | async | asyncFifo => RunAsyncAlgo false
  | asyncBlindObim | asyncBlindFifo
  | asyncBlindFifoHSet | asyncBlindFifoMSet | asyncBlindFifoOSet
  | asyncBlindObimHSet | asyncBlindObimMSet | asyncBlindObimOSet =>
      RunAsyncSetAlgo false
  | asyncWithCas | asyncWithCasFifo => RunAsyncAlgo true
  | asyncWithCasBlindObim | asyncWithCasBlindFifo
  | asyncWithCasBlindFifoHSet | asyncWithCasBlindFifoMSet
  | asyncWithCasBlindFifoOSet
  | asyncWithCasBlindObimHSet | asyncWithCasBlindObimMSet
  | asyncWithCasBlindObimOSet => RunAsyncSetAlgo true
  | asyncPP => RunAsyncAlgoPP
  | graphlab => RunGraphLabAlgo
  | ligra | ligraChi => UnknownAlgorithm
  end.

(** The switch of AsyncSetAlgo::operator(): whether the work list chosen
    for the algorithm is one with a work-set (MSet, OSet, HSet). *)
Definition with_work_set (a : Algo) : bool :=
  match a with
  | asyncBlindFifoMSet | asyncWithCasBlindFifoMSet
  | asyncBlindFifoOSet | asyncWithCasBlindFifoOSet
  | asyncBlindFifoHSet | asyncWithCasBlindFifoHSet
  | asyncBlindObimMSet | asyncWithCasBlindObimMSet
  | asyncBlindObimOSet | asyncWithCasBlindObimOSet
  | asyncBlindObimHSet | asyncWithCasBlindObimHSet => true
  | _ => false
  end.

(** ** The indexers of the OBIM work lists *)

(** val.w >> stepShift, on an unsigned int with an int count: the shift is
    undefined in C++ when the count is negative or not below the width of
    the left operand; [None] then. *)
Definition shift_right (x : Dist) (stepShift : Z) : option Z :=
  if (0 <=? stepShift) && (stepShift <? 32) then Some (Z.shiftr x stepShift)
  else None.

(** UpdateRequestIndexer::operator() *)
Definition UpdateRequestIndexer (stepShift : Z) (val : UpdateRequest)
    : option Z :=
  shift_right (req_w val) stepShift.

(** NodeIndexer::operator() *)
Definition NodeIndexer (stepShift : Z) (d : list Dist) (n : GNode)
    : option Z :=
  shift_right (getDist d n) stepShift.

(** ** tools/dist-graph-convert: loading an edge list *)

Module DistGraphConvert.

Definition wrap64 (x : Z) : Z := x mod 2 ^ 64.

(** getNumEdges<EdgeDataTy>; [is_void] is std::is_void<EdgeDataTy>::value. *)
Definition getNumEdges (is_void : bool) (edgeVector : list Z) : Z :=
  if is_void then Z.of_nat (length edgeVector) / 2
  else Z.of_nat (length edgeVector) / 3.

Inductive LoadResult :=
| ReturnedEdges (localEdges : list Z) (localNumEdges : Z)
    (* the vector returned, and the count printed before the return *)
| AssertFailed.  (* a GALOIS_ASSERT aborts the process *)

Section Loader.
(** The std::ifstream is a parameter: a state, the position tellg() reports
    (-1 once the stream has failed), seekg, and the extraction of one
    uint32_t by operator>>, which gives what the variable holds afterwards
    and the next state. *)
Variable Stream : Type.
Variable tellg : Stream -> Z.
Variable seekg : Z -> Stream -> Stream.
Variable extract : Stream -> Z * Stream.

(** The while loop; [fuel] bounds the iterations, [None]: not enough. *)
Fixpoint load_loop (fuel : nat) (is_void : bool) (edgeListFile : Stream)
    (localEndByte totalNumNodes : Z) (localEdges : list Z)
    (localNumEdges : Z) : option LoadResult :=
  if wrap64 (tellg edgeListFile + 1) =? localEndByte then
    if localNumEdges =? getNumEdges is_void localEdges then
      Some (ReturnedEdges localEdges localNumEdges)
    else Some AssertFailed
  else
    match fuel with
    | O => None
    | S fuel' =>
        let '(src, f1) := extract edgeListFile in
        let '(dst, f2) := extract f1 in
        if negb (src <? totalNumNodes) then Some AssertFailed
        else if negb (dst <? totalNumNodes) then Some AssertFailed
        else
          let edges2 := localEdges ++ [src; dst] in
          let '(edges3, f3) :=
            if negb is_void then
              let '(edgeData, f3) := extract f2 in (edges2 ++ [edgeData], f3)
            else (edges2, f2) in
          load_loop fuel' is_void f3 localEndByte totalNumNodes edges3
                    (wrap64 (localNumEdges + 1))
    end.

Definition loadEdgesFromEdgeList (fuel : nat) (is_void : bool)
    (edgeListFile : Stream) (localStartByte localEndByte totalNumNodes : Z)
    : option LoadResult :=
  load_loop fuel is_void (seekg localStartByte edgeListFile)
            localEndByte totalNumNodes [] 0.

End Loader.

(** A stream for examples: the values the extractions yield, each with the
    position the stream reports after it. *)
Definition TokenStream := (Z * list (Z * Z))%type.

Definition token_tellg (s : TokenStream) : Z := fst s.

Definition token_seekg (pos : Z) (s : TokenStream) : TokenStream :=
  (pos, snd s).

Definition token_extract (s : TokenStream) : Z * TokenStream :=
  match snd s with
  | [] => (0, (-1, []))
  | (v, pos) :: rest => (v, (pos, rest))
  end.

(** The layout of one edge in the vector: source, destination, and the
    edge data unless the edge-data type is void. *)
Definition edge_words (is_void : bool) (e : Z * Z * Z) : list Z :=
  let '(src, dst, data) := e in
  if is_void then [src; dst] else [src; dst; data].

Definition stride (is_void : bool) : Z := if is_void then 2 else 3.

(** The edge list "0 1 5", "1 0 7", one edge per line, as a stream. *)
Definition two_edges : TokenStream :=
  (0, [(0, 1); (1, 3); (5, 5); (1, 7); (0, 9); (7, 11)]).

(** *** What the stream does during a load *)

Section Reads.
Variable Stream : Type.
Variable tellg : Stream -> Z.
Variable extract : Stream -> Z * Stream.

(** [reads is_void localEndByte f es f']: from the state [f], once for
    each edge of [es] in turn, the test of the while loop finds the
    stream away from the end of the range and the extractions yield the
    edge; the stream is then in the state [f']. *)
Inductive reads (is_void : bool) (localEndByte : Z)
    : Stream -> list (Z * Z * Z) -> Stream -> Prop :=
| reads_nil (f : Stream) : reads is_void localEndByte f [] f
| reads_cons (f f1 f2 f3 f' : Stream) (src dst data : Z)
      (es : list (Z * Z * Z)) :
    wrap64 (tellg f + 1) <> localEndByte ->
    extract f = (src, f1) ->
    extract f1 = (dst, f2) ->
    (if is_void then f3 = f2 else extract f2 = (data, f3)) ->
    reads is_void localEndByte f3 es f' ->
    reads is_void localEndByte f ((src, dst, data) :: es) f'.

End Reads.

(** *** The passes over the loaded edges

    Modelled from the spec of galois::do_all: the loop body runs once for
    every index of the range, on some thread and in some order; a
    schedule lists the indices (with the thread, where the body uses
    per-thread storage) in the order in which the bodies run. *)

(** The number of edges as a loop bound. *)
Definition localNumEdges (is_void : bool) (localEdges : list Z) : nat :=
  Z.to_nat (getNumEdges is_void localEdges).

(** localEdges[edgeIndex * 2], or localEdges[edgeIndex * 3]: the source
    of an edge.  The loops index below getNumEdges, inside the vector. *)
Definition edge_src (is_void : bool) (localEdges : list Z) (edgeIndex : nat)
    : Z :=
  if is_void then default 0 (localEdges !! (edgeIndex * 2)%nat)
  else default 0 (localEdges !! (edgeIndex * 3)%nat).

(** findUniqueSourceNodes: the body of the do_all, on the set of its
    thread; then the loops that merge the sets of the threads. *)
Definition findUniqueSourceNodes_body (is_void : bool) (localEdges : list Z)
    (threadUniqueNodes : list (gset Z)) (it : nat * nat) : list (gset Z) :=
  let '(tid, edgeIndex) := it in
  alter (fun localSet => {[ edge_src is_void localEdges edgeIndex ]} ∪ localSet)
        tid threadUniqueNodes.

Definition findUniqueSourceNodes (is_void : bool) (threads : nat)
    (sched : list (nat * nat)) (localEdges : list Z) : gset Z :=
  let threadUniqueNodes :=
    fold_left (findUniqueSourceNodes_body is_void localEdges) sched
              (replicate threads ∅) in
  fold_left
    (fun uniqueNodes tSet =>
       fold_left (fun acc nodeID => {[ nodeID ]} ∪ acc) (elements tSet)
                 uniqueNodes)
    threadUniqueNodes ∅.

Section Owner.
(** findOwner is defined in a file that is not among the sources; its
    declaration says that it returns the owner of an id under a mapping,
    or -1 (as uint32_t) when there is none. *)
Variable findOwner : Z -> list (Z * Z) -> Z.

Definition no_owner : Z := 2 ^ 32 - 1.

(** accumulateLocalEdgesToChunks.  The accumulators are a std::map from
    chunk to a 64-bit sum; [None] is the abort of GALOIS_ASSERT. *)
Definition accumulate_body (is_void : bool) (localEdges : list Z)
    (chunkToNode : list (Z * Z)) (acc : option (gmap Z Z)) (edgeIndex : nat)
    : option (gmap Z Z) :=
  match acc with
  | None => None
  | Some chunkToAccumulator =>
      let src := edge_src is_void localEdges edgeIndex in
      let chunkNum := findOwner src chunkToNode in
      if chunkNum =? no_owner then None
      else
        Some (<[chunkNum :=
                  wrap64 (default 0 (chunkToAccumulator !! chunkNum) + 1)]>
                chunkToAccumulator)
  end.

Definition accumulateLocalEdgesToChunks (is_void : bool) (sched : list nat)
    (uniqueChunks : gset Z) (localEdges : list Z)
    (chunkToNode : list (Z * Z)) (chunkCounts : list Z) : option (list Z) :=
  let created :=
    fold_left (fun m chunkID => <[chunkID := default 0 (m !! chunkID)]> m)
              (elements uniqueChunks) (∅ : gmap Z Z) in
  match fold_left (accumulate_body is_void localEdges chunkToNode) sched
                  (Some created) with
  | None => None
  | Some chunkToAccumulator =>
      Some (fold_left
              (fun counts chunkID =>
                 <[Z.to_nat chunkID :=
                     default 0 (chunkToAccumulator !! chunkID)]> counts)
              (elements uniqueChunks) chunkCounts)
  end.

(** getChunkEdgeCounts; the exchange of the counts between the hosts
    (sendAndReceiveEdgeChunkCounts) is a parameter. *)
Definition getChunkEdgeCounts
    (sendAndReceiveEdgeChunkCounts : list Z -> list Z)
    (is_void : bool) (sched : list nat) (numNodeChunks : Z)
    (uniqueChunks : gset Z) (localEdges : list Z)
    (chunkToNode : list (Z * Z)) : option (list Z) :=
  let chunkCounts := replicate (Z.to_nat numNodeChunks) 0 in
  match accumulateLocalEdgesToChunks is_void sched uniqueChunks localEdges
                                     chunkToNode chunkCounts with
  | None => None
  | Some chunkCounts' => Some (sendAndReceiveEdgeChunkCounts chunkCounts')
  end.

(** sendEdgeCounts: the body of the do_all on the accumulators, one for
    each host, and the loop that sends a count to every other host.  The
    result lists what is sent: the receiving host and the count. *)
Definition sendEdgeCounts_body (is_void : bool) (localEdges : list Z)
    (hostToNodes : list (Z * Z)) (numEdgesPerHost : list Z) (edgeIndex : nat)
    : list Z :=
  let src := edge_src is_void localEdges edgeIndex in
  let edgeOwner := findOwner src hostToNodes in
  alter (fun c => wrap64 (c + 1)) (Z.to_nat edgeOwner) numEdgesPerHost.

Definition sendEdgeCounts (is_void : bool) (hostID totalNumHosts : nat)
    (sched : list nat) (hostToNodes : list (Z * Z)) (localEdges : list Z)
    : list (nat * Z) :=
  let numEdgesPerHost :=
    fold_left (sendEdgeCounts_body is_void localEdges hostToNodes) sched
              (replicate totalNumHosts 0) in
  fold_left
    (fun net h =>
       if decide (h = hostID) then net
       else net ++ [(h, default 0 (numEdgesPerHost !! h))])
    (seq 0 totalNumHosts) [].

(** The owner of the source of an edge, and the number of edges of a
    schedule that an owner gets. *)
Definition owner_of (is_void : bool) (localEdges : list Z)
    (mapping : list (Z * Z)) (edgeIndex : nat) : Z :=
  findOwner (edge_src is_void localEdges edgeIndex) mapping.

Definition count_owned (is_void : bool) (localEdges : list Z)
    (mapping : list (Z * Z)) (c : Z) (sched : list nat) : nat :=
  length (filter (fun edgeIndex =>
                    owner_of is_void localEdges mapping edgeIndex = c) sched).

(** The edges of which [findOwner] makes [c] the owner of the source. *)
Definition owned_by (is_void : bool) (localEdges : list Z)
    (mapping : list (Z * Z)) (c : Z) : list nat :=
  filter
    (fun edgeIndex =>
       findOwner (edge_src is_void localEdges edgeIndex) mapping = c)
    (seq 0 (localNumEdges is_void localEdges)).

End Owner.

(** An owner function for the examples: the position of the first pair of
    the mapping that holds the id, the pair taken as the range from its
    first component up to, and without, its second. *)
Fixpoint first_range (gID : Z) (mapping : list (Z * Z)) (h : Z) : Z :=
  match mapping with
  | [] => no_owner
  | (lo, hi) :: rest =>
      if (lo <=? gID) && (gID <? hi) then h
      else first_range gID rest (h + 1)
  end.

Definition owner_by_range (gID : Z) (mapping : list (Z * Z)) : Z :=
  first_range gID mapping 0.

(** Four edges with data, 0 -> 1, 2 -> 0, 1 -> 2 and 3 -> 0, and a mapping
    that gives the nodes 0 and 1 to the first owner and 2 and 3 to the
    second. *)
Definition four_edges : list Z := [0; 1; 5; 2; 0; 7; 1; 2; 4; 3; 0; 9].
Definition two_owners : list (Z * Z) := [(0, 2); (2, 4)].

(** *** getEvenNodeToHostMapping: the number of chunks and the prefix sum *)

(** uint64_t numNodeChunks = totalEdgeCount / totalNumHosts;
    while (numNodeChunks > 10000000) numNodeChunks /= 2;
    [fuel] bounds the iterations, [None]: not enough. *)
Fixpoint halve_loop (fuel : nat) (numNodeChunks : Z) : option Z :=
  if 10000000 <? numNodeChunks then
    match fuel with
    | O => None
    | S fuel' => halve_loop fuel' (numNodeChunks / 2)
    end
  else Some numNodeChunks.

Definition numNodeChunks (fuel : nat) (totalEdgeCount totalNumHosts : Z)
    : option Z :=
  halve_loop fuel (totalEdgeCount / totalNumHosts).

(** for (unsigned i = 1; i < numNodeChunks; i++)
      chunkCounts[i] += chunkCounts[i - 1];
    [n] iterations are left and the next index is [i]. *)
Fixpoint prefix_loop (n i : nat) (chunkCounts : list Z) : list Z :=
  match n with
  | O => chunkCounts
  | S n' =>
      prefix_loop n' (S i)
        (<[i := wrap64 (default 0 (chunkCounts !! i) +
                        default 0 (chunkCounts !! (i - 1)%nat))]> chunkCounts)
  end.

Definition prefix_sum (numNodeChunks : nat) (chunkCounts : list Z) : list Z :=
  prefix_loop (numNodeChunks - 1) 1 chunkCounts.

(** The exact sum of a list of counts. *)
Definition total (counts : list Z) : Z := foldr Z.add 0 counts.

(** *** sendAssignedEdges

    Modelled from the spec of the runtime, which is not among the sources:
    a SendBuffer holds what gSerialize wrote into it, here for each call
    the global source id, the vector of destinations and, for edges with
    data, the vector of data; size() is its number of bytes, a parameter;
    net.sendTagged(h, phase, buffer) adds a message for the host h to the
    network.  The two overloads (void and non-void edge data) are one
    definition; [is_void] selects the overload. *)

Abbreviation SendBuffer := (list (Z * list Z * list Z)) (only parsing).

(** The storage of one thread: for every host the destinations and the
    data collected for the last source, the send buffer, and the last
    source. *)
Record ThreadStorage := mkThreadStorage {
  dstVectors : list (list Z);
  dataVectors : list (list Z);
  sendBuffers : list SendBuffer;
  lastSourceSentStorage : list Z
}.

(** The storage of all threads, the vectors of the local nodes, and the
    messages sent, oldest first. *)
Record Pass2 := mkPass2 {
  perThread : list ThreadStorage;
  localSrcToDest : list (list Z);
  localSrcToData : list (list Z);
  net : list (Z * SendBuffer)
}.

Section SendAssigned.
Variable findOwner : Z -> list (Z * Z) -> Z.
Variable buffer_size : SendBuffer -> Z.
Variable is_void : bool.
Variable hostID : Z.
Variable hostToNodes : list (Z * Z).
Variable localEdges : list Z.

(** hostToNodes[h].first *)
Definition first_of (h : Z) : Z :=
  fst (default (0, 0) (hostToNodes !! Z.to_nat h)).

(** localEdges[(edgeIndex * 2) + 1], or localEdges[(edgeIndex * 3) + 1];
    localEdges[(edgeIndex * 3) + 2] *)
Definition edge_dst (edgeIndex : nat) : Z :=
  if is_void then default 0 (localEdges !! (edgeIndex * 2 + 1)%nat)
  else default 0 (localEdges !! (edgeIndex * 3 + 1)%nat).

Definition edge_data (edgeIndex : nat) : Z :=
  default 0 (localEdges !! (edgeIndex * 3 + 2)%nat).

(** uint32_t localID = src - hostToNodes[edgeOwner].first *)
Definition local_id (edgeIndex : nat) : Z :=
  let src := edge_src is_void localEdges edgeIndex in
  wrap32 (src - first_of (findOwner src hostToNodes)).

(** gSerialize(hostSendBuffer, globalSourceID, dstVector) and
    gSerialize(hostSendBuffer, globalSourceID, dstVector, dataVector) *)
Definition serialize (hostSendBuffer : SendBuffer) (globalSourceID : Z)
    (dstVector dataVector : list Z) : SendBuffer :=
  hostSendBuffer ++
  [(globalSourceID, dstVector, if is_void then [] else dataVector)].

(** The branch of the loop body for an edge of another host, on the
    storage of the running thread. *)
Definition remote_edge (t : ThreadStorage) (net : list (Z * SendBuffer))
    (edgeOwner localID dst edgeData : Z)
    : ThreadStorage * list (Z * SendBuffer) :=
  let h := Z.to_nat edgeOwner in
  let hostSendBuffer := default [] (sendBuffers t !! h) in
  let dstVector := default [] (dstVectors t !! h) in
  let dataVector := default [] (dataVectors t !! h) in
  let lastSourceSent := default 0 (lastSourceSentStorage t !! h) in
  if lastSourceSent =? localID then
    (mkThreadStorage
       (<[h := dstVector ++ [dst]]> (dstVectors t))
       (if is_void then dataVectors t
        else <[h := dataVector ++ [edgeData]]> (dataVectors t))
       (sendBuffers t) (lastSourceSentStorage t),
     net)
  else
    let '(hostSendBuffer', dstVector', dataVector', net') :=
      if (0 <? length dstVector)%nat then
        let globalSourceID := wrap64 (lastSourceSent + first_of edgeOwner) in
        let b := serialize hostSendBuffer globalSourceID dstVector
                           dataVector in
        if 1400 <? buffer_size b then
          ([], [], [], net ++ [(edgeOwner, b)])
        else (b, [], [], net)
      else (hostSendBuffer, dstVector, dataVector, net) in
    (mkThreadStorage
       (<[h := dstVector' ++ [dst]]> (dstVectors t))
       (if is_void then dataVectors t
        else <[h := dataVector' ++ [edgeData]]> (dataVectors t))
       (<[h := hostSendBuffer']> (sendBuffers t))
       (<[h := localID]> (lastSourceSentStorage t)),
     net').

(** The body of the do_all, run by the thread [tid] on [edgeIndex]. *)
Definition sendAssignedEdges_body (st : Pass2) (it : nat * nat) : Pass2 :=
  let '(tid, edgeIndex) := it in
  let src := edge_src is_void localEdges edgeIndex in
  let edgeOwner := findOwner src hostToNodes in
  let dst := edge_dst edgeIndex in
  let localID := local_id edgeIndex in
  let edgeData := edge_data edgeIndex in
  if negb (edgeOwner =? hostID) then
    match perThread st !! tid with
    | None => st
    | Some t =>
        let '(t', net') :=
          remote_edge t (net st) edgeOwner localID dst edgeData in
        mkPass2 (<[tid := t']> (perThread st)) (localSrcToDest st)
                (localSrcToData st) net'
    end
  else
    mkPass2 (perThread st)
      (alter (fun v => v ++ [dst]) (Z.to_nat localID) (localSrcToDest st))
      (if is_void then localSrcToData st
       else alter (fun v => v ++ [edgeData]) (Z.to_nat localID)
                  (localSrcToData st))
      (net st).

(** The cleanup of one thread for the host [h]. *)
Definition cleanup_host (acc : ThreadStorage * list (Z * SendBuffer))
    (h : nat) : ThreadStorage * list (Z * SendBuffer) :=
  let '(t, net) := acc in
  if Z.of_nat h =? hostID then acc
  else
    let hostSendBuffer := default [] (sendBuffers t !! h) in
    let dstVector := default [] (dstVectors t !! h) in
    let dataVector := default [] (dataVectors t !! h) in
    let lastSourceSent := default 0 (lastSourceSentStorage t !! h) in
    let '(hostSendBuffer1, dstVector1, dataVector1) :=
      if (0 <? length dstVector)%nat then
        (serialize hostSendBuffer
                   (wrap64 (lastSourceSent + first_of (Z.of_nat h)))
                   dstVector dataVector,
         [], [])
      else (hostSendBuffer, dstVector, dataVector) in
    let '(hostSendBuffer2, net2) :=
      if 0 <? buffer_size hostSendBuffer1 then
        ([], net ++ [(Z.of_nat h, hostSendBuffer1)])
      else (hostSendBuffer1, net) in
    (mkThreadStorage
       (<[h := dstVector1]> (dstVectors t))
       (if is_void then dataVectors t
        else <[h := dataVector1]> (dataVectors t))
       (<[h := hostSendBuffer2]> (sendBuffers t))
       (lastSourceSentStorage t),
     net2).

Definition cleanup_thread (totalNumHosts : nat) (st : Pass2) (tid : nat)
    : Pass2 :=
  match perThread st !! tid with
  | None => st
  | Some t =>
      let '(t', net') :=
        fold_left cleanup_host (seq 0 totalNumHosts) (t, net st) in
      mkPass2 (<[tid := t']> (perThread st)) (localSrcToDest st)
              (localSrcToData st) net'
  end.

(** sendAssignedEdges with [numThreads] threads: the do_all runs the body
    in the order [sched], and the threads clean up in the order [order].
    [None] is the abort of GALOIS_ASSERT(localSrcToData.empty()) in the
    overload for edges with data. *)
Definition sendAssignedEdges (numThreads totalNumHosts : nat)
    (sched : list (nat * nat)) (order : list nat)
    (localSrcToDest0 localSrcToData0 : list (list Z)) : option Pass2 :=
  if negb is_void && negb (bool_decide (localSrcToData0 = [])) then None
  else
    let storage :=
      mkThreadStorage (replicate totalNumHosts []) (replicate totalNumHosts [])
                      (replicate totalNumHosts [])
                      (replicate totalNumHosts 0) in
    let st0 :=
      mkPass2 (replicate numThreads storage) localSrcToDest0
              (if is_void then localSrcToData0
               else replicate (length localSrcToDest0) [])
              [] in
    let st1 := fold_left sendAssignedEdges_body sched st0 in
    Some (fold_left (cleanup_thread totalNumHosts) order st1).

(** The edges that a buffer holds, the edge at an index of the vector,
    and the edges that the messages for the host [h] hold, oldest first. *)
Definition record_edges (r : Z * list Z * list Z) : list (Z * Z * Z) :=
  let '(g, dsts, datas) := r in
  if is_void then map (fun d => (g, d, 0)) dsts
  else zip_with (fun d x => (g, d, x)) dsts datas.

Definition buffer_edges (b : SendBuffer) : list (Z * Z * Z) :=
  flat_map record_edges b.

Definition edge_of (edgeIndex : nat) : Z * Z * Z :=
  (edge_src is_void localEdges edgeIndex, edge_dst edgeIndex,
   if is_void then 0 else edge_data edgeIndex).

Definition received_by (h : Z) (net : list (Z * SendBuffer))
    : list (Z * Z * Z) :=
  flat_map (fun m => if fst m =? h then buffer_edges (snd m) else []) net.

(** What a thread still holds for the host [h]: its send buffer, then
    the vectors of the last source. *)
Definition held (t : ThreadStorage) (h : nat) : list (Z * Z * Z) :=
  buffer_edges (default [] (sendBuffers t !! h)) ++
  record_edges
    (wrap64 (default 0 (lastSourceSentStorage t !! h) +
             first_of (Z.of_nat h)),
     default [] (dstVectors t !! h),
     default [] (dataVectors t !! h)).

(** The shape of the storage of a thread: one entry for each host, and
    in the overload for edges with data as many data as destinations. *)
Definition storage_ok (totalNumHosts : nat) (t : ThreadStorage) : Prop :=
  length (dstVectors t) = totalNumHosts /\
  length (dataVectors t) = totalNumHosts /\
  length (sendBuffers t) = totalNumHosts /\
  length (lastSourceSentStorage t) = totalNumHosts /\
  (is_void = false ->
   forall h, length (default [] (dataVectors t !! h)) =
             length (default [] (dstVectors t !! h))).

(** The edges of the host itself with the local id [lid], in the order of
    a schedule. *)
Definition kept (lid : nat) (sched : list (nat * nat)) : list nat :=
  filter (fun edgeIndex =>
            findOwner (edge_src is_void localEdges edgeIndex) hostToNodes
              = hostID /\
            Z.to_nat (local_id edgeIndex) = lid)
         (map snd sched).

End SendAssigned.

(** A size for the examples: 16 bytes for each serialized source. *)
Definition sixteen_each (b : SendBuffer) : Z := 16 * Z.of_nat (length b).

End DistGraphConvert.

(** ** Well-formed inputs *)

(** Every stored distance is a 32-bit value; DIST_INFINITY is the largest. *)
Definition dist_in_range (d : list Dist) : Prop :=
  Forall (fun x => 0 <= x <= DIST_INFINITY) d.

(** Edges as the loader delivers them: destinations among the [n] nodes
    of the graph, 32-bit unsigned weights. *)
Definition edges_ok (n : nat) (es : list Edge) : Prop :=
  Forall (fun e => (fst e < n)%nat /\ 0 <= snd e < 2 ^ 32) es.

Definition wf_graph (g : Topology) : Prop :=
  Forall (edges_ok (length g)) g.

(** The largest edge weight, and the inputs on which no sum of a distance
    and a weight can leave the 32-bit range: a path without repeated
    vertices has fewer edges than the graph has nodes. *)
Definition max_weight (g : Topology) : Z :=
  fold_right Z.max 0 (map snd (concat g)).

Definition no_overflow (g : Topology) : Prop :=
  Z.of_nat (length g) * max_weight g < 2 ^ 32.

(** ** Shortest distances as the fixed point of relaxation *)

(** The edge [e] out of [u] cannot be relaxed, in the arithmetic of the
    code. *)
Definition closed_edge (d : list Dist) (u : GNode) (e : Edge) : Prop :=
  getDist d (fst e) <= wrap32 (getDist d u + snd e).

(** [Path g src d v a vs]: a path from [src] to [v] of exact length [a]
    through the vertices [vs] (latest first, [v] excluded), without
    repeated vertices, and such that every vertex it leaves is, under
    [d], at most as far from the source as along the path. *)
Inductive Path (g : Topology) (src : GNode) (d : list Dist)
    : GNode -> Z -> list GNode -> Prop :=
| Path_nil : Path g src d src 0 []
| Path_snoc (u v : GNode) (w a : Z) (vs : list GNode) :
    Path g src d u a vs ->
    (v, w) ∈ out_edges g u ->
    getDist d u <= a ->
    v ∉ u :: vs ->
    Path g src d v (a + w) (u :: vs).

Definition realized (g : Topology) (src : GNode) (d : list Dist)
    (v : GNode) (a : Z) : Prop :=
  exists vs, Path g src d v a vs.

(** [SimplePath g src v a vs]: edges of [g] lead from [src] to [v] along a
    path of exact length [a] through the vertices [vs] (latest first, [v]
    excluded), without repeated vertices. *)
Inductive SimplePath (g : Topology) (src : GNode)
    : GNode -> Z -> list GNode -> Prop :=
| SimplePath_nil : SimplePath g src src 0 []
| SimplePath_snoc (u v : GNode) (w a : Z) (vs : list GNode) :
    SimplePath g src u a vs ->
    (v, w) ∈ out_edges g u ->
    v ∉ u :: vs ->
    SimplePath g src v (a + w) (u :: vs).

(** The inputs on which no sum that relaxation from [src] can form leaves
    the 32-bit range: the length of a path without repeated vertices from
    the source, plus the weight of an edge that leaves its end.  The spec
    asks as much of the inputs ("inputs are validated to keep sum < INF"). *)
Definition sums_fit (g : Topology) (src : GNode) : Prop :=
  forall u a vs e,
    SimplePath g src u a vs -> e ∈ out_edges g u -> a + snd e < 2 ^ 32.

(** A distance array that relaxation cannot change any more: the source
    at 0, every finite distance the length of a path from the source, and
    no edge out of a reached vertex relaxable. *)
Record Solution (g : Topology) (src : GNode) (d : list Dist) : Prop := {
  sol_length : length d = length g;
  sol_range : dist_in_range d;
  sol_source : getDist d src = 0;
  sol_realized :
    forall v, getDist d v <> DIST_INFINITY -> realized g src d v (getDist d v);
  sol_closed :
    forall u e, getDist d u <> DIST_INFINITY -> e ∈ out_edges g u ->
                closed_edge d u e
}.

(** *** The invariant of the AsyncAlgo work list

    Every request was pushed with a finite distance; a running operator
    scans out-edges of its node; and every edge out of a reached vertex
    [u] is either not relaxable, or waits for a pending request that
    carries the current dist[u], or is still to be scanned by a running
    operator whose request carries the current dist[u]. *)
Definition AsyncAlgo_covered (r : AsyncAlgo.Run) (u : GNode) (e : Edge)
    : Prop :=
  let d := dist (AsyncAlgo.mem r) in
  closed_edge d u e \/
  mkReq u (getDist d u) ∈ AsyncAlgo.wl r \/
  exists rest, (mkReq u (getDist d u), rest) ∈ AsyncAlgo.tasks r /\ e ∈ rest.

Record AsyncAlgo_Inv (g : Topology) (src : GNode) (r : AsyncAlgo.Run)
    : Prop := {
  aa_length : length (dist (AsyncAlgo.mem r)) = length g;
  aa_range : dist_in_range (dist (AsyncAlgo.mem r));
  aa_source : getDist (dist (AsyncAlgo.mem r)) src = 0;
  aa_realized :
    forall v, getDist (dist (AsyncAlgo.mem r)) v <> DIST_INFINITY ->
              realized g src (dist (AsyncAlgo.mem r)) v
                       (getDist (dist (AsyncAlgo.mem r)) v);
  aa_wl : forall q, q ∈ AsyncAlgo.wl r -> req_w q <> DIST_INFINITY;
  aa_tasks :
    forall q rest, (q, rest) ∈ AsyncAlgo.tasks r ->
      req_w q <> DIST_INFINITY /\
      forall e, e ∈ rest -> e ∈ out_edges g (req_n q);
  aa_covered :
    forall u e, getDist (dist (AsyncAlgo.mem r)) u <> DIST_INFINITY ->
                e ∈ out_edges g u -> AsyncAlgo_covered r u e
}.

(** *** The invariant of the AsyncSetAlgo work list

    Pending and running nodes are reached; flags are set only with a
    work-set, and a node whose flag is set is pending; every edge out of a reached vertex [u] is
    either not relaxable, or [u] is pending, or a running operator on [u]
    has still to scan it. *)
Definition AsyncSetAlgo_covered (r : AsyncSetAlgo.Run) (u : GNode) (e : Edge)
    : Prop :=
  closed_edge (dist (AsyncSetAlgo.mem r)) u e \/
  u ∈ AsyncSetAlgo.wl r \/
  exists rest, (u, rest) ∈ AsyncSetAlgo.tasks r /\ e ∈ rest.

Record AsyncSetAlgo_Inv (workSet : bool) (g : Topology) (src : GNode)
    (r : AsyncSetAlgo.Run) : Prop := {
  as_length : length (dist (AsyncSetAlgo.mem r)) = length g;
  as_range : dist_in_range (dist (AsyncSetAlgo.mem r));
  as_source : getDist (dist (AsyncSetAlgo.mem r)) src = 0;
  as_realized :
    forall v, getDist (dist (AsyncSetAlgo.mem r)) v <> DIST_INFINITY ->
              realized g src (dist (AsyncSetAlgo.mem r)) v
                       (getDist (dist (AsyncSetAlgo.mem r)) v);
  as_wl :
    forall u, u ∈ AsyncSetAlgo.wl r ->
              getDist (dist (AsyncSetAlgo.mem r)) u <> DIST_INFINITY;
  as_tasks :
    forall u rest, (u, rest) ∈ AsyncSetAlgo.tasks r ->
      getDist (dist (AsyncSetAlgo.mem r)) u <> DIST_INFINITY /\
      forall e, e ∈ rest -> e ∈ out_edges g u;
  as_inSet :
    forall u, AsyncSetAlgo.inSet r !! u = Some true ->
              workSet = true /\ u ∈ AsyncSetAlgo.wl r;
  as_covered :
    forall u e, getDist (dist (AsyncSetAlgo.mem r)) u <> DIST_INFINITY ->
                e ∈ out_edges g u -> AsyncSetAlgo_covered r u e
}.

(** *** The invariant of the serial loop

    Every request in the set proposes the length of a path; the source is
    at 0 or its request is in the set; every edge out of a reached vertex
    is either not relaxable, or a request in the set proposes for its
    destination no more than what relaxing it would give. *)
Record SerialAlgo_Inv (g : Topology) (src : GNode) (d : list Dist)
    (initial : list UpdateRequest) : Prop := {
  sa_length : length d = length g;
  sa_range : dist_in_range d;
  sa_source : getDist d src = 0 \/ mkReq src 0 ∈ initial;
  sa_realized :
    forall v, getDist d v <> DIST_INFINITY -> realized g src d v (getDist d v);
  sa_requests :
    forall q, q ∈ initial ->
              req_w q < DIST_INFINITY /\ realized g src d (req_n q) (req_w q);
  sa_covered :
    forall u e, getDist d u <> DIST_INFINITY -> e ∈ out_edges g u ->
      closed_edge d u e \/
      exists q, q ∈ initial /\ req_n q = fst e /\
                req_w q <= wrap32 (getDist d u + snd e)
}.

(** The measure that bounds the iterations of the serial loop. *)
Definition sum_dist (d : list Dist) : Z := fold_right Z.add 0 d.

Definition serial_measure (g : Topology) (d : list Dist)
    (initial : list UpdateRequest) : Z :=
  sum_dist d * (Z.of_nat (length (concat g)) + 1) +
  Z.of_nat (length initial).

(** The measures that every step of a work list lowers: an improving
    relaxation lowers the sum of the distances, a pending item will cost
    a scan of at most all edges, a running operator what is left of its
    scan. *)
Definition tasks_cost {A : Type} (ts : list (A * list Edge)) : Z :=
  fold_right (fun t acc => Z.of_nat (length (snd t)) + 1 + acc) 0 ts.

Definition AsyncAlgo_measure (g : Topology) (r : AsyncAlgo.Run) : Z :=
  sum_dist (dist (AsyncAlgo.mem r)) * (Z.of_nat (length (concat g)) + 3) +
  (Z.of_nat (length (concat g)) + 2) * Z.of_nat (length (AsyncAlgo.wl r)) +
  tasks_cost (AsyncAlgo.tasks r).

Definition AsyncSetAlgo_measure (g : Topology) (r : AsyncSetAlgo.Run) : Z :=
  sum_dist (dist (AsyncSetAlgo.mem r)) * (Z.of_nat (length (concat g)) + 3) +
  (Z.of_nat (length (concat g)) + 2) *
    Z.of_nat (length (AsyncSetAlgo.wl r)) +
  tasks_cost (AsyncSetAlgo.tasks r).

(** ** The calls that wait in the seeding do_all

    What a call on the edge [e] out of the source, at distance 0, holds
    between its test and its store when the node data are [st]. *)
Definition seed_waits (st : State) (e : Edge) : GNode * Dist * Dist :=
  (fst e, wrap32 (0 + snd e), getDist (dist st) (fst e)).

(** ** The order of the states of a run

    [later st st']: the same nodes, no distance raised, no counter
    lowered. *)
Definition later (st st' : State) : Prop :=
  length (dist st') = length (dist st) /\
  (forall n, getDist (dist st') n <= getDist (dist st) n) /\
  (BadWork st <= BadWork st')%nat /\
  (WLEmptyWork st <= WLEmptyWork st')%nat.

(** ** Walks

    [Walk g src v a]: edges of [g] lead from [src] to [v] along a walk of
    total weight [a], the exact sum of the weights. *)
Inductive Walk (g : Topology) (src : GNode) : GNode -> Z -> Prop :=
| Walk_nil : Walk g src src 0
| Walk_snoc (u v : GNode) (w a : Z) :
    Walk g src u a -> (v, w) ∈ out_edges g u -> Walk g src v (a + w).

(** What a distance array has to be for the source [src]: no entry above
    the weight of a walk from the source, and every entry that is not
    DIST_INFINITY the weight of one. *)
Definition shortest (g : Topology) (src : GNode) (d : list Dist) : Prop :=
  (forall v a, Walk g src v a -> getDist d v <= a) /\
  (forall v, getDist d v <> DIST_INFINITY -> Walk g src v (getDist d v)).

(** ** Concrete inputs for the examples *)

(** Two nodes, the second reached with distance 9, or not reached. *)
Definition st_reached : State := mkState [0; 9] 0 0.
Definition st_unreached : State := mkState [0; DIST_INFINITY] 0 0.

(** Three nodes with distances 0, 10 and 100. *)
Definition st_three : State := mkState [0; 10; 100] 0 0.

(** Node 0 has distance 10 and one out-edge of weight 1 to node 1, which
    has distance 2. *)
Definition g_pull : Topology := [[(1%nat, 1)]; []].
Definition st_pull : State := mkState [10; 2] 0 0.

(** Node 1 at distance 5 has an edge of weight 2^32 - 3 to node 2 at
    distance 7. *)
Definition g_wrap : Topology := [[]; [(2%nat, 2 ^ 32 - 3)]; []].
Definition d_wrap : list Dist := [0; 5; 7].

(** The "disconnected" scenario of the spec: edges 0 -> 1 (5) and
    2 -> 3 (1), source 0, and the distances expected for it. *)
Definition g_disconnected : Topology := [[(1%nat, 5)]; []; [(3%nat, 1)]; []].
Definition d_disconnected : list Dist :=
  [0; 5; DIST_INFINITY; DIST_INFINITY].

(** The "source only" scenario of the spec, one vertex and no edge, with
    delta = -1 on the command line; and a start node that the
    disconnected graph does not have. *)
Definition g_single : Topology := [[]].
Definition cfg_negative_delta : Config := mkConfig 0 0 (-1) false.
Definition cfg_bad_start : Config := mkConfig 5 1 10 false.

(** The "multiple paths" scenario of the spec. *)
Definition g_paths : Topology :=
  [[(1%nat, 1); (2%nat, 4)]; [(2%nat, 2); (3%nat, 5)]; [(3%nat, 1)]; []].

(** The distances of [g_paths] from node 0, and a valid command line for
    it. *)
Definition d_paths : list Dist := [0; 1; 3; 4].
Definition cfg_paths : Config := mkConfig 0 3 10 false.

(** A directed graph: edges 0 -> 1 (1), 0 -> 2 (100), 2 -> 1 (5) and
    2 -> 3 (1); node 3 is at distance 101 from node 0.  [st_directed] is
    the node data once the edges of the source 0 are relaxed. *)
Definition g_directed : Topology :=
  [[(1%nat, 1); (2%nat, 100)]; []; [(1%nat, 5); (3%nat, 1)]; []].
Definition st_directed : State := mkState [0; 1; 100; DIST_INFINITY] 0 0.

(** Four nodes, all reached. *)
Definition st_four : State := mkState [7; 7; 7; 7] 0 0.

(** Node 1 is reached first at distance 5 and later at distance 2, and
    its edge to node 3 weighs 2^32 - 3: the 32-bit sum is 2 from the first
    distance and DIST_INFINITY from the second. *)
Definition g_order : Topology :=
  [[(1%nat, 5); (2%nat, 1)]; [(3%nat, 2 ^ 32 - 3)]; [(1%nat, 1)]; []].

(** Two schedules for the work list on [g_order]: the pending requests in
    the order of their arrival, and the request of node 2 first. *)
Definition sched_fifo : list AsyncAlgo.Choice :=
  [AsyncAlgo.Pop 0; AsyncAlgo.Iter 0 0; AsyncAlgo.Iter 0 0;
   AsyncAlgo.Pop 0; AsyncAlgo.Iter 0 0; AsyncAlgo.Iter 0 0;
   AsyncAlgo.Pop 0; AsyncAlgo.Iter 0 0;
   AsyncAlgo.Pop 0; AsyncAlgo.Iter 0 0; AsyncAlgo.Iter 0 0].

Definition sched_near_first : list AsyncAlgo.Choice :=
  [AsyncAlgo.Pop 1; AsyncAlgo.Iter 0 0; AsyncAlgo.Iter 0 0;
   AsyncAlgo.Pop 0; AsyncAlgo.Pop 0; AsyncAlgo.Iter 0 0; AsyncAlgo.Iter 0 0].

(** A schedule for the work list on [g_paths]. *)
Definition sched_paths : list AsyncAlgo.Choice :=
  [AsyncAlgo.Pop 0; AsyncAlgo.Iter 0 0; AsyncAlgo.Iter 0 0; AsyncAlgo.Iter 0 0;
   AsyncAlgo.Pop 0;
   AsyncAlgo.Pop 0; AsyncAlgo.Iter 0 0; AsyncAlgo.Iter 0 0;
   AsyncAlgo.Pop 0;
   AsyncAlgo.Pop 0; AsyncAlgo.Iter 0 0].

(** The do_all over the out-edges of node 0 of [g_order] and of
    [g_paths], the calls in the order of the edges. *)
Definition seed_order : list AsyncAlgo.SeedEvent :=
  [AsyncAlgo.Call (1%nat, 5) 0; AsyncAlgo.Call (2%nat, 1) 0].

Definition seed_paths : list AsyncAlgo.SeedEvent :=
  [AsyncAlgo.Call (1%nat, 1) 0; AsyncAlgo.Call (2%nat, 4) 0].

(** The same do_all on [g_paths] for AsyncSetAlgo without CAS: each call
    stores before the next one starts. *)
Definition seed_set_paths : list AsyncSetAlgo.SeedEvent :=
  [AsyncSetAlgo.Call (1%nat, 1); AsyncSetAlgo.Store 0;
   AsyncSetAlgo.Call (2%nat, 4); AsyncSetAlgo.Store 0].

(** The do_all on [g_paths] without CAS when the two calls overlap: both
    load before either stores, and the second call stores first. *)
Definition seed_paths_overlap : list AsyncAlgo.SeedEvent :=
  [AsyncAlgo.Call (1%nat, 1) 0; AsyncAlgo.Call (2%nat, 4) 0;
   AsyncAlgo.Store 1; AsyncAlgo.Store 0].

(** A schedule of the work list of AsyncAlgo on [g_paths] after
    [seed_paths_overlap], which leaves the request for node 2 before the
    one for node 1: as [sched_paths], the request for node 1 first. *)
Definition sched_paths_overlap : list AsyncAlgo.Choice :=
  [AsyncAlgo.Pop 1; AsyncAlgo.Iter 0 0; AsyncAlgo.Iter 0 0; AsyncAlgo.Iter 0 0;
   AsyncAlgo.Pop 0;
   AsyncAlgo.Pop 0; AsyncAlgo.Iter 0 0; AsyncAlgo.Iter 0 0;
   AsyncAlgo.Pop 0;
   AsyncAlgo.Pop 0; AsyncAlgo.Iter 0 0].

(** Two parallel edges from node 0 to node 1, of weights 7 and 3, and two
    runs of the do_all without CAS on them: the calls one after the
    other, and both calls loading dist[1] before either stores, the call
    on the lighter edge storing first. *)
Definition g_parallel : Topology := [[(1%nat, 7); (1%nat, 3)]; []].

Definition seed_parallel_in_turn : list AsyncAlgo.SeedEvent :=
  [AsyncAlgo.Call (1%nat, 7) 0; AsyncAlgo.Store 0;
   AsyncAlgo.Call (1%nat, 3) 0; AsyncAlgo.Store 0].

Definition seed_parallel_race : list AsyncAlgo.SeedEvent :=
  [AsyncAlgo.Call (1%nat, 7) 0; AsyncAlgo.Call (1%nat, 3) 0;
   AsyncAlgo.Store 1; AsyncAlgo.Store 0].

(** A schedule of the work list of AsyncAlgo on [g_parallel]: the two
    requests in the order of their arrival, each operator run to its
    end. *)
Definition sched_parallel : list AsyncAlgo.Choice :=
  [AsyncAlgo.Pop 0; AsyncAlgo.Pop 0; AsyncAlgo.Iter 0 0].

Definition cfg_parallel : Config := mkConfig 0 1 10 false.

(** A schedule for the work list of AsyncSetAlgo on [g_paths], behind a
    work-set. *)
Definition sched_set_paths : list AsyncSetAlgo.Choice :=
  [AsyncSetAlgo.Pop 0; AsyncSetAlgo.Iter 0; AsyncSetAlgo.Iter 0;
   AsyncSetAlgo.Iter 0;
   AsyncSetAlgo.Pop 0; AsyncSetAlgo.Iter 0; AsyncSetAlgo.Iter 0;
   AsyncSetAlgo.Pop 0; AsyncSetAlgo.Iter 0].

(** * Properties *)

(** ** Reading and writing the distance array *)

Lemma getDist_insert_eq (d : list Dist) (n : GNode) (x : Dist) :
  (n < length d)%nat -> getDist (<[n := x]> d) n = x.
Proof.
  intros Hn. unfold getDist. by rewrite list_lookup_insert_eq.
Qed.

Lemma getDist_insert_ne (d : list Dist) (n m : GNode) (x : Dist) :
  n <> m -> getDist (<[n := x]> d) m = getDist d m.
Proof.
  intros Hne. unfold getDist. by rewrite list_lookup_insert_ne.
Qed.

Lemma getDist_insert_le (d : list Dist) (n m : GNode) (x : Dist) :
  x <= getDist d n -> getDist (<[n := x]> d) m <= getDist d m.
Proof.
  intros Hx. destruct (decide (n = m)) as [->|Hne].
  - destruct (decide (m < length d)%nat) as [Hlt|Hge].
    + by rewrite getDist_insert_eq.
    + rewrite list_insert_ge by lia. lia.
  - rewrite getDist_insert_ne by done. lia.
Qed.

Lemma dist_track_bad (old : Dist) (st : State) :
  dist (track_bad old st) = dist st.
Proof. unfold track_bad. by destruct (old =? DIST_INFINITY). Qed.

Lemma wrap32_small (x : Z) : 0 <= x < 2 ^ 32 -> wrap32 x = x.
Proof. intros H. unfold wrap32. by apply Z.mod_small. Qed.

Lemma wrap32_range (x : Z) : 0 <= wrap32 x < 2 ^ 32.
Proof. unfold wrap32. apply Z.mod_pos_bound. lia. Qed.

Lemma wrap32_once (x : Z) :
  2 ^ 32 <= x < 2 ^ 33 -> wrap32 x = x - 2 ^ 32.
Proof.
  intros H. unfold wrap32.
  rewrite <- (Z.mod_small (x - 2 ^ 32) (2 ^ 32)) by lia.
  replace x with (x - 2 ^ 32 + 1 * 2 ^ 32) at 1 by lia.
  apply Z.mod_add. lia.
Qed.

(** ** relaxEdge *)

(** The spurious failures of the weak compare-and-swap do not show in the
    result, and neither does UseCas. *)
Lemma AsyncAlgo_relaxEdge_while_eq (UseCas : bool) (spurious : nat)
    (st : State) (dst : GNode) (newDist : Dist) (pusher : list UpdateRequest) :
  AsyncAlgo.relaxEdge_while UseCas spurious st dst newDist pusher =
  if newDist <? getDist (dist st) dst then
    (track_bad (getDist (dist st) dst) (set_dist st dst newDist),
     pusher ++ [mkReq dst newDist])
  else (st, pusher).
Proof.
  induction spurious as [|k IH]; simpl.
  - destruct (newDist <? _); [by destruct UseCas | done].
  - destruct (newDist <? getDist (dist st) dst) eqn:Hlt; [|done].
    destruct UseCas; [|done]. exact IH.
Qed.

Lemma AsyncAlgo_relaxEdge_eq (UseCas : bool) (spurious : nat)
    (st : State) (sdist : Dist) (ii : Edge) (pusher : list UpdateRequest) :
  AsyncAlgo.relaxEdge UseCas spurious st sdist ii pusher =
  if wrap32 (sdist + snd ii) <? getDist (dist st) (fst ii) then
    (track_bad (getDist (dist st) (fst ii))
               (set_dist st (fst ii) (wrap32 (sdist + snd ii))),
     pusher ++ [mkReq (fst ii) (wrap32 (sdist + snd ii))])
  else (st, pusher).
Proof. unfold AsyncAlgo.relaxEdge. apply AsyncAlgo_relaxEdge_while_eq. Qed.

Lemma AsyncSetAlgo_relaxEdge_eq (UseCas : bool)
    (st : State) (sdata : GNode) (ii : Edge) (pusher : list GNode) :
  AsyncSetAlgo.relaxEdge UseCas st sdata ii pusher =
  if wrap32 (getDist (dist st) sdata + snd ii) <? getDist (dist st) (fst ii)
  then
    (track_bad (getDist (dist st) (fst ii))
               (set_dist st (fst ii)
                         (wrap32 (getDist (dist st) sdata + snd ii))),
     pusher ++ [fst ii])
  else (st, pusher).
Proof. unfold AsyncSetAlgo.relaxEdge. by destruct UseCas. Qed.

Lemma AsyncAlgoPP_relaxEdge_do_eq (spurious : nat) (st : State) (dst : GNode)
    (newDist oldDist : Dist) (pusher : list UpdateRequest) :
  newDist < getDist (dist st) dst ->
  oldDist = getDist (dist st) dst ->
  AsyncAlgoPP.relaxEdge_do spurious st dst newDist oldDist pusher =
  (track_bad oldDist (set_dist st dst newDist), pusher ++ [mkReq dst newDist]).
Proof.
  intros Hlt ->. induction spurious as [|k IH];
    cbn [AsyncAlgoPP.relaxEdge_do]; [done|].
  cbv zeta. apply Z.ltb_lt in Hlt. by rewrite Hlt, IH.
Qed.

Lemma AsyncAlgoPP_relaxEdge_eq (spurious : nat) (st : State) (sdata : Dist)
    (ii : Edge) (pusher : list UpdateRequest) :
  AsyncAlgoPP.relaxEdge spurious st sdata ii pusher =
  if wrap32 (sdata + snd ii) <? getDist (dist st) (fst ii) then
    (track_bad (getDist (dist st) (fst ii))
               (set_dist st (fst ii) (wrap32 (sdata + snd ii))),
     sdata,
     pusher ++ [mkReq (fst ii) (wrap32 (sdata + snd ii))])
  else
    (st, Z.min (wrap32 (getDist (dist st) (fst ii) + snd ii)) sdata, pusher).
Proof.
  unfold AsyncAlgoPP.relaxEdge.
  destruct (wrap32 (sdata + snd ii) <? getDist (dist st) (fst ii)) eqn:Hlt;
    [|done].
  rewrite AsyncAlgoPP_relaxEdge_do_eq; [done| by apply Z.ltb_lt |done].
Qed.

(** C2, as the spec has it, fails when the sum does not fit in 32 bits:
    node 1 is at distance 10, node 2 at distance 100, and the edge from 1
    to 2 has the 32-bit weight 2^32 - 5.  With newDist = dist[1] + w the
    claim's case newDist >= dist[2] applies, yet relaxEdge, with or without
    CAS, in the request-carrying and in the set variant, lowers dist[2] to
    5 and pushes a request for node 2. *)
Lemma relaxEdge_exact_sum_counterexample :
  0 <= 2 ^ 32 - 5 < 2 ^ 32 /\
  getDist (dist st_three) 2 <= getDist (dist st_three) 1 + (2 ^ 32 - 5) /\
  (forall UseCas spurious,
     AsyncAlgo.relaxEdge UseCas spurious st_three (getDist (dist st_three) 1)
       (2%nat, 2 ^ 32 - 5) [] =
     (mkState [0; 10; 5] 1 0, [mkReq 2 5])) /\
  (forall UseCas,
     AsyncSetAlgo.relaxEdge UseCas st_three 1 (2%nat, 2 ^ 32 - 5) [] =
     (mkState [0; 10; 5] 1 0, [2%nat])) /\
  getDist [0; 10; 5] 2 < getDist (dist st_three) 2.
Proof.
  split; [lia|]. split; [by vm_compute|]. split; [|split].
  - intros UseCas spurious. rewrite AsyncAlgo_relaxEdge_eq. by vm_compute.
  - intros UseCas. rewrite AsyncSetAlgo_relaxEdge_eq. by vm_compute.
  - by vm_compute.
Qed.

(** C2, amended.  relaxEdge on an edge (v -> u, w), in the variant that
    carries the proposed distance and in the set variant: with newDist the
    unsigned 32-bit sum (dist[v] + w) mod 2^32 that the code computes (the
    sum itself when it fits), if newDist >= dist[u] nothing changes and
    nothing is pushed; if newDist < dist[u] then dist[u] becomes newDist
    and exactly one request for u is pushed, carrying newDist, or the bare
    node in the set variant; no distance increases. *)
Theorem relaxEdge_effect (UseCas : bool) (spurious : nat) (st : State)
    (v u : GNode) (w : Dist)
    (pusher : list UpdateRequest) (pusherS : list GNode) :
  (u < length (dist st))%nat ->
  let newDist := wrap32 (getDist (dist st) v + w) in
  let r := AsyncAlgo.relaxEdge UseCas spurious st (getDist (dist st) v)
                               (u, w) pusher in
  let rS := AsyncSetAlgo.relaxEdge UseCas st v (u, w) pusherS in
  (0 <= getDist (dist st) v + w < 2 ^ 32 ->
     newDist = getDist (dist st) v + w) /\
  (getDist (dist st) u <= newDist -> r = (st, pusher) /\ rS = (st, pusherS)) /\
  (newDist < getDist (dist st) u ->
     dist (fst r) = <[u := newDist]> (dist st) /\
     getDist (dist (fst r)) u = newDist /\
     snd r = pusher ++ [mkReq u newDist] /\
     dist (fst rS) = <[u := newDist]> (dist st) /\
     getDist (dist (fst rS)) u = newDist /\
     snd rS = pusherS ++ [u]) /\
  (forall x, getDist (dist (fst r)) x <= getDist (dist st) x /\
             getDist (dist (fst rS)) x <= getDist (dist st) x).
Proof.
  intros Hu newDist r rS. subst r rS.
  rewrite AsyncAlgo_relaxEdge_eq, AsyncSetAlgo_relaxEdge_eq. simpl.
  fold newDist. split; [apply wrap32_small|].
  destruct (newDist <? getDist (dist st) u) eqn:Hlt.
  - apply Z.ltb_lt in Hlt. split; [lia|]. split.
    + intros _. simpl. rewrite !dist_track_bad. simpl.
      by rewrite getDist_insert_eq.
    + intros x. simpl. rewrite !dist_track_bad. simpl.
      split; apply getDist_insert_le; lia.
  - apply Z.ltb_ge in Hlt. split; [done|]. split; [lia|].
    intros x. simpl. lia.
Qed.

Lemma relaxEdge_effect_witness :
  (1 < length (dist st_reached))%nat /\
  snd (AsyncAlgo.relaxEdge true 2 st_reached (getDist (dist st_reached) 0)
                           (1%nat, 4) []) = [mkReq 1 4].
Proof.
  split; [simpl; lia|].
  destruct (relaxEdge_effect true 2 st_reached 0 1 4 [] [])
    as (_ & _ & H & _); [simpl; lia|].
  destruct H as (_ & _ & H & _); [by vm_compute|].
  exact H.
Defined.

(** C8.  When relaxEdge succeeds in lowering dist[u], BadWork grows by
    exactly one if the value it overwrote was not DIST_INFINITY and stays
    as it is if that value was DIST_INFINITY; a call that does not relax
    leaves the counter alone. *)
Theorem BadWork_counts_overwritten_finite (UseCas : bool) (spurious : nat)
    (st : State) (v u : GNode) (w sdata : Dist)
    (pusher : list UpdateRequest) (pusherS : list GNode) :
  let old := getDist (dist st) u in
  let r := AsyncAlgo.relaxEdge UseCas spurious st (getDist (dist st) v)
                               (u, w) pusher in
  let rS := AsyncSetAlgo.relaxEdge UseCas st v (u, w) pusherS in
  let rP := AsyncAlgoPP.relaxEdge spurious st sdata (u, w) pusher in
  (wrap32 (getDist (dist st) v + w) < old ->
     (old <> DIST_INFINITY ->
        BadWork (fst r) = S (BadWork st) /\
        BadWork (fst rS) = S (BadWork st)) /\
     (old = DIST_INFINITY ->
        BadWork (fst r) = BadWork st /\ BadWork (fst rS) = BadWork st)) /\
  (old <= wrap32 (getDist (dist st) v + w) ->
     BadWork (fst r) = BadWork st /\ BadWork (fst rS) = BadWork st) /\
  (wrap32 (sdata + w) < old ->
     (old <> DIST_INFINITY -> BadWork (fst (fst rP)) = S (BadWork st)) /\
     (old = DIST_INFINITY -> BadWork (fst (fst rP)) = BadWork st)) /\
  (old <= wrap32 (sdata + w) -> BadWork (fst (fst rP)) = BadWork st).
Proof.
  intros old r rS rP. subst r rS rP.
  rewrite AsyncAlgo_relaxEdge_eq, AsyncSetAlgo_relaxEdge_eq,
    AsyncAlgoPP_relaxEdge_eq. simpl. fold old. unfold track_bad.
  repeat split; intros;
    repeat match goal with
    | |- context [?a <? ?b] =>
        let E := fresh in destruct (Z.ltb_spec a b) as [E|E]; try lia
    | |- context [?a =? ?b] =>
        let E := fresh in destruct (Z.eqb_spec a b) as [E|E]; try lia
    end; simpl; try done; try lia.
Qed.

Lemma BadWork_counts_overwritten_finite_witness :
  BadWork (fst (AsyncAlgo.relaxEdge true 0 st_reached
                  (getDist (dist st_reached) 0) (1%nat, 4) [])) = 1%nat /\
  BadWork (fst (AsyncAlgo.relaxEdge true 0 st_unreached
                  (getDist (dist st_unreached) 0) (1%nat, 4) [])) = 0%nat.
Proof.
  split.
  - pose proof (BadWork_counts_overwritten_finite true 0
                  st_reached 0 1 4 0 [] []) as (H & _).
    apply H; vm_compute; [done | discriminate].
  - pose proof (BadWork_counts_overwritten_finite true 0
                  st_unreached 0 1 4 0 [] []) as (H & _).
    apply H; vm_compute; done.
Defined.

(** C4, as the spec has it, fails: node 1 is at distance 10, node 2 at
    distance 100, and the edge from 1 to 2 weighs 2^32 - 5.  The sum
    reaches DIST_INFINITY, yet every relaxEdge lowers dist[2] to 5 and
    pushes a request. *)
Lemma saturation_counterexample :
  DIST_INFINITY <= getDist (dist st_three) 1 + (2 ^ 32 - 5) /\
  AsyncAlgo.relaxEdge true 0 st_three (getDist (dist st_three) 1)
      (2%nat, 2 ^ 32 - 5) [] =
    (mkState [0; 10; 5] 1 0, [mkReq 2 5]) /\
  AsyncSetAlgo.relaxEdge true st_three 1 (2%nat, 2 ^ 32 - 5) [] =
    (mkState [0; 10; 5] 1 0, [2%nat]) /\
  AsyncAlgoPP.relaxEdge 0 st_three (getDist (dist st_three) 1)
      (2%nat, 2 ^ 32 - 5) [] =
    (mkState [0; 10; 5] 1 0, 10, [mkReq 2 5]) /\
  dist (mkState [0; 10; 5] 1 0) <> dist st_three.
Proof. by vm_compute. Qed.

(** C4, amended.  The proposed distance is the sum modulo 2^32; nothing
    saturates.  When dist[v] + w is exactly DIST_INFINITY the edge is not
    relaxed: dist is not updated and nothing is pushed.  When the sum is
    2^32 or more the proposed distance is the sum minus 2^32, and the edge
    is relaxed exactly when that is below dist[u]. *)
Theorem relaxEdge_sum_wraps (UseCas : bool) (spurious : nat) (st : State)
    (v u : GNode) (w : Dist)
    (pusher : list UpdateRequest) (pusherS : list GNode) :
  let s := getDist (dist st) v in
  let old := getDist (dist st) u in
  let r := AsyncAlgo.relaxEdge UseCas spurious st s (u, w) pusher in
  let rS := AsyncSetAlgo.relaxEdge UseCas st v (u, w) pusherS in
  let rP := AsyncAlgoPP.relaxEdge spurious st s (u, w) pusher in
  0 <= s < 2 ^ 32 -> 0 <= w < 2 ^ 32 -> old <= DIST_INFINITY ->
  (s + w = DIST_INFINITY ->
     r = (st, pusher) /\ rS = (st, pusherS) /\
     fst (fst rP) = st /\ snd rP = pusher) /\
  (2 ^ 32 <= s + w -> s + w - 2 ^ 32 < old ->
     dist (fst r) = <[u := s + w - 2 ^ 32]> (dist st) /\
     snd r = pusher ++ [mkReq u (s + w - 2 ^ 32)] /\
     dist (fst rS) = <[u := s + w - 2 ^ 32]> (dist st) /\
     snd rS = pusherS ++ [u] /\
     dist (fst (fst rP)) = <[u := s + w - 2 ^ 32]> (dist st) /\
     snd rP = pusher ++ [mkReq u (s + w - 2 ^ 32)]) /\
  (2 ^ 32 <= s + w -> old <= s + w - 2 ^ 32 ->
     r = (st, pusher) /\ rS = (st, pusherS) /\
     fst (fst rP) = st /\ snd rP = pusher).
Proof.
  intros s old r rS rP Hs Hw Hold. subst r rS rP.
  rewrite AsyncAlgo_relaxEdge_eq, AsyncSetAlgo_relaxEdge_eq,
    AsyncAlgoPP_relaxEdge_eq. simpl. fold s old.
  split; [|split].
  - intros Hsum. rewrite Hsum.
    replace (wrap32 DIST_INFINITY) with DIST_INFINITY by by vm_compute.
    destruct (Z.ltb_spec DIST_INFINITY old); [lia|done].
  - intros Hover Hlt. rewrite wrap32_once by lia.
    destruct (Z.ltb_spec (s + w - 2 ^ 32) old); [|lia].
    simpl. by rewrite !dist_track_bad.
  - intros Hover Hge. rewrite wrap32_once by lia.
    destruct (Z.ltb_spec (s + w - 2 ^ 32) old); [lia|done].
Qed.

Lemma relaxEdge_sum_wraps_witness :
  (0 <= getDist (dist st_three) 1 < 2 ^ 32) /\
  (0 <= 2 ^ 32 - 5 < 2 ^ 32) /\
  getDist (dist st_three) 2 <= DIST_INFINITY /\
  dist (fst (AsyncAlgo.relaxEdge true 0 st_three (getDist (dist st_three) 1)
                                 (2%nat, 2 ^ 32 - 5) [])) =
    <[2%nat := getDist (dist st_three) 1 + (2 ^ 32 - 5) - 2 ^ 32]>
      (dist st_three).
Proof.
  assert (H1 : 0 <= getDist (dist st_three) 1 < 2 ^ 32) by (vm_compute; split; congruence).
  assert (H2 : 0 <= 2 ^ 32 - 5 < 2 ^ 32) by lia.
  assert (H3 : getDist (dist st_three) 2 <= DIST_INFINITY) by (vm_compute; congruence).
  split; [exact H1|]. split; [exact H2|]. split; [exact H3|].
  destruct (relaxEdge_sum_wraps true 0 st_three 1 2 (2 ^ 32 - 5) [] []
              H1 H2 H3) as (_ & H & _).
  apply H; by vm_compute.
Defined.

(** ** relaxNode and the empty-work gate *)

(** C5.  In the variants whose requests carry the proposed distance
    (relaxNode of AsyncAlgo, Process of AsyncAlgoPP), a request (v, w)
    with w different from dist[v] at entry only adds one to EmptyWork:
    every distance is unchanged, BadWork is unchanged, nothing is pushed,
    and the operator returns normally. *)
Theorem stale_request_is_discarded (UseCas : bool) (g : Topology)
    (spur : list nat) (st : State) (req : UpdateRequest)
    (pusher : list UpdateRequest) :
  req_w req <> getDist (dist st) (req_n req) ->
  AsyncAlgo.relaxNode UseCas g spur st req pusher =
    (mkState (dist st) (BadWork st) (S (WLEmptyWork st)), pusher) /\
  fst (fst (AsyncAlgoPP.Process g spur st req pusher)) =
    mkState (dist st) (BadWork st) (S (WLEmptyWork st)) /\
  snd (AsyncAlgoPP.Process g spur st req pusher) = pusher.
Proof.
  intros Hne. unfold AsyncAlgo.relaxNode, AsyncAlgo.stale, AsyncAlgoPP.Process.
  destruct (Z.eqb_spec (req_w req) (getDist (dist st) (req_n req)));
    [done|]. simpl. done.
Qed.

Lemma stale_request_is_discarded_witness :
  req_w (mkReq 1 12) <> getDist (dist st_three) (req_n (mkReq 1 12)) /\
  AsyncAlgo.relaxNode true [[]; [(2%nat, 1)]; []] [] st_three (mkReq 1 12) [] =
    (mkState [0; 10; 100] 0 1, []).
Proof.
  assert (H : req_w (mkReq 1 12) <>
              getDist (dist st_three) (req_n (mkReq 1 12)))
    by (vm_compute; congruence).
  split; [exact H|].
  exact (proj1 (stale_request_is_discarded true [[]; [(2%nat, 1)]; []] []
                  st_three (mkReq 1 12) [] H)).
Defined.

(** ** The push-pull operator *)

Lemma AsyncAlgoPP_Process_for_other (x : GNode) (edges : list Edge) :
  Forall (fun e => fst e <> x) edges ->
  forall spur st sdist ctx,
    getDist (dist (fst (fst (AsyncAlgoPP.Process_for spur st sdist edges ctx))))
            x = getDist (dist st) x.
Proof.
  induction 1 as [|e edges He _ IH]; intros spur st sdist ctx; [done|].
  cbn [AsyncAlgoPP.Process_for].
  rewrite AsyncAlgoPP_relaxEdge_eq.
  destruct (wrap32 (sdist + snd e) <? getDist (dist st) (fst e)).
  - rewrite IH, dist_track_bad. simpl. by apply getDist_insert_ne.
  - by rewrite IH.
Qed.

(** C6, as the spec has it, fails: node 0 is at distance 10 and its only
    edge, of weight 1, leads to node 1 at distance 2.  The request (0, 10)
    is not stale; the scan lowers the local sdist to 3, and the operator
    returns with dist[0] still 10: nothing is written back. *)
Lemma pull_write_back_counterexample :
  AsyncAlgoPP.Process g_pull [] st_pull (mkReq 0 10) [] = (st_pull, 3, []) /\
  3 < getDist (dist st_pull) 0.
Proof. by vm_compute. Qed.

(** C6, amended.  relaxEdge of the push-pull variant takes the local copy
    sdist of the source distance by reference: an edge (v -> u, d) that
    yields no push (newDist >= dist[u]) sets it to the minimum of the
    32-bit sum dist[u] + d and sdist, and an edge that pushes leaves it
    as it is.  The lowered sdist serves the later edges of the same scan
    only: the operator does not write it back, and dist[req.v] is the same
    after the operator as before when no edge of req.v leads to req.v. *)
Theorem pull_updates_local_copy_only (g : Topology) (spurious : nat)
    (spur : list nat) (st : State) (sdist : Dist) (u : GNode) (d : Dist)
    (req : UpdateRequest) (ctx : list UpdateRequest) :
  let old := getDist (dist st) u in
  let r := AsyncAlgoPP.relaxEdge spurious st sdist (u, d) ctx in
  (old <= wrap32 (sdist + d) ->
     r = (st, Z.min (wrap32 (old + d)) sdist, ctx)) /\
  (wrap32 (sdist + d) < old ->
     snd (fst r) = sdist /\ snd r = ctx ++ [mkReq u (wrap32 (sdist + d))]) /\
  (Forall (fun e => fst e <> req_n req) (out_edges g (req_n req)) ->
     getDist (dist (fst (fst (AsyncAlgoPP.Process g spur st req ctx))))
             (req_n req) = getDist (dist st) (req_n req)).
Proof.
  intros old r. subst r. rewrite AsyncAlgoPP_relaxEdge_eq. simpl. fold old.
  split; [|split].
  - intros Hge. destruct (Z.ltb_spec (wrap32 (sdist + d)) old); [lia|done].
  - intros Hlt. destruct (Z.ltb_spec (wrap32 (sdist + d)) old); [done|lia].
  - intros Hloop. unfold AsyncAlgoPP.Process.
    destruct (negb _); [done|].
    by apply AsyncAlgoPP_Process_for_other.
Qed.

Lemma pull_updates_local_copy_only_witness :
  Forall (fun e => fst e <> req_n (mkReq 0 10))
         (out_edges g_pull (req_n (mkReq 0 10))) /\
  getDist (dist (fst (fst (AsyncAlgoPP.Process g_pull [] st_pull
                                               (mkReq 0 10) []))))
          (req_n (mkReq 0 10)) = getDist (dist st_pull) (req_n (mkReq 0 10)).
Proof.
  assert (H : Forall (fun e => fst e <> req_n (mkReq 0 10))
                     (out_edges g_pull (req_n (mkReq 0 10)))).
  { repeat constructor. simpl. lia. }
  split; [exact H|].
  destruct (pull_updates_local_copy_only g_pull 0 [] st_pull 0 0 0
              (mkReq 0 10) []) as (_ & _ & Hp).
  exact (Hp H).
Defined.

(** ** The verifier *)

Lemma out_edges_ge (g : Topology) (n : GNode) :
  (length g <= n)%nat -> out_edges g n = [].
Proof.
  intros Hn. unfold out_edges. by rewrite lookup_ge_None_2.
Qed.

Lemma not_consistent_false (g : Topology) (d : list Dist) (n : GNode) :
  not_consistent g d n = false <->
  (getDist d n <> DIST_INFINITY ->
   forall v w, (v, w) ∈ out_edges g n ->
               getDist d v <= wrap32 (getDist d n + w)).
Proof.
  unfold not_consistent.
  destruct (Z.eqb_spec (getDist d n) DIST_INFINITY) as [Heq|Hne].
  { split; [intros _ H; by destruct H | done]. }
  rewrite <- not_true_iff_false, existsb_exists. split.
  - intros Hno _ v w Hin.
    destruct (Z.ltb_spec (wrap32 (getDist d n + w)) (getDist d v)) as [Hlt|];
      [|lia].
    destruct Hno. exists (v, w). split; [by apply list_elem_of_In|].
    simpl. by apply Z.ltb_lt.
  - intros Hall ([v w] & Hin & Hlt). simpl in Hlt.
    apply Z.ltb_lt in Hlt. apply list_elem_of_In in Hin.
    specialize (Hall Hne v w Hin). lia.
Qed.

Lemma consistent_everywhere (g : Topology) (d : list Dist) :
  existsb (not_consistent g d) (graph_nodes g) = false <->
  (forall u v w, (v, w) ∈ out_edges g u -> getDist d u <> DIST_INFINITY ->
                 getDist d v <= wrap32 (getDist d u + w)).
Proof.
  rewrite <- not_true_iff_false, existsb_exists. split.
  - intros Hno u v w Hin Hne.
    destruct (decide (u < length g)%nat) as [Hu|Hu].
    + destruct (not_consistent g d u) eqn:Hnc.
      * destruct Hno. exists u. split; [|done].
        apply list_elem_of_In, elem_of_seq. lia.
      * by apply (proj1 (not_consistent_false g d u) Hnc Hne).
    + rewrite out_edges_ge in Hin by lia. by apply elem_of_nil in Hin.
  - intros Hall (u & _ & Hnc).
    assert (not_consistent g d u = false) as Hf; [|congruence].
    apply not_consistent_false. intros Hne v w Hin. by apply Hall.
Qed.

(** The sum in the verifier is the 32-bit one: with node 1 at distance 5,
    node 2 at distance 7 and an edge of weight 2^32 - 3 between them, the
    sum is 2 and the verifier reports the edge. *)
Lemma verify_uses_32_bit_sum :
  getDist d_wrap 0 = 0 /\
  wrap32 (getDist d_wrap 1 + (2 ^ 32 - 3)) = 2 /\
  verify g_wrap d_wrap 0 = (false, [MsgIncorrectDistance]).
Proof. by vm_compute. Qed.

(** C3, as the spec has it, fails when a sum does not fit in 32 bits: on
    [g_wrap] with the distances [d_wrap] the source is at 0 and every
    out-edge (u -> v, w) of a reached vertex has dist[v] <= dist[u] + w,
    yet the verifier returns false: it compares dist[2] = 7 with the
    32-bit sum 2. *)
Lemma verify_exact_sum_counterexample :
  getDist d_wrap 0 = 0 /\
  (forall u v w, (v, w) ∈ out_edges g_wrap u ->
                 getDist d_wrap u <> DIST_INFINITY ->
                 getDist d_wrap v <= getDist d_wrap u + w) /\
  verify g_wrap d_wrap 0 = (false, [MsgIncorrectDistance]).
Proof.
  split; [by vm_compute|]. split; [|by vm_compute].
  intros u v w Hin _. destruct u as [|[|u]].
  - by apply elem_of_nil in Hin.
  - apply list_elem_of_singleton in Hin. injection Hin as -> ->.
    by vm_compute.
  - destruct u; by apply elem_of_nil in Hin.
Qed.

(** C3, amended.  The verifier returns true if and only if
    dist[source] == 0 and, for every vertex u with dist[u] != INF and every
    out-edge (u -> v, w), dist[v] <= (dist[u] + w) mod 2^32, the unsigned
    32-bit sum of the code, which is the exact sum whenever that fits in
    32 bits.  Unreached vertices only add a warning to the output: when
    the condition holds the verifier returns true whatever their number. *)
Theorem verify_true_iff (g : Topology) (d : list Dist) (source : GNode) :
  let closed :=
    getDist d source = 0 /\
    forall u v w, (v, w) ∈ out_edges g u -> getDist d u <> DIST_INFINITY ->
                  getDist d v <= wrap32 (getDist d u + w) in
  let notVisited := length (List.filter (not_visited d) (graph_nodes g)) in
  (fst (verify g d source) = true <-> closed) /\
  ((forall u v w, (v, w) ∈ out_edges g u -> getDist d u <> DIST_INFINITY ->
                  0 <= getDist d u + w < 2 ^ 32) ->
   (fst (verify g d source) = true <->
    getDist d source = 0 /\
    forall u v w, (v, w) ∈ out_edges g u -> getDist d u <> DIST_INFINITY ->
                  getDist d v <= getDist d u + w)) /\
  (closed ->
   exists m,
     verify g d source =
       (true, (if decide (notVisited = 0%nat) then []
               else [MsgUnvisited notVisited]) ++ [MsgMaxDist m])).
Proof.
  intros closed notVisited.
  assert (Hiff : fst (verify g d source) = true <-> closed).
  { subst closed. unfold verify.
    destruct (Z.eqb_spec (getDist d source) 0) as [H0|H0]; simpl.
    2: { split; [discriminate | by intros [? _]]. }
    destruct (existsb (not_consistent g d) (graph_nodes g)) eqn:Hex; simpl.
    - split; [discriminate|]. intros [_ Hall].
      apply consistent_everywhere in Hall. congruence.
    - pose proof (proj1 (consistent_everywhere g d) Hex) as Hall.
      by destruct (length _). }
  split; [exact Hiff|]. split.
  - intros Hfit. rewrite Hiff. subst closed. split; intros [H0 Hall].
    + split; [done|]. intros u v w Hin Hu.
      specialize (Hall u v w Hin Hu).
      by rewrite wrap32_small in Hall by by apply (Hfit u v w).
    + split; [done|]. intros u v w Hin Hu.
      rewrite wrap32_small by by apply (Hfit u v w). by apply Hall.
  - intros Hclosed. pose proof (proj2 Hiff Hclosed) as Htrue.
    subst closed. destruct Hclosed as [H0 Hall]. unfold verify in *.
    fold notVisited in Htrue |- *.
    destruct (Z.eqb_spec (getDist d source) 0); [|done]. simpl in *.
    destruct (existsb (not_consistent g d) (graph_nodes g)); simpl in *;
      [by destruct notVisited|].
    eexists. by destruct notVisited.
Qed.

Lemma verify_true_iff_witness :
  verify g_disconnected d_disconnected 0 =
    (true, [MsgUnvisited 2; MsgMaxDist 5]) /\
  (forall u v w, (v, w) ∈ out_edges g_disconnected u ->
                 getDist d_disconnected u <> DIST_INFINITY ->
                 getDist d_disconnected v <=
                 wrap32 (getDist d_disconnected u + w)).
Proof.
  split; [by vm_compute|].
  apply (proj1 (proj1 (verify_true_iff g_disconnected d_disconnected 0))).
  by vm_compute.
Defined.

(** ** The driver *)

(** C7, as the spec has it, fails for a negative delta: nothing checks
    stepShift.  On the one-vertex graph with delta = -1 the serial
    algorithm, which never reads stepShift, runs to the end: the node data
    are rewritten, the verification succeeds and the exit is normal. *)
Lemma negative_delta_counterexample :
  stepShift cfg_negative_delta < 0 /\
  run (SerialAlgoT less_by_dist) 5%nat cfg_negative_delta g_single
      (mkState [7] 0 0) =
    Some (Returned0, mkState [0] 0 0,
          [MsgNodeDistance 0 0; MsgMaxDist 0; MsgVerificationSuccessful]).
Proof. by vm_compute. Qed.

(** C7, amended.  When startNode or reportNode is out of range the
    driver prints its message and aborts before Initialize and before any
    relaxation: the node data are those it started with.  delta is not
    validated: with both nodes in range initialize succeeds whatever
    stepShift is, and a run that ends does not end in that abort. *)
Theorem bad_node_fails_fast (A : AlgoT) (s : Sched A) (cfg : Config)
    (g : Topology) (st : State) :
  (Z.of_nat (length g) <= startNode cfg \/
   Z.of_nat (length g) <= reportNode cfg ->
   run A s cfg g st =
     Some (Aborted, st,
           [MsgFailedToSet (reportNode cfg) (startNode cfg)])) /\
  (startNode cfg < Z.of_nat (length g) ->
   reportNode cfg < Z.of_nat (length g) ->
   initialize cfg g =
     inr (Z.to_nat (startNode cfg), Z.to_nat (reportNode cfg)) /\
   forall r, run A s cfg g st = Some r -> fst (fst r) <> Aborted).
Proof.
  unfold run, initialize. split.
  - intros Hbad.
    destruct (Z.leb_spec (Z.of_nat (length g)) (startNode cfg));
      destruct (Z.leb_spec (Z.of_nat (length g)) (reportNode cfg));
      simpl; try done; lia.
  - intros Hs Hr.
    destruct (Z.leb_spec (Z.of_nat (length g)) (startNode cfg)); [lia|].
    destruct (Z.leb_spec (Z.of_nat (length g)) (reportNode cfg)); [lia|].
    simpl. split; [done|]. intros r Hrun.
    destruct (algo_operator A s g (algo_Initialize A st) _); [|done].
    destruct (skipVerify cfg); [by inversion Hrun|].
    destruct (verify g _ _) as [[] msgs]; by inversion Hrun.
Qed.

Lemma bad_node_fails_fast_witness :
  (Z.of_nat (length g_disconnected) <= startNode cfg_bad_start \/
   Z.of_nat (length g_disconnected) <= reportNode cfg_bad_start) /\
  run (SerialAlgoT less_by_dist) 9%nat cfg_bad_start g_disconnected
      st_three =
    Some (Aborted, st_three, [MsgFailedToSet 1 5]).
Proof.
  assert (H : Z.of_nat (length g_disconnected) <= startNode cfg_bad_start \/
              Z.of_nat (length g_disconnected) <= reportNode cfg_bad_start)
    by (left; simpl; lia).
  split; [exact H|].
  exact (proj1 (bad_node_fails_fast (SerialAlgoT less_by_dist) 9%nat
                  cfg_bad_start g_disconnected st_three) H).
Defined.

(** ** The initial frontier *)

Lemma getDist_range (d : list Dist) (n : GNode) :
  dist_in_range d -> 0 <= getDist d n <= DIST_INFINITY.
Proof.
  intros Hd. unfold getDist. destruct (d !! n) as [x|] eqn:E; simpl.
  - by apply (proj1 (Forall_lookup _ d) Hd n x).
  - by vm_compute.
Qed.

Lemma dist_in_range_insert (d : list Dist) (n : GNode) (x : Dist) :
  dist_in_range d -> 0 <= x <= DIST_INFINITY ->
  dist_in_range (<[n := x]> d).
Proof. intros Hd Hx. by apply Forall_insert. Qed.

Lemma dist_in_range_replicate (n : nat) :
  dist_in_range (replicate n DIST_INFINITY).
Proof. apply Forall_replicate. by vm_compute. Qed.

Lemma getDist_replicate (n : nat) (u : GNode) :
  getDist (replicate n DIST_INFINITY) u = DIST_INFINITY.
Proof.
  unfold getDist. destruct (replicate n DIST_INFINITY !! u) eqn:E; [|done].
  apply lookup_replicate in E as [-> _]. done.
Qed.



Lemma AsyncAlgo_relaxEdge_keeps_zero (UseCas : bool) (spurious : nat)
    (st : State) (sdist : Dist) (ii : Edge) (pusher : list UpdateRequest)
    (source : GNode) :
  getDist (dist st) source = 0 ->
  getDist
    (dist (fst (AsyncAlgo.relaxEdge UseCas spurious st sdist ii pusher)))
    source = 0.
Proof.
  intros H0. rewrite AsyncAlgo_relaxEdge_eq.
  destruct (Z.ltb_spec (wrap32 (sdist + snd ii)) (getDist (dist st) (fst ii)))
    as [Hlt|]; [|done].
  simpl. rewrite dist_track_bad. simpl.
  pose proof (wrap32_range (sdist + snd ii)).
  rewrite getDist_insert_ne; [done|]. intros Heq. rewrite Heq in Hlt. lia.
Qed.

Lemma AsyncAlgo_relaxEdge_other (UseCas : bool) (spurious : nat)
    (st : State) (sdist : Dist) (ii : Edge) (pusher : list UpdateRequest)
    (x : GNode) :
  x <> fst ii ->
  getDist
    (dist (fst (AsyncAlgo.relaxEdge UseCas spurious st sdist ii pusher))) x =
  getDist (dist st) x.
Proof.
  intros Hx. rewrite AsyncAlgo_relaxEdge_eq.
  destruct (_ <? _); [|done].
  simpl. rewrite dist_track_bad. simpl. by apply getDist_insert_ne.
Qed.

(** A change of the distance of a node, seen from the calls that wait on
    other nodes. *)
Lemma seed_waits_other (st st1 : State) (x : GNode) (we : list Edge) :
  (forall y, y <> x -> getDist (dist st1) y = getDist (dist st) y) ->
  x ∉ fst <$> we ->
  Forall (fun e => wrap32 (0 + snd e) < getDist (dist st) (fst e)) we ->
  seed_waits st1 <$> we = seed_waits st <$> we /\
  Forall (fun e => wrap32 (0 + snd e) < getDist (dist st1) (fst e)) we.
Proof.
  intros Hother Hx Himp.
  assert (Hsame : forall e, e ∈ we ->
            getDist (dist st1) (fst e) = getDist (dist st) (fst e)).
  { intros e He. apply Hother. intros Heq. apply Hx. rewrite <- Heq.
    by apply list_elem_of_fmap_2. }
  split.
  - apply Forall_fmap_ext_1, Forall_forall. intros e He.
    unfold seed_waits. by rewrite Hsame.
  - apply Forall_forall. intros e He. rewrite Hsame by done.
    by apply (proj1 (Forall_forall _ _) Himp e).
Qed.

(** The store of a call that waits, seen from the calls that wait on
    other nodes. *)
Lemma seed_waits_store (st : State) (source : GNode) (l1 l2 : list Edge)
    (e : Edge) :
  getDist (dist st) source = 0 ->
  NoDup (fst <$> l1 ++ e :: l2) ->
  Forall (fun e' => wrap32 (0 + snd e') < getDist (dist st) (fst e'))
         (l1 ++ e :: l2) ->
  let st1 :=
    track_bad (getDist (dist st) (fst e))
              (set_dist st (fst e) (wrap32 (0 + snd e))) in
  getDist (dist st1) source = 0 /\
  NoDup (fst <$> l1 ++ l2) /\
  seed_waits st1 <$> l1 ++ l2 = seed_waits st <$> l1 ++ l2 /\
  Forall (fun e' => wrap32 (0 + snd e') < getDist (dist st1) (fst e'))
         (l1 ++ l2).
Proof.
  intros H0 Hnd Himp st1.
  assert (Hd1 : dist st1 = <[fst e := wrap32 (0 + snd e)]> (dist st)).
  { unfold st1. by rewrite dist_track_bad. }
  assert (He : wrap32 (0 + snd e) < getDist (dist st) (fst e)).
  { apply Forall_app in Himp as [_ Himp]. by apply Forall_cons in Himp as [? _]. }
  pose proof (wrap32_range (0 + snd e)) as Hr.
  assert (Hother : forall e', e' ∈ l1 ++ l2 ->
            getDist (dist st1) (fst e') = getDist (dist st) (fst e')).
  { intros e' Hin. rewrite Hd1. apply getDist_insert_ne.
    intros Heq. rewrite fmap_app, fmap_cons in Hnd.
    apply NoDup_app in Hnd as (_ & Hdisj & Hnd2).
    apply NoDup_cons in Hnd2 as [Hnot _].
    apply elem_of_app in Hin as [Hin|Hin].
    - apply (Hdisj (fst e')); [by apply list_elem_of_fmap_2|].
      rewrite <- Heq. apply list_elem_of_here.
    - apply Hnot. rewrite Heq. by apply list_elem_of_fmap_2. }
  split; [|split; [|split]].
  - rewrite Hd1. rewrite getDist_insert_ne; [done|].
    intros Heq. rewrite Heq in He. lia.
  - rewrite fmap_app, fmap_cons in Hnd. rewrite fmap_app.
    apply NoDup_app in Hnd as (Hnd1 & Hdisj & Hnd2).
    apply NoDup_cons in Hnd2 as [_ Hnd2].
    apply NoDup_app. split; [done|]. split; [|done].
    intros x Hx Hx2. apply (Hdisj x Hx). by apply list_elem_of_further.
  - apply Forall_fmap_ext_1, Forall_forall. intros e' Hin.
    unfold seed_waits. by rewrite Hother.
  - apply Forall_forall. intros e' Hin. rewrite Hother by done.
    apply (proj1 (Forall_forall _ _) Himp e').
    apply elem_of_app in Hin as [?|?]; apply elem_of_app;
      [by left | right; by apply list_elem_of_further].
Qed.

(** A run of the do_all without a race on a node is a run of the calls
    one after the other, in the order in which they take effect. *)
Lemma AsyncAlgo_seed_exec_race_free (UseCas : bool) (source : GNode)
    (events : list AsyncAlgo.SeedEvent) :
  forall s s' we,
    AsyncAlgo.seed_exec UseCas source events s = Some s' ->
    AsyncAlgo.seed_waiting s' = [] ->
    AsyncAlgo.race_free UseCas source events s = true ->
    getDist (dist (AsyncAlgo.seed_mem s)) source = 0 ->
    NoDup (fst <$> we) ->
    AsyncAlgo.seed_waiting s = seed_waits (AsyncAlgo.seed_mem s) <$> we ->
    Forall (fun e => wrap32 (0 + snd e) <
                     getDist (dist (AsyncAlgo.seed_mem s)) (fst e)) we ->
    exists sched spur,
      sched ≡ₚ we ++ AsyncAlgo.called events /\
      (AsyncAlgo.seed_mem s', AsyncAlgo.seed_bag s') =
      AsyncAlgo.InitialProcess UseCas spur (AsyncAlgo.seed_mem s) source
        sched (AsyncAlgo.seed_bag s).
Proof.
  induction events as [|ev events IH];
    intros s s' we Hexec Hw' Hfree H0 Hnd Hwait Himp.
  { injection Hexec as <-. rewrite Hwait in Hw'.
    apply fmap_nil_inv in Hw' as ->. by exists [], []. }
  cbn [AsyncAlgo.seed_exec] in Hexec.
  destruct (AsyncAlgo.seed_step UseCas source ev s) as [s1|] eqn:Hstep;
    [|done].
  cbn [AsyncAlgo.race_free] in Hfree. rewrite Hstep in Hfree.
  apply andb_true_iff in Hfree as [Hcheck Hfree].
  destruct ev as [ii sp|k]; cbn [AsyncAlgo.seed_step] in Hstep.
  - (* a call starts *)
    cbv zeta in Hstep. rewrite H0 in Hstep.
    apply bool_decide_eq_true in Hcheck.
    rewrite Hwait, <- list_fmap_compose in Hcheck.
    cbn [AsyncAlgo.called].
    assert (Hatomic :
      forall st1 bag1,
        AsyncAlgo.relaxEdge UseCas sp (AsyncAlgo.seed_mem s) 0 ii
          (AsyncAlgo.seed_bag s) = (st1, bag1) ->
        s1 = AsyncAlgo.mkSeeding st1 bag1 (AsyncAlgo.seed_waiting s) ->
        exists sched spur,
          sched ≡ₚ we ++ ii :: AsyncAlgo.called events /\
          (AsyncAlgo.seed_mem s', AsyncAlgo.seed_bag s') =
          AsyncAlgo.InitialProcess UseCas spur (AsyncAlgo.seed_mem s) source
            sched (AsyncAlgo.seed_bag s)).
    { intros st1 bag1 Hrel ->.
      pose proof (AsyncAlgo_relaxEdge_keeps_zero UseCas sp
                    (AsyncAlgo.seed_mem s) 0 ii (AsyncAlgo.seed_bag s)
                    source H0) as Hz1.
      destruct (seed_waits_other (AsyncAlgo.seed_mem s) st1 (fst ii) we)
        as [Hw1 Himp1]; [|done|done|].
      { intros y Hy.
        pose proof (AsyncAlgo_relaxEdge_other UseCas sp (AsyncAlgo.seed_mem s)
                      0 ii (AsyncAlgo.seed_bag s) y Hy) as Ho.
        by rewrite Hrel in Ho. }
      rewrite Hrel in Hz1. cbn [fst] in Hz1.
      destruct (IH _ s' we Hexec Hw' Hfree Hz1 Hnd) as
        (sched1 & spur1 & Hperm1 & Hres1);
        [by cbn [AsyncAlgo.seed_waiting AsyncAlgo.seed_mem]; rewrite Hw1
        |done|].
      cbn [AsyncAlgo.seed_mem AsyncAlgo.seed_bag] in Hres1.
      exists (ii :: sched1), (sp :: spur1). split.
      - rewrite Hperm1. apply Permutation_middle.
      - cbn [AsyncAlgo.InitialProcess hd tl]. by rewrite H0, Hrel. }
    destruct UseCas.
    + destruct (AsyncAlgo.relaxEdge true sp _ _ ii _) as [st1 bag1] eqn:Hrel.
      injection Hstep as <-. by apply (Hatomic st1 bag1).
    + destruct (wrap32 (0 + snd ii) <?
                getDist (dist (AsyncAlgo.seed_mem s)) (fst ii)) eqn:Hlt.
      * (* the call waits for its store *)
        injection Hstep as <-.
        destruct (IH _ s' (we ++ [ii]) Hexec Hw' Hfree H0)
          as (sched1 & spur1 & Hperm1 & Hres1).
        { rewrite fmap_app. apply NoDup_app. split; [done|]. split.
          - intros x Hx Hx2. apply list_elem_of_singleton in Hx2 as ->.
            by apply Hcheck.
          - apply NoDup_singleton. }
        { cbn [AsyncAlgo.seed_waiting AsyncAlgo.seed_mem].
          by rewrite Hwait, fmap_app. }
        { apply Forall_app. split; [done|]. apply Forall_singleton.
          by apply Z.ltb_lt. }
        exists sched1, spur1. split; [|done].
        by rewrite Hperm1, <- app_assoc.
      * (* the call returns at its test *)
        injection Hstep as <-. apply (Hatomic (AsyncAlgo.seed_mem s)
                                        (AsyncAlgo.seed_bag s)).
        -- by rewrite AsyncAlgo_relaxEdge_eq, Hlt.
        -- by destruct s.
  - (* a call that waits stores *)
    rewrite Hwait, list_lookup_fmap in Hstep.
    destruct (we !! k) as [e|] eqn:Hk; [|done].
    cbn [fmap option_fmap option_map seed_waits] in Hstep.
    injection Hstep as <-.
    apply list_elem_of_split_length in Hk as (l1 & l2 & -> & ->).
    destruct (seed_waits_store (AsyncAlgo.seed_mem s) source l1 l2 e H0 Hnd
                Himp) as (Hz1 & Hnd1 & Hw1 & Himp1).
    assert (He : wrap32 (0 + snd e) <
                 getDist (dist (AsyncAlgo.seed_mem s)) (fst e)).
    { apply Forall_app in Himp as [_ Himp].
      by apply Forall_cons in Himp as [? _]. }
    destruct (IH _ s' (l1 ++ l2) Hexec Hw' Hfree Hz1 Hnd1)
      as (sched1 & spur1 & Hperm1 & Hres1); [|done|].
    { cbn [AsyncAlgo.seed_waiting AsyncAlgo.seed_mem].
      rewrite Hw1, !fmap_app, fmap_cons.
      rewrite <- (length_fmap (seed_waits (AsyncAlgo.seed_mem s)) l1).
      by rewrite delete_middle. }
    cbn [AsyncAlgo.seed_mem AsyncAlgo.seed_bag AsyncAlgo.called] in *.
    exists (e :: sched1), (0%nat :: spur1). split.
    + rewrite Hperm1, <- !app_assoc. cbn [app]. apply Permutation_middle.
    + cbn [AsyncAlgo.InitialProcess hd tl].
      rewrite H0, AsyncAlgo_relaxEdge_eq.
      apply Z.ltb_lt in He. by rewrite He.
Qed.

(** With CAS no call waits, so no run has a race. *)
Lemma AsyncAlgo_race_free_CAS (source : GNode)
    (events : list AsyncAlgo.SeedEvent) :
  forall s,
    AsyncAlgo.seed_waiting s = [] ->
    AsyncAlgo.race_free true source events s = true.
Proof.
  induction events as [|ev events IH]; intros s Hw; [done|].
  cbn [AsyncAlgo.race_free]. destruct ev as [ii sp|k].
  - rewrite Hw, bool_decide_eq_true_2 by apply not_elem_of_nil.
    cbn [AsyncAlgo.seed_step andb].
    destruct (AsyncAlgo.relaxEdge true sp _ _ ii _) as [st1 bag1].
    by apply IH.
  - cbn [AsyncAlgo.seed_step andb]. by rewrite Hw.
Qed.

(** A run of the do_all without a race on a node is operator_seed on an
    order of the out-edges of the source. *)
Lemma AsyncAlgo_do_all_race_free (UseCas : bool) (g : Topology)
    (events : list AsyncAlgo.SeedEvent) (st : State) (source : GNode)
    (r : State * list UpdateRequest) :
  (source < length (dist st))%nat ->
  (UseCas = false ->
   AsyncAlgo.calls_race_free UseCas events st source = true) ->
  AsyncAlgo.operator_do_all UseCas g events st source = Some r ->
  exists sched spur,
    sched ≡ₚ out_edges g source /\
    r = AsyncAlgo.operator_seed UseCas spur st source sched.
Proof.
  intros Hsrc Hfree. unfold AsyncAlgo.operator_do_all.
  case_bool_decide as Hperm; [|done].
  destruct (AsyncAlgo.seed_exec UseCas source events _) as [s|] eqn:Hexec;
    [|done].
  destruct (AsyncAlgo.seed_waiting s) eqn:Hw; [|done].
  intros [= <-].
  assert (Hfree' :
    AsyncAlgo.race_free UseCas source events
      (AsyncAlgo.mkSeeding (set_dist st source 0) [] []) = true).
  { destruct UseCas; [by apply AsyncAlgo_race_free_CAS | by apply Hfree]. }
  destruct (AsyncAlgo_seed_exec_race_free UseCas source events _ s [] Hexec Hw
              Hfree') as (sched & spur & Hp & Hres).
  - cbn [AsyncAlgo.seed_mem set_dist dist].
    apply getDist_insert_eq. lia.
  - apply NoDup_nil_2.
  - done.
  - done.
  - exists sched, spur. split; [by rewrite Hp|].
    unfold AsyncAlgo.operator_seed. by rewrite Hres.
Qed.

(** Every order of the out-edges of the source is the order of the calls
    of a run of the do_all in which no call starts while another waits. *)
Lemma AsyncAlgo_seed_exec_exists (UseCas : bool) (source : GNode)
    (sched : list Edge) :
  forall spur st bag,
    exists events,
      AsyncAlgo.called events = sched /\
      AsyncAlgo.race_free UseCas source events
        (AsyncAlgo.mkSeeding st bag []) = true /\
      AsyncAlgo.seed_exec UseCas source events
        (AsyncAlgo.mkSeeding st bag []) =
      Some (AsyncAlgo.mkSeeding
              (fst (AsyncAlgo.InitialProcess UseCas spur st source sched bag))
              (snd (AsyncAlgo.InitialProcess UseCas spur st source sched bag))
              []).
Proof.
  induction sched as [|ii sched IH]; intros spur st bag.
  { by exists []. }
  cbn [AsyncAlgo.InitialProcess].
  destruct (AsyncAlgo.relaxEdge UseCas (hd 0%nat spur) st
              (getDist (dist st) source) ii bag) as [st1 bag1] eqn:Hrel.
  destruct (IH (tl spur) st1 bag1) as (events & Hc & Ht & He).
  destruct UseCas.
  - exists (AsyncAlgo.Call ii (hd 0%nat spur) :: events).
    cbn [AsyncAlgo.called AsyncAlgo.race_free AsyncAlgo.seed_exec
         AsyncAlgo.seed_step AsyncAlgo.seed_waiting AsyncAlgo.seed_mem
         AsyncAlgo.seed_bag].
    rewrite bool_decide_eq_true_2 by apply not_elem_of_nil.
    rewrite Hrel. by rewrite Hc.
  - rewrite AsyncAlgo_relaxEdge_eq in Hrel.
    destruct (wrap32 (getDist (dist st) source + snd ii) <?
              getDist (dist st) (fst ii)) eqn:Hlt; injection Hrel as <- <-.
    + exists (AsyncAlgo.Call ii 0 :: AsyncAlgo.Store 0 :: events).
      cbn [AsyncAlgo.called AsyncAlgo.race_free AsyncAlgo.seed_exec
           AsyncAlgo.seed_step AsyncAlgo.seed_waiting AsyncAlgo.seed_mem
           AsyncAlgo.seed_bag app lookup list_lookup delete list_delete].
      rewrite bool_decide_eq_true_2 by apply not_elem_of_nil.
      cbv zeta. rewrite Hlt.
      cbn [AsyncAlgo.called AsyncAlgo.race_free AsyncAlgo.seed_exec
           AsyncAlgo.seed_step AsyncAlgo.seed_waiting AsyncAlgo.seed_mem
           AsyncAlgo.seed_bag app lookup list_lookup delete list_delete
           andb].
      by rewrite Hc.
    + exists (AsyncAlgo.Call ii 0 :: events).
      cbn [AsyncAlgo.called AsyncAlgo.race_free AsyncAlgo.seed_exec
           AsyncAlgo.seed_step AsyncAlgo.seed_waiting AsyncAlgo.seed_mem
           AsyncAlgo.seed_bag].
      rewrite bool_decide_eq_true_2 by apply not_elem_of_nil.
      cbv zeta. rewrite Hlt. by rewrite Hc.
Qed.

Lemma AsyncAlgo_do_all_exists (UseCas : bool) (g : Topology)
    (spur : list nat) (st : State) (source : GNode) (sched : list Edge) :
  sched ≡ₚ out_edges g source ->
  exists events,
    AsyncAlgo.called events = sched /\
    AsyncAlgo.calls_race_free UseCas events st source = true /\
    AsyncAlgo.operator_do_all UseCas g events st source =
      Some (AsyncAlgo.operator_seed UseCas spur st source sched).
Proof.
  intros Hperm.
  destruct (AsyncAlgo_seed_exec_exists UseCas source sched spur
              (set_dist st source 0) []) as (events & Hc & Ht & He).
  exists events. split; [done|]. split; [done|].
  unfold AsyncAlgo.operator_do_all. rewrite Hc.
  rewrite bool_decide_eq_true_2 by done. rewrite He.
  cbn [AsyncAlgo.seed_waiting AsyncAlgo.seed_mem AsyncAlgo.seed_bag].
  unfold AsyncAlgo.operator_seed.
  by destruct (AsyncAlgo.InitialProcess _ _ _ _ _ _).
Qed.

(** The same for the do_all of AsyncSetAlgo, whose calls taken one after
    the other are the for loop of relaxNode on the source. *)
Lemma AsyncSetAlgo_relaxEdge_keeps_zero (UseCas : bool) (st : State)
    (sdata : GNode) (ii : Edge) (pusher : list GNode) (source : GNode) :
  getDist (dist st) source = 0 ->
  getDist (dist (fst (AsyncSetAlgo.relaxEdge UseCas st sdata ii pusher)))
    source = 0.
Proof.
  intros H0. rewrite AsyncSetAlgo_relaxEdge_eq.
  destruct (Z.ltb_spec (wrap32 (getDist (dist st) sdata + snd ii))
              (getDist (dist st) (fst ii))) as [Hlt|]; [|done].
  simpl. rewrite dist_track_bad. simpl.
  pose proof (wrap32_range (getDist (dist st) sdata + snd ii)).
  rewrite getDist_insert_ne; [done|]. intros Heq. rewrite Heq in Hlt. lia.
Qed.

Lemma AsyncSetAlgo_relaxEdge_other (UseCas : bool) (st : State)
    (sdata : GNode) (ii : Edge) (pusher : list GNode) (x : GNode) :
  x <> fst ii ->
  getDist (dist (fst (AsyncSetAlgo.relaxEdge UseCas st sdata ii pusher))) x =
  getDist (dist st) x.
Proof.
  intros Hx. rewrite AsyncSetAlgo_relaxEdge_eq.
  destruct (_ <? _); [|done].
  simpl. rewrite dist_track_bad. simpl. by apply getDist_insert_ne.
Qed.

Lemma AsyncSetAlgo_seed_exec_race_free (UseCas : bool) (source : GNode)
    (events : list AsyncSetAlgo.SeedEvent) :
  forall s s' we,
    AsyncSetAlgo.seed_exec UseCas source events s = Some s' ->
    AsyncSetAlgo.seed_waiting s' = [] ->
    AsyncSetAlgo.race_free UseCas source events s = true ->
    getDist (dist (AsyncSetAlgo.seed_mem s)) source = 0 ->
    NoDup (fst <$> we) ->
    AsyncSetAlgo.seed_waiting s = seed_waits (AsyncSetAlgo.seed_mem s) <$> we ->
    Forall (fun e => wrap32 (0 + snd e) <
                     getDist (dist (AsyncSetAlgo.seed_mem s)) (fst e)) we ->
    exists sched,
      sched ≡ₚ we ++ AsyncSetAlgo.called events /\
      (AsyncSetAlgo.seed_mem s', AsyncSetAlgo.seed_bag s') =
      AsyncSetAlgo.relaxNode_for UseCas (AsyncSetAlgo.seed_mem s) source sched
        (AsyncSetAlgo.seed_bag s).
Proof.
  induction events as [|ev events IH];
    intros s s' we Hexec Hw' Hfree H0 Hnd Hwait Himp.
  { injection Hexec as <-. rewrite Hw' in Hwait.
    symmetry in Hwait. apply fmap_nil_inv in Hwait as ->.
    by exists []. }
  cbn [AsyncSetAlgo.seed_exec] in Hexec.
  destruct (AsyncSetAlgo.seed_step UseCas source ev s) as [s1|] eqn:Hstep;
    [|done].
  cbn [AsyncSetAlgo.race_free] in Hfree. rewrite Hstep in Hfree.
  apply andb_true_iff in Hfree as [Hcheck Hfree].
  destruct ev as [ii|k]; cbn [AsyncSetAlgo.seed_step] in Hstep.
  - (* a call starts *)
    cbv zeta in Hstep.
    apply bool_decide_eq_true in Hcheck.
    rewrite Hwait, <- list_fmap_compose in Hcheck.
    cbn [AsyncSetAlgo.called].
    assert (Hatomic :
      forall st1 bag1,
        AsyncSetAlgo.relaxEdge UseCas (AsyncSetAlgo.seed_mem s) source ii
          (AsyncSetAlgo.seed_bag s) = (st1, bag1) ->
        s1 = AsyncSetAlgo.mkSeeding st1 bag1 (AsyncSetAlgo.seed_waiting s) ->
        exists sched,
          sched ≡ₚ we ++ ii :: AsyncSetAlgo.called events /\
          (AsyncSetAlgo.seed_mem s', AsyncSetAlgo.seed_bag s') =
          AsyncSetAlgo.relaxNode_for UseCas (AsyncSetAlgo.seed_mem s) source
            sched (AsyncSetAlgo.seed_bag s)).
    { intros st1 bag1 Hrel ->.
      pose proof (AsyncSetAlgo_relaxEdge_keeps_zero UseCas
                    (AsyncSetAlgo.seed_mem s) source ii
                    (AsyncSetAlgo.seed_bag s) source H0) as Hz1.
      destruct (seed_waits_other (AsyncSetAlgo.seed_mem s) st1 (fst ii) we)
        as [Hw1 Himp1]; [|done|done|].
      { intros y Hy.
        pose proof (AsyncSetAlgo_relaxEdge_other UseCas
                      (AsyncSetAlgo.seed_mem s) source ii
                      (AsyncSetAlgo.seed_bag s) y Hy) as Ho.
        by rewrite Hrel in Ho. }
      rewrite Hrel in Hz1. cbn [fst] in Hz1.
      destruct (IH _ s' we Hexec Hw' Hfree Hz1 Hnd) as
        (sched1 & Hperm1 & Hres1);
        [by cbn [AsyncSetAlgo.seed_waiting AsyncSetAlgo.seed_mem];
            rewrite Hw1
        |done|].
      cbn [AsyncSetAlgo.seed_mem AsyncSetAlgo.seed_bag] in Hres1.
      exists (ii :: sched1). split.
      - rewrite Hperm1. apply Permutation_middle.
      - cbn [AsyncSetAlgo.relaxNode_for]. by rewrite Hrel. }
    destruct UseCas.
    + destruct (AsyncSetAlgo.relaxEdge true _ _ ii _) as [st1 bag1] eqn:Hrel.
      injection Hstep as <-. by apply (Hatomic st1 bag1).
    + rewrite H0 in Hstep.
      destruct (wrap32 (0 + snd ii) <?
                getDist (dist (AsyncSetAlgo.seed_mem s)) (fst ii)) eqn:Hlt.
      * (* the call waits for its store *)
        injection Hstep as <-.
        destruct (IH _ s' (we ++ [ii]) Hexec Hw' Hfree H0)
          as (sched1 & Hperm1 & Hres1).
        { rewrite fmap_app. apply NoDup_app. split; [done|]. split.
          - intros x Hx Hx2. apply list_elem_of_singleton in Hx2 as ->.
            by apply Hcheck.
          - apply NoDup_singleton. }
        { cbn [AsyncSetAlgo.seed_waiting AsyncSetAlgo.seed_mem].
          by rewrite Hwait, fmap_app. }
        { apply Forall_app. split; [done|]. apply Forall_singleton.
          by apply Z.ltb_lt. }
        exists sched1. split; [|done].
        by rewrite Hperm1, <- app_assoc.
      * (* the call returns at its test *)
        injection Hstep as <-. apply (Hatomic (AsyncSetAlgo.seed_mem s)
                                        (AsyncSetAlgo.seed_bag s)).
        -- by rewrite AsyncSetAlgo_relaxEdge_eq, H0, Hlt.
        -- by destruct s.
  - (* a call that waits stores *)
    rewrite Hwait, list_lookup_fmap in Hstep.
    destruct (we !! k) as [e|] eqn:Hk; [|done].
    cbn [fmap option_fmap option_map seed_waits] in Hstep.
    injection Hstep as <-.
    apply list_elem_of_split_length in Hk as (l1 & l2 & -> & ->).
    destruct (seed_waits_store (AsyncSetAlgo.seed_mem s) source l1 l2 e H0 Hnd
                Himp) as (Hz1 & Hnd1 & Hw1 & Himp1).
    assert (He : wrap32 (0 + snd e) <
                 getDist (dist (AsyncSetAlgo.seed_mem s)) (fst e)).
    { apply Forall_app in Himp as [_ Himp].
      by apply Forall_cons in Himp as [? _]. }
    destruct (IH _ s' (l1 ++ l2) Hexec Hw' Hfree Hz1 Hnd1)
      as (sched1 & Hperm1 & Hres1); [|done|].
    { cbn [AsyncSetAlgo.seed_waiting AsyncSetAlgo.seed_mem].
      rewrite Hw1, !fmap_app, fmap_cons.
      rewrite <- (length_fmap (seed_waits (AsyncSetAlgo.seed_mem s)) l1).
      by rewrite delete_middle. }
    cbn [AsyncSetAlgo.seed_mem AsyncSetAlgo.seed_bag AsyncSetAlgo.called]
      in *.
    exists (e :: sched1). split.
    + rewrite Hperm1, <- !app_assoc. cbn [app]. apply Permutation_middle.
    + cbn [AsyncSetAlgo.relaxNode_for].
      rewrite AsyncSetAlgo_relaxEdge_eq, H0.
      apply Z.ltb_lt in He. by rewrite He.
Qed.

Lemma AsyncSetAlgo_race_free_CAS (source : GNode)
    (events : list AsyncSetAlgo.SeedEvent) :
  forall s,
    AsyncSetAlgo.seed_waiting s = [] ->
    AsyncSetAlgo.race_free true source events s = true.
Proof.
  induction events as [|ev events IH]; intros s Hw; [done|].
  cbn [AsyncSetAlgo.race_free]. destruct ev as [ii|k].
  - rewrite Hw, bool_decide_eq_true_2 by apply not_elem_of_nil.
    cbn [AsyncSetAlgo.seed_step andb].
    destruct (AsyncSetAlgo.relaxEdge true _ _ ii _) as [st1 bag1].
    by apply IH.
  - cbn [AsyncSetAlgo.seed_step andb]. by rewrite Hw.
Qed.

Lemma AsyncSetAlgo_do_all_race_free (UseCas : bool) (g : Topology)
    (events : list AsyncSetAlgo.SeedEvent) (st : State) (source : GNode)
    (r : State * list GNode) :
  (source < length (dist st))%nat ->
  (UseCas = false ->
   AsyncSetAlgo.calls_race_free UseCas events st source = true) ->
  AsyncSetAlgo.operator_do_all UseCas g events st source = Some r ->
  exists sched,
    sched ≡ₚ out_edges g source /\
    r = AsyncSetAlgo.relaxNode_for UseCas (set_dist st source 0) source
          sched [].
Proof.
  intros Hsrc Hfree. unfold AsyncSetAlgo.operator_do_all.
  case_bool_decide as Hperm; [|done].
  destruct (AsyncSetAlgo.seed_exec UseCas source events _) as [s|] eqn:Hexec;
    [|done].
  destruct (AsyncSetAlgo.seed_waiting s) eqn:Hw; [|done].
  intros [= <-].
  assert (Hfree' :
    AsyncSetAlgo.race_free UseCas source events
      (AsyncSetAlgo.mkSeeding (set_dist st source 0) [] []) = true).
  { destruct UseCas; [by apply AsyncSetAlgo_race_free_CAS | by apply Hfree]. }
  destruct (AsyncSetAlgo_seed_exec_race_free UseCas source events _ s []
              Hexec Hw Hfree') as (sched & Hp & Hres).
  - cbn [AsyncSetAlgo.seed_mem set_dist dist].
    apply getDist_insert_eq. lia.
  - apply NoDup_nil_2.
  - done.
  - done.
  - exists sched. split; [by rewrite Hp|]. by rewrite Hres.
Qed.

Lemma AsyncSetAlgo_seed_exec_exists (UseCas : bool) (source : GNode)
    (sched : list Edge) :
  forall st bag,
    exists events,
      AsyncSetAlgo.called events = sched /\
      AsyncSetAlgo.race_free UseCas source events
        (AsyncSetAlgo.mkSeeding st bag []) = true /\
      AsyncSetAlgo.seed_exec UseCas source events
        (AsyncSetAlgo.mkSeeding st bag []) =
      Some (AsyncSetAlgo.mkSeeding
              (fst (AsyncSetAlgo.relaxNode_for UseCas st source sched bag))
              (snd (AsyncSetAlgo.relaxNode_for UseCas st source sched bag))
              []).
Proof.
  induction sched as [|ii sched IH]; intros st bag.
  { by exists []. }
  cbn [AsyncSetAlgo.relaxNode_for].
  destruct (AsyncSetAlgo.relaxEdge UseCas st source ii bag) as [st1 bag1]
    eqn:Hrel.
  destruct (IH st1 bag1) as (events & Hc & Ht & He).
  destruct UseCas.
  - exists (AsyncSetAlgo.Call ii :: events).
    cbn [AsyncSetAlgo.called AsyncSetAlgo.race_free AsyncSetAlgo.seed_exec
         AsyncSetAlgo.seed_step AsyncSetAlgo.seed_waiting
         AsyncSetAlgo.seed_mem AsyncSetAlgo.seed_bag].
    rewrite bool_decide_eq_true_2 by apply not_elem_of_nil.
    rewrite Hrel. by rewrite Hc.
  - rewrite AsyncSetAlgo_relaxEdge_eq in Hrel.
    destruct (wrap32 (getDist (dist st) source + snd ii) <?
              getDist (dist st) (fst ii)) eqn:Hlt; injection Hrel as <- <-.
    + exists (AsyncSetAlgo.Call ii :: AsyncSetAlgo.Store 0 :: events).
      cbn [AsyncSetAlgo.called AsyncSetAlgo.race_free AsyncSetAlgo.seed_exec
           AsyncSetAlgo.seed_step AsyncSetAlgo.seed_waiting
           AsyncSetAlgo.seed_mem AsyncSetAlgo.seed_bag app lookup
           list_lookup delete list_delete].
      rewrite bool_decide_eq_true_2 by apply not_elem_of_nil.
      cbv zeta. rewrite Hlt.
      cbn [AsyncSetAlgo.called AsyncSetAlgo.race_free AsyncSetAlgo.seed_exec
           AsyncSetAlgo.seed_step AsyncSetAlgo.seed_waiting
           AsyncSetAlgo.seed_mem AsyncSetAlgo.seed_bag app lookup
           list_lookup delete list_delete andb].
      by rewrite Hc.
    + exists (AsyncSetAlgo.Call ii :: events).
      cbn [AsyncSetAlgo.called AsyncSetAlgo.race_free AsyncSetAlgo.seed_exec
           AsyncSetAlgo.seed_step AsyncSetAlgo.seed_waiting
           AsyncSetAlgo.seed_mem AsyncSetAlgo.seed_bag].
      rewrite bool_decide_eq_true_2 by apply not_elem_of_nil.
      cbv zeta. rewrite Hlt. by rewrite Hc.
Qed.

Lemma AsyncSetAlgo_do_all_exists (UseCas : bool) (g : Topology)
    (st : State) (source : GNode) (sched : list Edge) :
  sched ≡ₚ out_edges g source ->
  exists events,
    AsyncSetAlgo.called events = sched /\
    AsyncSetAlgo.calls_race_free UseCas events st source = true /\
    AsyncSetAlgo.operator_do_all UseCas g events st source =
      Some (AsyncSetAlgo.relaxNode_for UseCas (set_dist st source 0) source
              sched []).
Proof.
  intros Hperm.
  destruct (AsyncSetAlgo_seed_exec_exists UseCas source sched
              (set_dist st source 0) []) as (events & Hc & Ht & He).
  exists events. split; [done|]. split; [done|].
  unfold AsyncSetAlgo.operator_do_all. rewrite Hc.
  rewrite bool_decide_eq_true_2 by done. rewrite He.
  cbn [AsyncSetAlgo.seed_waiting AsyncSetAlgo.seed_mem AsyncSetAlgo.seed_bag].
  by destruct (AsyncSetAlgo.relaxNode_for _ _ _ _ _).
Qed.

(** Without parallel edges out of the source no run of the do_all has a
    race: the calls that wait are on edges into different nodes. *)
Lemma AsyncAlgo_race_free_NoDup (UseCas : bool) (source : GNode)
    (events : list AsyncAlgo.SeedEvent) :
  forall s,
    NoDup (((fun w => fst (fst w)) <$> AsyncAlgo.seed_waiting s) ++
           (fst <$> AsyncAlgo.called events)) ->
    AsyncAlgo.race_free UseCas source events s = true.
Proof.
  induction events as [|ev events IH]; intros s Hnd; [done|].
  cbn [AsyncAlgo.race_free]. destruct ev as [ii sp|k].
  - cbn [AsyncAlgo.called] in Hnd. rewrite fmap_cons in Hnd.
    pose proof Hnd as Hnd0.
    apply NoDup_app in Hnd0 as (_ & Hdisj & _).
    rewrite bool_decide_eq_true_2.
    2:{ intros Hin. apply (Hdisj _ Hin), list_elem_of_here. }
    assert (Hrest : NoDup (((fun w => fst (fst w)) <$>
                            AsyncAlgo.seed_waiting s) ++
                           (fst <$> AsyncAlgo.called events))).
    { rewrite <- Permutation_middle in Hnd.
      by apply NoDup_cons in Hnd as [_ ?]. }
    cbn [AsyncAlgo.seed_step andb]. cbv zeta. destruct UseCas.
    + destruct (AsyncAlgo.relaxEdge true sp _ _ ii _) as [st1 bag1].
      by apply IH.
    + destruct (_ <? _); [|by apply IH].
      apply IH. cbn [AsyncAlgo.seed_waiting].
      rewrite fmap_app, <- app_assoc. exact Hnd.
  - cbn [AsyncAlgo.seed_step andb AsyncAlgo.called] in *.
    destruct (AsyncAlgo.seed_waiting s !! k) as [[[dst nd] od]|] eqn:Hk;
      [|done].
    apply IH. cbn [AsyncAlgo.seed_waiting].
    apply list_elem_of_split_length in Hk as (l1 & l2 & Heq & ->).
    rewrite Heq in Hnd |- *. rewrite delete_middle.
    rewrite !fmap_app, fmap_cons in Hnd. rewrite fmap_app.
    rewrite <- app_assoc in Hnd |- *. cbn [app] in Hnd.
    rewrite <- Permutation_middle in Hnd.
    by apply NoDup_cons in Hnd as [_ ?].
Qed.

Lemma AsyncAlgo_simple_race_free (UseCas : bool) (g : Topology)
    (events : list AsyncAlgo.SeedEvent) (st : State) (source : GNode) :
  NoDup (fst <$> out_edges g source) ->
  AsyncAlgo.called events ≡ₚ out_edges g source ->
  AsyncAlgo.calls_race_free UseCas events st source = true.
Proof.
  intros Hnd Hperm. apply AsyncAlgo_race_free_NoDup.
  cbn [AsyncAlgo.seed_waiting fmap list_fmap app]. by rewrite Hperm.
Qed.

Lemma AsyncSetAlgo_race_free_NoDup (UseCas : bool) (source : GNode)
    (events : list AsyncSetAlgo.SeedEvent) :
  forall s,
    NoDup (((fun w => fst (fst w)) <$> AsyncSetAlgo.seed_waiting s) ++
           (fst <$> AsyncSetAlgo.called events)) ->
    AsyncSetAlgo.race_free UseCas source events s = true.
Proof.
  induction events as [|ev events IH]; intros s Hnd; [done|].
  cbn [AsyncSetAlgo.race_free]. destruct ev as [ii|k].
  - cbn [AsyncSetAlgo.called] in Hnd. rewrite fmap_cons in Hnd.
    pose proof Hnd as Hnd0.
    apply NoDup_app in Hnd0 as (_ & Hdisj & _).
    rewrite bool_decide_eq_true_2.
    2:{ intros Hin. apply (Hdisj _ Hin), list_elem_of_here. }
    assert (Hrest : NoDup (((fun w => fst (fst w)) <$>
                            AsyncSetAlgo.seed_waiting s) ++
                           (fst <$> AsyncSetAlgo.called events))).
    { rewrite <- Permutation_middle in Hnd.
      by apply NoDup_cons in Hnd as [_ ?]. }
    cbn [AsyncSetAlgo.seed_step andb]. cbv zeta. destruct UseCas.
    + destruct (AsyncSetAlgo.relaxEdge true _ _ ii _) as [st1 bag1].
      by apply IH.
    + destruct (_ <? _); [|by apply IH].
      apply IH. cbn [AsyncSetAlgo.seed_waiting].
      rewrite fmap_app, <- app_assoc. exact Hnd.
  - cbn [AsyncSetAlgo.seed_step andb AsyncSetAlgo.called] in *.
    destruct (AsyncSetAlgo.seed_waiting s !! k) as [[[dst nd] od]|] eqn:Hk;
      [|done].
    apply IH. cbn [AsyncSetAlgo.seed_waiting].
    apply list_elem_of_split_length in Hk as (l1 & l2 & Heq & ->).
    rewrite Heq in Hnd |- *. rewrite delete_middle.
    rewrite !fmap_app, fmap_cons in Hnd. rewrite fmap_app.
    rewrite <- app_assoc in Hnd |- *. cbn [app] in Hnd.
    rewrite <- Permutation_middle in Hnd.
    by apply NoDup_cons in Hnd as [_ ?].
Qed.

Lemma AsyncSetAlgo_simple_race_free (UseCas : bool) (g : Topology)
    (events : list AsyncSetAlgo.SeedEvent) (st : State) (source : GNode) :
  NoDup (fst <$> out_edges g source) ->
  AsyncSetAlgo.called events ≡ₚ out_edges g source ->
  AsyncSetAlgo.calls_race_free UseCas events st source = true.
Proof.
  intros Hnd Hperm. apply AsyncSetAlgo_race_free_NoDup.
  cbn [AsyncSetAlgo.seed_waiting fmap list_fmap app]. by rewrite Hperm.
Qed.






(** ** Loading an edge list *)

Lemma edge_words_length (is_void : bool) (recs : list (Z * Z * Z)) :
  Z.of_nat (length (flat_map (DistGraphConvert.edge_words is_void) recs)) =
  DistGraphConvert.stride is_void * Z.of_nat (length recs).
Proof.
  induction recs as [|[[src dst] data] recs IH]; [simpl; lia|].
  cbn [flat_map]. rewrite length_app.
  unfold DistGraphConvert.stride in *. destruct is_void; simpl in *; lia.
Qed.

Lemma load_loop_inv (Stream : Type) (tellg : Stream -> Z)
    (extract : Stream -> Z * Stream) (is_void : bool)
    (localEndByte totalNumNodes : Z) (fuel : nat) :
  forall f recs cnt v k,
    Forall (fun e => fst (fst e) < totalNumNodes /\
                     snd (fst e) < totalNumNodes) recs ->
    DistGraphConvert.load_loop Stream tellg extract fuel is_void f
      localEndByte totalNumNodes
      (flat_map (DistGraphConvert.edge_words is_void) recs) cnt =
      Some (DistGraphConvert.ReturnedEdges v k) ->
    exists recs',
      v = flat_map (DistGraphConvert.edge_words is_void) recs' /\
      Forall (fun e => fst (fst e) < totalNumNodes /\
                       snd (fst e) < totalNumNodes) recs' /\
      k = DistGraphConvert.getNumEdges is_void v.
Proof.
  assert (Hexit : forall recs cnt v k,
    Forall (fun e => fst (fst e) < totalNumNodes /\
                     snd (fst e) < totalNumNodes) recs ->
    (if cnt =? DistGraphConvert.getNumEdges is_void
                 (flat_map (DistGraphConvert.edge_words is_void) recs)
     then Some (DistGraphConvert.ReturnedEdges
                  (flat_map (DistGraphConvert.edge_words is_void) recs) cnt)
     else Some DistGraphConvert.AssertFailed) =
    Some (DistGraphConvert.ReturnedEdges v k) ->
    exists recs',
      v = flat_map (DistGraphConvert.edge_words is_void) recs' /\
      Forall (fun e => fst (fst e) < totalNumNodes /\
                       snd (fst e) < totalNumNodes) recs' /\
      k = DistGraphConvert.getNumEdges is_void v).
  { intros recs cnt v k Hrecs Hret.
    destruct (Z.eqb_spec cnt (DistGraphConvert.getNumEdges is_void
                (flat_map (DistGraphConvert.edge_words is_void) recs)));
      [|done].
    inversion Hret; subst. by exists recs. }
  induction fuel as [|fuel IH]; intros f recs cnt v k Hrecs Hret;
    cbn [DistGraphConvert.load_loop] in Hret;
    destruct (DistGraphConvert.wrap64 (tellg f + 1) =? localEndByte);
    try exact (Hexit recs cnt v k Hrecs Hret); try done.
  destruct (extract f) as [src f1]. destruct (extract f1) as [dst f2].
  destruct (Z.ltb_spec src totalNumNodes) as [Hsrc|]; [|done].
  destruct (Z.ltb_spec dst totalNumNodes) as [Hdst|]; [|done].
  cbn [negb] in Hret.
  destruct is_void; cbn [negb] in Hret.
  - apply (IH f2 (recs ++ [(src, dst, 0)])
               (DistGraphConvert.wrap64 (cnt + 1)) v k).
    + apply Forall_app. split; [done|]. by repeat constructor.
    + rewrite flat_map_app. simpl. exact Hret.
  - destruct (extract f2) as [edgeData f3].
    apply (IH f3 (recs ++ [(src, dst, edgeData)])
             (DistGraphConvert.wrap64 (cnt + 1)) v k).
    + apply Forall_app. split; [done|]. by repeat constructor.
    + rewrite flat_map_app. simpl.
      rewrite <- app_assoc in Hret. exact Hret.
Qed.

(** C10.  A load that returns gives a vector that is the sequence of the
    edges read, each laid out as source, destination and (unless the
    edge-data type is void) edge data, with every source and destination
    below totalNumNodes; its length is 2 times the number of edges read
    when the edge-data type is void and 3 times that number otherwise,
    and getNumEdges gives back that number, which is also the count the
    loader prints. *)
Theorem load_returns_checked_edges (Stream : Type) (tellg : Stream -> Z)
    (seekg : Z -> Stream -> Stream) (extract : Stream -> Z * Stream)
    (fuel : nat) (is_void : bool) (edgeListFile : Stream)
    (localStartByte localEndByte totalNumNodes : Z)
    (v : list Z) (k : Z) :
  DistGraphConvert.loadEdgesFromEdgeList Stream tellg seekg extract fuel
    is_void edgeListFile localStartByte localEndByte totalNumNodes =
    Some (DistGraphConvert.ReturnedEdges v k) ->
  exists edges : list (Z * Z * Z),
    v = flat_map (DistGraphConvert.edge_words is_void) edges /\
    Forall (fun e => fst (fst e) < totalNumNodes /\
                     snd (fst e) < totalNumNodes) edges /\
    Z.of_nat (length v) =
      (if is_void then 2 else 3) * Z.of_nat (length edges) /\
    DistGraphConvert.getNumEdges is_void v = Z.of_nat (length edges) /\
    k = Z.of_nat (length edges).
Proof.
  unfold DistGraphConvert.loadEdgesFromEdgeList. intros Hret.
  apply (load_loop_inv Stream tellg extract is_void localEndByte
           totalNumNodes fuel _ []) in Hret; [|constructor].
  destruct Hret as (edges & -> & Hok & ->). exists edges.
  pose proof (edge_words_length is_void edges) as Hlen.
  assert (Hnum : DistGraphConvert.getNumEdges is_void
                   (flat_map (DistGraphConvert.edge_words is_void) edges) =
                 Z.of_nat (length edges)).
  { unfold DistGraphConvert.getNumEdges. rewrite Hlen.
    unfold DistGraphConvert.stride.
    destruct is_void; rewrite Z.mul_comm; by apply Z.div_mul. }
  repeat split; try done.
Qed.

Lemma load_returns_checked_edges_witness :
  DistGraphConvert.loadEdgesFromEdgeList DistGraphConvert.TokenStream
    DistGraphConvert.token_tellg DistGraphConvert.token_seekg
    DistGraphConvert.token_extract 5 false DistGraphConvert.two_edges
    0 12 2 =
    Some (DistGraphConvert.ReturnedEdges [0; 1; 5; 1; 0; 7] 2) /\
  DistGraphConvert.getNumEdges false [0; 1; 5; 1; 0; 7] = 2.
Proof.
  assert (H : DistGraphConvert.loadEdgesFromEdgeList
                DistGraphConvert.TokenStream
                DistGraphConvert.token_tellg DistGraphConvert.token_seekg
                DistGraphConvert.token_extract 5 false
                DistGraphConvert.two_edges 0 12 2 =
              Some (DistGraphConvert.ReturnedEdges [0; 1; 5; 1; 0; 7] 2))
    by (by vm_compute).
  split; [exact H|].
  destruct (load_returns_checked_edges _ _ _ _ _ _ _ _ _ _ _ _ H)
    as (edges & _ & _ & _ & Hnum & Hk).
  by rewrite Hnum, <- Hk.
Defined.

(** ** Lists changed at one index *)

Lemma elem_of_delete_other {A : Type} (l : list A) (i : nat) (x y : A) :
  l !! i = Some y -> x ∈ l -> x <> y -> x ∈ delete i l.
Proof.
  intros Hi Hx Hne. apply list_elem_of_lookup in Hx as [j Hj].
  assert (j <> i) by (intros ->; congruence).
  apply list_elem_of_lookup. destruct (decide (j < i)%nat).
  - exists j. by rewrite list_lookup_delete_lt.
  - exists (j - 1)%nat. rewrite list_lookup_delete_ge by lia.
    by replace (S (j - 1)) with j by lia.
Qed.

Lemma elem_of_insert_inv {A : Type} (l : list A) (i : nat) (x y : A) :
  x ∈ <[i := y]> l -> x = y \/ x ∈ l.
Proof.
  intros Hx. destruct (decide (i < length l)%nat) as [Hlt|Hge].
  - apply list_elem_of_lookup in Hx as [j Hj].
    destruct (decide (i = j)) as [->|Hne].
    + rewrite list_lookup_insert_eq in Hj by done. left. congruence.
    + rewrite list_lookup_insert_ne in Hj by done.
      right. by eapply list_elem_of_lookup_2.
  - rewrite list_insert_ge in Hx by lia. by right.
Qed.

Lemma elem_of_insert_other {A : Type} (l : list A) (i : nat) (x y z : A) :
  l !! i = Some z -> x ∈ l -> x <> z -> x ∈ <[i := y]> l.
Proof.
  intros Hi Hx Hne. apply list_elem_of_lookup in Hx as [j Hj].
  assert (i <> j) by (intros ->; congruence).
  apply list_elem_of_lookup. exists j. by rewrite list_lookup_insert_ne.
Qed.

Lemma elem_of_insert_here {A : Type} (l : list A) (i : nat) (y z : A) :
  l !! i = Some z -> y ∈ <[i := y]> l.
Proof.
  intros Hi. apply list_elem_of_insert. by eapply lookup_lt_Some.
Qed.

(** A list of distinct numbers below [n] has at most [n] elements. *)
Lemma NoDup_bounded_length (n : nat) :
  forall l : list nat, NoDup l -> (forall x, x ∈ l -> (x < n)%nat) ->
                       (length l <= n)%nat.
Proof.
  induction n as [|n IH]; intros l Hnd Hlt.
  - destruct l as [|x l]; [done|].
    specialize (Hlt x (list_elem_of_here _ _)). lia.
  - destruct (decide (n ∈ l)) as [Hin|Hout].
    + apply list_elem_of_split in Hin as (l1 & l2 & ->).
      apply NoDup_app in Hnd as (Hnd1 & Hdisj & Hnd2).
      apply NoDup_cons in Hnd2 as [Hn2 Hnd2].
      rewrite length_app. simpl.
      assert (length (l1 ++ l2) <= n)%nat; [|rewrite length_app in *; lia].
      apply IH.
      * apply NoDup_app. split; [done|]. split; [|done].
        intros x Hx1 Hx2. apply (Hdisj x Hx1). by apply list_elem_of_further.
      * intros x Hx. apply elem_of_app in Hx.
        assert (x <> n).
        { intros ->. destruct Hx as [Hx|Hx]; [|done].
          apply (Hdisj n Hx). apply list_elem_of_here. }
        assert (x < S n)%nat; [|lia].
        apply Hlt. apply elem_of_app. destruct Hx; [by left|].
        right. by apply list_elem_of_further.
    + assert (length l <= n)%nat; [|lia]. apply IH; [done|].
      intros x Hx. assert (x <> n) by (intros ->; done).
      specialize (Hlt x Hx). lia.
Qed.

Lemma fold_max_bound (l : list Z) (x : Z) :
  x ∈ l -> x <= fold_right Z.max 0 l.
Proof.
  induction l as [|y l IH]; intros Hx; [by apply elem_of_nil in Hx|].
  simpl. apply elem_of_cons in Hx as [->|Hx]; [lia|].
  specialize (IH Hx). lia.
Qed.

Lemma elem_of_concat_lookup {A : Type} (ls : list (list A)) (i : nat)
    (l : list A) (x : A) :
  ls !! i = Some l -> x ∈ l -> x ∈ concat ls.
Proof.
  revert i. induction ls as [|l0 ls IH]; intros i Hi Hx; [done|].
  simpl. apply elem_of_app. destruct i as [|i]; simpl in Hi.
  - left. congruence.
  - right. by eapply IH.
Qed.

Lemma length_concat_lookup {A : Type} (ls : list (list A)) (i : nat)
    (l : list A) :
  ls !! i = Some l -> (length l <= length (concat ls))%nat.
Proof.
  revert i. induction ls as [|l0 ls IH]; intros i Hi; [done|].
  simpl. rewrite length_app. destruct i as [|i]; simpl in Hi.
  - inversion Hi; subst. lia.
  - specialize (IH i Hi). lia.
Qed.

Lemma sum_dist_nonneg (d : list Dist) : dist_in_range d -> 0 <= sum_dist d.
Proof.
  induction 1 as [|x d Hx _ IH]; simpl; lia.
Qed.

Lemma sum_dist_insert (d : list Dist) :
  forall (x : GNode) (y : Dist),
    (x < length d)%nat ->
    sum_dist (<[x := y]> d) = sum_dist d - getDist d x + y.
Proof.
  induction d as [|z d IH]; intros x y Hx; simpl in Hx; [lia|].
  destruct x as [|x]; simpl.
  - unfold getDist. simpl. lia.
  - rewrite IH by lia. unfold getDist. simpl. lia.
Qed.

Lemma tasks_cost_nonneg {A : Type} (ts : list (A * list Edge)) :
  0 <= tasks_cost ts.
Proof. induction ts as [|t ts IH]; simpl; lia. Qed.

(** ** Paths and solutions *)

Section Relaxation.
Variable g : Topology.
Variable src : GNode.
Hypothesis Hwf : wf_graph g.
Hypothesis Hsrc : (src < length g)%nat.

Lemma out_edges_wf (u : GNode) (e : Edge) :
  e ∈ out_edges g u ->
  (u < length g)%nat /\ (fst e < length g)%nat /\
  0 <= snd e <= max_weight g /\ snd e < 2 ^ 32.
Proof.
  unfold out_edges. destruct (g !! u) as [es|] eqn:Hu; simpl;
    [|intros Hin; by apply elem_of_nil in Hin].
  intros Hin. split; [by eapply lookup_lt_Some|].
  pose proof (Forall_lookup_1 _ _ _ _ Hwf Hu) as Hes.
  destruct (proj1 (Forall_forall _ _) Hes e Hin) as [Hdst Hw].
  split; [done|]. split; [|lia]. split; [lia|].
  unfold max_weight. apply fold_max_bound.
  apply list_elem_of_In, in_map, list_elem_of_In.
  by eapply elem_of_concat_lookup.
Qed.

Lemma out_degree_bound (u : GNode) :
  (length (out_edges g u) <= length (concat g))%nat.
Proof.
  unfold out_edges. destruct (g !! u) as [es|] eqn:Hu; simpl; [|lia].
  by eapply length_concat_lookup.
Qed.

Lemma Path_mono (d d' : list Dist) (v : GNode) (a : Z) (vs : list GNode) :
  (forall x, getDist d' x <= getDist d x) ->
  Path g src d v a vs -> Path g src d' v a vs.
Proof.
  intros Hle. induction 1 as [|u v w a vs _ IH Hin Hu Hnot];
    [constructor|].
  constructor; try done. specialize (Hle u). lia.
Qed.

Lemma realized_mono (d d' : list Dist) (v : GNode) (a : Z) :
  (forall x, getDist d' x <= getDist d x) ->
  realized g src d v a -> realized g src d' v a.
Proof. intros Hle [vs Hp]. exists vs. by eapply Path_mono. Qed.

(** Along a path the distances of the vertices left behind are bounded by
    the length of the path. *)
Lemma Path_prefix (d : list Dist) (v : GNode) (a : Z) (vs : list GNode) :
  Path g src d v a vs ->
  0 <= a /\ forall x, x ∈ vs -> getDist d x <= a.
Proof.
  induction 1 as [|u v w a vs _ [IH0 IH] Hin Hu Hnot].
  - split; [lia|]. intros x Hx. by apply elem_of_nil in Hx.
  - destruct (out_edges_wf _ _ Hin) as (_ & _ & Hw & _). simpl in Hw.
    split; [lia|]. intros x Hx.
    apply elem_of_cons in Hx as [->|Hx]; [lia|].
    specialize (IH x Hx). lia.
Qed.

Lemma Path_vertices (d : list Dist) (v : GNode) (a : Z) (vs : list GNode) :
  Path g src d v a vs ->
  NoDup (v :: vs) /\ (forall x, x ∈ v :: vs -> (x < length g)%nat) /\
  a <= Z.of_nat (length vs) * max_weight g.
Proof.
  induction 1 as [|u v w a vs _ (IHnd & IHlt & IHa) Hin Hu Hnot].
  - split; [apply NoDup_singleton|]. split; [|simpl; lia].
    intros x Hx. apply list_elem_of_singleton in Hx as ->. done.
  - destruct (out_edges_wf _ _ Hin) as (_ & Hv & Hw & _). simpl in Hv, Hw.
    split; [by apply NoDup_cons|]. split.
    + intros x Hx. apply elem_of_cons in Hx as [->|Hx]; [done|].
      by apply IHlt.
    + cbn [length]. lia.
Qed.

Lemma Path_SimplePath (d : list Dist) (v : GNode) (a : Z)
    (vs : list GNode) :
  Path g src d v a vs -> SimplePath g src v a vs.
Proof. induction 1; by constructor. Qed.

Lemma SimplePath_vertices (v : GNode) (a : Z) (vs : list GNode) :
  SimplePath g src v a vs ->
  NoDup (v :: vs) /\ (forall x, x ∈ v :: vs -> (x < length g)%nat) /\
  0 <= a <= Z.of_nat (length vs) * max_weight g.
Proof.
  induction 1 as [|u v w a vs _ (IHnd & IHlt & IHa) Hin Hnot].
  - split; [apply NoDup_singleton|]. split; [|simpl; lia].
    intros x Hx. apply list_elem_of_singleton in Hx as ->. done.
  - destruct (out_edges_wf _ _ Hin) as (_ & Hv & Hw & _). simpl in Hv, Hw.
    split; [by apply NoDup_cons|]. split.
    + intros x Hx. apply elem_of_cons in Hx as [->|Hx]; [done|].
      by apply IHlt.
    + cbn [length]. lia.
Qed.

(** A graph on which the number of nodes times the largest weight is
    below 2^32 is one on which the sums fit. *)
Lemma no_overflow_sums_fit : no_overflow g -> sums_fit g src.
Proof.
  intros Hov u a vs e Hp Hin.
  destruct (SimplePath_vertices _ _ _ Hp) as (Hnd & Hlt & Hbound).
  destruct (out_edges_wf _ _ Hin) as (_ & _ & Hw & _).
  pose proof (NoDup_bounded_length _ _ Hnd Hlt) as Hlen.
  cbn [length] in Hlen. unfold no_overflow in Hov. nia.
Qed.

Hypothesis Hno : sums_fit g src.

(** The length of a path and one more edge fit in 32 bits. *)
Lemma Path_no_overflow (d : list Dist) (u : GNode) (a : Z) (vs : list GNode)
    (e : Edge) :
  Path g src d u a vs -> e ∈ out_edges g u ->
  0 <= a + snd e < 2 ^ 32.
Proof.
  intros Hp Hin.
  destruct (Path_prefix _ _ _ _ Hp) as [Ha _].
  destruct (out_edges_wf _ _ Hin) as (_ & _ & Hw & _).
  split; [lia|]. apply (Hno u a vs e); [|done]. by eapply Path_SimplePath.
Qed.

(** Extending a path by an edge that improves its destination. *)
Lemma realized_extend (d : list Dist) (u : GNode) (a : Z) (e : Edge) :
  realized g src d u a -> getDist d u <= a -> e ∈ out_edges g u ->
  a + snd e < getDist d (fst e) ->
  realized g src d (fst e) (a + snd e).
Proof.
  intros [vs Hp] Hu Hin Hlt. exists (u :: vs). destruct e as [v w].
  simpl in *. constructor; try done.
  destruct (Path_prefix _ _ _ _ Hp) as [Ha Hpre].
  destruct (out_edges_wf _ _ Hin) as (_ & _ & Hw & _). simpl in Hw.
  intros Hv. apply elem_of_cons in Hv as [->|Hv]; [lia|].
  specialize (Hpre v Hv). lia.
Qed.

(** A closed array is below the length of every path from the source. *)
Lemma closed_below_path (d1 d2 : list Dist) (v : GNode) (a : Z)
    (vs : list GNode) :
  dist_in_range d2 -> getDist d2 src = 0 ->
  (forall u e, getDist d2 u <> DIST_INFINITY -> e ∈ out_edges g u ->
               closed_edge d2 u e) ->
  Path g src d1 v a vs -> a < DIST_INFINITY -> getDist d2 v <= a.
Proof.
  intros Hrg H0 Hclosed. induction 1 as [|u v w a vs Hp IH Hin Hu Hnot];
    intros Ha; [lia|].
  destruct (out_edges_wf _ _ Hin) as (_ & _ & Hw & _). simpl in Hw.
  pose proof (getDist_range d2 u Hrg) as Hur.
  assert (Hdu : getDist d2 u <= a) by (apply IH; lia).
  assert (Hfin : getDist d2 u <> DIST_INFINITY) by lia.
  specialize (Hclosed u (v, w) Hfin Hin). unfold closed_edge in Hclosed.
  simpl in Hclosed. rewrite wrap32_small in Hclosed; [lia|].
  unfold DIST_INFINITY in *. lia.
Qed.

(** Two solutions agree: the result does not depend on the order of the
    relaxations. *)
Lemma solution_below (d1 d2 : list Dist) (v : GNode) :
  Solution g src d1 -> Solution g src d2 ->
  getDist d1 v <> DIST_INFINITY -> getDist d2 v <= getDist d1 v.
Proof.
  intros S1 S2 Hfin. destruct (sol_realized _ _ _ S1 v Hfin) as [vs Hp].
  pose proof (getDist_range d1 v (sol_range _ _ _ S1)) as Hr.
  eapply closed_below_path; eauto using sol_range, sol_source, sol_closed.
  lia.
Qed.

Lemma solution_unique (d1 d2 : list Dist) :
  Solution g src d1 -> Solution g src d2 -> d1 = d2.
Proof.
  intros S1 S2.
  assert (Heq : forall v, getDist d1 v = getDist d2 v).
  { intros v.
    pose proof (getDist_range d1 v (sol_range _ _ _ S1)) as Hr1.
    pose proof (getDist_range d2 v (sol_range _ _ _ S2)) as Hr2.
    destruct (decide (getDist d1 v = DIST_INFINITY)) as [H1|H1];
      destruct (decide (getDist d2 v = DIST_INFINITY)) as [H2|H2].
    - congruence.
    - pose proof (solution_below d2 d1 v S2 S1 H2). lia.
    - pose proof (solution_below d1 d2 v S1 S2 H1). lia.
    - pose proof (solution_below d2 d1 v S2 S1 H2).
      pose proof (solution_below d1 d2 v S1 S2 H1). lia. }
  apply list_eq. intros i. specialize (Heq i). unfold getDist in Heq.
  pose proof (sol_length _ _ _ S1) as L1.
  pose proof (sol_length _ _ _ S2) as L2.
  destruct (decide (i < length g)%nat) as [Hi|Hi].
  - destruct (lookup_lt_is_Some_2 d1 i) as [x Hx]; [lia|].
    destruct (lookup_lt_is_Some_2 d2 i) as [y Hy]; [lia|].
    rewrite Hx, Hy in *. simpl in Heq. congruence.
  - rewrite !lookup_ge_None_2 by lia. done.
Qed.

(** One relaxation that lowers a distance, from a reached vertex whose
    distance is the length of a path. *)
Lemma relax_improving (d : list Dist) (u : GNode) (e : Edge) :
  length d = length g -> dist_in_range d -> getDist d src = 0 ->
  (forall x, getDist d x <> DIST_INFINITY ->
             realized g src d x (getDist d x)) ->
  getDist d u <> DIST_INFINITY -> e ∈ out_edges g u ->
  wrap32 (getDist d u + snd e) = getDist d u + snd e /\
  (getDist d u + snd e < getDist d (fst e) ->
   let d' := <[fst e := getDist d u + snd e]> d in
   length d' = length g /\ dist_in_range d' /\ getDist d' src = 0 /\
   (forall x, getDist d' x <> DIST_INFINITY ->
              realized g src d' x (getDist d' x)) /\
   getDist d' (fst e) = getDist d u + snd e /\
   fst e <> u /\
   (forall x, x <> fst e -> getDist d' x = getDist d x) /\
   (forall x, getDist d' x <= getDist d x)).
Proof.
  intros Hlen Hrg H0 Hreal Hfin Hin.
  destruct (Hreal u Hfin) as [vs Hp].
  pose proof (Path_no_overflow _ _ _ _ _ Hp Hin) as Hsum.
  destruct (out_edges_wf _ _ Hin) as (_ & Hv & Hw & _).
  pose proof (getDist_range d (fst e) Hrg) as Hvr.
  pose proof (getDist_range d u Hrg) as Hur.
  split; [by apply wrap32_small|]. intros Hlt d'.
  assert (Hle : forall x, getDist d' x <= getDist d x).
  { intros x. apply getDist_insert_le. lia. }
  assert (Hv' : getDist d' (fst e) = getDist d u + snd e).
  { apply getDist_insert_eq. lia. }
  assert (Hother : forall x, x <> fst e -> getDist d' x = getDist d x).
  { intros x Hx. by apply getDist_insert_ne. }
  split; [by unfold d'; rewrite length_insert|].
  split. { apply dist_in_range_insert; [done|]. lia. }
  split. { rewrite Hother; [done|]. intros ->. lia. }
  split; [|split; [done|split; [|done]]].
  - intros x Hx. destruct (decide (x = fst e)) as [->|Hne].
    + rewrite Hv'. apply (realized_mono d d'); [done|].
      apply (realized_extend d u); [by exists vs|lia|done|done].
    + rewrite Hother by done. apply (realized_mono d d'); [done|].
      apply Hreal. by rewrite <- Hother.
  - intros Heq. rewrite Heq in Hlt. lia.
Qed.

(** ** The work list of AsyncAlgo keeps its invariant *)

Lemma AsyncAlgo_stale_false (st : State) (q : UpdateRequest) :
  AsyncAlgo.stale st q = false <->
  q = mkReq (req_n q) (getDist (dist st) (req_n q)).
Proof.
  unfold AsyncAlgo.stale. destruct q as [n w]. simpl.
  destruct (Z.eqb_spec w (getDist (dist st) n)); simpl.
  - split; [congruence|done].
  - split; [done|]. intros Heq. inversion Heq. done.
Qed.

Variable UseCas : bool.

Lemma AsyncAlgo_Pop_preserves (r r' : AsyncAlgo.Run) (i : nat) :
  AsyncAlgo_Inv g src r ->
  AsyncAlgo.step UseCas g (AsyncAlgo.Pop i) r = Some r' ->
  AsyncAlgo_Inv g src r'.
Proof.
  intros [Hlen Hrg H0 Hreal Hwl Htasks Hcov] Hstep. simpl in Hstep.
  destruct (AsyncAlgo.wl r !! i) as [req|] eqn:Hi; [|done].
  assert (Hreq : req ∈ AsyncAlgo.wl r) by by eapply list_elem_of_lookup_2.
  destruct (AsyncAlgo.stale (AsyncAlgo.mem r) req) eqn:Hst;
    inversion Hstep; subst r'; clear Hstep;
    constructor; simpl; try done.
  - intros q Hq. apply Hwl. by eapply list_elem_of_delete_inv.
  - intros u e Hfin Hin.
    destruct (Hcov u e Hfin Hin) as [Hc|[Hq|Ht]]; unfold AsyncAlgo_covered;
      simpl; [by left| |by right; right].
    right; left. eapply elem_of_delete_other; [done|done|].
    intros <-. rewrite (proj2 (AsyncAlgo_stale_false _ _)) in Hst; done.
  - intros q Hq. apply Hwl. by eapply list_elem_of_delete_inv.
  - intros q rest Hq. apply elem_of_app in Hq as [Hq|Hq]; [by apply Htasks|].
    apply list_elem_of_singleton in Hq. inversion Hq; subst.
    split; [by apply Hwl|done].
  - intros u e Hfin Hin.
    destruct (Hcov u e Hfin Hin) as [Hc|[Hq|(rest & Ht & He)]];
      unfold AsyncAlgo_covered; simpl; [by left| |].
    + destruct (decide (mkReq u (getDist (dist (AsyncAlgo.mem r)) u) = req))
        as [<-|Hne].
      * right; right. exists (out_edges g u). split; [|done].
        apply elem_of_app. right. by apply list_elem_of_singleton.
      * right; left. by eapply elem_of_delete_other.
    + right; right. exists rest. split; [|done].
      apply elem_of_app. by left.
Qed.

Lemma AsyncAlgo_Iter_preserves (r r' : AsyncAlgo.Run) (j spurious : nat) :
  AsyncAlgo_Inv g src r ->
  AsyncAlgo.step UseCas g (AsyncAlgo.Iter j spurious) r = Some r' ->
  AsyncAlgo_Inv g src r'.
Proof.
  intros [Hlen Hrg H0 Hreal Hwl Htasks Hcov] Hstep. simpl in Hstep.
  destruct (AsyncAlgo.tasks r !! j) as [[req edges]|] eqn:Hj; [|done].
  assert (Hin_t : (req, edges) ∈ AsyncAlgo.tasks r)
    by by eapply list_elem_of_lookup_2.
  destruct (Htasks _ _ Hin_t) as [Hw Hsub].
  set (d := dist (AsyncAlgo.mem r)) in *.
  destruct edges as [|ii rest].
  { (* the scan is over *)
    inversion Hstep; subst r'; clear Hstep. constructor; simpl; try done.
    - intros q rest Hq. apply Htasks. by eapply list_elem_of_delete_inv.
    - intros u e Hfin Hin.
      destruct (Hcov u e Hfin Hin) as [Hc|[Hq|(rest & Ht & He)]];
        unfold AsyncAlgo_covered; simpl; [by left|by right; left|].
      right; right. exists rest. split; [|done].
      eapply elem_of_delete_other; [done|done|].
      intros Heq. inversion Heq; subst. by apply elem_of_nil in He. }
  unfold AsyncAlgo.for_body in Hstep.
  destruct (AsyncAlgo.stale (AsyncAlgo.mem r) req) eqn:Hst.
  { (* the request is stale: break *)
    inversion Hstep; subst r'; clear Hstep. constructor; simpl; try done.
    - intros q rest' Hq. apply Htasks. by eapply list_elem_of_delete_inv.
    - intros u e Hfin Hin.
      destruct (Hcov u e Hfin Hin) as [Hc|[Hq|(rest' & Ht & He)]];
        unfold AsyncAlgo_covered; simpl; [by left|by right; left|].
      right; right. exists rest'. split; [|done].
      eapply elem_of_delete_other; [done|done|].
      intros Heq. inversion Heq; subst.
      rewrite (proj2 (AsyncAlgo_stale_false _ _)) in Hst; done. }
  apply AsyncAlgo_stale_false in Hst. fold d in Hst.
  destruct req as [u0 w0]. simpl in *.
  assert (w0 = getDist d u0) as -> by congruence. clear Hst.
  assert (Hfin0 : getDist d u0 <> DIST_INFINITY) by done.
  assert (Hii : ii ∈ out_edges g u0) by (apply Hsub, list_elem_of_here).
  destruct (relax_improving d u0 ii Hlen Hrg H0 Hreal
              Hfin0 Hii) as [Hwrap Himp].
  rewrite AsyncAlgo_relaxEdge_eq in Hstep. fold d in Hstep.
  rewrite Hwrap in Hstep.
  destruct (Z.ltb_spec (getDist d u0 + snd ii) (getDist d (fst ii)))
    as [Hlt|Hge].
  - (* the edge is relaxed *)
    specialize (Himp Hlt). cbv zeta in Himp.
    destruct Himp as (L' & R' & S' & Re' & Hv' & Hne & Hoth & Hle).
    inversion Hstep; subst r'; clear Hstep.
    constructor; simpl; rewrite ?dist_track_bad; simpl; fold d; try done.
    + intros q Hq. apply elem_of_app in Hq as [Hq|Hq]; [by apply Hwl|].
      apply list_elem_of_singleton in Hq as ->. simpl.
      pose proof (getDist_range d (fst ii) Hrg). lia.
    + intros q rest' Hq. apply elem_of_insert_inv in Hq as [Hq|Hq];
        [|by apply Htasks].
      inversion Hq; subst. split; [done|].
      intros e He. by apply Hsub, list_elem_of_further.
    + intros u e Hfin Hin. unfold AsyncAlgo_covered. simpl.
      rewrite dist_track_bad. simpl. fold d.
      destruct (decide (u = fst ii)) as [->|Hu].
      { right; left. rewrite Hv'. apply elem_of_app. right.
        by apply list_elem_of_singleton. }
      rewrite (Hoth u Hu) in *.
      destruct (Hcov u e Hfin Hin) as [Hc|[Hq|(rest' & Ht & He)]].
      * left. unfold closed_edge in *. rewrite (Hoth u Hu).
        specialize (Hle (fst e)). fold d in Hc. lia.
      * right; left. apply elem_of_app. by left.
      * fold d in Ht.
        destruct (decide ((mkReq u (getDist d u), rest') =
                          (mkReq u0 (getDist d u0), ii :: rest)))
          as [Heq|Hneq].
        -- inversion Heq; subst u0 rest'.
           apply elem_of_cons in He as [->|He].
           ++ left. unfold closed_edge. rewrite Hv', (Hoth u Hu), Hwrap. lia.
           ++ right; right. exists rest. split; [|done].
              by eapply elem_of_insert_here.
        -- right; right. exists rest'. split; [|done].
           by eapply elem_of_insert_other.
  - (* the edge is left alone *)
    inversion Hstep; subst r'; clear Hstep.
    constructor; simpl; fold d; try done.
    + intros q Hq. apply Hwl. by rewrite app_nil_r in Hq.
    + intros q rest' Hq. apply elem_of_insert_inv in Hq as [Hq|Hq];
        [|by apply Htasks].
      inversion Hq; subst. split; [done|].
      intros e He. by apply Hsub, list_elem_of_further.
    + intros u e Hfin Hin. unfold AsyncAlgo_covered. simpl. fold d.
      rewrite app_nil_r.
      destruct (Hcov u e Hfin Hin) as [Hc|[Hq|(rest' & Ht & He)]];
        [by left|by right; left|].
      fold d in Ht.
      destruct (decide ((mkReq u (getDist d u), rest') =
                        (mkReq u0 (getDist d u0), ii :: rest)))
        as [Heq|Hneq].
      * inversion Heq; subst u0 rest'.
        apply elem_of_cons in He as [->|He].
        -- left. unfold closed_edge. rewrite Hwrap. lia.
        -- right; right. exists rest. split; [|done].
           by eapply elem_of_insert_here.
      * right; right. exists rest'. split; [|done].
        by eapply elem_of_insert_other.
Qed.

Lemma AsyncAlgo_exec_preserves (sched : list AsyncAlgo.Choice) :
  forall r r', AsyncAlgo_Inv g src r ->
               AsyncAlgo.exec UseCas g sched r = Some r' ->
               AsyncAlgo_Inv g src r'.
Proof.
  induction sched as [|c sched IH]; intros r r' Hinv Hexec; simpl in Hexec.
  - by inversion Hexec; subst.
  - destruct (AsyncAlgo.step UseCas g c r) as [r1|] eqn:Hstep; [|done].
    apply (IH r1 r'); [|done]. destruct c as [i|j spurious].
    + by eapply AsyncAlgo_Pop_preserves.
    + by eapply AsyncAlgo_Iter_preserves.
Qed.

Lemma AsyncAlgo_terminal_solution (r : AsyncAlgo.Run) :
  AsyncAlgo_Inv g src r -> AsyncAlgo.terminal r = true ->
  Solution g src (dist (AsyncAlgo.mem r)).
Proof.
  intros [Hlen Hrg H0 Hreal Hwl Htasks Hcov] Hterm.
  unfold AsyncAlgo.terminal in Hterm.
  destruct (AsyncAlgo.wl r) eqn:Ewl; [|done].
  destruct (AsyncAlgo.tasks r) eqn:Etasks; [|done].
  constructor; try done. intros u e Hfin Hin.
  destruct (Hcov u e Hfin Hin) as [Hc|[Hq|(rest & Ht & _)]]; [done| |].
  - rewrite Ewl in Hq. by apply elem_of_nil in Hq.
  - rewrite Etasks in Ht. by apply elem_of_nil in Ht.
Qed.

(** The state in which the seeding starts, seen as a run in which one
    operator is about to scan the out-edges of the source, in some
    order. *)
Lemma AsyncAlgo_seed_Inv (st0 : State) (es : list Edge) :
  length (dist st0) = length g ->
  es ≡ₚ out_edges g src ->
  AsyncAlgo_Inv g src
    (AsyncAlgo.mkRun (set_dist (AsyncAlgo.Initialize st0) src 0) []
                     [(mkReq src 0, es)]).
Proof.
  intros Hlen0 Hperm.
  set (d := <[src := 0]> (replicate (length (dist st0)) DIST_INFINITY)).
  assert (H0 : getDist d src = 0).
  { apply getDist_insert_eq. rewrite length_replicate. lia. }
  assert (Hinf : forall v, v <> src -> getDist d v = DIST_INFINITY).
  { intros v Hv. unfold d. rewrite getDist_insert_ne by done.
    apply getDist_replicate. }
  constructor; simpl; fold d.
  - unfold d. by rewrite length_insert, length_replicate.
  - apply dist_in_range_insert; [apply dist_in_range_replicate|].
    by vm_compute.
  - done.
  - intros v Hv. destruct (decide (v = src)) as [->|Hne];
      [|by destruct Hv; apply Hinf].
    rewrite H0. exists []. constructor.
  - intros q Hq. by apply elem_of_nil in Hq.
  - intros q rest Hq. apply list_elem_of_singleton in Hq.
    inversion Hq; subst. simpl. split; [by vm_compute|].
    intros e He. by rewrite <- Hperm.
  - intros u e Hfin Hin. destruct (decide (u = src)) as [->|Hne];
      [|by destruct Hfin; apply Hinf].
    right; right. simpl. fold d. rewrite H0. exists es.
    split; [by apply list_elem_of_singleton | by rewrite Hperm].
Qed.

(** InitialProcess is that operator run to its end. *)
Lemma AsyncAlgo_seed_as_exec (es : list Edge) :
  forall spur st bag,
    getDist (dist st) src = 0 -> dist_in_range (dist st) ->
    exists sched,
      AsyncAlgo.exec UseCas g sched
        (AsyncAlgo.mkRun st bag [(mkReq src 0, es)]) =
      Some (AsyncAlgo.mkRun
              (fst (AsyncAlgo.InitialProcess UseCas spur st src es bag))
              (snd (AsyncAlgo.InitialProcess UseCas spur st src es bag)) []).
Proof.
  induction es as [|e es IH]; intros spur st bag H0 Hrg.
  - exists [AsyncAlgo.Iter 0 0]. done.
  - cbn [AsyncAlgo.InitialProcess]. rewrite H0.
    rewrite AsyncAlgo_relaxEdge_eq.
    set (nd := wrap32 (0 + snd e)).
    pose proof (wrap32_range (0 + snd e)) as Hnd. fold nd in Hnd.
    destruct (Z.ltb_spec nd (getDist (dist st) (fst e))) as [Hlt|Hge].
    + set (st1 := track_bad (getDist (dist st) (fst e))
                            (set_dist st (fst e) nd)).
      assert (Hd1 : dist st1 = <[fst e := nd]> (dist st)).
      { unfold st1. by rewrite dist_track_bad. }
      destruct (IH (tl spur) st1 (bag ++ [mkReq (fst e) nd])) as [sched Hs].
      { rewrite Hd1. rewrite getDist_insert_ne; [done|].
        intros Heq. rewrite Heq in Hlt. lia. }
      { rewrite Hd1. apply dist_in_range_insert; [done|].
        unfold DIST_INFINITY. lia. }
      exists (AsyncAlgo.Iter 0 (hd 0%nat spur) :: sched).
      cbn [AsyncAlgo.exec AsyncAlgo.step AsyncAlgo.tasks lookup list_lookup].
      unfold AsyncAlgo.for_body, AsyncAlgo.stale.
      cbn [req_w req_n AsyncAlgo.mem AsyncAlgo.wl AsyncAlgo.tasks].
      rewrite H0. cbn [Z.eqb negb].
      rewrite AsyncAlgo_relaxEdge_eq. fold nd.
      destruct (Z.ltb_spec nd (getDist (dist st) (fst e))); [|lia].
      exact Hs.
    + destruct (IH (tl spur) st bag H0 Hrg) as [sched Hs].
      exists (AsyncAlgo.Iter 0 (hd 0%nat spur) :: sched).
      cbn [AsyncAlgo.exec AsyncAlgo.step AsyncAlgo.tasks lookup list_lookup].
      unfold AsyncAlgo.for_body, AsyncAlgo.stale.
      cbn [req_w req_n AsyncAlgo.mem AsyncAlgo.wl AsyncAlgo.tasks].
      rewrite H0. cbn [Z.eqb negb].
      rewrite AsyncAlgo_relaxEdge_eq. fold nd.
      destruct (Z.ltb_spec nd (getDist (dist st) (fst e))); [lia|].
      cbn [AsyncAlgo.wl]. rewrite app_nil_r. exact Hs.
Qed.

(** relaxNode is one operator of the work list run without interleaving:
    the pop, one step per edge, and the step that retires it. *)
Lemma AsyncAlgo_relaxNode_for_bag (req : UpdateRequest) (edges : list Edge) :
  forall spur st bag,
    AsyncAlgo.relaxNode_for UseCas spur st req edges bag =
    (fst (AsyncAlgo.relaxNode_for UseCas spur st req edges []),
     bag ++ snd (AsyncAlgo.relaxNode_for UseCas spur st req edges [])).
Proof.
  induction edges as [|e edges IH]; intros spur st bag;
    cbn [AsyncAlgo.relaxNode_for].
  - by rewrite app_nil_r.
  - unfold AsyncAlgo.for_body.
    destruct (AsyncAlgo.stale st req); [by rewrite app_nil_r|].
    rewrite !AsyncAlgo_relaxEdge_eq. destruct (_ <? _).
    + rewrite (IH _ _ (bag ++ _)), (IH _ _ ([] ++ _)). simpl.
      by rewrite <- app_assoc.
    + by rewrite (IH _ _ bag).
Qed.

Lemma AsyncAlgo_loop_as_exec (req : UpdateRequest) (edges : list Edge) :
  forall spur st wl tasks,
    exists sched,
      AsyncAlgo.exec UseCas g sched
        (AsyncAlgo.mkRun st wl (tasks ++ [(req, edges)])) =
      Some (AsyncAlgo.mkRun
              (fst (AsyncAlgo.relaxNode_for UseCas spur st req edges []))
              (wl ++ snd (AsyncAlgo.relaxNode_for UseCas spur st req edges []))
              tasks).
Proof.
  induction edges as [|e edges IH]; intros spur st wl tasks.
  - exists [AsyncAlgo.Iter (length tasks) 0].
    cbn [AsyncAlgo.exec AsyncAlgo.step AsyncAlgo.tasks AsyncAlgo.mem
         AsyncAlgo.wl AsyncAlgo.relaxNode_for fst snd].
    rewrite list_lookup_middle by done.
    by rewrite delete_middle, !app_nil_r.
  - cbn [AsyncAlgo.relaxNode_for].
    destruct (AsyncAlgo.for_body UseCas (hd 0%nat spur) st req e [])
      as [[st1 p1]|] eqn:Hbody.
    + rewrite AsyncAlgo_relaxNode_for_bag. cbn [fst snd].
      destruct (IH (tl spur) st1 (wl ++ p1) tasks) as [sched Hs].
      exists (AsyncAlgo.Iter (length tasks) (hd 0%nat spur) :: sched).
      cbn [AsyncAlgo.exec AsyncAlgo.step AsyncAlgo.tasks AsyncAlgo.mem
           AsyncAlgo.wl].
      rewrite list_lookup_middle by done. rewrite Hbody.
      rewrite insert_app_r_alt by done. rewrite Nat.sub_diag.
      cbn [insert list_insert]. by rewrite Hs, app_assoc.
    + exists [AsyncAlgo.Iter (length tasks) (hd 0%nat spur)].
      cbn [AsyncAlgo.exec AsyncAlgo.step AsyncAlgo.tasks AsyncAlgo.mem
           AsyncAlgo.wl fst snd].
      rewrite list_lookup_middle by done. rewrite Hbody.
      by rewrite delete_middle, !app_nil_r.
Qed.

Lemma AsyncAlgo_relaxNode_as_exec (spur : list nat) (r : AsyncAlgo.Run)
    (i : nat) (req : UpdateRequest) :
  AsyncAlgo.wl r !! i = Some req ->
  exists sched,
    AsyncAlgo.exec UseCas g sched r =
    Some (AsyncAlgo.mkRun
            (fst (AsyncAlgo.relaxNode UseCas g spur (AsyncAlgo.mem r) req []))
            (delete i (AsyncAlgo.wl r) ++
             snd (AsyncAlgo.relaxNode UseCas g spur (AsyncAlgo.mem r) req []))
            (AsyncAlgo.tasks r)).
Proof.
  intros Hi. unfold AsyncAlgo.relaxNode.
  destruct (AsyncAlgo.stale (AsyncAlgo.mem r) req) eqn:Hst.
  - exists [AsyncAlgo.Pop i]. simpl. by rewrite Hi, Hst, app_nil_r.
  - destruct (AsyncAlgo_loop_as_exec req (out_edges g (req_n req)) spur
                (AsyncAlgo.mem r) (delete i (AsyncAlgo.wl r))
                (AsyncAlgo.tasks r)) as [sched Hs].
    exists (AsyncAlgo.Pop i :: sched).
    cbn [AsyncAlgo.exec AsyncAlgo.step]. by rewrite Hi, Hst.
Qed.

Lemma AsyncAlgo_start_Inv (events : list AsyncAlgo.SeedEvent)
    (st0 : State) (r0 : AsyncAlgo.Run) :
  length (dist st0) = length g ->
  (UseCas = false ->
   AsyncAlgo.calls_race_free UseCas events (AsyncAlgo.Initialize st0) src =
     true) ->
  AsyncAlgo.start UseCas events g st0 src = Some r0 ->
  AsyncAlgo_Inv g src r0.
Proof.
  intros Hlen0 Hturn. unfold AsyncAlgo.start.
  destruct (AsyncAlgo.operator_do_all UseCas g events _ src) as [[st bag]|]
    eqn:Hdo; [|done].
  intros [= <-].
  assert (Hsrc' : (src < length (dist (AsyncAlgo.Initialize st0)))%nat).
  { unfold AsyncAlgo.Initialize. cbn [dist]. rewrite length_replicate. lia. }
  destruct (AsyncAlgo_do_all_race_free UseCas g events _ src _ Hsrc' Hturn
              Hdo) as (es & spur & Hperm & Hseed).
  pose proof (AsyncAlgo_seed_Inv st0 _ Hlen0 Hperm) as Hinv.
  destruct (AsyncAlgo_seed_as_exec es spur
              (set_dist (AsyncAlgo.Initialize st0) src 0) [])
    as [sched Hs].
  { apply (aa_source _ _ _ Hinv). }
  { apply (aa_range _ _ _ Hinv). }
  pose proof (AsyncAlgo_exec_preserves sched _ _ Hinv Hs) as Hinv'.
  unfold AsyncAlgo.operator_seed in Hseed. by rewrite <- Hseed in Hinv'.
Qed.

(** Every run of the AsyncAlgo work list that ends, ends in the solution. *)
Lemma AsyncAlgo_run_solution (events : list AsyncAlgo.SeedEvent)
    (st0 : State) (r0 : AsyncAlgo.Run)
    (sched : list AsyncAlgo.Choice) (r : AsyncAlgo.Run) :
  length (dist st0) = length g ->
  (UseCas = false ->
   AsyncAlgo.calls_race_free UseCas events (AsyncAlgo.Initialize st0) src =
     true) ->
  AsyncAlgo.start UseCas events g st0 src = Some r0 ->
  AsyncAlgo.exec UseCas g sched r0 = Some r ->
  AsyncAlgo.terminal r = true ->
  Solution g src (dist (AsyncAlgo.mem r)).
Proof.
  intros Hlen0 Hturn Hstart Hexec Hterm.
  apply AsyncAlgo_terminal_solution; [|done].
  eapply AsyncAlgo_exec_preserves; [|done].
  by eapply AsyncAlgo_start_Inv.
Qed.

(** Every run can be driven to its end: a step is always possible while
    an item is pending or an operator is running, and it lowers the
    measure. *)
Lemma AsyncAlgo_next_step (r : AsyncAlgo.Run) :
  AsyncAlgo_Inv g src r -> AsyncAlgo.terminal r = false ->
  exists c r1, AsyncAlgo.step UseCas g c r = Some r1 /\
               AsyncAlgo_measure g r1 < AsyncAlgo_measure g r.
Proof.
  intros Hinv Hterm. pose proof (aa_tasks _ _ _ Hinv) as Htasks.
  pose proof (aa_length _ _ _ Hinv) as Hlen.
  pose proof (aa_range _ _ _ Hinv) as Hrg.
  destruct r as [st wl tasks]. unfold AsyncAlgo.terminal in Hterm.
  unfold AsyncAlgo_measure. simpl in *.
  set (E := Z.of_nat (length (concat g))).
  assert (HE : 0 <= E) by (unfold E; lia).
  pose proof (sum_dist_nonneg _ Hrg) as Hsum.
  destruct tasks as [|[q edges] ts].
  - destruct wl as [|q qs]; [done|].
    exists (AsyncAlgo.Pop 0). simpl.
    destruct (AsyncAlgo.stale st q); eexists; (split; [done|]); simpl.
    + nia.
    + pose proof (out_degree_bound (req_n q)). fold E in H. nia.
  - exists (AsyncAlgo.Iter 0 0). simpl.
    pose proof (tasks_cost_nonneg ts) as Hts.
    destruct edges as [|e rest]; [eexists; split; [done|]; simpl; lia|].
    unfold AsyncAlgo.for_body.
    destruct (AsyncAlgo.stale st q); [eexists; split; [done|]; simpl; lia|].
    rewrite AsyncAlgo_relaxEdge_eq.
    destruct (Htasks q (e :: rest) (list_elem_of_here _ _)) as [_ Hsub].
    destruct (out_edges_wf _ _ (Hsub e (list_elem_of_here _ _)))
      as (_ & Hv & _).
    pose proof (wrap32_range (getDist (dist st) (req_n q) + snd e)) as Hnd.
    destruct (Z.ltb_spec (wrap32 (getDist (dist st) (req_n q) + snd e))
                         (getDist (dist st) (fst e))) as [Hlt|Hge];
      eexists; (split; [done|]); simpl.
    + rewrite dist_track_bad. simpl.
      rewrite sum_dist_insert by lia. rewrite length_app. simpl. nia.
    + rewrite app_nil_r. lia.
Qed.

Lemma AsyncAlgo_can_finish (fuel : nat) :
  forall r, AsyncAlgo_Inv g src r ->
            AsyncAlgo_measure g r < Z.of_nat fuel ->
            exists sched r', AsyncAlgo.exec UseCas g sched r = Some r' /\
                             AsyncAlgo.terminal r' = true.
Proof.
  induction fuel as [|fuel IH]; intros r Hinv Hm.
  - exfalso. unfold AsyncAlgo_measure in Hm.
    pose proof (sum_dist_nonneg _ (aa_range _ _ _ Hinv)).
    pose proof (tasks_cost_nonneg (AsyncAlgo.tasks r)). nia.
  - destruct (AsyncAlgo.terminal r) eqn:Hterm.
    + by exists [], r.
    + destruct (AsyncAlgo_next_step r Hinv Hterm) as (c & r1 & Hstep & Hlt).
      destruct (IH r1) as (sched & r' & Hexec & Hend).
      * destruct c; [by eapply AsyncAlgo_Pop_preserves
                    |by eapply AsyncAlgo_Iter_preserves].
      * lia.
      * exists (c :: sched), r'. simpl. by rewrite Hstep.
Qed.

Lemma AsyncAlgo_Inv_ends (r0 : AsyncAlgo.Run) :
  AsyncAlgo_Inv g src r0 ->
  exists sched r,
    AsyncAlgo.exec UseCas g sched r0 = Some r /\
    AsyncAlgo.terminal r = true.
Proof.
  intros Hinv.
  apply (AsyncAlgo_can_finish (Z.to_nat (AsyncAlgo_measure g r0 + 1)));
    [done|].
  assert (0 <= AsyncAlgo_measure g r0); [|lia].
  unfold AsyncAlgo_measure.
  pose proof (sum_dist_nonneg _ (aa_range _ _ _ Hinv)).
  pose proof (tasks_cost_nonneg (AsyncAlgo.tasks r0)).
  nia.
Qed.

Lemma AsyncAlgo_run_ends (events : list AsyncAlgo.SeedEvent) (st0 : State)
    (r0 : AsyncAlgo.Run) :
  length (dist st0) = length g ->
  (UseCas = false ->
   AsyncAlgo.calls_race_free UseCas events (AsyncAlgo.Initialize st0) src =
     true) ->
  AsyncAlgo.start UseCas events g st0 src = Some r0 ->
  exists sched r,
    AsyncAlgo.exec UseCas g sched r0 = Some r /\
    AsyncAlgo.terminal r = true.
Proof.
  intros Hlen0 Hturn Hstart. apply AsyncAlgo_Inv_ends.
  by eapply AsyncAlgo_start_Inv.
Qed.

(** ** The work list of AsyncSetAlgo keeps its invariant *)

Lemma ws_push_spec (workSet : bool) (inSet : list bool) (wl : list GNode)
    (v : GNode) :
  (forall x, inSet !! x = Some true -> workSet = true /\ x ∈ wl) ->
  let acc := AsyncSetAlgo.ws_push workSet (inSet, wl) v in
  v ∈ snd acc /\
  (forall x, x ∈ wl -> x ∈ snd acc) /\
  (forall x, x ∈ snd acc -> x ∈ wl \/ x = v) /\
  (forall x, fst acc !! x = Some true -> workSet = true /\ x ∈ snd acc).
Proof.
  intros Hset.
  assert (Happ : v ∈ wl ++ [v] /\
                 (forall x, x ∈ wl -> x ∈ wl ++ [v]) /\
                 (forall x, x ∈ wl ++ [v] -> x ∈ wl \/ x = v)).
  { split; [|split].
    - apply elem_of_app. right. by apply list_elem_of_singleton.
    - intros x Hx. apply elem_of_app. by left.
    - intros x Hx. apply elem_of_app in Hx as [?|Hx]; [by left|].
      right. by apply list_elem_of_singleton in Hx. }
  destruct Happ as (Hv & Hkeep & Hnew).
  unfold AsyncSetAlgo.ws_push. cbn [fst snd].
  destruct workSet; cbn [fst snd].
  - destruct (inSet !! v) as [[]|] eqn:Ev; cbn [default id fst snd].
    + destruct (Hset v Ev) as [_ Hin]. split; [done|]. split; [done|].
      split; [by left|done].
    + split; [done|]. split; [done|]. split; [done|].
      intros x Hx. split; [done|].
      destruct (decide (x = v)) as [->|Hne]; [done|].
      rewrite list_lookup_insert_ne in Hx by done.
      apply Hkeep. by apply Hset.
    + split; [done|]. split; [done|]. split; [done|].
      intros x Hx. split; [done|].
      destruct (decide (x = v)) as [->|Hne]; [done|].
      rewrite list_lookup_insert_ne in Hx by done.
      apply Hkeep. by apply Hset.
  - split; [done|]. split; [done|]. split; [done|].
    intros x Hx. by destruct (Hset x Hx).
Qed.

Variable workSet : bool.

Lemma AsyncSetAlgo_Pop_preserves (r r' : AsyncSetAlgo.Run) (i : nat) :
  AsyncSetAlgo_Inv workSet g src r ->
  AsyncSetAlgo.step UseCas workSet g (AsyncSetAlgo.Pop i) r = Some r' ->
  AsyncSetAlgo_Inv workSet g src r'.
Proof.
  intros [Hlen Hrg H0 Hreal Hwl Htasks Hset Hcov] Hstep. simpl in Hstep.
  destruct (AsyncSetAlgo.wl r !! i) as [u0|] eqn:Hi; [|done].
  assert (Hu0 : u0 ∈ AsyncSetAlgo.wl r) by by eapply list_elem_of_lookup_2.
  inversion Hstep; subst r'; clear Hstep. constructor; simpl; try done.
  - intros u Hu. apply Hwl. by eapply list_elem_of_delete_inv.
  - intros u rest Hq. apply elem_of_app in Hq as [Hq|Hq]; [by apply Htasks|].
    apply list_elem_of_singleton in Hq. inversion Hq; subst.
    split; [by apply Hwl|done].
  - intros u Hu. destruct workSet eqn:Hws.
    + destruct (decide (u = u0)) as [->|Hne].
      * destruct (decide (u0 < length (AsyncSetAlgo.inSet r))%nat).
        -- by rewrite list_lookup_insert_eq in Hu.
        -- rewrite list_insert_ge in Hu by lia.
           apply lookup_lt_Some in Hu. lia.
      * rewrite list_lookup_insert_ne in Hu by done.
        destruct (Hset u Hu) as [_ Hin]. split; [done|].
        by eapply elem_of_delete_other.
    + by destruct (Hset u Hu).
  - intros u e Hfin Hin.
    destruct (Hcov u e Hfin Hin) as [Hc|[Hq|(rest & Ht & He)]];
      unfold AsyncSetAlgo_covered; simpl; [by left| |].
    + destruct (decide (u = u0)) as [->|Hne].
      * right; right. exists (out_edges g u0). split; [|done].
        apply elem_of_app. right. by apply list_elem_of_singleton.
      * right; left. by eapply elem_of_delete_other.
    + right; right. exists rest. split; [|done]. apply elem_of_app. by left.
Qed.

Lemma AsyncSetAlgo_Iter_preserves (r r' : AsyncSetAlgo.Run) (j : nat) :
  AsyncSetAlgo_Inv workSet g src r ->
  AsyncSetAlgo.step UseCas workSet g (AsyncSetAlgo.Iter j) r = Some r' ->
  AsyncSetAlgo_Inv workSet g src r'.
Proof.
  intros [Hlen Hrg H0 Hreal Hwl Htasks Hset Hcov] Hstep. simpl in Hstep.
  destruct (AsyncSetAlgo.tasks r !! j) as [[u0 edges]|] eqn:Hj; [|done].
  assert (Hin_t : (u0, edges) ∈ AsyncSetAlgo.tasks r)
    by by eapply list_elem_of_lookup_2.
  destruct (Htasks _ _ Hin_t) as [Hfin0 Hsub].
  set (d := dist (AsyncSetAlgo.mem r)) in *.
  destruct edges as [|ii rest].
  { inversion Hstep; subst r'; clear Hstep. constructor; simpl; try done.
    - intros u rest Hq. apply Htasks. by eapply list_elem_of_delete_inv.
    - intros u e Hfin Hin.
      destruct (Hcov u e Hfin Hin) as [Hc|[Hq|(rest & Ht & He)]];
        unfold AsyncSetAlgo_covered; simpl; [by left|by right; left|].
      right; right. exists rest. split; [|done].
      eapply elem_of_delete_other; [done|done|].
      intros Heq. inversion Heq; subst. by apply elem_of_nil in He. }
  assert (Hii : ii ∈ out_edges g u0) by (apply Hsub, list_elem_of_here).
  destruct (relax_improving d u0 ii Hlen Hrg H0 Hreal
              Hfin0 Hii) as [Hwrap Himp].
  rewrite AsyncSetAlgo_relaxEdge_eq in Hstep. fold d in Hstep.
  rewrite Hwrap in Hstep.
  destruct (Z.ltb_spec (getDist d u0 + snd ii) (getDist d (fst ii)))
    as [Hlt|Hge].
  - (* the edge is relaxed *)
    specialize (Himp Hlt). cbv zeta in Himp.
    destruct Himp as (L' & R' & S' & Re' & Hv' & Hne & Hoth & Hle).
    cbn [fold_left app] in Hstep.
    pose proof (ws_push_spec workSet (AsyncSetAlgo.inSet r)
                  (AsyncSetAlgo.wl r) (fst ii) Hset) as Hpush.
    cbv zeta in Hpush.
    destruct (AsyncSetAlgo.ws_push workSet _ (fst ii)) as [inSet' wl'].
    simpl in Hpush. destruct Hpush as (Hvin & Hkeep & Hnew & Hset').
    inversion Hstep; subst r'; clear Hstep.
    assert (Hfin' : forall x, getDist d x <> DIST_INFINITY ->
              getDist (<[fst ii := getDist d u0 + snd ii]> d) x
              <> DIST_INFINITY).
    { intros x Hx. specialize (Hle x).
      pose proof (getDist_range d x Hrg). lia. }
    constructor; simpl; rewrite ?dist_track_bad; simpl; fold d; try done.
    + intros u Hu. destruct (Hnew u Hu) as [Hold| ->].
      * by apply Hfin', Hwl.
      * rewrite Hv'. pose proof (getDist_range d (fst ii) Hrg). lia.
    + intros u rest' Hq. apply elem_of_insert_inv in Hq as [Hq|Hq].
      * inversion Hq; subst. split; [by apply Hfin'|].
        intros e He. by apply Hsub, list_elem_of_further.
      * destruct (Htasks _ _ Hq). split; [by apply Hfin'|done].
    + intros u e Hfin Hin. unfold AsyncSetAlgo_covered. simpl.
      rewrite dist_track_bad. simpl. fold d.
      destruct (decide (u = fst ii)) as [->|Hu]; [by right; left|].
      rewrite (Hoth u Hu) in *.
      destruct (Hcov u e Hfin Hin) as [Hc|[Hq|(rest' & Ht & He)]].
      * left. unfold closed_edge in *. rewrite (Hoth u Hu).
        specialize (Hle (fst e)). fold d in Hc. lia.
      * right; left. by apply Hkeep.
      * destruct (decide ((u, rest') = (u0, ii :: rest))) as [Heq|Hneq].
        -- inversion Heq; subst u0 rest'.
           apply elem_of_cons in He as [->|He].
           ++ left. unfold closed_edge. rewrite Hv', (Hoth u Hu), Hwrap. lia.
           ++ right; right. exists rest. split; [|done].
              by eapply elem_of_insert_here.
        -- right; right. exists rest'. split; [|done].
           by eapply elem_of_insert_other.
  - (* the edge is left alone *)
    cbn [fold_left] in Hstep.
    inversion Hstep; subst r'; clear Hstep.
    constructor; simpl; fold d; try done.
    + intros u rest' Hq. apply elem_of_insert_inv in Hq as [Hq|Hq];
        [|by apply Htasks].
      inversion Hq; subst. split; [done|].
      intros e He. by apply Hsub, list_elem_of_further.
    + intros u e Hfin Hin. unfold AsyncSetAlgo_covered. simpl. fold d.
      destruct (Hcov u e Hfin Hin) as [Hc|[Hq|(rest' & Ht & He)]];
        [by left|by right; left|].
      destruct (decide ((u, rest') = (u0, ii :: rest))) as [Heq|Hneq].
      * inversion Heq; subst u0 rest'.
        apply elem_of_cons in He as [->|He].
        -- left. unfold closed_edge. rewrite Hwrap. lia.
        -- right; right. exists rest. split; [|done].
           by eapply elem_of_insert_here.
      * right; right. exists rest'. split; [|done].
        by eapply elem_of_insert_other.
Qed.

Lemma AsyncSetAlgo_relaxNode_for_bag (u : GNode) (es : list Edge) :
  forall st bag,
    AsyncSetAlgo.relaxNode_for UseCas st u es bag =
    (fst (AsyncSetAlgo.relaxNode_for UseCas st u es []),
     bag ++ snd (AsyncSetAlgo.relaxNode_for UseCas st u es [])).
Proof.
  induction es as [|e es IH]; intros st bag; simpl.
  - by rewrite app_nil_r.
  - rewrite !AsyncSetAlgo_relaxEdge_eq.
    destruct (_ <? _).
    + rewrite (IH _ (bag ++ [fst e])), (IH _ ([] ++ [fst e])). simpl.
      by rewrite <- app_assoc.
    + done.
Qed.

Lemma AsyncSetAlgo_exec_preserves (sched : list AsyncSetAlgo.Choice) :
  forall r r', AsyncSetAlgo_Inv workSet g src r ->
               AsyncSetAlgo.exec UseCas workSet g sched r = Some r' ->
               AsyncSetAlgo_Inv workSet g src r'.
Proof.
  induction sched as [|c sched IH]; intros r r' Hinv Hexec; simpl in Hexec.
  - by inversion Hexec; subst.
  - destruct (AsyncSetAlgo.step UseCas workSet g c r) as [r1|] eqn:Hstep;
      [|done].
    apply (IH r1 r'); [|done]. destruct c as [i|j].
    + by eapply AsyncSetAlgo_Pop_preserves.
    + by eapply AsyncSetAlgo_Iter_preserves.
Qed.

Lemma AsyncSetAlgo_terminal_solution (r : AsyncSetAlgo.Run) :
  AsyncSetAlgo_Inv workSet g src r -> AsyncSetAlgo.terminal r = true ->
  Solution g src (dist (AsyncSetAlgo.mem r)).
Proof.
  intros [Hlen Hrg H0 Hreal Hwl Htasks Hset Hcov] Hterm.
  unfold AsyncSetAlgo.terminal in Hterm.
  destruct (AsyncSetAlgo.wl r) eqn:Ewl; [|done].
  destruct (AsyncSetAlgo.tasks r) eqn:Etasks; [|done].
  constructor; try done. intros u e Hfin Hin.
  destruct (Hcov u e Hfin Hin) as [Hc|[Hq|(rest & Ht & _)]]; [done| |].
  - rewrite Ewl in Hq. by apply elem_of_nil in Hq.
  - rewrite Etasks in Ht. by apply elem_of_nil in Ht.
Qed.

Lemma AsyncSetAlgo_seed_Inv (st0 : State) (es : list Edge) :
  length (dist st0) = length g ->
  es ≡ₚ out_edges g src ->
  AsyncSetAlgo_Inv workSet g src
    (AsyncSetAlgo.mkRun
       (set_dist (fst (AsyncSetAlgo.Initialize st0
                         (replicate (length (dist st0)) false))) src 0)
       (snd (AsyncSetAlgo.Initialize st0
               (replicate (length (dist st0)) false)))
       [] [(src, es)]).
Proof.
  intros Hlen0 Hperm.
  set (d := <[src := 0]> (replicate (length (dist st0)) DIST_INFINITY)).
  assert (H0 : getDist d src = 0).
  { apply getDist_insert_eq. rewrite length_replicate. lia. }
  assert (Hinf : forall v, v <> src -> getDist d v = DIST_INFINITY).
  { intros v Hv. unfold d. rewrite getDist_insert_ne by done.
    apply getDist_replicate. }
  constructor; simpl; fold d.
  - unfold d. by rewrite length_insert, length_replicate.
  - apply dist_in_range_insert; [apply dist_in_range_replicate|].
    by vm_compute.
  - done.
  - intros v Hv. destruct (decide (v = src)) as [->|Hne];
      [|by destruct Hv; apply Hinf].
    rewrite H0. exists []. constructor.
  - intros u Hu. by apply elem_of_nil in Hu.
  - intros u rest Hq. apply list_elem_of_singleton in Hq.
    inversion Hq; subst. split; [rewrite H0; by vm_compute|].
    intros e He. by rewrite <- Hperm.
  - intros u Hu. apply lookup_replicate in Hu as [Hu _]. done.
  - intros u e Hfin Hin. destruct (decide (u = src)) as [->|Hne];
      [|by destruct Hfin; apply Hinf].
    right; right. simpl. exists es.
    split; [by apply list_elem_of_singleton | by rewrite Hperm].
Qed.

(** relaxNode is one operator of the work list run without interleaving,
    and so is the seeding of the initial bag. *)
Lemma AsyncSetAlgo_loop_as_exec (u : GNode) (es : list Edge) :
  forall st inSet wl tasks,
    exists sched,
      AsyncSetAlgo.exec UseCas workSet g sched
        (AsyncSetAlgo.mkRun st inSet wl (tasks ++ [(u, es)])) =
      Some (AsyncSetAlgo.mkRun
              (fst (AsyncSetAlgo.relaxNode_for UseCas st u es []))
              (fst (fold_left (AsyncSetAlgo.ws_push workSet)
                      (snd (AsyncSetAlgo.relaxNode_for UseCas st u es []))
                      (inSet, wl)))
              (snd (fold_left (AsyncSetAlgo.ws_push workSet)
                      (snd (AsyncSetAlgo.relaxNode_for UseCas st u es []))
                      (inSet, wl)))
              tasks).
Proof.
  induction es as [|e es IH]; intros st inSet wl tasks.
  - exists [AsyncSetAlgo.Iter (length tasks)].
    cbn [AsyncSetAlgo.exec AsyncSetAlgo.step AsyncSetAlgo.tasks
         AsyncSetAlgo.mem AsyncSetAlgo.inSet AsyncSetAlgo.wl
         AsyncSetAlgo.relaxNode_for fold_left fst snd].
    rewrite list_lookup_middle by done.
    by rewrite delete_middle, app_nil_r.
  - cbn [AsyncSetAlgo.relaxNode_for].
    destruct (AsyncSetAlgo.relaxEdge UseCas st u e []) as [st1 pushed]
      eqn:Hrel.
    rewrite AsyncSetAlgo_relaxNode_for_bag. cbn [fst snd].
    rewrite fold_left_app.
    destruct (fold_left (AsyncSetAlgo.ws_push workSet) pushed (inSet, wl))
      as [inSet1 wl1] eqn:Hfold.
    destruct (IH st1 inSet1 wl1 tasks) as [sched Hs].
    exists (AsyncSetAlgo.Iter (length tasks) :: sched).
    cbn [AsyncSetAlgo.exec AsyncSetAlgo.step AsyncSetAlgo.tasks
         AsyncSetAlgo.mem AsyncSetAlgo.inSet AsyncSetAlgo.wl].
    rewrite list_lookup_middle by done. rewrite Hrel, Hfold.
    rewrite insert_app_r_alt by done. rewrite Nat.sub_diag.
    cbn [insert list_insert]. exact Hs.
Qed.

Lemma AsyncSetAlgo_relaxNode_as_exec (r : AsyncSetAlgo.Run) (i : nat)
    (u : GNode) :
  AsyncSetAlgo.wl r !! i = Some u ->
  let res := AsyncSetAlgo.relaxNode UseCas g (AsyncSetAlgo.mem r) u [] in
  let acc :=
    fold_left (AsyncSetAlgo.ws_push workSet) (snd res)
      (if workSet then <[u := false]> (AsyncSetAlgo.inSet r)
       else AsyncSetAlgo.inSet r,
       delete i (AsyncSetAlgo.wl r)) in
  exists sched,
    AsyncSetAlgo.exec UseCas workSet g sched r =
    Some (AsyncSetAlgo.mkRun (fst res) (fst acc) (snd acc)
                             (AsyncSetAlgo.tasks r)).
Proof.
  intros Hi res acc. subst res acc. unfold AsyncSetAlgo.relaxNode.
  destruct (AsyncSetAlgo_loop_as_exec u (out_edges g u) (AsyncSetAlgo.mem r)
              (if workSet then <[u := false]> (AsyncSetAlgo.inSet r)
               else AsyncSetAlgo.inSet r)
              (delete i (AsyncSetAlgo.wl r)) (AsyncSetAlgo.tasks r))
    as [sched Hs].
  exists (AsyncSetAlgo.Pop i :: sched).
  cbn [AsyncSetAlgo.exec AsyncSetAlgo.step]. by rewrite Hi.
Qed.

Lemma AsyncSetAlgo_start_Inv (events : list AsyncSetAlgo.SeedEvent)
    (st0 : State) (r0 : AsyncSetAlgo.Run) :
  length (dist st0) = length g ->
  (UseCas = false ->
   AsyncSetAlgo.calls_race_free UseCas events
     (fst (AsyncSetAlgo.Initialize st0 (replicate (length (dist st0)) false)))
     src = true) ->
  AsyncSetAlgo.start UseCas workSet events g st0 src = Some r0 ->
  AsyncSetAlgo_Inv workSet g src r0.
Proof.
  intros Hlen0 Hturn. unfold AsyncSetAlgo.start.
  cbn [AsyncSetAlgo.Initialize fst snd] in *.
  destruct (AsyncSetAlgo.operator_do_all UseCas g events _ src)
    as [[st bag]|] eqn:Hdo; [|done].
  pose proof (fun Hin => AsyncSetAlgo_do_all_race_free UseCas g events _ src
                           _ Hin Hturn Hdo) as Hex.
  destruct Hex as (es & Hperm & Hseed).
  { cbn [dist]. rewrite length_replicate. lia. }
  pose proof (AsyncSetAlgo_seed_Inv st0 _ Hlen0 Hperm) as Hinv.
  destruct (AsyncSetAlgo_loop_as_exec src es
              (set_dist (fst (AsyncSetAlgo.Initialize st0
                                (replicate (length (dist st0)) false)))
                        src 0)
              (snd (AsyncSetAlgo.Initialize st0
                      (replicate (length (dist st0)) false))) [] [])
    as [sched Hs].
  pose proof (AsyncSetAlgo_exec_preserves sched _ _ Hinv Hs) as Hinv'.
  cbn [AsyncSetAlgo.Initialize fst snd] in *.
  rewrite <- Hseed in Hinv'. cbn [fst snd] in Hinv'.
  destruct (fold_left _ bag _) as [inSet' wl']. by intros [= <-].
Qed.

(** Every run of the AsyncSetAlgo work list that ends, ends in the
    solution, with or without a work-set. *)
Lemma AsyncSetAlgo_run_solution (events : list AsyncSetAlgo.SeedEvent)
    (st0 : State) (r0 : AsyncSetAlgo.Run)
    (sched : list AsyncSetAlgo.Choice) (r : AsyncSetAlgo.Run) :
  length (dist st0) = length g ->
  (UseCas = false ->
   AsyncSetAlgo.calls_race_free UseCas events
     (fst (AsyncSetAlgo.Initialize st0 (replicate (length (dist st0)) false)))
     src = true) ->
  AsyncSetAlgo.start UseCas workSet events g st0 src = Some r0 ->
  AsyncSetAlgo.exec UseCas workSet g sched r0 = Some r ->
  AsyncSetAlgo.terminal r = true ->
  Solution g src (dist (AsyncSetAlgo.mem r)).
Proof.
  intros Hlen0 Hturn Hstart Hexec Hterm.
  apply AsyncSetAlgo_terminal_solution; [|done].
  eapply AsyncSetAlgo_exec_preserves; [|done].
  by eapply AsyncSetAlgo_start_Inv.
Qed.

Lemma ws_push_length (inSet : list bool) (wl : list GNode) (v : GNode) :
  (length (snd (AsyncSetAlgo.ws_push workSet (inSet, wl) v))
   <= S (length wl))%nat.
Proof.
  unfold AsyncSetAlgo.ws_push. cbn [fst snd].
  destruct workSet; [destruct (default false (inSet !! v))|];
    cbn [snd]; rewrite ?length_app; simpl; lia.
Qed.

Lemma AsyncSetAlgo_next_step (r : AsyncSetAlgo.Run) :
  AsyncSetAlgo_Inv workSet g src r -> AsyncSetAlgo.terminal r = false ->
  exists c r1, AsyncSetAlgo.step UseCas workSet g c r = Some r1 /\
               AsyncSetAlgo_measure g r1 < AsyncSetAlgo_measure g r.
Proof.
  intros Hinv Hterm. pose proof (as_tasks _ _ _ _ Hinv) as Htasks.
  pose proof (as_length _ _ _ _ Hinv) as Hlen.
  pose proof (as_range _ _ _ _ Hinv) as Hrg.
  destruct r as [st inSet wl tasks]. unfold AsyncSetAlgo.terminal in Hterm.
  unfold AsyncSetAlgo_measure. simpl in *.
  set (E := Z.of_nat (length (concat g))).
  assert (HE : 0 <= E) by (unfold E; lia).
  pose proof (sum_dist_nonneg _ Hrg) as Hsum.
  destruct tasks as [|[u edges] ts].
  - destruct wl as [|u qs]; [done|].
    exists (AsyncSetAlgo.Pop 0). simpl. eexists. split; [done|]. simpl.
    pose proof (out_degree_bound u). fold E in H. nia.
  - exists (AsyncSetAlgo.Iter 0). simpl.
    pose proof (tasks_cost_nonneg ts) as Hts.
    destruct edges as [|e rest]; [eexists; split; [done|]; simpl; lia|].
    rewrite AsyncSetAlgo_relaxEdge_eq.
    destruct (Htasks u (e :: rest) (list_elem_of_here _ _)) as [_ Hsub].
    destruct (out_edges_wf _ _ (Hsub e (list_elem_of_here _ _)))
      as (_ & Hv & _).
    pose proof (wrap32_range (getDist (dist st) u + snd e)) as Hnd.
    destruct (Z.ltb_spec (wrap32 (getDist (dist st) u + snd e))
                         (getDist (dist st) (fst e))) as [Hlt|Hge].
    + cbn [fold_left app].
      pose proof (ws_push_length inSet wl (fst e)) as Hpush.
      destruct (AsyncSetAlgo.ws_push workSet (inSet, wl) (fst e))
        as [inSet' wl'].
      eexists. split; [done|]. simpl in *.
      rewrite dist_track_bad. simpl.
      rewrite sum_dist_insert by lia. nia.
    + cbn [fold_left]. eexists. split; [done|]. simpl. lia.
Qed.

Lemma AsyncSetAlgo_can_finish (fuel : nat) :
  forall r, AsyncSetAlgo_Inv workSet g src r ->
            AsyncSetAlgo_measure g r < Z.of_nat fuel ->
            exists sched r',
              AsyncSetAlgo.exec UseCas workSet g sched r = Some r' /\
              AsyncSetAlgo.terminal r' = true.
Proof.
  induction fuel as [|fuel IH]; intros r Hinv Hm.
  - exfalso. unfold AsyncSetAlgo_measure in Hm.
    pose proof (sum_dist_nonneg _ (as_range _ _ _ _ Hinv)).
    pose proof (tasks_cost_nonneg (AsyncSetAlgo.tasks r)). nia.
  - destruct (AsyncSetAlgo.terminal r) eqn:Hterm.
    + by exists [], r.
    + destruct (AsyncSetAlgo_next_step r Hinv Hterm)
        as (c & r1 & Hstep & Hlt).
      destruct (IH r1) as (sched & r' & Hexec & Hend).
      * destruct c; [by eapply AsyncSetAlgo_Pop_preserves
                    |by eapply AsyncSetAlgo_Iter_preserves].
      * lia.
      * exists (c :: sched), r'. simpl. by rewrite Hstep.
Qed.

Lemma AsyncSetAlgo_Inv_ends (r0 : AsyncSetAlgo.Run) :
  AsyncSetAlgo_Inv workSet g src r0 ->
  exists sched r,
    AsyncSetAlgo.exec UseCas workSet g sched r0 = Some r /\
    AsyncSetAlgo.terminal r = true.
Proof.
  intros Hinv.
  apply (AsyncSetAlgo_can_finish
           (Z.to_nat (AsyncSetAlgo_measure g r0 + 1))); [done|].
  assert (0 <= AsyncSetAlgo_measure g r0); [|lia].
  unfold AsyncSetAlgo_measure.
  pose proof (sum_dist_nonneg _ (as_range _ _ _ _ Hinv)).
  pose proof (tasks_cost_nonneg (AsyncSetAlgo.tasks r0)).
  nia.
Qed.

Lemma AsyncSetAlgo_run_ends (events : list AsyncSetAlgo.SeedEvent)
    (st0 : State) (r0 : AsyncSetAlgo.Run) :
  length (dist st0) = length g ->
  (UseCas = false ->
   AsyncSetAlgo.calls_race_free UseCas events
     (fst (AsyncSetAlgo.Initialize st0 (replicate (length (dist st0)) false)))
     src = true) ->
  AsyncSetAlgo.start UseCas workSet events g st0 src = Some r0 ->
  exists sched r,
    AsyncSetAlgo.exec UseCas workSet g sched r0 = Some r /\
    AsyncSetAlgo.terminal r = true.
Proof.
  intros Hlen0 Hturn Hstart. apply AsyncSetAlgo_Inv_ends.
  by eapply AsyncSetAlgo_start_Inv.
Qed.

(** ** The serial loop *)

Variable less : UpdateRequest -> UpdateRequest -> bool.
Hypothesis Hless : forall x y, less x y = false -> less y x = false -> x = y.

Lemma set_insert_elem (r q : UpdateRequest) (s : list UpdateRequest) :
  q ∈ SerialAlgo.set_insert less r s -> q = r \/ q ∈ s.
Proof.
  induction s as [|x s IH]; simpl.
  - intros Hq. left. by apply list_elem_of_singleton in Hq.
  - destruct (less r x); [|destruct (less x r)].
    + intros Hq. apply elem_of_cons in Hq as [->|Hq]; [by left|by right].
    + intros Hq. apply elem_of_cons in Hq as [->|Hq].
      * right. apply list_elem_of_here.
      * destruct (IH Hq) as [->|Hs]; [by left|].
        right. by apply list_elem_of_further.
    + by right.
Qed.

Lemma set_insert_keep (r q : UpdateRequest) (s : list UpdateRequest) :
  q ∈ s -> q ∈ SerialAlgo.set_insert less r s.
Proof.
  induction s as [|x s IH]; simpl; [by intros Hq; apply elem_of_nil in Hq|].
  intros Hq. destruct (less r x); [|destruct (less x r)].
  - by apply list_elem_of_further.
  - apply elem_of_cons in Hq as [->|Hq]; [apply list_elem_of_here|].
    apply list_elem_of_further. by apply IH.
  - done.
Qed.

Lemma set_insert_in (r : UpdateRequest) (s : list UpdateRequest) :
  r ∈ SerialAlgo.set_insert less r s.
Proof.
  induction s as [|x s IH]; simpl; [apply list_elem_of_here|].
  destruct (less r x) eqn:E1; [apply list_elem_of_here|].
  destruct (less x r) eqn:E2; [by apply list_elem_of_further|].
  rewrite (Hless r x E1 E2). apply list_elem_of_here.
Qed.

Lemma set_insert_length (r : UpdateRequest) (s : list UpdateRequest) :
  (length (SerialAlgo.set_insert less r s) <= S (length s))%nat.
Proof.
  induction s as [|x s IH]; simpl; [lia|].
  destruct (less r x); [simpl; lia|]. destruct (less x r); simpl; lia.
Qed.

Lemma scan_edges_keep (d : list Dist) (reqw : Dist) (edges : list Edge) :
  forall initial q,
    q ∈ initial -> q ∈ SerialAlgo.scan_edges less d reqw edges initial.
Proof.
  induction edges as [|e edges IH]; intros initial q Hq; simpl; [done|].
  apply IH. destruct (_ <? _); [by apply set_insert_keep|done].
Qed.

Lemma scan_edges_elem (d : list Dist) (reqw : Dist) (edges : list Edge) :
  forall initial q,
    q ∈ SerialAlgo.scan_edges less d reqw edges initial ->
    q ∈ initial \/
    exists e, e ∈ edges /\ q = mkReq (fst e) (wrap32 (reqw + snd e)) /\
              wrap32 (reqw + snd e) < getDist d (fst e).
Proof.
  induction edges as [|e edges IH]; intros initial q Hq; simpl in Hq;
    [by left|].
  destruct (IH _ _ Hq) as [Hin|(e' & He' & Heq & Hlt)].
  - destruct (Z.ltb_spec (wrap32 (reqw + snd e)) (getDist d (fst e)));
      [|by left].
    apply set_insert_elem in Hin as [->|Hin]; [|by left].
    right. exists e. split; [apply list_elem_of_here|done].
  - right. exists e'. split; [by apply list_elem_of_further|done].
Qed.

Lemma scan_edges_covers (d : list Dist) (reqw : Dist) (edges : list Edge) :
  forall initial e,
    e ∈ edges ->
    getDist d (fst e) <= wrap32 (reqw + snd e) \/
    mkReq (fst e) (wrap32 (reqw + snd e)) ∈
      SerialAlgo.scan_edges less d reqw edges initial.
Proof.
  induction edges as [|e0 edges IH]; intros initial e He;
    [by apply elem_of_nil in He|].
  simpl. apply elem_of_cons in He as [->|He]; [|by apply IH].
  destruct (Z.ltb_spec (wrap32 (reqw + snd e0)) (getDist d (fst e0)));
    [|by left].
  right. apply scan_edges_keep, set_insert_in.
Qed.

Lemma scan_edges_length (d : list Dist) (reqw : Dist) (edges : list Edge) :
  forall initial,
    (length (SerialAlgo.scan_edges less d reqw edges initial)
     <= length initial + length edges)%nat.
Proof.
  induction edges as [|e edges IH]; intros initial; simpl; [lia|].
  destruct (_ <? _).
  - specialize (IH (SerialAlgo.set_insert less
                      (mkReq (fst e) (wrap32 (reqw + snd e))) initial)).
    pose proof (set_insert_length
                  (mkReq (fst e) (wrap32 (reqw + snd e))) initial). lia.
  - specialize (IH initial). lia.
Qed.

(** The request at the head of the set lowers the distance of its node. *)
Lemma SerialAlgo_improving_preserves (d : list Dist) (req : UpdateRequest)
    (initial : list UpdateRequest) :
  SerialAlgo_Inv g src d (req :: initial) ->
  req_w req < getDist d (req_n req) ->
  (req_n req < length d)%nat /\ 0 <= req_w req /\
  SerialAlgo_Inv g src (<[req_n req := req_w req]> d)
    (SerialAlgo.scan_edges less (<[req_n req := req_w req]> d) (req_w req)
                           (out_edges g (req_n req)) initial).
Proof.
  intros [Hlen Hrg H0 Hreal Hreqs Hcov] Hlt.
  destruct req as [x wx]. simpl in *.
  destruct (Hreqs (mkReq x wx) (list_elem_of_here _ _)) as [Hfin [vs Hp]].
  simpl in Hfin, Hp.
  destruct (Path_prefix d x wx vs Hp) as [Hwx _].
  destruct (Path_vertices d x wx vs Hp) as (_ & Hvx & _).
  specialize (Hvx x (list_elem_of_here _ _)).
  set (d' := <[x := wx]> d).
  assert (Hle : forall y, getDist d' y <= getDist d y).
  { intros y. apply getDist_insert_le. lia. }
  assert (Hx' : getDist d' x = wx) by (apply getDist_insert_eq; lia).
  assert (Hoth : forall y, y <> x -> getDist d' y = getDist d y).
  { intros y Hy. by apply getDist_insert_ne. }
  assert (Hrg' : dist_in_range d').
  { apply dist_in_range_insert; [done|]. lia. }
  assert (Hpx : realized g src d' x wx).
  { apply (realized_mono d d'); [done|by exists vs]. }
  split; [lia|]. split; [done|]. constructor.
  - unfold d'. by rewrite length_insert.
  - done.
  - destruct H0 as [H0|H0].
    + left. rewrite Hoth; [done|]. intros ->. lia.
    + apply elem_of_cons in H0 as [Heq|H0].
      * injection Heq as Hx1 Hw1. left. rewrite Hx1, Hx'. lia.
      * right. by apply scan_edges_keep.
  - intros y Hy. destruct (decide (y = x)) as [->|Hne].
    + by rewrite Hx'.
    + rewrite Hoth by done. apply (realized_mono d d'); [done|].
      apply Hreal. by rewrite <- Hoth.
  - intros q Hq. apply scan_edges_elem in Hq as [Hq|(e & He & -> & Hnd)].
    + destruct (Hreqs q (list_elem_of_further _ _ _ Hq)) as [Hq1 Hq2].
      split; [done|]. by apply (realized_mono d d').
    + simpl. destruct Hpx as [vs' Hp'].
      pose proof (Path_no_overflow d' x wx vs' e Hp' He)
        as Hsum.
      rewrite wrap32_small in * by done.
      pose proof (getDist_range d' (fst e) Hrg').
      split; [lia|].
      apply (realized_extend d' x); [by exists vs'|lia|done|done].
  - intros u e Hu He. destruct (decide (u = x)) as [->|Hne].
    + rewrite Hx'.
      destruct (scan_edges_covers d' wx (out_edges g x)
                  initial e He) as [Hc|Hq].
      * left. unfold closed_edge. by rewrite Hx'.
      * right. eexists. split; [exact Hq|]. simpl. split; [done|lia].
    + rewrite (Hoth u Hne) in *.
      destruct (Hcov u e Hu He) as [Hc|(q & Hq & Hqn & Hqw)].
      * left. unfold closed_edge in *. rewrite (Hoth u Hne).
        specialize (Hle (fst e)). lia.
      * apply elem_of_cons in Hq as [->|Hq].
        -- left. unfold closed_edge. simpl in *. rewrite (Hoth u Hne).
           rewrite <- Hqn, Hx'. done.
        -- right. exists q. split; [by apply scan_edges_keep|done].
Qed.

(** The request at the head of the set is dropped. *)
Lemma SerialAlgo_dropping_preserves (d : list Dist) (req : UpdateRequest)
    (initial : list UpdateRequest) :
  SerialAlgo_Inv g src d (req :: initial) ->
  getDist d (req_n req) <= req_w req ->
  SerialAlgo_Inv g src d initial.
Proof.
  intros [Hlen Hrg H0 Hreal Hreqs Hcov] Hge.
  destruct req as [x wx]. simpl in *.
  destruct (Hreqs (mkReq x wx) (list_elem_of_here _ _)) as [Hfin [vs Hp]].
  constructor; try done.
  - destruct H0 as [H0|H0]; [by left|].
    apply elem_of_cons in H0 as [Heq|H0]; [|by right].
    inversion Heq; subst. left.
    pose proof (getDist_range d x Hrg). lia.
  - intros q Hq. apply Hreqs. by apply list_elem_of_further.
  - intros u e Hu He.
    destruct (Hcov u e Hu He) as [Hc|(q & Hq & Hqn & Hqw)]; [by left|].
    apply elem_of_cons in Hq as [->|Hq].
    + left. unfold closed_edge. simpl in *. rewrite <- Hqn. lia.
    + right. by exists q.
Qed.

Lemma SerialAlgo_Inv_empty (d : list Dist) :
  SerialAlgo_Inv g src d [] -> Solution g src d.
Proof.
  intros [Hlen Hrg H0 Hreal Hreqs Hcov]. constructor; try done.
  - destruct H0 as [H0|H0]; [done|by apply elem_of_nil in H0].
  - intros u e Hu He.
    destruct (Hcov u e Hu He) as [Hc|(q & Hq & _)]; [done|].
    by apply elem_of_nil in Hq.
Qed.

(** Whatever the loop returns is the solution. *)
Lemma SerialAlgo_loop_sound (fuel : nat) :
  forall d initial counter d' counter',
    SerialAlgo_Inv g src d initial ->
    SerialAlgo.loop less fuel g d initial counter = Some (d', counter') ->
    Solution g src d'.
Proof.
  induction fuel as [|fuel IH]; intros d initial counter d' counter' Hinv Hrun;
    destruct initial as [|req initial]; simpl in Hrun; try done;
    try (inversion Hrun; subst; by apply SerialAlgo_Inv_empty).
  destruct (Z.ltb_spec (req_w req) (getDist d (req_n req))) as [Hlt|Hge].
  - destruct (SerialAlgo_improving_preserves d req initial Hinv Hlt)
      as (_ & _ & Hinv').
    by eapply IH.
  - eapply IH; [|done]. by eapply SerialAlgo_dropping_preserves.
Qed.

(** With enough fuel the loop ends. *)
Lemma SerialAlgo_loop_ends (fuel : nat) :
  forall d initial counter,
    SerialAlgo_Inv g src d initial ->
    serial_measure g d initial < Z.of_nat fuel ->
    is_Some (SerialAlgo.loop less fuel g d initial counter).
Proof.
  induction fuel as [|fuel IH]; intros d initial counter Hinv Hfuel.
  - exfalso. unfold serial_measure in Hfuel.
    pose proof (sum_dist_nonneg d (sa_range _ _ _ _ Hinv)). nia.
  - destruct initial as [|req initial]; simpl; [done|].
    destruct (Z.ltb_spec (req_w req) (getDist d (req_n req))) as [Hlt|Hge].
    + destruct (SerialAlgo_improving_preserves d req initial Hinv Hlt)
        as (Hx & Hw & Hinv').
      apply IH; [done|].
      unfold serial_measure in *.
      rewrite sum_dist_insert by done.
      pose proof (scan_edges_length
                    (<[req_n req := req_w req]> d) (req_w req)
                    (out_edges g (req_n req)) initial) as Hscan.
      pose proof (out_degree_bound (req_n req)) as Hdeg.
      cbn [length] in Hfuel. nia.
    + apply IH; [by eapply SerialAlgo_dropping_preserves|].
      unfold serial_measure in *. cbn [length] in Hfuel. lia.
Qed.

Lemma SerialAlgo_Inv_start (d0 : list Dist) :
  length d0 = length g ->
  SerialAlgo_Inv g src (SerialAlgo.Initialize d0) [mkReq src 0].
Proof.
  intros Hlen0. unfold SerialAlgo.Initialize. constructor.
  - by rewrite length_replicate.
  - apply dist_in_range_replicate.
  - right. apply list_elem_of_here.
  - intros v Hv. by rewrite getDist_replicate in Hv.
  - intros q Hq. apply list_elem_of_singleton in Hq as ->. simpl.
    split; [by vm_compute|]. exists []. constructor.
  - intros u e Hu. by rewrite getDist_replicate in Hu.
Qed.

Lemma SerialAlgo_operator_ends (d0 : list Dist) :
  length d0 = length g ->
  exists fuel,
    is_Some (SerialAlgo.operator less fuel g (SerialAlgo.Initialize d0) src).
Proof.
  intros Hlen0.
  set (d := SerialAlgo.Initialize d0).
  exists (Z.to_nat (serial_measure g d [mkReq src 0] + 1)).
  unfold SerialAlgo.operator. cbn [SerialAlgo.set_insert].
  apply SerialAlgo_loop_ends; [by apply SerialAlgo_Inv_start|].
  assert (0 <= serial_measure g d [mkReq src 0]); [|lia].
  unfold serial_measure.
  pose proof (sum_dist_nonneg d (dist_in_range_replicate _)). nia.
Qed.

Lemma SerialAlgo_operator_sound (fuel : nat) (d0 d' : list Dist)
    (counter' : nat) :
  length d0 = length g ->
  SerialAlgo.operator less fuel g (SerialAlgo.Initialize d0) src =
    Some (d', counter') ->
  Solution g src d'.
Proof.
  intros Hlen0 Hrun. unfold SerialAlgo.operator in Hrun.
  cbn [SerialAlgo.set_insert] in Hrun.
  eapply SerialAlgo_loop_sound; [|done]. by apply SerialAlgo_Inv_start.
Qed.

End Relaxation.

(** ** The parallel algorithms and the serial baseline *)

(** C1, as the spec has it, fails on weights that overflow: on [g_order],
    from source 0, the work list of AsyncAlgo ends with dist[3] = 2 when
    the requests are taken in the order of their arrival and with
    dist[3] = DIST_INFINITY when the request of node 2 is taken first; the
    serial baseline (with requests ordered by distance) gives
    DIST_INFINITY. *)
Lemma parallel_serial_counterexample :
  exists r0 r1 r2 dS iterations,
    AsyncAlgo.start true seed_order g_order st_four 0 = Some r0 /\
    AsyncAlgo.exec true g_order sched_fifo r0 = Some r1 /\
    AsyncAlgo.terminal r1 = true /\
    AsyncAlgo.exec true g_order sched_near_first r0 = Some r2 /\
    AsyncAlgo.terminal r2 = true /\
    SerialAlgo.operator less_by_dist 10 g_order
                        (SerialAlgo.Initialize (dist st_four)) 0 =
      Some (dS, iterations) /\
    dist (AsyncAlgo.mem r1) = [0; 2; 1; 2] /\
    dist (AsyncAlgo.mem r2) = [0; 2; 1; DIST_INFINITY] /\
    dS = [0; 2; 1; DIST_INFINITY] /\
    dist (AsyncAlgo.mem r1) <> dS /\
    dist (AsyncAlgo.mem r1) <> dist (AsyncAlgo.mem r2).
Proof.
  eexists _, _, _, _, _.
  split; [by vm_compute|]. split; [by vm_compute|].
  split; [by vm_compute|]. split; [by vm_compute|].
  split; [by vm_compute|]. split; [by vm_compute|]. by vm_compute.
Qed.

Lemma less_by_dist_total (x y : UpdateRequest) :
  less_by_dist x y = false -> less_by_dist y x = false -> x = y.
Proof.
  unfold less_by_dist. destruct x as [n1 w1], y as [n2 w2]. simpl.
  intros H1 H2.
  destruct (Z.ltb_spec w1 w2); [done|].
  destruct (Z.ltb_spec w2 w1); [done|].
  assert (w1 = w2) as -> by lia.
  rewrite Z.eqb_refl in *. simpl in *.
  apply Nat.ltb_ge in H1, H2. f_equal. lia.
Qed.

Lemma AsyncAlgo_start_exists (UseCas : bool) (g : Topology) (st0 : State)
    (src : GNode) :
  exists events r0,
    AsyncAlgo.calls_race_free UseCas events (AsyncAlgo.Initialize st0) src =
      true /\
    AsyncAlgo.start UseCas events g st0 src = Some r0.
Proof.
  destruct (AsyncAlgo_do_all_exists UseCas g [] (AsyncAlgo.Initialize st0) src
              (out_edges g src)) as (events & _ & Ht & He); [done|].
  exists events. unfold AsyncAlgo.start. rewrite He.
  destruct (AsyncAlgo.operator_seed _ _ _ _ _) as [st bag]. by eexists.
Qed.

Lemma AsyncSetAlgo_start_exists (UseCas workSet : bool) (g : Topology)
    (st0 : State) (src : GNode) :
  exists events r0,
    AsyncSetAlgo.calls_race_free UseCas events
      (fst (AsyncSetAlgo.Initialize st0 (replicate (length (dist st0)) false)))
      src = true /\
    AsyncSetAlgo.start UseCas workSet events g st0 src = Some r0.
Proof.
  destruct (AsyncSetAlgo_do_all_exists UseCas g
              (fst (AsyncSetAlgo.Initialize st0
                      (replicate (length (dist st0)) false))) src
              (out_edges g src)) as (events & _ & Ht & He); [done|].
  exists events. unfold AsyncSetAlgo.start.
  cbn [AsyncSetAlgo.Initialize fst snd] in *. rewrite He.
  destruct (AsyncSetAlgo.relaxNode_for _ _ _ _ _) as [st bag].
  destruct (fold_left _ bag _) as [inSet' wl']. by eexists.
Qed.

(** C1, amended.  On a graph with destinations in range and 32-bit
    weights on which no sum of the length of a path from the source and
    the weight of an edge leaving its end reaches 2^32, and with a
    comparison of requests under which equivalent requests are equal: the
    serial baseline ends, and for every value of --algo that selects
    AsyncAlgo or AsyncSetAlgo (CAS or not; any order of the scheduler,
    OBIM or FIFO; with or without a work-set; with the empty-work gate or
    blind), the do_all that seeds the initial bag can run; from every run
    of it in which no call on an edge into a node starts while another
    call on an edge into the same node is between its test and its store
    (no restriction with CAS) the work list can be driven to its end, and
    every run that ends, ends with the dist array that the serial baseline
    returns on the same graph and source.  The push-pull variant asyncPP
    is not among these: see [asyncPP_differs_from_serial]; nor are the
    runs without CAS with such a race: see
    [seeding_race_fails_verification]. *)
Theorem parallel_matches_serial
    (less : UpdateRequest -> UpdateRequest -> bool)
    (g : Topology) (src : GNode) (st0 : State) :
  (forall x y, less x y = false -> less y x = false -> x = y) ->
  wf_graph g -> sums_fit g src -> (src < length g)%nat ->
  length (dist st0) = length g ->
  (exists fuel,
     is_Some (SerialAlgo.operator less fuel g
                (SerialAlgo.Initialize (dist st0)) src)) /\
  forall fuel dS iterations,
    SerialAlgo.operator less fuel g (SerialAlgo.Initialize (dist st0)) src =
      Some (dS, iterations) ->
    forall (a : Algo) (UseCas : bool),
      (main_switch a = RunAsyncAlgo UseCas ->
       (exists events r0,
          AsyncAlgo.calls_race_free UseCas events (AsyncAlgo.Initialize st0)
            src = true /\
          AsyncAlgo.start UseCas events g st0 src = Some r0) /\
       forall events r0,
         (UseCas = false ->
          AsyncAlgo.calls_race_free UseCas events (AsyncAlgo.Initialize st0)
            src = true) ->
         AsyncAlgo.start UseCas events g st0 src = Some r0 ->
         (exists sched r,
            AsyncAlgo.exec UseCas g sched r0 = Some r /\
            AsyncAlgo.terminal r = true) /\
         (forall sched r,
            AsyncAlgo.exec UseCas g sched r0 = Some r ->
            AsyncAlgo.terminal r = true ->
            dist (AsyncAlgo.mem r) = dS)) /\
      (main_switch a = RunAsyncSetAlgo UseCas ->
       (exists events r0,
          AsyncSetAlgo.calls_race_free UseCas events
            (fst (AsyncSetAlgo.Initialize st0
                    (replicate (length (dist st0)) false))) src = true /\
          AsyncSetAlgo.start UseCas (with_work_set a) events g st0 src =
            Some r0) /\
       forall events r0,
         (UseCas = false ->
          AsyncSetAlgo.calls_race_free UseCas events
            (fst (AsyncSetAlgo.Initialize st0
                    (replicate (length (dist st0)) false))) src = true) ->
         AsyncSetAlgo.start UseCas (with_work_set a) events g st0 src =
           Some r0 ->
         (exists sched r,
            AsyncSetAlgo.exec UseCas (with_work_set a) g sched r0 = Some r /\
            AsyncSetAlgo.terminal r = true) /\
         (forall sched r,
            AsyncSetAlgo.exec UseCas (with_work_set a) g sched r0 = Some r ->
            AsyncSetAlgo.terminal r = true ->
            dist (AsyncSetAlgo.mem r) = dS)).
Proof.
  intros Hless Hwf Hno Hsrc Hlen0. split.
  - by apply SerialAlgo_operator_ends.
  - intros fuel dS iterations Hser a UseCas.
    pose proof (SerialAlgo_operator_sound g src Hwf Hsrc Hno less Hless
                  fuel (dist st0) dS iterations Hlen0 Hser) as HS.
    split; intros _.
    + split; [apply AsyncAlgo_start_exists|].
      intros events r0 Hturn Hstart. split.
      * by eapply (AsyncAlgo_run_ends g src Hwf Hsrc Hno).
      * intros sched r Hexec Hterm.
        apply (solution_unique g src Hwf Hsrc); [|done].
        by eapply (AsyncAlgo_run_solution g src Hwf Hsrc Hno).
    + split; [apply AsyncSetAlgo_start_exists|].
      intros events r0 Hturn Hstart. split.
      * by eapply (AsyncSetAlgo_run_ends g src Hwf Hsrc Hno).
      * intros sched r Hexec Hterm.
        apply (solution_unique g src Hwf Hsrc); [|done].
        by eapply (AsyncSetAlgo_run_solution g src Hwf Hsrc Hno).
Qed.

Lemma wf_g_paths : wf_graph g_paths.
Proof. repeat constructor; simpl; lia. Defined.

Lemma no_overflow_g_paths : no_overflow g_paths.
Proof. by vm_compute. Defined.

Lemma sums_fit_g_paths : sums_fit g_paths 0.
Proof.
  apply no_overflow_sums_fit;
    [exact wf_g_paths | simpl; lia | exact no_overflow_g_paths].
Defined.

Lemma wf_g_parallel : wf_graph g_parallel.
Proof. repeat constructor; simpl; lia. Defined.

Lemma sums_fit_g_parallel : sums_fit g_parallel 0.
Proof.
  apply no_overflow_sums_fit;
    [exact wf_g_parallel | simpl; lia | by vm_compute].
Defined.

Lemma parallel_matches_serial_witness :
  wf_graph g_paths /\ sums_fit g_paths 0 /\
  (0 < length g_paths)%nat /\ length (dist st_four) = length g_paths /\
  main_switch asyncWithCas = RunAsyncAlgo true /\
  forall fuel dS iterations,
    SerialAlgo.operator less_by_dist fuel g_paths
                        (SerialAlgo.Initialize (dist st_four)) 0 =
      Some (dS, iterations) ->
    dS = [0; 1; 3; 4].
Proof.
  assert (H3 : (0 < length g_paths)%nat) by (simpl; lia).
  assert (H4 : length (dist st_four) = length g_paths) by done.
  split; [exact wf_g_paths|]. split; [exact sums_fit_g_paths|].
  split; [exact H3|]. split; [exact H4|]. split; [done|].
  intros fuel dS iterations Hser.
  destruct (parallel_matches_serial less_by_dist g_paths 0 st_four
              less_by_dist_total wf_g_paths sums_fit_g_paths H3 H4)
    as [_ Hpar].
  destruct (Hpar fuel dS iterations Hser asyncWithCas true) as [Hpar' _].
  destruct (Hpar' eq_refl) as [_ Hruns].
  destruct (AsyncAlgo.start true seed_paths g_paths st_four 0) as [r0|]
    eqn:Hr0; [|by vm_compute in Hr0].
  destruct (Hruns seed_paths r0 (fun H => False_ind _ (diff_true_false H)) Hr0)
    as [_ Hends].
  destruct (AsyncAlgo.exec true g_paths sched_paths r0) as [r|] eqn:Hr;
    [|by vm_compute in Hr0; injection Hr0 as <-; vm_compute in Hr].
  rewrite <- (Hends sched_paths r Hr).
  - vm_compute in Hr0. injection Hr0 as <-. vm_compute in Hr.
    by injection Hr as <-.
  - vm_compute in Hr0. injection Hr0 as <-. vm_compute in Hr.
    by injection Hr as <-.
Defined.

(** What the amended C1 leaves out.  Without CAS, calls of the seeding
    do_all that overlap can lose an update: on the two parallel edges of
    [g_parallel], on which no sum overflows, the do_all in which both
    calls load before either stores leaves dist[1] = 7; the request that
    carries 3 is then discarded as stale, the work list ends with
    dist[1] = 7 where the serial baseline gives 3, and run<AsyncAlgo<false>>
    ends in GALOIS_DIE("Verification failed"). *)
Lemma seeding_race_fails_verification :
  wf_graph g_parallel /\ sums_fit g_parallel 0 /\
  main_switch async = RunAsyncAlgo false /\
  AsyncAlgo.calls_race_free false seed_parallel_race
    (AsyncAlgo.Initialize st_reached) 0 = false /\
  run (AsyncAlgoT false) (seed_parallel_race, sched_parallel) cfg_parallel
      g_parallel st_reached =
    Some (Died, mkState [0; 7] 0 1,
          [MsgNodeDistance 1 7; MsgIncorrectDistance;
           MsgVerificationFailed]) /\
  run (SerialAlgoT less_by_dist) 10%nat cfg_parallel g_parallel st_reached =
    Some (Returned0, mkState [0; 3] 0 0,
          [MsgNodeDistance 1 3; MsgMaxDist 3; MsgVerificationSuccessful]).
Proof.
  split; [exact wf_g_parallel|]. split; [exact sums_fit_g_parallel|].
  split; [done|]. split; [done|]. split; by vm_compute.
Qed.

(** The push-pull variant pulls along its out-edges as if they could be
    walked backwards: on the directed graph [g_directed], on which no sum
    overflows, asyncPP run by one worker ends with dist[3] = 7, the serial
    baseline with dist[3] = 101, and the verifier accepts both. *)
Lemma asyncPP_differs_from_serial :
  wf_graph g_directed /\ no_overflow g_directed /\
  main_switch asyncPP = RunAsyncAlgoPP /\
  run AsyncAlgoPPT 5%nat cfg_paths g_directed st_four =
    Some (Returned0, mkState [0; 1; 100; 7] 0 0,
          [MsgNodeDistance 3 7; MsgMaxDist 100; MsgVerificationSuccessful]) /\
  run (SerialAlgoT less_by_dist) 10%nat cfg_paths g_directed st_four =
    Some (Returned0, mkState [0; 1; 100; 101] 0 0,
          [MsgNodeDistance 3 101; MsgMaxDist 101;
           MsgVerificationSuccessful]).
Proof.
  split; [repeat constructor; simpl; lia|]. split; [by vm_compute|].
  split; [done|]. split; by vm_compute.
Qed.

(** * Further properties of the code *)

(** ** Distances and walks *)

Lemma out_edges_weight (g : Topology) (u : GNode) (e : Edge) :
  wf_graph g -> e ∈ out_edges g u ->
  (u < length g)%nat /\ (fst e < length g)%nat /\ 0 <= snd e < 2 ^ 32.
Proof.
  intros Hwf. unfold out_edges. destruct (g !! u) as [es|] eqn:Hu; simpl;
    [|intros Hin; by apply elem_of_nil in Hin].
  intros Hin. split; [by eapply lookup_lt_Some|].
  pose proof (Forall_lookup_1 _ _ _ _ Hwf Hu) as Hes.
  by destruct (proj1 (Forall_forall _ _) Hes e Hin) as [Hdst Hw].
Qed.

Lemma Walk_nonneg (g : Topology) (src v : GNode) (a : Z) :
  wf_graph g -> Walk g src v a -> 0 <= a.
Proof.
  intros Hwf. induction 1 as [|u v w a _ IH Hin]; [lia|].
  destruct (out_edges_weight g u (v, w) Hwf Hin) as (_ & _ & Hw).
  simpl in Hw. lia.
Qed.

Lemma Path_Walk (g : Topology) (src : GNode) (d : list Dist) (v : GNode)
    (a : Z) (vs : list GNode) :
  Path g src d v a vs -> Walk g src v a.
Proof. induction 1; [constructor|]. by eapply Walk_snoc. Qed.

(** An array with the source at 0 in which no edge out of a reached
    vertex can be relaxed is below the weight of every walk. *)
Lemma closed_below_walk (g : Topology) (src : GNode) (d : list Dist) :
  wf_graph g -> dist_in_range d -> getDist d src = 0 ->
  (forall u e, getDist d u <> DIST_INFINITY -> e ∈ out_edges g u ->
               closed_edge d u e) ->
  forall v a, Walk g src v a -> getDist d v <= a.
Proof.
  intros Hwf Hd H0 Hcl v a Hw. induction Hw as [|u v w a Hw IH Hin]; [lia|].
  pose proof (Walk_nonneg _ _ _ _ Hwf Hw) as Ha.
  destruct (out_edges_weight g u (v, w) Hwf Hin) as (_ & _ & Hwt).
  simpl in Hwt.
  pose proof (getDist_range d v Hd) as Hv.
  pose proof (getDist_range d u Hd) as Hu.
  destruct (decide (a + w < DIST_INFINITY)) as [Hs|Hs]; [|lia].
  assert (Hne : getDist d u <> DIST_INFINITY) by lia.
  specialize (Hcl u (v, w) Hne Hin). unfold closed_edge in Hcl.
  simpl in Hcl. unfold DIST_INFINITY in *.
  rewrite wrap32_small in Hcl; lia.
Qed.

Lemma Solution_shortest (g : Topology) (src : GNode) (d : list Dist) :
  wf_graph g -> Solution g src d -> shortest g src d.
Proof.
  intros Hwf [_ Hd H0 Hreal Hcl]. split.
  - by apply closed_below_walk.
  - intros v Hv. destruct (Hreal v Hv) as [vs Hp]. by eapply Path_Walk.
Qed.

Lemma verify_true_closed (g : Topology) (d : list Dist) (source : GNode) :
  fst (verify g d source) = true <->
  getDist d source = 0 /\
  forall u v w, (v, w) ∈ out_edges g u -> getDist d u <> DIST_INFINITY ->
                getDist d v <= wrap32 (getDist d u + w).
Proof.
  unfold verify.
  destruct (Z.eqb_spec (getDist d source) 0) as [H0|H0]; simpl.
  2: { split; [discriminate | by intros [? _]]. }
  destruct (existsb (not_consistent g d) (graph_nodes g)) eqn:Hex; simpl.
  - split; [discriminate|]. intros [_ Hall].
    apply consistent_everywhere in Hall. congruence.
  - pose proof (proj1 (consistent_everywhere g d) Hex) as Hall.
    by destruct (length (List.filter (not_visited d) (graph_nodes g))).
Qed.

(** X1.  What an accepted array guarantees: when verify returns true on
    an array of 32-bit values, no dist[v] is above the weight of a walk from
    the source to v. *)
Theorem verify_true_below_walks (g : Topology) (d : list Dist)
    (source : GNode) :
  wf_graph g -> dist_in_range d -> fst (verify g d source) = true ->
  forall v a, Walk g source v a -> getDist d v <= a.
Proof.
  intros Hwf Hd Hv. apply verify_true_closed in Hv as [H0 Hall].
  apply closed_below_walk; try done.
  intros u [v w] Hu Hin. by apply Hall.
Qed.

Lemma verify_true_below_walks_witness :
  Walk g_paths 0 3 6 /\ getDist d_paths 3 <= 6.
Proof.
  assert (Hw : Walk g_paths 0 3 (0 + 1 + 5)).
  { apply (Walk_snoc g_paths 0 1 3 5 (0 + 1)).
    - apply (Walk_snoc g_paths 0 0 1 1 0); [constructor|].
      by apply list_elem_of_here.
    - apply list_elem_of_further, list_elem_of_here. }
  split; [exact Hw|].
  apply (verify_true_below_walks g_paths d_paths 0 wf_g_paths).
  - repeat constructor; by vm_compute.
  - by vm_compute.
  - exact Hw.
Defined.

(** ** The algorithms compute shortest distances *)

(** X2.  SerialAlgo::operator() ends and leaves shortest distances: on a
    graph with destinations in range on which no sum overflows, dist[v] is
    never above the weight of a walk from the source to v, and when it is
    not DIST_INFINITY it is the weight of such a walk. *)
Theorem SerialAlgo_computes_shortest
    (less : UpdateRequest -> UpdateRequest -> bool)
    (g : Topology) (src : GNode) (d0 : list Dist) :
  (forall x y, less x y = false -> less y x = false -> x = y) ->
  wf_graph g -> no_overflow g -> (src < length g)%nat ->
  length d0 = length g ->
  (exists fuel,
     is_Some (SerialAlgo.operator less fuel g (SerialAlgo.Initialize d0) src))
  /\
  forall fuel d' iterations,
    SerialAlgo.operator less fuel g (SerialAlgo.Initialize d0) src =
      Some (d', iterations) ->
    shortest g src d'.
Proof.
  intros Hless Hwf Hno Hsrc Hlen.
  pose proof (no_overflow_sums_fit g src Hwf Hsrc Hno) as Hfit. split.
  - by apply SerialAlgo_operator_ends.
  - intros fuel d' iterations Hret. apply Solution_shortest; [done|].
    by eapply (SerialAlgo_operator_sound g src Hwf Hsrc Hfit less Hless).
Qed.

Lemma SerialAlgo_computes_shortest_witness :
  SerialAlgo.operator less_by_dist 10 g_paths
    (SerialAlgo.Initialize (dist st_four)) 0 = Some (d_paths, 6%nat) /\
  shortest g_paths 0 d_paths.
Proof.
  assert (Hret : SerialAlgo.operator less_by_dist 10 g_paths
                   (SerialAlgo.Initialize (dist st_four)) 0 =
                 Some (d_paths, 6%nat)) by (by vm_compute).
  split; [exact Hret|].
  assert (H3 : (0 < length g_paths)%nat) by (simpl; lia).
  assert (H4 : length (dist st_four) = length g_paths) by done.
  destruct (SerialAlgo_computes_shortest less_by_dist g_paths 0
              (dist st_four) less_by_dist_total wf_g_paths
              no_overflow_g_paths H3 H4) as [_ Hs].
  exact (Hs 10%nat d_paths 6%nat Hret).
Defined.

(** X3.  AsyncAlgo<UseCas>, on a graph on which no sum of the length of a
    path from the source and the weight of an edge leaving its end reaches
    2^32: from any initial node data, the do_all that seeds the initial
    bag can run; and from every run of it in which no call on an edge into
    a node starts while another call on an edge into the same node is
    between its test and its store (no restriction with CAS), whatever
    the order of the calls and the spurious CAS failures, the work list
    can be driven to its end, and every run that ends, in whatever order
    the scheduler hands out the requests, leaves shortest distances. *)
Theorem AsyncAlgo_computes_shortest (UseCas : bool)
    (g : Topology) (src : GNode) (st0 : State) :
  wf_graph g -> sums_fit g src -> (src < length g)%nat ->
  length (dist st0) = length g ->
  (exists events r0,
     AsyncAlgo.calls_race_free UseCas events (AsyncAlgo.Initialize st0) src =
       true /\
     AsyncAlgo.start UseCas events g st0 src = Some r0) /\
  forall events r0,
    (UseCas = false ->
     AsyncAlgo.calls_race_free UseCas events (AsyncAlgo.Initialize st0) src =
       true) ->
    AsyncAlgo.start UseCas events g st0 src = Some r0 ->
    (exists sched r,
       AsyncAlgo.exec UseCas g sched r0 = Some r /\
       AsyncAlgo.terminal r = true) /\
    forall sched r,
      AsyncAlgo.exec UseCas g sched r0 = Some r ->
      AsyncAlgo.terminal r = true ->
      shortest g src (dist (AsyncAlgo.mem r)).
Proof.
  intros Hwf Hno Hsrc Hlen. split; [apply AsyncAlgo_start_exists|].
  intros events r0 Hturn Hstart. split.
  - by eapply (AsyncAlgo_run_ends g src Hwf Hsrc Hno).
  - intros sched r Hexec Hterm. apply Solution_shortest; [done|].
    by eapply (AsyncAlgo_run_solution g src Hwf Hsrc Hno).
Qed.

Lemma AsyncAlgo_computes_shortest_witness :
  exists r0 r,
    AsyncAlgo.calls_race_free false seed_paths_overlap
      (AsyncAlgo.Initialize st_four) 0 = true /\
    AsyncAlgo.start false seed_paths_overlap g_paths st_four 0 = Some r0 /\
    AsyncAlgo.exec false g_paths sched_paths_overlap r0 = Some r /\
    dist (AsyncAlgo.mem r) = d_paths /\
    shortest g_paths 0 (dist (AsyncAlgo.mem r)).
Proof.
  destruct (AsyncAlgo.start false seed_paths_overlap g_paths st_four 0)
    as [r0|] eqn:Hr0; [|by vm_compute in Hr0].
  destruct (AsyncAlgo.exec false g_paths sched_paths_overlap r0) as [r|]
    eqn:Hr; [|by vm_compute in Hr0; injection Hr0 as <-; vm_compute in Hr].
  exists r0, r.
  assert (Ht : AsyncAlgo.calls_race_free false seed_paths_overlap
                 (AsyncAlgo.Initialize st_four) 0 = true) by done.
  split; [exact Ht|]. split; [done|]. split; [done|].
  assert (H3 : (0 < length g_paths)%nat) by (simpl; lia).
  assert (H4 : length (dist st_four) = length g_paths) by done.
  destruct (AsyncAlgo_computes_shortest false g_paths 0 st_four
              wf_g_paths sums_fit_g_paths H3 H4) as [_ Hs].
  destruct (Hs seed_paths_overlap r0 (fun _ => Ht) Hr0) as [_ Hall].
  split.
  - vm_compute in Hr0. injection Hr0 as <-. vm_compute in Hr.
    by injection Hr as <-.
  - apply (Hall sched_paths_overlap r Hr).
    vm_compute in Hr0. injection Hr0 as <-. vm_compute in Hr.
    by injection Hr as <-.
Defined.

(** X4.  AsyncSetAlgo<UseCas>, on a graph on which no sum of the length of
    a path from the source and the weight of an edge leaving its end
    reaches 2^32: with or without a work-set in front of the work list,
    the do_all that seeds the initial bag can run; and from every run of
    it in which no call on an edge into a node starts while another call
    on an edge into the same node is between its test and its store (no
    restriction with CAS), whatever the order of the calls, the work list
    can be driven to its end, and every run that ends leaves shortest
    distances. *)
Theorem AsyncSetAlgo_computes_shortest (UseCas workSet : bool)
    (g : Topology) (src : GNode) (st0 : State) :
  wf_graph g -> sums_fit g src -> (src < length g)%nat ->
  length (dist st0) = length g ->
  (exists events r0,
     AsyncSetAlgo.calls_race_free UseCas events
       (fst (AsyncSetAlgo.Initialize st0
               (replicate (length (dist st0)) false))) src = true /\
     AsyncSetAlgo.start UseCas workSet events g st0 src = Some r0) /\
  forall events r0,
    (UseCas = false ->
     AsyncSetAlgo.calls_race_free UseCas events
       (fst (AsyncSetAlgo.Initialize st0
               (replicate (length (dist st0)) false))) src = true) ->
    AsyncSetAlgo.start UseCas workSet events g st0 src = Some r0 ->
    (exists sched r,
       AsyncSetAlgo.exec UseCas workSet g sched r0 = Some r /\
       AsyncSetAlgo.terminal r = true) /\
    forall sched r,
      AsyncSetAlgo.exec UseCas workSet g sched r0 = Some r ->
      AsyncSetAlgo.terminal r = true ->
      shortest g src (dist (AsyncSetAlgo.mem r)).
Proof.
  intros Hwf Hno Hsrc Hlen. split; [apply AsyncSetAlgo_start_exists|].
  intros events r0 Hturn Hstart. split.
  - by eapply (AsyncSetAlgo_run_ends g src Hwf Hsrc Hno).
  - intros sched r Hexec Hterm. apply Solution_shortest; [done|].
    by eapply (AsyncSetAlgo_run_solution g src Hwf Hsrc Hno).
Qed.

Lemma AsyncSetAlgo_computes_shortest_witness :
  exists r0 r,
    AsyncSetAlgo.calls_race_free false seed_set_paths
      (fst (AsyncSetAlgo.Initialize st_four
              (replicate (length (dist st_four)) false))) 0 = true /\
    AsyncSetAlgo.start false true seed_set_paths g_paths st_four 0 =
      Some r0 /\
    AsyncSetAlgo.exec false true g_paths sched_set_paths r0 = Some r /\
    dist (AsyncSetAlgo.mem r) = d_paths /\
    shortest g_paths 0 (dist (AsyncSetAlgo.mem r)).
Proof.
  destruct (AsyncSetAlgo.start false true seed_set_paths g_paths st_four 0)
    as [r0|] eqn:Hr0; [|by vm_compute in Hr0].
  destruct (AsyncSetAlgo.exec false true g_paths sched_set_paths r0)
    as [r|] eqn:Hr;
    [|by vm_compute in Hr0; injection Hr0 as <-; vm_compute in Hr].
  exists r0, r.
  assert (Ht : AsyncSetAlgo.calls_race_free false seed_set_paths
                 (fst (AsyncSetAlgo.Initialize st_four
                         (replicate (length (dist st_four)) false))) 0 =
               true) by done.
  split; [exact Ht|]. split; [done|]. split; [done|].
  assert (H3 : (0 < length g_paths)%nat) by (simpl; lia).
  assert (H4 : length (dist st_four) = length g_paths) by done.
  destruct (AsyncSetAlgo_computes_shortest false true g_paths 0 st_four
              wf_g_paths sums_fit_g_paths H3 H4) as [_ Hs].
  destruct (Hs seed_set_paths r0 (fun _ => Ht) Hr0) as [_ Hall].
  split.
  - vm_compute in Hr0. injection Hr0 as <-. vm_compute in Hr.
    by injection Hr as <-.
  - apply (Hall sched_set_paths r Hr).
    vm_compute in Hr0. injection Hr0 as <-. vm_compute in Hr.
    by injection Hr as <-.
Defined.

(** ** The driver on valid inputs *)

Lemma initialize_valid (cfg : Config) (g : Topology) :
  0 <= startNode cfg < Z.of_nat (length g) ->
  0 <= reportNode cfg < Z.of_nat (length g) ->
  initialize cfg g =
    inr (Z.to_nat (startNode cfg), Z.to_nat (reportNode cfg)).
Proof.
  intros Hs Hr. unfold initialize.
  destruct (Z.leb_spec (Z.of_nat (length g)) (startNode cfg)); [lia|].
  destruct (Z.leb_spec (Z.of_nat (length g)) (reportNode cfg)); [lia|].
  done.
Qed.

Lemma Solution_verify (g : Topology) (src : GNode) (d : list Dist) :
  Solution g src d -> fst (verify g d src) = true.
Proof.
  intros [_ _ H0 _ Hcl]. apply verify_true_closed. split; [done|].
  intros u v w Hin Hu. by apply (Hcl u (v, w)).
Qed.

(** When the operator phase can only end in a fixed point of relaxation,
    run<Algo> returns, and says that the verification succeeded unless it
    was skipped. *)
Lemma run_verified (A : AlgoT) (s : Sched A) (cfg : Config) (g : Topology)
    (st : State) (e : Exit) (st' : State) (msgs : list Msg) :
  0 <= startNode cfg < Z.of_nat (length g) ->
  0 <= reportNode cfg < Z.of_nat (length g) ->
  (forall st1,
     algo_operator A s g (algo_Initialize A st) (Z.to_nat (startNode cfg)) =
       Some st1 ->
     Solution g (Z.to_nat (startNode cfg)) (dist st1)) ->
  run A s cfg g st = Some (e, st', msgs) ->
  e = Returned0 /\
  Solution g (Z.to_nat (startNode cfg)) (dist st') /\
  (skipVerify cfg = false -> last msgs = Some MsgVerificationSuccessful).
Proof.
  intros Hs Hr Hsol. unfold run. rewrite initialize_valid by done.
  destruct (algo_operator A s g (algo_Initialize A st)
              (Z.to_nat (startNode cfg))) as [st1|] eqn:Hop; [|done].
  specialize (Hsol st1 eq_refl).
  pose proof (Solution_verify _ _ _ Hsol) as Hv.
  destruct (skipVerify cfg).
  - intros Heq. injection Heq as <- <- <-.
    split; [done|]. split; [done|]. discriminate.
  - destruct (verify g (dist st1) (Z.to_nat (startNode cfg))) as [ok ms].
    simpl in Hv. subst ok. intros Heq. injection Heq as <- <- <-.
    split; [done|]. split; [done|]. intros _.
    by rewrite app_comm_cons, last_snoc.
Qed.

Lemma run_returns (A : AlgoT) (s : Sched A) (cfg : Config) (g : Topology)
    (st : State) :
  is_Some (algo_operator A s g (algo_Initialize A st)
             (Z.to_nat (startNode cfg))) ->
  0 <= startNode cfg < Z.of_nat (length g) ->
  0 <= reportNode cfg < Z.of_nat (length g) ->
  is_Some (run A s cfg g st).
Proof.
  intros [st1 Hop] Hs Hr. unfold run. rewrite initialize_valid by done.
  rewrite Hop. destruct (skipVerify cfg); [done|].
  destruct (verify g (dist st1) (Z.to_nat (startNode cfg))) as [[] ms]; done.
Qed.

(** X5.  run<SerialAlgo>() with valid start and report nodes, on a graph on
    which no sum overflows: the run ends, it returns normally (never through
    GALOIS_DIE), and unless verification is skipped its last message is
    "Verification successful." *)
Theorem run_SerialAlgo_succeeds
    (less : UpdateRequest -> UpdateRequest -> bool)
    (cfg : Config) (g : Topology) (st : State) :
  (forall x y, less x y = false -> less y x = false -> x = y) ->
  wf_graph g -> no_overflow g ->
  0 <= startNode cfg < Z.of_nat (length g) ->
  0 <= reportNode cfg < Z.of_nat (length g) ->
  length (dist st) = length g ->
  (exists fuel, is_Some (run (SerialAlgoT less) fuel cfg g st)) /\
  forall fuel e st' msgs,
    run (SerialAlgoT less) fuel cfg g st = Some (e, st', msgs) ->
    e = Returned0 /\
    (skipVerify cfg = false -> last msgs = Some MsgVerificationSuccessful).
Proof.
  intros Hless Hwf Hno Hs Hr Hlen.
  assert (Hsrc : (Z.to_nat (startNode cfg) < length g)%nat) by lia.
  pose proof (no_overflow_sums_fit g _ Hwf Hsrc Hno) as Hfit.
  split.
  - destruct (SerialAlgo_operator_ends g _ Hwf Hsrc Hfit less Hless
                (dist st) Hlen) as [fuel [[d' it] Hop]].
    exists fuel. apply run_returns; try done. simpl. by rewrite Hop.
  - intros fuel e st' msgs Hrun.
    destruct (run_verified (SerialAlgoT less) fuel cfg g st e st' msgs)
      as (He & _ & Hm); try done.
    intros st1. simpl.
    destruct (SerialAlgo.operator less fuel g
                (SerialAlgo.Initialize (dist st))
                (Z.to_nat (startNode cfg))) as [[d' it]|] eqn:Hop; [|done].
    intros [= <-]. simpl.
    by eapply (SerialAlgo_operator_sound g _ Hwf Hsrc Hfit less Hless).
Qed.

Lemma run_SerialAlgo_succeeds_witness :
  run (SerialAlgoT less_by_dist) 10%nat cfg_paths g_paths st_four =
    Some (Returned0, mkState d_paths 0 0,
          [MsgNodeDistance 3 4; MsgMaxDist 4; MsgVerificationSuccessful]).
Proof.
  assert (Hrun : run (SerialAlgoT less_by_dist) 10%nat cfg_paths g_paths
                     st_four =
                 Some (Returned0, mkState d_paths 0 0,
                       [MsgNodeDistance 3 4; MsgMaxDist 4;
                        MsgVerificationSuccessful])) by (by vm_compute).
  assert (Hs : 0 <= startNode cfg_paths < Z.of_nat (length g_paths))
    by (by vm_compute).
  assert (Hr : 0 <= reportNode cfg_paths < Z.of_nat (length g_paths))
    by (by vm_compute).
  assert (Hl : length (dist st_four) = length g_paths) by done.
  destruct (run_SerialAlgo_succeeds less_by_dist cfg_paths g_paths st_four
              less_by_dist_total wf_g_paths no_overflow_g_paths Hs Hr Hl)
    as [_ Hall].
  destruct (Hall 10%nat _ _ _ Hrun) as [_ _]. exact Hrun.
Defined.

Lemma AsyncAlgoT_operator_start (UseCas : bool)
    (events : list AsyncAlgo.SeedEvent)
    (sched : list AsyncAlgo.Choice) (g : Topology) (st0 : State)
    (source : GNode) :
  algo_operator (AsyncAlgoT UseCas) (events, sched) g
                (algo_Initialize (AsyncAlgoT UseCas) st0) source =
  match AsyncAlgo.start UseCas events g st0 source with
  | Some r0 =>
      match AsyncAlgo.exec UseCas g sched r0 with
      | Some r => if AsyncAlgo.terminal r then Some (AsyncAlgo.mem r) else None
      | None => None
      end
  | None => None
  end.
Proof.
  unfold AsyncAlgo.start. simpl.
  by destruct (AsyncAlgo.operator_do_all UseCas g events
                 (AsyncAlgo.Initialize st0) source) as [[st1 bag]|].
Qed.

Lemma AsyncSetAlgoT_operator_start (UseCas workSet : bool)
    (events : list AsyncSetAlgo.SeedEvent)
    (sched : list AsyncSetAlgo.Choice) (g : Topology) (st0 : State)
    (source : GNode) :
  algo_operator (AsyncSetAlgoT UseCas workSet) (events, sched) g
                (algo_Initialize (AsyncSetAlgoT UseCas workSet) st0) source =
  match AsyncSetAlgo.start UseCas workSet events g st0 source with
  | Some r0 =>
      match AsyncSetAlgo.exec UseCas workSet g sched r0 with
      | Some r =>
          if AsyncSetAlgo.terminal r then Some (AsyncSetAlgo.mem r) else None
      | None => None
      end
  | None => None
  end.
Proof.
  unfold AsyncSetAlgo.start. simpl. rewrite !length_replicate.
  destruct (AsyncSetAlgo.operator_do_all UseCas g events _ source)
    as [[st1 bag]|]; [|done].
  by destruct (fold_left (AsyncSetAlgo.ws_push workSet) bag _)
    as [inSet' wl'].
Qed.

(** X6.  run<AsyncAlgo<UseCas>>() and run<AsyncSetAlgo<UseCas>>() with
    valid start and report nodes, on a graph on which no sum of the length
    of a path from the start node and the weight of an edge leaving its
    end reaches 2^32: some run of the seeding do_all and some schedule of
    the work list let the run end; and every run that ends and in whose
    do_all no call on an edge into a node starts while another call on an
    edge into the same node is between its test and its store (no
    restriction with CAS) returns normally (never through GALOIS_DIE),
    its last message being "Verification successful." unless verification
    is skipped. *)
Theorem run_parallel_succeeds (UseCas workSet : bool) (cfg : Config)
    (g : Topology) (st : State) :
  wf_graph g -> sums_fit g (Z.to_nat (startNode cfg)) ->
  0 <= startNode cfg < Z.of_nat (length g) ->
  0 <= reportNode cfg < Z.of_nat (length g) ->
  length (dist st) = length g ->
  ((exists events sched,
      AsyncAlgo.calls_race_free UseCas events (AsyncAlgo.Initialize st)
        (Z.to_nat (startNode cfg)) = true /\
      is_Some (run (AsyncAlgoT UseCas) (events, sched) cfg g st)) /\
   forall events sched e st' msgs,
     (UseCas = false ->
      AsyncAlgo.calls_race_free UseCas events (AsyncAlgo.Initialize st)
        (Z.to_nat (startNode cfg)) = true) ->
     run (AsyncAlgoT UseCas) (events, sched) cfg g st = Some (e, st', msgs) ->
     e = Returned0 /\
     (skipVerify cfg = false ->
      last msgs = Some MsgVerificationSuccessful)) /\
  (exists events sched,
     AsyncSetAlgo.calls_race_free UseCas events
       (fst (AsyncSetAlgo.Initialize st (replicate (length (dist st)) false)))
       (Z.to_nat (startNode cfg)) = true /\
     is_Some (run (AsyncSetAlgoT UseCas workSet) (events, sched) cfg g st)) /\
  forall events sched e st' msgs,
    (UseCas = false ->
     AsyncSetAlgo.calls_race_free UseCas events
       (fst (AsyncSetAlgo.Initialize st (replicate (length (dist st)) false)))
       (Z.to_nat (startNode cfg)) = true) ->
    run (AsyncSetAlgoT UseCas workSet) (events, sched) cfg g st =
      Some (e, st', msgs) ->
    e = Returned0 /\
    (skipVerify cfg = false -> last msgs = Some MsgVerificationSuccessful).
Proof.
  intros Hwf Hno Hs Hr Hlen.
  assert (Hsrc : (Z.to_nat (startNode cfg) < length g)%nat) by lia.
  split; [split|split].
  - destruct (AsyncAlgo_start_exists UseCas g st (Z.to_nat (startNode cfg)))
      as (events & r0 & Hturn & Hstart).
    destruct (AsyncAlgo_run_ends g _ Hwf Hsrc Hno UseCas events st r0 Hlen
                (fun _ => Hturn) Hstart) as (sched & r & Hexec & Hterm).
    exists events, sched. split; [done|]. apply run_returns; try done.
    rewrite AsyncAlgoT_operator_start, Hstart, Hexec, Hterm. by eexists.
  - intros events sched e st' msgs Hturn Hrun.
    destruct (run_verified (AsyncAlgoT UseCas) (events, sched) cfg g st
                e st' msgs) as (He & _ & Hm); try done.
    intros st1. rewrite AsyncAlgoT_operator_start.
    destruct (AsyncAlgo.start UseCas events g st _) as [r0|] eqn:Hstart;
      [|done].
    destruct (AsyncAlgo.exec UseCas g sched r0) as [r|] eqn:Hexec; [|done].
    destruct (AsyncAlgo.terminal r) eqn:Hterm; [|done].
    intros [= <-].
    by eapply (AsyncAlgo_run_solution g _ Hwf Hsrc Hno).
  - destruct (AsyncSetAlgo_start_exists UseCas workSet g st
                (Z.to_nat (startNode cfg)))
      as (events & r0 & Hturn & Hstart).
    destruct (AsyncSetAlgo_run_ends g _ Hwf Hsrc Hno UseCas workSet events st
                r0 Hlen (fun _ => Hturn) Hstart)
      as (sched & r & Hexec & Hterm).
    exists events, sched. split; [done|]. apply run_returns; try done.
    rewrite AsyncSetAlgoT_operator_start, Hstart, Hexec, Hterm. by eexists.
  - intros events sched e st' msgs Hturn Hrun.
    destruct (run_verified (AsyncSetAlgoT UseCas workSet) (events, sched)
                cfg g st e st' msgs) as (He & _ & Hm); try done.
    intros st1. rewrite AsyncSetAlgoT_operator_start.
    destruct (AsyncSetAlgo.start UseCas workSet events g st _)
      as [r0|] eqn:Hstart; [|done].
    destruct (AsyncSetAlgo.exec UseCas workSet g sched r0) as [r|] eqn:Hexec;
      [|done].
    destruct (AsyncSetAlgo.terminal r) eqn:Hterm; [|done].
    intros [= <-].
    by eapply (AsyncSetAlgo_run_solution g _ Hwf Hsrc Hno).
Qed.

Lemma run_parallel_succeeds_witness :
  AsyncAlgo.calls_race_free false seed_parallel_in_turn
    (AsyncAlgo.Initialize st_reached) 0 = true /\
  run (AsyncAlgoT false) (seed_parallel_in_turn, sched_parallel)
      cfg_parallel g_parallel st_reached =
    Some (Returned0, mkState [0; 3] 1 1,
          [MsgNodeDistance 1 3; MsgMaxDist 3; MsgVerificationSuccessful]) /\
  run (AsyncSetAlgoT false true) (seed_set_paths, sched_set_paths)
      cfg_paths g_paths st_four =
    Some (Returned0, mkState d_paths 2 0,
          [MsgNodeDistance 3 4; MsgMaxDist 4; MsgVerificationSuccessful]).
Proof.
  assert (Ht : AsyncAlgo.calls_race_free false seed_parallel_in_turn
                 (AsyncAlgo.Initialize st_reached) 0 = true) by done.
  assert (Hs : 0 <= startNode cfg_parallel < Z.of_nat (length g_parallel))
    by (by vm_compute).
  assert (Hr : 0 <= reportNode cfg_parallel < Z.of_nat (length g_parallel))
    by (by vm_compute).
  assert (Hl : length (dist st_reached) = length g_parallel) by done.
  destruct (run_parallel_succeeds false true cfg_parallel g_parallel
              st_reached wf_g_parallel sums_fit_g_parallel Hs Hr Hl)
    as [[_ Ha] _].
  destruct (run (AsyncAlgoT false) (seed_parallel_in_turn, sched_parallel)
                cfg_parallel g_parallel st_reached)
    as [[[e st'] msgs]|] eqn:Hrun; [|by vm_compute in Hrun].
  destruct (Ha seed_parallel_in_turn sched_parallel e st' msgs (fun _ => Ht)
              Hrun) as [-> _].
  split; [exact Ht|]. split; [|by vm_compute].
  vm_compute in Hrun. by inversion Hrun.
Defined.

(** ** Distances only go down *)

Lemma later_refl (st : State) : later st st.
Proof. unfold later. repeat split; lia. Qed.

Lemma later_trans (st1 st2 st3 : State) :
  later st1 st2 -> later st2 st3 -> later st1 st3.
Proof.
  intros (Hl1 & Hd1 & Hb1 & He1) (Hl2 & Hd2 & Hb2 & He2).
  split; [congruence|]. split; [|lia].
  intros n. specialize (Hd1 n). specialize (Hd2 n). lia.
Qed.

Lemma later_add_WLEmptyWork (st : State) : later st (add_WLEmptyWork st).
Proof. unfold later. simpl. repeat split; lia. Qed.

(** A write of relaxEdge: [x] below the current distance of [n]. *)
Lemma later_write (st : State) (n : GNode) (x : Dist) :
  x < getDist (dist st) n ->
  later st (track_bad (getDist (dist st) n) (set_dist st n x)) /\
  WLEmptyWork (track_bad (getDist (dist st) n) (set_dist st n x)) =
    WLEmptyWork st.
Proof.
  intros Hx. unfold later, track_bad.
  destruct (getDist (dist st) n =? DIST_INFINITY); simpl;
    rewrite length_insert; repeat split; try lia;
    intros m; apply getDist_insert_le; lia.
Qed.

Lemma AsyncAlgo_relaxEdge_later (UseCas : bool) (spurious : nat) (st : State)
    (sdist : Dist) (ii : Edge) (pusher : list UpdateRequest) :
  later st (fst (AsyncAlgo.relaxEdge UseCas spurious st sdist ii pusher)).
Proof.
  rewrite AsyncAlgo_relaxEdge_eq.
  destruct (Z.ltb_spec (wrap32 (sdist + snd ii)) (getDist (dist st) (fst ii)));
    simpl; [by apply later_write | apply later_refl].
Qed.

Lemma AsyncAlgo_step_later (UseCas : bool) (g : Topology)
    (c : AsyncAlgo.Choice) (r r' : AsyncAlgo.Run) :
  AsyncAlgo.step UseCas g c r = Some r' ->
  later (AsyncAlgo.mem r) (AsyncAlgo.mem r').
Proof.
  destruct c as [i|j spurious]; simpl.
  - destruct (AsyncAlgo.wl r !! i) as [req|]; [|done].
    destruct (AsyncAlgo.stale (AsyncAlgo.mem r) req); intros [= <-]; simpl;
      [apply later_add_WLEmptyWork | apply later_refl].
  - destruct (AsyncAlgo.tasks r !! j) as [[req [|ii rest]]|]; [| |done].
    + intros [= <-]. apply later_refl.
    + unfold AsyncAlgo.for_body.
      destruct (AsyncAlgo.stale (AsyncAlgo.mem r) req).
      * intros [= <-]. apply later_add_WLEmptyWork.
      * pose proof (AsyncAlgo_relaxEdge_later UseCas spurious (AsyncAlgo.mem r)
                      (getDist (dist (AsyncAlgo.mem r)) (req_n req)) ii [])
          as Hl.
        destruct (AsyncAlgo.relaxEdge _ _ _ _ _ _) as [st' pushed].
        by intros [= <-].
Qed.

(** X7.  Whatever the scheduler does, a run of the AsyncAlgo work list
    keeps the number of nodes, never raises a distance, and never lowers
    the BadWork and EmptyWork counters. *)
Theorem AsyncAlgo_exec_later (UseCas : bool) (g : Topology)
    (sched : list AsyncAlgo.Choice) (r r' : AsyncAlgo.Run) :
  AsyncAlgo.exec UseCas g sched r = Some r' ->
  later (AsyncAlgo.mem r) (AsyncAlgo.mem r').
Proof.
  revert r. induction sched as [|c sched IH]; intros r; simpl.
  - intros [= <-]. apply later_refl.
  - destruct (AsyncAlgo.step UseCas g c r) as [r1|] eqn:Hstep; [|done].
    intros Hexec. eapply later_trans; [by eapply AsyncAlgo_step_later|].
    by apply IH.
Qed.

Lemma AsyncAlgo_exec_later_witness :
  exists r0 r,
    AsyncAlgo.start true seed_order g_order st_four 0 = Some r0 /\
    AsyncAlgo.exec true g_order sched_fifo r0 = Some r /\
    later (AsyncAlgo.mem r0) (AsyncAlgo.mem r).
Proof.
  destruct (AsyncAlgo.start true seed_order g_order st_four 0) as [r0|]
    eqn:Hr0; [|by vm_compute in Hr0].
  destruct (AsyncAlgo.exec true g_order sched_fifo r0) as [r|] eqn:Hr;
    [|by vm_compute in Hr0; injection Hr0 as <-; vm_compute in Hr].
  exists r0, r. split; [done|]. split; [done|].
  exact (AsyncAlgo_exec_later true g_order sched_fifo r0 r Hr).
Defined.

Lemma AsyncSetAlgo_relaxEdge_later (UseCas : bool) (st : State)
    (sdata : GNode) (ii : Edge) (pusher : list GNode) :
  later st (fst (AsyncSetAlgo.relaxEdge UseCas st sdata ii pusher)) /\
  WLEmptyWork (fst (AsyncSetAlgo.relaxEdge UseCas st sdata ii pusher)) =
    WLEmptyWork st.
Proof.
  rewrite AsyncSetAlgo_relaxEdge_eq.
  destruct (Z.ltb_spec (wrap32 (getDist (dist st) sdata + snd ii))
                       (getDist (dist st) (fst ii)));
    simpl; [by apply later_write | split; [apply later_refl | done]].
Qed.

Lemma AsyncSetAlgo_step_later (UseCas workSet : bool) (g : Topology)
    (c : AsyncSetAlgo.Choice) (r r' : AsyncSetAlgo.Run) :
  AsyncSetAlgo.step UseCas workSet g c r = Some r' ->
  later (AsyncSetAlgo.mem r) (AsyncSetAlgo.mem r') /\
  WLEmptyWork (AsyncSetAlgo.mem r') = WLEmptyWork (AsyncSetAlgo.mem r).
Proof.
  destruct c as [i|j]; simpl.
  - destruct (AsyncSetAlgo.wl r !! i) as [u|]; [|done].
    intros [= <-]. simpl. split; [apply later_refl | done].
  - destruct (AsyncSetAlgo.tasks r !! j) as [[u [|ii rest]]|]; [| |done].
    + intros [= <-]. split; [apply later_refl | done].
    + pose proof (AsyncSetAlgo_relaxEdge_later UseCas (AsyncSetAlgo.mem r)
                    u ii []) as Hl.
      destruct (AsyncSetAlgo.relaxEdge _ _ _ _ _) as [st' pushed].
      destruct (fold_left _ pushed _) as [inSet' wl'].
      by intros [= <-].
Qed.

(** X8.  Whatever the scheduler does, with or without a work-set, a run
    of the AsyncSetAlgo work list keeps the number of nodes, never raises a
    distance, never lowers BadWork, and leaves the EmptyWork counter as it
    found it: the blind variants count no empty work. *)
Theorem AsyncSetAlgo_exec_later (UseCas workSet : bool) (g : Topology)
    (sched : list AsyncSetAlgo.Choice) (r r' : AsyncSetAlgo.Run) :
  AsyncSetAlgo.exec UseCas workSet g sched r = Some r' ->
  later (AsyncSetAlgo.mem r) (AsyncSetAlgo.mem r') /\
  WLEmptyWork (AsyncSetAlgo.mem r') = WLEmptyWork (AsyncSetAlgo.mem r).
Proof.
  revert r. induction sched as [|c sched IH]; intros r; simpl.
  - intros [= <-]. split; [apply later_refl | done].
  - destruct (AsyncSetAlgo.step UseCas workSet g c r) as [r1|] eqn:Hstep;
      [|done].
    intros Hexec.
    destruct (AsyncSetAlgo_step_later _ _ _ _ _ _ Hstep) as [Hl1 He1].
    destruct (IH r1 Hexec) as [Hl2 He2].
    split; [by eapply later_trans | congruence].
Qed.

Lemma AsyncSetAlgo_exec_later_witness :
  exists r0 r,
    AsyncSetAlgo.start false true seed_set_paths g_paths st_four 0 =
      Some r0 /\
    AsyncSetAlgo.exec false true g_paths sched_set_paths r0 = Some r /\
    WLEmptyWork (AsyncSetAlgo.mem r) = 0%nat.
Proof.
  destruct (AsyncSetAlgo.start false true seed_set_paths g_paths st_four 0)
    as [r0|] eqn:Hr0; [|by vm_compute in Hr0].
  destruct (AsyncSetAlgo.exec false true g_paths sched_set_paths r0)
    as [r|] eqn:Hr;
    [|by vm_compute in Hr0; injection Hr0 as <-; vm_compute in Hr].
  exists r0, r. split; [done|]. split; [done|].
  destruct (AsyncSetAlgo_exec_later false true g_paths sched_set_paths r0 r Hr)
    as [_ He].
  rewrite He. vm_compute in Hr0. by injection Hr0 as <-.
Defined.

(** ** What the verifier does not check, and what it prints *)

(** X9.  verify looks for distances that are too large only: on every graph
    it accepts the array that puts every node at distance 0 (with the
    source among the nodes), whatever the weights, and prints 0 as the
    largest distance. *)
Theorem verify_accepts_all_zero (g : Topology) (source : GNode) :
  wf_graph g -> (source < length g)%nat ->
  verify g (replicate (length g) 0) source = (true, [MsgMaxDist 0]).
Proof.
  intros Hwf Hsrc.
  assert (Hget : forall n, (n < length g)%nat ->
                           getDist (replicate (length g) 0) n = 0).
  { intros n Hn. unfold getDist. by rewrite lookup_replicate_2. }
  assert (Hall : Forall (fun n => (n < length g)%nat) (graph_nodes g)).
  { apply Forall_forall. intros n Hn. apply elem_of_seq in Hn. lia. }
  assert (Hnv : forall l, Forall (fun n => (n < length g)%nat) l ->
             List.filter (not_visited (replicate (length g) 0)) l = []).
  { induction l as [|n l IH]; intros Hl; [done|].
    apply Forall_cons in Hl as [Hn Hl]. simpl. unfold not_visited at 1.
    rewrite Hget by done. simpl. by apply IH. }
  assert (Hmax : forall l m, Forall (fun n => (n < length g)%nat) l ->
             0 <= m ->
             fold_left (max_dist (replicate (length g) 0)) l m = m).
  { induction l as [|n l IH]; intros m Hl Hm; [done|].
    apply Forall_cons in Hl as [Hn Hl]. simpl. unfold max_dist at 2.
    rewrite Hget by done. simpl. rewrite Z.max_l by lia. by apply IH. }
  assert (Hcl : fst (verify g (replicate (length g) 0) source) = true).
  { apply verify_true_closed. split; [by apply Hget|].
    intros u v w Hin _.
    destruct (out_edges_weight g u (v, w) Hwf Hin) as (_ & Hv & _).
    rewrite (Hget v) by done. apply wrap32_range. }
  unfold verify in *. rewrite Hget in * by done. simpl in *.
  rewrite Hnv by done.
  destruct (existsb _ (graph_nodes g)); simpl in *; [done|].
  by rewrite Hmax.
Qed.

Lemma verify_accepts_all_zero_witness :
  verify g_paths [0; 0; 0; 0] 0 = (true, [MsgMaxDist 0]) /\
  ~ shortest g_paths 0 [0; 0; 0; 0].
Proof.
  assert (Hsrc : (0 < length g_paths)%nat) by (simpl; lia).
  split; [exact (verify_accepts_all_zero g_paths 0 wf_g_paths Hsrc)|].
  intros [_ Hreal].
  assert (Hw : Walk g_paths 0 1 (getDist [0; 0; 0; 0] 1))
    by (apply Hreal; by vm_compute).
  clear Hreal. change (getDist [0; 0; 0; 0] 1) with 0 in Hw.
  assert (Hpos : forall v a, Walk g_paths 0 v a -> v <> 0%nat -> 0 < a).
  { clear Hw. intros v a Hw. induction Hw as [|u v w a Hw IH Hin]; [done|].
    intros _. pose proof (Walk_nonneg _ _ _ _ wf_g_paths Hw) as Ha.
    assert (0 < w); [|lia].
    unfold out_edges in Hin.
    destruct u as [|[|[|[|u]]]]; simpl in Hin;
      repeat (apply elem_of_cons in Hin as [[= -> ->]|Hin]; [lia|]);
      by apply elem_of_nil in Hin. }
  specialize (Hpos 1%nat 0 Hw). lia.
Defined.




(** ** The priorities of the OBIM work list *)

(** X11.  With a shift count that C++ defines (0 <= delta < 32) the
    index of a request is its distance divided by 2^delta, rounded down: a
    request with a smaller distance never gets a larger index, and two
    requests with the same index are less than 2^delta apart.  The node
    indexer of AsyncSetAlgo gives a node the index of a request that
    carries its current distance.  For any other count, a negative delta
    among them, the shift has no defined value. *)
Theorem indexer_buckets (stepShift : Z) (a b : UpdateRequest)
    (d : list Dist) (n : GNode) :
  (0 <= stepShift < 32 ->
   0 <= req_w a <= req_w b ->
   exists i j,
     UpdateRequestIndexer stepShift a = Some i /\
     UpdateRequestIndexer stepShift b = Some j /\
     i = req_w a / 2 ^ stepShift /\ i <= j /\
     (i = j -> req_w b - req_w a < 2 ^ stepShift)) /\
  NodeIndexer stepShift d n =
    UpdateRequestIndexer stepShift (mkReq n (getDist d n)) /\
  (~ 0 <= stepShift < 32 -> UpdateRequestIndexer stepShift a = None).
Proof.
  unfold NodeIndexer, UpdateRequestIndexer, shift_right. split; [|split].
  - intros Hs Hab.
    destruct (Z.leb_spec 0 stepShift); [|lia].
    destruct (Z.ltb_spec stepShift 32); [|lia]. simpl.
    eexists _, _. split; [done|]. split; [done|].
    rewrite !Z.shiftr_div_pow2 by lia.
    assert (Hp : 0 < 2 ^ stepShift) by (apply Z.pow_pos_nonneg; lia).
    split; [done|]. split; [apply Z.div_le_mono; lia|].
    intros Heq.
    pose proof (Z.div_mod (req_w a) (2 ^ stepShift)) as Ha.
    pose proof (Z.div_mod (req_w b) (2 ^ stepShift)) as Hb.
    pose proof (Z.mod_pos_bound (req_w a) (2 ^ stepShift) Hp).
    pose proof (Z.mod_pos_bound (req_w b) (2 ^ stepShift) Hp).
    rewrite <- Heq in Hb. lia.
  - done.
  - intros Hs.
    destruct (Z.leb_spec 0 stepShift); [|done].
    destruct (Z.ltb_spec stepShift 32); [lia|done].
Qed.

Lemma indexer_buckets_witness :
  exists i j,
    UpdateRequestIndexer 10 (mkReq 1 1000) = Some i /\
    UpdateRequestIndexer 10 (mkReq 2 5000) = Some j /\
    i = 1000 / 2 ^ 10 /\ i <= j /\ (i = j -> 5000 - 1000 < 2 ^ 10).
Proof.
  destruct (indexer_buckets 10 (mkReq 1 1000) (mkReq 2 5000) [] 0%nat)
    as [H _].
  apply H; simpl; lia.
Defined.

(** ** The push-pull variant *)

(** On the node data and on the pusher, relaxEdge of AsyncAlgoPP does what
    relaxEdge of AsyncAlgo<true> does. *)
Lemma AsyncAlgoPP_relaxEdge_as_AsyncAlgo (spurious spurious' : nat)
    (st : State) (sdata : Dist) (ii : Edge) (pusher : list UpdateRequest) :
  let r := AsyncAlgoPP.relaxEdge spurious st sdata ii pusher in
  (fst (fst r), snd r) =
  AsyncAlgo.relaxEdge true spurious' st sdata ii pusher.
Proof.
  rewrite AsyncAlgoPP_relaxEdge_eq, AsyncAlgo_relaxEdge_eq.
  by destruct (wrap32 (sdata + snd ii) <? getDist (dist st) (fst ii)).
Qed.

(** X12.  AsyncAlgoPP seeds the work list as AsyncAlgo<true> does: for a
    source among the nodes, operator() leaves the same node data,
    the same counters and the same initial bag before it calls
    for_each_local, whatever the spurious CAS failures on either side. *)
Theorem AsyncAlgoPP_seeds_as_AsyncAlgo (spur spur' : list nat) (st : State)
    (source : GNode) (sched : list Edge) :
  (source < length (dist st))%nat ->
  AsyncAlgoPP.operator_seed spur st source sched =
  AsyncAlgo.operator_seed true spur' st source sched.
Proof.
  intros Hsrc. unfold AsyncAlgoPP.operator_seed, AsyncAlgo.operator_seed.
  assert (H0 : getDist (dist (set_dist st source 0)) source = 0)
    by by apply getDist_insert_eq.
  generalize dependent (set_dist st source 0). generalize (@nil UpdateRequest).
  revert spur spur'.
  induction sched as [|ii rest IH]; intros spur spur' bag st1 H0; [done|].
  cbn [AsyncAlgoPP.InitialProcess AsyncAlgo.InitialProcess]. rewrite H0.
  pose proof (AsyncAlgoPP_relaxEdge_as_AsyncAlgo (hd 0%nat spur)
                (hd 0%nat spur') st1 0 ii bag) as Heq.
  pose proof (AsyncAlgo_relaxEdge_keeps_zero true (hd 0%nat spur') st1 0 ii
                bag source H0) as Hz.
  destruct (AsyncAlgoPP.relaxEdge (hd 0%nat spur) st1 0 ii bag)
    as [[st2 sd] bag2].
  cbv zeta in Heq. cbn [fst snd] in Heq. rewrite <- Heq in *.
  cbn [fst] in Hz. by apply IH.
Qed.

Lemma AsyncAlgoPP_seeds_as_AsyncAlgo_witness :
  AsyncAlgoPP.operator_seed [] (AsyncAlgo.Initialize st_four) 0
                            (out_edges g_paths 0) =
    (mkState [0; 1; 4; DIST_INFINITY] 0 0, [mkReq 1 1; mkReq 2 4]) /\
  AsyncAlgo.operator_seed true [2%nat] (AsyncAlgo.Initialize st_four) 0
                          (out_edges g_paths 0) =
    (mkState [0; 1; 4; DIST_INFINITY] 0 0, [mkReq 1 1; mkReq 2 4]).
Proof.
  assert (Hsrc : (0 < length (dist (AsyncAlgo.Initialize st_four)))%nat)
    by (simpl; lia).
  rewrite <- (AsyncAlgoPP_seeds_as_AsyncAlgo [] [2%nat] _ 0
                (out_edges g_paths 0) Hsrc).
  split; by vm_compute.
Defined.

Lemma AsyncAlgoPP_Process_for_later (edges : list Edge) :
  forall spur st sdist ctx,
    let r := AsyncAlgoPP.Process_for spur st sdist edges ctx in
    later st (fst (fst r)) /\ forall x, x ∈ ctx -> x ∈ snd r.
Proof.
  induction edges as [|e edges IH]; intros spur st sdist ctx.
  { split; [apply later_refl | done]. }
  cbv zeta. cbn [AsyncAlgoPP.Process_for]. rewrite AsyncAlgoPP_relaxEdge_eq.
  destruct (Z.ltb_spec (wrap32 (sdist + snd e)) (getDist (dist st) (fst e)))
    as [Hlt|Hge].
  - destruct (IH (tl spur)
                (track_bad (getDist (dist st) (fst e))
                   (set_dist st (fst e) (wrap32 (sdist + snd e))))
                sdist (ctx ++ [mkReq (fst e) (wrap32 (sdist + snd e))]))
      as [Hl Hctx].
    split.
    + eapply later_trans; [|exact Hl]. by apply later_write.
    + intros x Hx. apply Hctx, elem_of_app. by left.
  - apply IH.
Qed.

(** The scan of Process from a local distance [sdist] that is at most the
    distance [D] of the node [u], when no edge leads back to [u] and no
    sum from [D] overflows. *)
Lemma AsyncAlgoPP_Process_for_closes (u : GNode) (D : Dist) (n : nat)
    (edges : list Edge) :
  Forall (fun e => fst e <> u /\ (fst e < n)%nat /\ 0 <= snd e /\
                   D + snd e < 2 ^ 32) edges ->
  forall spur st sdist ctx,
    length (dist st) = n -> 0 <= sdist <= D ->
    let r := AsyncAlgoPP.Process_for spur st sdist edges ctx in
    forall e, e ∈ edges -> getDist (dist (fst (fst r))) (fst e) <= D + snd e.
Proof.
  induction 1 as [|[v d] edges (Hv & Hvn & Hd & Hsum) _ IH];
    intros spur st sdist ctx Hlen Hs r e He; [by apply elem_of_nil in He|].
  simpl in Hv, Hvn, Hd, Hsum. subst r. cbn [AsyncAlgoPP.Process_for].
  rewrite AsyncAlgoPP_relaxEdge_eq. cbn [fst snd].
  rewrite (wrap32_small (sdist + d)) by lia.
  pose proof (wrap32_range (getDist (dist st) v + d)) as Hwr.
  destruct (Z.ltb_spec (sdist + d) (getDist (dist st) v)) as [Hlt|Hge].
  - set (st1 := track_bad (getDist (dist st) v) (set_dist st v (sdist + d))).
    assert (Hlen1 : length (dist st1) = n).
    { unfold st1. rewrite dist_track_bad. simpl. by rewrite length_insert. }
    apply elem_of_cons in He as [->|He]; [|by apply IH].
    destruct (AsyncAlgoPP_Process_for_later edges (tl spur) st1 sdist
                (ctx ++ [mkReq v (sdist + d)])) as [(_ & Hle & _) _].
    specialize (Hle v). cbn [fst snd].
    assert (getDist (dist st1) v <= sdist + d); [|lia].
    unfold st1. rewrite dist_track_bad. simpl.
    rewrite getDist_insert_eq by lia. lia.
  - apply elem_of_cons in He as [->|He]; [|apply IH; [done|lia|done]].
    destruct (AsyncAlgoPP_Process_for_later edges (tl spur) st
                (Z.min (wrap32 (getDist (dist st) v + d)) sdist) ctx)
      as [(_ & Hle & _) _].
    specialize (Hle v). cbn [fst snd]. lia.
Qed.

(** X13.  Process of AsyncAlgoPP on a request that carries the current
    distance of its node u, when the edges of u lead to other nodes of
    the graph and no sum of dist[u] and one of their weights overflows: no
    distance is raised, dist[u] stays, and afterwards the consistency test
    of the verifier finds nothing at u, i.e. dist[v] <= dist[u] + w for
    every edge (u -> v, w). *)
Theorem AsyncAlgoPP_Process_closes (g : Topology) (spur : list nat)
    (st : State) (req : UpdateRequest) (ctx : list UpdateRequest) :
  dist_in_range (dist st) ->
  req_w req = getDist (dist st) (req_n req) ->
  Forall (fun e => fst e <> req_n req /\ (fst e < length (dist st))%nat /\
                   0 <= snd e /\
                   getDist (dist st) (req_n req) + snd e < 2 ^ 32)
         (out_edges g (req_n req)) ->
  let st' := fst (fst (AsyncAlgoPP.Process g spur st req ctx)) in
  later st st' /\
  getDist (dist st') (req_n req) = getDist (dist st) (req_n req) /\
  not_consistent g (dist st') (req_n req) = false.
Proof.
  intros Hrg Hreq Hedges st'. subst st'. unfold AsyncAlgoPP.Process.
  rewrite Hreq, Z.eqb_refl. simpl.
  pose proof (getDist_range (dist st) (req_n req) Hrg) as HD.
  assert (Hsame :
    getDist (dist (fst (fst (AsyncAlgoPP.Process_for spur st
       (getDist (dist st) (req_n req)) (out_edges g (req_n req)) ctx))))
      (req_n req) = getDist (dist st) (req_n req)).
  { apply AsyncAlgoPP_Process_for_other.
    eapply Forall_impl; [exact Hedges|]. by intros e [? _]. }
  split; [apply AsyncAlgoPP_Process_for_later|]. split; [exact Hsame|].
  apply not_consistent_false. intros _ v w Hin. rewrite Hsame.
  pose proof (proj1 (Forall_forall _ _) Hedges (v, w) Hin)
    as (_ & _ & Hw & Hsum).
  simpl in Hw, Hsum. rewrite wrap32_small by lia.
  assert (Hs : 0 <= getDist (dist st) (req_n req) <=
               getDist (dist st) (req_n req)) by lia.
  by apply (AsyncAlgoPP_Process_for_closes (req_n req)
              (getDist (dist st) (req_n req)) (length (dist st)) _ Hedges
              spur st _ ctx eq_refl Hs (v, w)).
Qed.

Lemma AsyncAlgoPP_Process_closes_witness :
  not_consistent g_paths
    (dist (fst (fst (AsyncAlgoPP.Process g_paths []
                       (mkState [0; 1; 4; DIST_INFINITY] 0 0)
                       (mkReq 1 1) [])))) 1 = false /\
  AsyncAlgoPP.Process g_paths [] (mkState [0; 1; 4; DIST_INFINITY] 0 0)
                      (mkReq 1 1) [] =
    (mkState [0; 1; 3; 6] 1 0, 1, [mkReq 2 3; mkReq 3 6]).
Proof.
  split; [|by vm_compute].
  apply (AsyncAlgoPP_Process_closes g_paths []
           (mkState [0; 1; 4; DIST_INFINITY] 0 0) (mkReq 1 1) []).
  - repeat constructor; by vm_compute.
  - done.
  - repeat constructor; simpl; lia.
Defined.

(** X14.  The pull of AsyncAlgoPP feeds the pushes that follow it.  When
    the first edge (u -> v, d) of the node u of a current request finds
    dist[v] + d below dist[u], the next edge (u -> w, d') is relaxed from
    dist[v] + d: if that improves w, the request pushed for w carries
    dist[v] + d + d', which is below dist[u] + d', and dist[w] ends at most
    there.  The graph need not have an edge from v to u. *)
Theorem AsyncAlgoPP_pull_feeds_push (g : Topology) (spur : list nat)
    (st : State) (u v w : GNode) (d d' : Dist) (rest : list Edge)
    (ctx : list UpdateRequest) :
  out_edges g u = (v, d) :: (w, d') :: rest ->
  dist_in_range (dist st) -> (w < length (dist st))%nat ->
  0 <= d -> 0 <= d' ->
  getDist (dist st) u + d < 2 ^ 32 ->
  getDist (dist st) v + d < getDist (dist st) u ->
  getDist (dist st) v + d + d' < getDist (dist st) w ->
  let pulled := getDist (dist st) v + d in
  let r := AsyncAlgoPP.Process g spur st (mkReq u (getDist (dist st) u)) ctx in
  mkReq w (pulled + d') ∈ snd r /\
  getDist (dist (fst (fst r))) w <= pulled + d' /\
  pulled + d' < getDist (dist st) u + d'.
Proof.
  intros Hout Hrg Hw Hd Hd' Hsum Hpull Hpush pulled r. subst pulled r.
  pose proof (getDist_range (dist st) u Hrg) as Hu.
  pose proof (getDist_range (dist st) v Hrg) as Hv.
  pose proof (getDist_range (dist st) w Hrg) as Hww.
  unfold DIST_INFINITY in *.
  unfold AsyncAlgoPP.Process. cbn [req_n req_w]. rewrite Z.eqb_refl, Hout.
  cbn [negb AsyncAlgoPP.Process_for].
  rewrite !AsyncAlgoPP_relaxEdge_eq. cbn [fst snd].
  rewrite (wrap32_small (getDist (dist st) u + d)) by lia.
  destruct (Z.ltb_spec (getDist (dist st) u + d) (getDist (dist st) v));
    [lia|].
  rewrite (wrap32_small (getDist (dist st) v + d)) by lia.
  rewrite Z.min_l by lia.
  rewrite AsyncAlgoPP_relaxEdge_eq. cbn [fst snd].
  rewrite (wrap32_small (getDist (dist st) v + d + d')) by lia.
  destruct (Z.ltb_spec (getDist (dist st) v + d + d') (getDist (dist st) w));
    [|lia].
  match goal with
  | |- context [AsyncAlgoPP.Process_for ?sp ?s1 ?sd rest ?c] =>
      destruct (AsyncAlgoPP_Process_for_later rest sp s1 sd c)
        as [(_ & Hle & _) Hctx]
  end.
  split; [|split; [|lia]].
  - apply Hctx, elem_of_app. right. apply list_elem_of_here.
  - specialize (Hle w). rewrite dist_track_bad in Hle. simpl in Hle.
    rewrite getDist_insert_eq in Hle by done. exact Hle.
Qed.

Lemma AsyncAlgoPP_pull_feeds_push_witness :
  AsyncAlgoPP.operator_seed [] (AsyncAlgo.Initialize st_four) 0
                            (out_edges g_directed 0) =
    (st_directed, [mkReq 1 1; mkReq 2 100]) /\
  AsyncAlgoPP.Process g_directed [] st_directed (mkReq 2 100) [] =
    (mkState [0; 1; 100; 7] 0 0, 6, [mkReq 3 7]) /\
  SerialAlgo.operator less_by_dist 10 g_directed
    (SerialAlgo.Initialize (dist st_four)) 0 =
    Some ([0; 1; 100; 101], 4%nat) /\
  mkReq 3 (getDist (dist st_directed) 1 + 5 + 1) ∈
    snd (AsyncAlgoPP.Process g_directed [] st_directed
           (mkReq 2 (getDist (dist st_directed) 2)) []).
Proof.
  split; [by vm_compute|]. split; [by vm_compute|]. split; [by vm_compute|].
  apply (AsyncAlgoPP_pull_feeds_push g_directed [] st_directed 2 1 3 5 1 []
           []); try done.
  - repeat constructor; by vm_compute.
  - simpl. lia.
Defined.

(** ** The loader reads its whole range *)

Lemma getNumEdges_edge_words (is_void : bool) (es : list (Z * Z * Z)) :
  DistGraphConvert.getNumEdges is_void
    (flat_map (DistGraphConvert.edge_words is_void) es) =
  Z.of_nat (length es).
Proof.
  unfold DistGraphConvert.getNumEdges. rewrite edge_words_length.
  unfold DistGraphConvert.stride.
  destruct is_void; rewrite Z.mul_comm; by apply Z.div_mul.
Qed.

Section LoadAll.
Variable Stream : Type.
Variable tellg : Stream -> Z.
Variable extract : Stream -> Z * Stream.
Variable is_void : bool.
Variable localEndByte totalNumNodes : Z.

(** One turn of the loop on an edge that passes the two assertions. *)
Lemma load_loop_turn (fuel : nat) (f f1 f2 f3 : Stream) (src dst data : Z)
    (es0 : list (Z * Z * Z)) :
  DistGraphConvert.wrap64 (tellg f + 1) <> localEndByte ->
  extract f = (src, f1) -> extract f1 = (dst, f2) ->
  (if is_void then f3 = f2 else extract f2 = (data, f3)) ->
  src < totalNumNodes -> dst < totalNumNodes ->
  Z.of_nat (length es0) + 1 < 2 ^ 64 ->
  DistGraphConvert.load_loop Stream tellg extract (S fuel) is_void f
    localEndByte totalNumNodes
    (flat_map (DistGraphConvert.edge_words is_void) es0)
    (Z.of_nat (length es0)) =
  DistGraphConvert.load_loop Stream tellg extract fuel is_void f3
    localEndByte totalNumNodes
    (flat_map (DistGraphConvert.edge_words is_void)
              (es0 ++ [(src, dst, data)]))
    (Z.of_nat (length (es0 ++ [(src, dst, data)]))).
Proof.
  intros Hpos H1 H2 H3 Hsrc Hdst Hcnt.
  cbn [DistGraphConvert.load_loop].
  destruct (Z.eqb_spec (DistGraphConvert.wrap64 (tellg f + 1)) localEndByte);
    [done|].
  rewrite H1, H2.
  destruct (Z.ltb_spec src totalNumNodes); [|lia].
  destruct (Z.ltb_spec dst totalNumNodes); [|lia].
  cbn [negb].
  assert (Hc : DistGraphConvert.wrap64 (Z.of_nat (length es0) + 1) =
               Z.of_nat (length (es0 ++ [(src, dst, data)]))).
  { rewrite length_app. simpl. unfold DistGraphConvert.wrap64.
    rewrite Z.mod_small by lia. lia. }
  rewrite Hc, flat_map_app. cbn [flat_map DistGraphConvert.edge_words].
  rewrite app_nil_r.
  destruct is_void; cbn [negb].
  - by subst f3.
  - rewrite H3. by rewrite <- app_assoc.
Qed.

Lemma load_loop_reads (f f' : Stream) (es : list (Z * Z * Z)) :
  DistGraphConvert.reads Stream tellg extract is_void localEndByte f es f' ->
  Forall (fun e => fst (fst e) < totalNumNodes /\
                   snd (fst e) < totalNumNodes) es ->
  forall fuel es0,
    Z.of_nat (length es0 + length es) < 2 ^ 64 ->
    DistGraphConvert.load_loop Stream tellg extract (length es + fuel)
      is_void f localEndByte totalNumNodes
      (flat_map (DistGraphConvert.edge_words is_void) es0)
      (Z.of_nat (length es0)) =
    DistGraphConvert.load_loop Stream tellg extract fuel is_void f'
      localEndByte totalNumNodes
      (flat_map (DistGraphConvert.edge_words is_void) (es0 ++ es))
      (Z.of_nat (length (es0 ++ es))).
Proof.
  induction 1 as [f|f f1 f2 f3 f' src dst data es Hpos H1 H2 H3 Hr IH];
    intros Hok fuel es0 Hcnt.
  { by rewrite app_nil_r. }
  apply Forall_cons in Hok as [[Hsrc Hdst] Hok]. simpl in Hsrc, Hdst.
  cbn [length] in Hcnt. cbn [length Nat.add].
  rewrite (load_loop_turn _ f f1 f2 f3 src dst data) by (done || lia).
  rewrite IH; [|done|rewrite length_app; simpl; lia].
  by rewrite <- app_assoc.
Qed.

End LoadAll.

(** X15.  A load reads its whole range.  When the stream yields the
    edges [es] one after the other, each with source and destination below
    totalNumNodes, and reports the position localEndByte - 1 exactly after
    the last of them, loadEdgesFromEdgeList returns them all, in order,
    and counts them (with at least as many loop iterations allowed as
    there are edges). *)
Theorem load_returns_all_edges (Stream : Type) (tellg : Stream -> Z)
    (seekg : Z -> Stream -> Stream) (extract : Stream -> Z * Stream)
    (fuel : nat) (is_void : bool) (edgeListFile f' : Stream)
    (localStartByte localEndByte totalNumNodes : Z)
    (es : list (Z * Z * Z)) :
  DistGraphConvert.reads Stream tellg extract is_void localEndByte
    (seekg localStartByte edgeListFile) es f' ->
  DistGraphConvert.wrap64 (tellg f' + 1) = localEndByte ->
  Forall (fun e => fst (fst e) < totalNumNodes /\
                   snd (fst e) < totalNumNodes) es ->
  Z.of_nat (length es) < 2 ^ 64 ->
  (length es <= fuel)%nat ->
  DistGraphConvert.loadEdgesFromEdgeList Stream tellg seekg extract fuel
    is_void edgeListFile localStartByte localEndByte totalNumNodes =
  Some (DistGraphConvert.ReturnedEdges
          (flat_map (DistGraphConvert.edge_words is_void) es)
          (Z.of_nat (length es))).
Proof.
  intros Hreads Hend Hok Hcnt Hfuel.
  unfold DistGraphConvert.loadEdgesFromEdgeList.
  replace fuel with (length es + (fuel - length es))%nat by lia.
  rewrite (load_loop_reads Stream tellg extract is_void localEndByte
             totalNumNodes _ f' es Hreads Hok _ [])
    by (simpl; lia).
  cbn [app length].
  destruct (fuel - length es)%nat; cbn [DistGraphConvert.load_loop];
    rewrite Hend, Z.eqb_refl, getNumEdges_edge_words, Z.eqb_refl; done.
Qed.

Lemma reads_two_edges :
  DistGraphConvert.reads DistGraphConvert.TokenStream
    DistGraphConvert.token_tellg DistGraphConvert.token_extract false 12
    (DistGraphConvert.token_seekg 0 DistGraphConvert.two_edges)
    [(0, 1, 5); (1, 0, 7)] (11, []).
Proof.
  eapply DistGraphConvert.reads_cons; [by vm_compute|reflexivity..|].
  eapply DistGraphConvert.reads_cons; [by vm_compute|reflexivity..|].
  apply DistGraphConvert.reads_nil.
Defined.

Lemma load_returns_all_edges_witness :
  DistGraphConvert.loadEdgesFromEdgeList DistGraphConvert.TokenStream
    DistGraphConvert.token_tellg DistGraphConvert.token_seekg
    DistGraphConvert.token_extract 5 false DistGraphConvert.two_edges
    0 12 2 =
  Some (DistGraphConvert.ReturnedEdges [0; 1; 5; 1; 0; 7] 2).
Proof.
  apply (load_returns_all_edges _ _ _ _ 5 false DistGraphConvert.two_edges
           (11, []) 0 12 2 [(0, 1, 5); (1, 0, 7)] reads_two_edges).
  - by vm_compute.
  - repeat constructor; simpl; lia.
  - simpl. lia.
  - simpl. lia.
Defined.

(** X16.  A load stops at the first edge whose source or destination is
    not below totalNumNodes: when the stream yields that edge after the
    edges [es], GALOIS_ASSERT aborts the load (both ids are extracted
    before the first assertion), and nothing is returned. *)
Theorem load_aborts_on_bad_id (Stream : Type) (tellg : Stream -> Z)
    (seekg : Z -> Stream -> Stream) (extract : Stream -> Z * Stream)
    (fuel : nat) (is_void : bool) (edgeListFile f1 f2 f3 : Stream)
    (localStartByte localEndByte totalNumNodes src dst : Z)
    (es : list (Z * Z * Z)) :
  DistGraphConvert.reads Stream tellg extract is_void localEndByte
    (seekg localStartByte edgeListFile) es f1 ->
  DistGraphConvert.wrap64 (tellg f1 + 1) <> localEndByte ->
  extract f1 = (src, f2) -> extract f2 = (dst, f3) ->
  totalNumNodes <= src \/ totalNumNodes <= dst ->
  Forall (fun e => fst (fst e) < totalNumNodes /\
                   snd (fst e) < totalNumNodes) es ->
  Z.of_nat (length es) < 2 ^ 64 ->
  (length es < fuel)%nat ->
  DistGraphConvert.loadEdgesFromEdgeList Stream tellg seekg extract fuel
    is_void edgeListFile localStartByte localEndByte totalNumNodes =
  Some DistGraphConvert.AssertFailed.
Proof.
  intros Hreads Hpos H1 H2 Hbad Hok Hcnt Hfuel.
  unfold DistGraphConvert.loadEdgesFromEdgeList.
  replace fuel with (length es + S (fuel - length es - 1))%nat by lia.
  rewrite (load_loop_reads Stream tellg extract is_void localEndByte
             totalNumNodes _ f1 es Hreads Hok _ [])
    by (simpl; lia).
  cbn [DistGraphConvert.load_loop].
  destruct (Z.eqb_spec (DistGraphConvert.wrap64 (tellg f1 + 1)) localEndByte);
    [done|].
  rewrite H1, H2.
  destruct (Z.ltb_spec src totalNumNodes); [|done].
  destruct (Z.ltb_spec dst totalNumNodes); [|done].
  lia.
Qed.

Lemma load_aborts_on_bad_id_witness :
  DistGraphConvert.loadEdgesFromEdgeList DistGraphConvert.TokenStream
    DistGraphConvert.token_tellg DistGraphConvert.token_seekg
    DistGraphConvert.token_extract 5 false DistGraphConvert.two_edges
    0 12 1 =
  Some DistGraphConvert.AssertFailed.
Proof.
  apply (load_aborts_on_bad_id _ _ _ _ 5 false DistGraphConvert.two_edges
           (0, snd DistGraphConvert.two_edges)
           (1, [(1, 3); (5, 5); (1, 7); (0, 9); (7, 11)])
           (3, [(5, 5); (1, 7); (0, 9); (7, 11)]) 0 12 1 0 1 []).
  - apply DistGraphConvert.reads_nil.
  - by vm_compute.
  - reflexivity.
  - reflexivity.
  - right. lia.
  - constructor.
  - simpl. lia.
  - simpl. lia.
Defined.

Lemma load_loop_extends (Stream : Type) (tellg : Stream -> Z)
    (extract : Stream -> Z * Stream) (is_void : bool)
    (localEndByte totalNumNodes : Z) (fuel : nat) :
  forall f acc cnt v k,
    DistGraphConvert.load_loop Stream tellg extract fuel is_void f
      localEndByte totalNumNodes acc cnt =
      Some (DistGraphConvert.ReturnedEdges v k) ->
    exists more, v = acc ++ more.
Proof.
  induction fuel as [|fuel IH]; intros f acc cnt v k;
    cbn [DistGraphConvert.load_loop];
    destruct (DistGraphConvert.wrap64 (tellg f + 1) =? localEndByte);
    try (destruct (cnt =? _); [|done]; intros [= <- <-]; exists [];
         by rewrite app_nil_r);
    try done.
  destruct (extract f) as [src f1]. destruct (extract f1) as [dst f2].
  destruct (negb (src <? totalNumNodes)); [done|].
  destruct (negb (dst <? totalNumNodes)); [done|].
  destruct (negb is_void).
  - destruct (extract f2) as [edgeData f3]. intros Hret.
    apply IH in Hret as [more ->]. exists ([src; dst; edgeData] ++ more).
    by rewrite <- !app_assoc.
  - intros Hret. apply IH in Hret as [more ->]. exists ([src; dst] ++ more).
    by rewrite <- !app_assoc.
Qed.

(** X17.  The range of a load ends one byte after the position at which
    the stream stands when the loop stops.  On a stream that seekg puts at
    localStartByte, a load with localEndByte = localStartByte + 1 returns
    no edge without reading; a load of the empty range,
    localEndByte = localStartByte, does not stop there: it reads, and if it
    returns at all it returns at least one edge. *)
Theorem load_empty_range (Stream : Type) (tellg : Stream -> Z)
    (seekg : Z -> Stream -> Stream) (extract : Stream -> Z * Stream)
    (fuel : nat) (is_void : bool) (edgeListFile : Stream)
    (localStartByte totalNumNodes : Z) :
  tellg (seekg localStartByte edgeListFile) = localStartByte ->
  0 <= localStartByte -> localStartByte + 1 < 2 ^ 64 ->
  DistGraphConvert.loadEdgesFromEdgeList Stream tellg seekg extract fuel
    is_void edgeListFile localStartByte (localStartByte + 1) totalNumNodes =
    Some (DistGraphConvert.ReturnedEdges [] 0) /\
  forall v k,
    DistGraphConvert.loadEdgesFromEdgeList Stream tellg seekg extract fuel
      is_void edgeListFile localStartByte localStartByte totalNumNodes =
      Some (DistGraphConvert.ReturnedEdges v k) ->
    1 <= k /\ (2 <= length v)%nat.
Proof.
  intros Hseek H0 Hmax. unfold DistGraphConvert.loadEdgesFromEdgeList.
  assert (Hw : DistGraphConvert.wrap64 (localStartByte + 1) =
               localStartByte + 1).
  { unfold DistGraphConvert.wrap64. apply Z.mod_small. lia. }
  split.
  - destruct fuel; cbn [DistGraphConvert.load_loop];
      rewrite Hseek, Hw, Z.eqb_refl; by destruct is_void.
  - intros v k Hret.
    assert (Hk : k = DistGraphConvert.getNumEdges is_void v).
    { destruct (load_loop_inv Stream tellg extract is_void localStartByte
                  totalNumNodes fuel _ [] 0 v k (Forall_nil_2 _) Hret)
        as (recs & _ & _ & Hk). exact Hk. }
    assert (Hne : (localStartByte + 1 =? localStartByte) = false)
      by (apply Z.eqb_neq; lia).
    destruct fuel as [|fuel]; cbn [DistGraphConvert.load_loop] in Hret;
      rewrite Hseek, Hw, Hne in Hret; [done|].
    destruct (extract (seekg localStartByte edgeListFile)) as [src f1].
    destruct (extract f1) as [dst f2].
    destruct (negb (src <? totalNumNodes)); [done|].
    destruct (negb (dst <? totalNumNodes)); [done|].
    assert (Hlen : ((if is_void then 2 else 3) <= length v)%nat).
    { destruct is_void; cbn [negb] in Hret.
      - apply load_loop_extends in Hret as [more ->].
        rewrite length_app. simpl. lia.
      - destruct (extract f2) as [edgeData f3].
        apply load_loop_extends in Hret as [more ->].
        rewrite length_app. simpl. lia. }
    subst k. unfold DistGraphConvert.getNumEdges.
    destruct is_void; split; try lia.
    + apply Z.div_le_lower_bound; lia.
    + apply Z.div_le_lower_bound; lia.
Qed.

Lemma load_empty_range_witness :
  DistGraphConvert.loadEdgesFromEdgeList DistGraphConvert.TokenStream
    DistGraphConvert.token_tellg DistGraphConvert.token_seekg
    DistGraphConvert.token_extract 0 false DistGraphConvert.two_edges
    5 (5 + 1) 2 =
  Some (DistGraphConvert.ReturnedEdges [] 0).
Proof.
  apply (load_empty_range DistGraphConvert.TokenStream
           DistGraphConvert.token_tellg DistGraphConvert.token_seekg
           DistGraphConvert.token_extract 0 false DistGraphConvert.two_edges
           5 2); [reflexivity | lia | lia].
Defined.

(** ** The passes over the loaded edges *)

Lemma merge_set_fold (l : list Z) (U : gset Z) (x : Z) :
  x ∈ fold_left (fun acc nodeID => {[ nodeID ]} ∪ acc) l U <->
  x ∈ l \/ x ∈ U.
Proof.
  revert U. induction l as [|y l IH]; intros U; simpl.
  - split; [by right|]. intros [H|H]; [by apply elem_of_nil in H | done].
  - rewrite IH, elem_of_cons, elem_of_union, elem_of_singleton. tauto.
Qed.

Lemma merge_threads_fold (sets : list (gset Z)) (U : gset Z) (x : Z) :
  x ∈ fold_left
        (fun uniqueNodes tSet =>
           fold_left (fun acc nodeID => {[ nodeID ]} ∪ acc) (elements tSet)
                     uniqueNodes)
        sets U <->
  x ∈ U \/ exists tSet, tSet ∈ sets /\ x ∈ tSet.
Proof.
  revert U. induction sets as [|t sets IH]; intros U; simpl.
  - split; [by left|]. intros [H|(t & Ht & _)]; [done|].
    by apply elem_of_nil in Ht.
  - rewrite IH, merge_set_fold, elem_of_elements. split.
    + intros [[H|H]|(t' & Ht' & Hx)].
      * right. exists t. split; [apply list_elem_of_here | done].
      * by left.
      * right. exists t'. split; [by apply list_elem_of_further | done].
    + intros [H|(t' & Ht' & Hx)]; [by left; right|].
      apply elem_of_cons in Ht' as [->|Ht']; [by left; left|].
      right. by exists t'.
Qed.

Lemma findUniqueSourceNodes_body_fold (is_void : bool) (localEdges : list Z)
    (sched : list (nat * nat)) :
  forall sets x,
    Forall (fun it => (fst it < length sets)%nat) sched ->
    (exists tSet,
       tSet ∈ fold_left
                (DistGraphConvert.findUniqueSourceNodes_body is_void
                   localEdges) sched sets /\ x ∈ tSet) <->
    (exists tSet, tSet ∈ sets /\ x ∈ tSet) \/
    exists it, it ∈ sched /\
               DistGraphConvert.edge_src is_void localEdges (snd it) = x.
Proof.
  induction sched as [|[tid i] sched IH]; intros sets x Hs; simpl.
  - split; [by left|]. intros [H|(it & Hit & _)]; [done|].
    by apply elem_of_nil in Hit.
  - apply Forall_cons in Hs as [Htid Hs]. simpl in Htid.
    rewrite IH by (by rewrite length_alter). clear IH.
    set (y := DistGraphConvert.edge_src is_void localEdges i).
    assert (Halter :
      (exists tSet, tSet ∈ alter (fun s : gset Z => {[ y ]} ∪ s) tid sets /\
                    x ∈ tSet) <->
      (exists tSet, tSet ∈ sets /\ x ∈ tSet) \/ y = x).
    { destruct (lookup_lt_is_Some_2 sets tid Htid) as [s0 Hs0]. split.
      - intros (t & Ht & Hx). apply list_elem_of_lookup in Ht as [k Hk].
        destruct (decide (k = tid)) as [->|Hne].
        + rewrite list_lookup_alter_eq, Hs0 in Hk. injection Hk as <-.
          apply elem_of_union in Hx as [Hx|Hx].
          * right. by apply elem_of_singleton in Hx.
          * left. exists s0. split; [by eapply list_elem_of_lookup_2 | done].
        + rewrite list_lookup_alter_ne in Hk by done.
          left. exists t. split; [by eapply list_elem_of_lookup_2 | done].
      - intros [(t & Ht & Hx)| <-].
        + apply list_elem_of_lookup in Ht as [k Hk].
          destruct (decide (k = tid)) as [->|Hne].
          * exists ({[ y ]} ∪ t). split; [|set_solver].
            apply (list_elem_of_lookup_2 _ tid).
            by rewrite list_lookup_alter_eq, Hk.
          * exists t. split; [|done]. apply (list_elem_of_lookup_2 _ k).
            by rewrite list_lookup_alter_ne.
        + exists ({[ y ]} ∪ s0). split; [|set_solver].
          apply (list_elem_of_lookup_2 _ tid).
          by rewrite list_lookup_alter_eq, Hs0. }
    rewrite Halter. split.
    + intros [[H| <-]|(it & Hit & Hx)]; [by left| |].
      * right. exists (tid, i). split; [apply list_elem_of_here | done].
      * right. exists it. split; [by apply list_elem_of_further | done].
    + intros [H|(it & Hit & Hx)]; [by left; left|].
      apply elem_of_cons in Hit as [->|Hit]; [by left; right|].
      right. by exists it.
Qed.

(** X18.  findUniqueSourceNodes returns exactly the set of the sources of
    the edges in the vector, however do_all spreads the edge indices over
    the threads and whatever their order. *)
Theorem findUniqueSourceNodes_sources (is_void : bool) (threads : nat)
    (sched : list (nat * nat)) (localEdges : list Z) (x : Z) :
  map snd sched ≡ₚ seq 0 (DistGraphConvert.localNumEdges is_void localEdges) ->
  Forall (fun it => (fst it < threads)%nat) sched ->
  x ∈ DistGraphConvert.findUniqueSourceNodes is_void threads sched localEdges
  <->
  exists edgeIndex,
    (edgeIndex < DistGraphConvert.localNumEdges is_void localEdges)%nat /\
    DistGraphConvert.edge_src is_void localEdges edgeIndex = x.
Proof.
  intros Hperm Htid. unfold DistGraphConvert.findUniqueSourceNodes.
  rewrite merge_threads_fold, findUniqueSourceNodes_body_fold
    by (by rewrite length_replicate).
  split.
  - intros [H|[(t & Ht & Hx)|((tid & i) & Hit & Hx)]].
    + by apply elem_of_empty in H.
    + apply elem_of_replicate in Ht as [-> _]. by apply elem_of_empty in Hx.
    + exists i. split; [|done].
      assert (Hi : i ∈ map snd sched).
      { apply list_elem_of_In, in_map_iff. exists (tid, i).
        split; [done | by apply list_elem_of_In]. }
      rewrite Hperm in Hi. apply elem_of_seq in Hi. lia.
  - intros (i & Hi & Hx). right. right.
    assert (Hin : i ∈ map snd sched).
    { rewrite Hperm. apply elem_of_seq. lia. }
    apply list_elem_of_In, in_map_iff in Hin as (it & Hit & Hin).
    exists it. split; [by apply list_elem_of_In | by rewrite Hit].
Qed.

Lemma findUniqueSourceNodes_sources_witness :
  DistGraphConvert.findUniqueSourceNodes false 2
    [(1%nat, 1%nat); (0%nat, 0%nat)] [0; 1; 5; 1; 0; 7] = {[ 0; 1 ]} /\
  (1 ∈ DistGraphConvert.findUniqueSourceNodes false 2
         [(1%nat, 1%nat); (0%nat, 0%nat)] [0; 1; 5; 1; 0; 7]).
Proof.
  split; [by vm_compute|].
  apply (findUniqueSourceNodes_sources false 2
           [(1%nat, 1%nat); (0%nat, 0%nat)] [0; 1; 5; 1; 0; 7] 1).
  - vm_compute. apply perm_swap.
  - repeat constructor; simpl; lia.
  - exists 1%nat. split; [vm_compute; lia | done].
Defined.

Section Owners.
Variable findOwner : Z -> list (Z * Z) -> Z.
Variable is_void : bool.
Variable localEdges : list Z.
Variable mapping : list (Z * Z).

Local Abbreviation owner_of :=
  (DistGraphConvert.owner_of findOwner is_void localEdges mapping).
Local Abbreviation count_owned :=
  (DistGraphConvert.count_owned findOwner is_void localEdges mapping).

Lemma count_owned_cons (c : Z) (i : nat) (sched : list nat) :
  count_owned c (i :: sched) =
  ((if decide (owner_of i = c) then 1 else 0) + count_owned c sched)%nat.
Proof.
  unfold count_owned. rewrite filter_cons. by destruct (decide _).
Qed.

Lemma count_owned_le (c : Z) (sched : list nat) :
  (count_owned c sched <= length sched)%nat.
Proof. apply length_filter. Qed.

Lemma count_owned_perm (c : Z) (sched : list nat) :
  sched ≡ₚ seq 0 (DistGraphConvert.localNumEdges is_void localEdges) ->
  count_owned c sched =
  length (DistGraphConvert.owned_by findOwner is_void localEdges mapping c).
Proof.
  intros Hperm. unfold count_owned, DistGraphConvert.owned_by.
  by rewrite Hperm.
Qed.

Lemma accumulate_body_None (sched : list nat) :
  fold_left (DistGraphConvert.accumulate_body findOwner is_void localEdges
               mapping) sched None = None.
Proof. by induction sched. Qed.

Lemma accumulate_fold (sched : list nat) :
  forall m : gmap Z Z,
    (forall c, 0 <= default 0 (m !! c) < 2 ^ 64) ->
    Forall (fun i => owner_of i <> DistGraphConvert.no_owner) sched ->
    exists m' : gmap Z Z,
      fold_left (DistGraphConvert.accumulate_body findOwner is_void localEdges
                   mapping) sched (Some m) = Some m' /\
      forall c,
        default 0 (m' !! c) =
        DistGraphConvert.wrap64
          (default 0 (m !! c) + Z.of_nat (count_owned c sched)).
Proof.
  induction sched as [|i sched IH]; intros m Hm Hok.
  - exists m. split; [done|]. intros c. unfold DistGraphConvert.wrap64.
    rewrite Z.add_0_r, Z.mod_small; [done | apply Hm].
  - apply Forall_cons in Hok as [Hi Hok].
    cbn [fold_left DistGraphConvert.accumulate_body]. fold (owner_of i).
    destruct (Z.eqb_spec (owner_of i) DistGraphConvert.no_owner); [done|].
    set (m1 := <[owner_of i :=
                  DistGraphConvert.wrap64
                    (default 0 (m !! owner_of i) + 1)]> m).
    assert (Hm1 : forall c, default 0 (m1 !! c) =
              if decide (owner_of i = c)
              then DistGraphConvert.wrap64 (default 0 (m !! c) + 1)
              else default 0 (m !! c)).
    { intros c. unfold m1. destruct (decide (owner_of i = c)) as [<-|Hne].
      - by rewrite lookup_insert_eq.
      - by rewrite lookup_insert_ne. }
    destruct (IH m1) as (m' & Hfold & Hm'); [|done|].
    { intros c. rewrite Hm1. destruct (decide _); [|apply Hm].
      unfold DistGraphConvert.wrap64. apply Z.mod_pos_bound. lia. }
    exists m'. split; [done|]. intros c.
    rewrite Hm', Hm1, count_owned_cons. unfold DistGraphConvert.wrap64.
    destruct (decide (owner_of i = c)).
    + rewrite Zplus_mod_idemp_l. f_equal. lia.
    + f_equal.
Qed.

Lemma accumulate_fold_abort (sched : list nat) :
  forall acc,
    Exists (fun i => owner_of i = DistGraphConvert.no_owner) sched ->
    fold_left (DistGraphConvert.accumulate_body findOwner is_void localEdges
                 mapping) sched acc = None.
Proof.
  induction sched as [|i sched IH]; intros acc Hex;
    [by apply Exists_nil in Hex|].
  cbn [fold_left]. apply Exists_cons in Hex as [Hi|Hex]; [|by apply IH].
  destruct acc as [m|]; cbn [DistGraphConvert.accumulate_body];
    [|apply accumulate_body_None].
  fold (owner_of i). rewrite Hi, Z.eqb_refl. apply accumulate_body_None.
Qed.

Lemma created_fold (l : list Z) :
  forall (m : gmap Z Z) c,
    default 0
      (fold_left (fun m chunkID => <[chunkID := default 0 (m !! chunkID)]> m)
                 l m !! c) = default 0 (m !! c).
Proof.
  induction l as [|x l IH]; intros m c; [done|]. cbn [fold_left].
  rewrite IH. destruct (decide (x = c)) as [->|Hne].
  - by rewrite lookup_insert_eq.
  - by rewrite lookup_insert_ne.
Qed.

Lemma write_back_fold (m' : gmap Z Z) (l : list Z) :
  forall counts,
    Forall (fun c => 0 <= c < Z.of_nat (length counts)) l ->
    let r :=
      fold_left (fun counts chunkID =>
                   <[Z.to_nat chunkID := default 0 (m' !! chunkID)]> counts)
                l counts in
    length r = length counts /\
    forall c, 0 <= c ->
      (c ∈ l -> r !! Z.to_nat c = Some (default 0 (m' !! c))) /\
      (c ∉ l -> r !! Z.to_nat c = counts !! Z.to_nat c).
Proof.
  induction l as [|x l IH]; intros counts Hl.
  { split; [done|]. intros c Hc. split; [|done].
    intros Hin. by apply elem_of_nil in Hin. }
  apply Forall_cons in Hl as [Hx Hl]. cbn [fold_left].
  destruct (IH (<[Z.to_nat x := default 0 (m' !! x)]> counts)) as [Hlen Hr].
  { by rewrite length_insert. }
  rewrite length_insert in Hlen. split; [done|]. intros c Hc.
  destruct (Hr c Hc) as [Hin Hout]. split.
  - intros Hcl. destruct (decide (c ∈ l)) as [Hcin|Hcout]; [by apply Hin|].
    apply elem_of_cons in Hcl as [->|Hcl]; [|done].
    rewrite (Hout Hcout). apply list_lookup_insert_eq. lia.
  - intros Hcl. apply not_elem_of_cons in Hcl as [Hne Hcl].
    rewrite (Hout Hcl). apply list_lookup_insert_ne. lia.
Qed.

(** X19.  accumulateLocalEdgesToChunks, whatever the order in which do_all
    runs over the edges: when findOwner finds a chunk for the source of
    every edge, the entry of each chunk of uniqueChunks becomes the number
    of local edges whose source the chunk owns, and the other entries of
    chunkCounts stay as they were; when findOwner returns -1 for the source
    of some edge, GALOIS_ASSERT aborts. *)
Theorem accumulateLocalEdgesToChunks_counts (sched : list nat)
    (uniqueChunks : gset Z) (chunkCounts : list Z) :
  sched ≡ₚ seq 0 (DistGraphConvert.localNumEdges is_void localEdges) ->
  (forall c, c ∈ uniqueChunks -> 0 <= c < Z.of_nat (length chunkCounts)) ->
  Z.of_nat (length localEdges) < 2 ^ 64 ->
  (Forall (fun i => owner_of i <> DistGraphConvert.no_owner)
          (seq 0 (DistGraphConvert.localNumEdges is_void localEdges)) ->
   exists counts,
     DistGraphConvert.accumulateLocalEdgesToChunks findOwner is_void sched
       uniqueChunks localEdges mapping chunkCounts = Some counts /\
     length counts = length chunkCounts /\
     forall c, 0 <= c ->
       (c ∈ uniqueChunks ->
        counts !! Z.to_nat c =
        Some (Z.of_nat (length (DistGraphConvert.owned_by findOwner is_void
                                  localEdges mapping c)))) /\
       (c ∉ uniqueChunks -> counts !! Z.to_nat c = chunkCounts !! Z.to_nat c))
  /\
  (Exists (fun i => owner_of i = DistGraphConvert.no_owner)
          (seq 0 (DistGraphConvert.localNumEdges is_void localEdges)) ->
   DistGraphConvert.accumulateLocalEdgesToChunks findOwner is_void sched
     uniqueChunks localEdges mapping chunkCounts = None).
Proof.
  intros Hperm Hchunks Hsize.
  unfold DistGraphConvert.accumulateLocalEdgesToChunks. split.
  - intros Hok. rewrite <- Hperm in Hok.
    destruct (accumulate_fold sched
                (fold_left (fun m chunkID =>
                              <[chunkID := default 0 (m !! chunkID)]> m)
                           (elements uniqueChunks) ∅)) as (m' & -> & Hm');
      [|done|].
    { intros c. rewrite created_fold, lookup_empty. simpl. lia. }
    destruct (write_back_fold m' (elements uniqueChunks) chunkCounts)
      as [Hlen Hr].
    { apply Forall_forall. intros c Hc. apply Hchunks.
      by apply elem_of_elements. }
    eexists. split; [done|]. split; [exact Hlen|]. intros c Hc.
    destruct (Hr c Hc) as [Hin Hout]. split.
    + intros Hcu. rewrite Hin by by apply elem_of_elements.
      rewrite Hm', created_fold, lookup_empty. simpl.
      rewrite <- (count_owned_perm c sched Hperm).
      unfold DistGraphConvert.wrap64. rewrite Z.mod_small; [done|].
      pose proof (count_owned_le c sched) as Hle.
      apply Permutation_length in Hperm. rewrite length_seq in Hperm.
      assert (DistGraphConvert.localNumEdges is_void localEdges
              <= length localEdges)%nat; [|lia].
      unfold DistGraphConvert.localNumEdges, DistGraphConvert.getNumEdges.
      destruct is_void.
      * pose proof (Z.div_le_upper_bound (Z.of_nat (length localEdges)) 2
                      (Z.of_nat (length localEdges))). lia.
      * pose proof (Z.div_le_upper_bound (Z.of_nat (length localEdges)) 3
                      (Z.of_nat (length localEdges))). lia.
    + intros Hcu. apply Hout. by rewrite elem_of_elements.
  - intros Hex. rewrite <- Hperm in Hex.
    by rewrite accumulate_fold_abort.
Qed.

End Owners.

Lemma accumulateLocalEdgesToChunks_counts_witness :
  DistGraphConvert.accumulateLocalEdgesToChunks
    DistGraphConvert.owner_by_range false [1; 0; 2; 3]%nat {[ 0; 1 ]}
    DistGraphConvert.four_edges DistGraphConvert.two_owners [0; 0] =
  Some [2; 2] /\
  length (DistGraphConvert.owned_by DistGraphConvert.owner_by_range false
            DistGraphConvert.four_edges DistGraphConvert.two_owners 1) =
  2%nat.
Proof.
  split; [by vm_compute|].
  destruct (accumulateLocalEdgesToChunks_counts
              DistGraphConvert.owner_by_range false
              DistGraphConvert.four_edges DistGraphConvert.two_owners
              [1; 0; 2; 3]%nat {[ 0; 1 ]} [0; 0]) as [Hok _].
  - vm_compute. apply perm_swap.
  - intros c Hc. apply elem_of_union in Hc as [Hc|Hc];
      apply elem_of_singleton in Hc; subst c; simpl; lia.
  - by vm_compute.
  - destruct Hok as (counts & Hret & _ & Hc).
    { repeat constructor; by vm_compute. }
    destruct (Hc 1 ltac:(lia)) as [Hin _].
    assert (H1 : (1 : Z) ∈ ({[ 0; 1 ]} : gset Z)) by set_solver.
    specialize (Hin H1). vm_compute in Hret. injection Hret as <-.
    apply Nat2Z.inj.
    enough (Some (Z.of_nat (length (DistGraphConvert.owned_by
              DistGraphConvert.owner_by_range false
              DistGraphConvert.four_edges DistGraphConvert.two_owners 1))) =
            Some (Z.of_nat 2)) by congruence.
    by rewrite <- Hin.
Defined.

Section EdgeCounts.
Variable findOwner : Z -> list (Z * Z) -> Z.
Variable is_void : bool.
Variable localEdges : list Z.
Variable hostToNodes : list (Z * Z).

Local Abbreviation owner_of :=
  (DistGraphConvert.owner_of findOwner is_void localEdges hostToNodes).
Local Abbreviation count_owned :=
  (DistGraphConvert.count_owned findOwner is_void localEdges hostToNodes).

Lemma localNumEdges_le :
  (DistGraphConvert.localNumEdges is_void localEdges <= length localEdges)%nat.
Proof.
  unfold DistGraphConvert.localNumEdges, DistGraphConvert.getNumEdges.
  destruct is_void.
  - pose proof (Z.div_le_upper_bound (Z.of_nat (length localEdges)) 2
                  (Z.of_nat (length localEdges))). lia.
  - pose proof (Z.div_le_upper_bound (Z.of_nat (length localEdges)) 3
                  (Z.of_nat (length localEdges))). lia.
Qed.

Lemma sendEdgeCounts_body_fold (sched : list nat) :
  forall numEdgesPerHost,
    Forall (fun c => 0 <= c < 2 ^ 64) numEdgesPerHost ->
    Forall (fun i => 0 <= owner_of i) sched ->
    let r :=
      fold_left (DistGraphConvert.sendEdgeCounts_body findOwner is_void
                   localEdges hostToNodes) sched numEdgesPerHost in
    length r = length numEdgesPerHost /\
    forall h c, numEdgesPerHost !! h = Some c ->
      r !! h =
      Some (DistGraphConvert.wrap64
              (c + Z.of_nat (count_owned (Z.of_nat h) sched))).
Proof.
  induction sched as [|i sched IH]; intros accs Haccs Hok.
  - split; [done|]. intros h c Hc. cbn [fold_left]. rewrite Hc. f_equal.
    unfold DistGraphConvert.wrap64. rewrite Z.add_0_r, Z.mod_small; [done|].
    by apply (Forall_lookup_1 _ _ _ _ Haccs Hc).
  - apply Forall_cons in Hok as [Hi Hok]. cbn [fold_left].
    assert (Hbody :
      DistGraphConvert.sendEdgeCounts_body findOwner is_void localEdges
        hostToNodes accs i =
      alter (fun c => DistGraphConvert.wrap64 (c + 1))
            (Z.to_nat (owner_of i)) accs) by done.
    rewrite Hbody. clear Hbody.
    destruct (IH (alter (fun c => DistGraphConvert.wrap64 (c + 1))
                        (Z.to_nat (owner_of i)) accs)) as [Hlen Hr];
      [|done|].
    { apply Forall_alter; [done|]. intros c _ _.
      unfold DistGraphConvert.wrap64. apply Z.mod_pos_bound. lia. }
    rewrite length_alter in Hlen. split; [done|]. intros h c Hc.
    rewrite count_owned_cons.
    destruct (decide (owner_of i = Z.of_nat h)) as [Heq|Hne].
    + rewrite (Hr h (DistGraphConvert.wrap64 (c + 1))).
      * f_equal. unfold DistGraphConvert.wrap64.
        rewrite Zplus_mod_idemp_l. f_equal. lia.
      * rewrite Heq, Nat2Z.id, list_lookup_alter_eq, Hc. done.
    + rewrite (Hr h c); [done|].
      rewrite list_lookup_alter_ne by lia. done.
Qed.

Lemma send_loop_fold (hostID : nat) (numEdgesPerHost : list Z)
    (hs : list nat) :
  forall net : list (nat * Z),
    fold_left
      (fun net h =>
         if decide (h = hostID) then net
         else net ++ [(h, default 0 (numEdgesPerHost !! h))])
      hs net =
    net ++ map (fun h => (h, default 0 (numEdgesPerHost !! h)))
               (filter (fun h => h <> hostID) hs).
Proof.
  induction hs as [|h hs IH]; intros net; cbn [fold_left].
  - by rewrite app_nil_r.
  - rewrite IH, filter_cons. destruct (decide (h = hostID)) as [->|Hne].
    + by destruct (decide (hostID <> hostID)).
    + destruct (decide (h <> hostID)); [|done].
      by rewrite <- app_assoc.
Qed.

(** Every edge has one owner among the hosts. *)
Lemma count_owned_total (totalNumHosts : nat) (sched : list nat) :
  Forall (fun i => 0 <= owner_of i < Z.of_nat totalNumHosts) sched ->
  sum_list (map (fun h => count_owned (Z.of_nat h) sched)
                (seq 0 totalNumHosts)) = length sched.
Proof.
  assert (Hone : forall (o : Z) (k n : nat),
            sum_list (map (fun h => if decide (o = Z.of_nat h)
                                    then 1%nat else 0%nat) (seq k n)) =
            if decide (Z.of_nat k <= o < Z.of_nat (k + n)) then 1%nat
            else 0%nat).
  { intros o k n. revert k. induction n as [|n IH]; intros k; simpl.
    - destruct (decide _); [lia|done].
    - rewrite IH. repeat destruct (decide _); lia. }
  induction sched as [|i sched IH]; intros Hok.
  - simpl. induction (seq 0 totalNumHosts); [done|]. simpl. lia.
  - apply Forall_cons in Hok as [Hi Hok]. specialize (IH Hok).
    cbn [length]. rewrite <- IH.
    specialize (Hone (owner_of i) 0%nat totalNumHosts).
    destruct (decide _) in Hone; [|lia].
    rewrite <- Nat.add_1_l, <- Hone. clear.
    induction (seq 0 totalNumHosts) as [|h hs IHh]; [done|].
    cbn [map sum_list foldr] in *.
    rewrite count_owned_cons.
    change (foldr Nat.add 0%nat ?l) with (sum_list l) in *.
    rewrite IHh. unfold id.
    destruct (decide (owner_of i = Z.of_nat h)); lia.
Qed.

(** X20.  sendEdgeCounts, whatever the order in which do_all runs over the
    edges, when findOwner gives every source a host: every other host,
    in increasing order, is sent the number of local edges whose source it
    owns, nothing is sent to the host itself, and the counts of all hosts,
    the sender included, add up to the number of local edges. *)
Theorem sendEdgeCounts_messages (hostID totalNumHosts : nat)
    (sched : list nat) :
  sched ≡ₚ seq 0 (DistGraphConvert.localNumEdges is_void localEdges) ->
  Forall (fun i => 0 <= owner_of i < Z.of_nat totalNumHosts)
         (seq 0 (DistGraphConvert.localNumEdges is_void localEdges)) ->
  Z.of_nat (length localEdges) < 2 ^ 64 ->
  DistGraphConvert.sendEdgeCounts findOwner is_void hostID totalNumHosts
    sched hostToNodes localEdges =
    map (fun h =>
           (h, Z.of_nat (length (DistGraphConvert.owned_by findOwner is_void
                                   localEdges hostToNodes (Z.of_nat h)))))
        (filter (fun h => h <> hostID) (seq 0 totalNumHosts)) /\
  sum_list
    (map (fun h => length (DistGraphConvert.owned_by findOwner is_void
                             localEdges hostToNodes (Z.of_nat h)))
         (seq 0 totalNumHosts)) =
  DistGraphConvert.localNumEdges is_void localEdges.
Proof.
  intros Hperm Hok Hsize. split.
  - unfold DistGraphConvert.sendEdgeCounts. rewrite send_loop_fold.
    cbn [app].
    destruct (sendEdgeCounts_body_fold sched (replicate totalNumHosts 0))
      as [_ Hr].
    { apply Forall_forall. intros c Hc.
      apply elem_of_replicate in Hc as [-> _]. lia. }
    { rewrite Hperm. eapply Forall_impl; [exact Hok|]. by intros i [? _]. }
    apply map_ext_in. intros h Hh. f_equal.
    apply list_elem_of_In, list_elem_of_filter in Hh as [_ Hh].
    apply elem_of_seq in Hh.
    rewrite (Hr h 0) by (apply lookup_replicate_2; lia). simpl.
    rewrite (count_owned_perm _ _ _ _ _ _ Hperm).
    unfold DistGraphConvert.wrap64. apply Z.mod_small.
    pose proof localNumEdges_le.
    pose proof (length_filter
      (fun edgeIndex => owner_of edgeIndex = Z.of_nat h)
      (seq 0 (DistGraphConvert.localNumEdges is_void localEdges))) as Hle.
    rewrite length_seq in Hle.
    unfold DistGraphConvert.owned_by. unfold DistGraphConvert.owner_of in Hle.
    lia.
  - pose proof (count_owned_total totalNumHosts
                  (seq 0 (DistGraphConvert.localNumEdges is_void localEdges))
                  Hok) as Htot.
    by rewrite length_seq in Htot.
Qed.

End EdgeCounts.

Lemma sendEdgeCounts_messages_witness :
  DistGraphConvert.sendEdgeCounts DistGraphConvert.owner_by_range false
    0 2 [1; 0; 2; 3]%nat DistGraphConvert.two_owners
    DistGraphConvert.four_edges = [(1%nat, 2)].
Proof.
  destruct (sendEdgeCounts_messages DistGraphConvert.owner_by_range false
              DistGraphConvert.four_edges DistGraphConvert.two_owners
              0 2 [1; 0; 2; 3]%nat) as [Hmsg _].
  - vm_compute. apply perm_swap.
  - repeat constructor; by vm_compute.
  - by vm_compute.
  - rewrite Hmsg. by vm_compute.
Defined.

(** ** The chunks of getEvenNodeToHostMapping *)

Lemma halve_loop_spec (fuel : nat) :
  forall n, 0 <= n < 2 ^ Z.of_nat fuel * 10000000 ->
    exists r,
      DistGraphConvert.halve_loop fuel n = Some r /\
      0 <= r <= 10000000 /\
      (n <= 10000000 -> r = n) /\
      (10000000 < n -> 5000000 <= r).
Proof.
  induction fuel as [|fuel IH]; intros n Hn;
    cbn [DistGraphConvert.halve_loop];
    destruct (Z.ltb_spec 10000000 n) as [Hbig|Hsmall];
    try (exists n; repeat split; lia).
  assert (Hhalf : 0 <= n / 2 < 2 ^ Z.of_nat fuel * 10000000).
  { rewrite Nat2Z.inj_succ, Z.pow_succ_r in Hn by lia.
    split; [apply Z.div_pos; lia|].
    apply Z.div_lt_upper_bound; lia. }
  destruct (IH (n / 2) Hhalf) as (r & Hr & Hrange & Hsame & Hlow).
  exists r. split; [done|]. split; [done|]. split; [lia|]. intros _.
  destruct (Z.le_gt_cases (n / 2) 10000000) as [Hle|Hgt]; [|lia].
  rewrite (Hsame Hle).
  apply Z.div_le_lower_bound; lia.
Qed.

Lemma halve_loop_fuel (fuel1 : nat) :
  forall fuel2 n r1 r2,
    DistGraphConvert.halve_loop fuel1 n = Some r1 ->
    DistGraphConvert.halve_loop fuel2 n = Some r2 -> r1 = r2.
Proof.
  induction fuel1 as [|fuel1 IH]; intros fuel2 n r1 r2;
    destruct fuel2 as [|fuel2]; cbn [DistGraphConvert.halve_loop];
    destruct (10000000 <? n); try congruence.
  apply IH.
Qed.

(** X21.  The number of node chunks of getEvenNodeToHostMapping, for a
    64-bit edge count and at least one host: the loop ends; the result is
    totalEdgeCount / totalNumHosts when that is at most 10000000, and lies
    between 5000000 and 10000000 otherwise; with fewer edges than hosts
    there is no chunk at all. *)
Theorem numNodeChunks_bounds (totalEdgeCount totalNumHosts : Z) :
  0 <= totalEdgeCount < 2 ^ 64 -> 0 < totalNumHosts ->
  exists r,
    DistGraphConvert.numNodeChunks 64 totalEdgeCount totalNumHosts = Some r /\
    (forall fuel r',
       DistGraphConvert.numNodeChunks fuel totalEdgeCount totalNumHosts =
         Some r' -> r' = r) /\
    0 <= r <= 10000000 /\
    (totalEdgeCount / totalNumHosts <= 10000000 ->
     r = totalEdgeCount / totalNumHosts) /\
    (10000000 < totalEdgeCount / totalNumHosts -> 5000000 <= r) /\
    (totalEdgeCount < totalNumHosts -> r = 0).
Proof.
  intros He Hh. unfold DistGraphConvert.numNodeChunks.
  assert (Hq : 0 <= totalEdgeCount / totalNumHosts <= totalEdgeCount).
  { split; [apply Z.div_pos; lia|].
    apply Z.div_le_upper_bound; [lia|]. nia. }
  destruct (halve_loop_spec 64 (totalEdgeCount / totalNumHosts))
    as (r & Hr & Hrange & Hsame & Hlow).
  { split; [lia|]. change (2 ^ Z.of_nat 64) with (2 ^ 64). lia. }
  exists r. split; [done|]. split.
  { intros fuel r' Hr'. by eapply halve_loop_fuel. }
  split; [done|]. split; [done|]. split; [done|].
  intros Hfew. rewrite Z.div_small in Hsame by lia. apply Hsame. lia.
Qed.

Lemma numNodeChunks_bounds_witness :
  DistGraphConvert.numNodeChunks 64 100000000 4 = Some 6250000 /\
  DistGraphConvert.numNodeChunks 64 3 4 = Some 0.
Proof.
  destruct (numNodeChunks_bounds 3 4) as (r & Hr & _ & _ & _ & _ & H0);
    [lia | lia |].
  split; [by vm_compute|]. rewrite Hr. f_equal. apply H0. lia.
Defined.

Lemma total_snoc (l : list Z) (x : Z) :
  DistGraphConvert.total (l ++ [x]) = DistGraphConvert.total l + x.
Proof.
  unfold DistGraphConvert.total. induction l as [|y l IH]; simpl; lia.
Qed.

Lemma prefix_loop_spec (orig : list Z) (n : nat) :
  forall i cur,
    (1 <= i)%nat -> (i + n <= length orig)%nat ->
    length cur = length orig ->
    (forall j, (j < i)%nat ->
       cur !! j =
       Some (DistGraphConvert.wrap64
               (DistGraphConvert.total (take (S j) orig)))) ->
    (forall j, (i <= j)%nat -> cur !! j = orig !! j) ->
    let r := DistGraphConvert.prefix_loop n i cur in
    length r = length orig /\
    (forall j, (j < i + n)%nat ->
       r !! j =
       Some (DistGraphConvert.wrap64
               (DistGraphConvert.total (take (S j) orig)))) /\
    (forall j, (i + n <= j)%nat -> r !! j = orig !! j).
Proof.
  induction n as [|n IH]; intros i cur Hi Hlen Hcur Hdone Hrest.
  { cbn [DistGraphConvert.prefix_loop]. rewrite Nat.add_0_r. by repeat split. }
  cbn [DistGraphConvert.prefix_loop].
  destruct (lookup_lt_is_Some_2 orig i ltac:(lia)) as [x Hx].
  set (new := DistGraphConvert.wrap64
                (default 0 (cur !! i) + default 0 (cur !! (i - 1)%nat))).
  assert (Hnew : new = DistGraphConvert.wrap64
                         (DistGraphConvert.total (take (S i) orig))).
  { unfold new. rewrite (Hrest i) by lia. rewrite (Hdone (i - 1)%nat) by lia.
    rewrite Hx. simpl. replace (S (i - 1)) with i by lia.
    rewrite (take_S_r _ _ _ Hx), total_snoc.
    unfold DistGraphConvert.wrap64.
    rewrite Zplus_mod_idemp_r. f_equal. lia. }
  destruct (IH (S i) (<[i := new]> cur)) as (Hl & Hd & Hr); try lia.
  - by rewrite length_insert.
  - intros j Hj. destruct (decide (j = i)) as [->|Hne].
    + rewrite list_lookup_insert_eq by lia. by rewrite Hnew.
    + rewrite list_lookup_insert_ne by done. apply Hdone. lia.
  - intros j Hj. rewrite list_lookup_insert_ne by lia. apply Hrest. lia.
  - split; [done|]. split.
    + intros j Hj. apply Hd. lia.
    + intros j Hj. apply Hr. lia.
Qed.

(** X22.  The loop of getEvenNodeToHostMapping that turns the counts of
    the chunks into a prefix sum in place: entry i becomes the sum of the
    entries 0 to i, reduced modulo 2^64 as uint64_t sums are, which is the
    exact sum when the counts add up to less than 2^64; the entries from
    numNodeChunks on are left alone, and so is everything when there is
    at most one chunk. *)
Theorem prefix_sum_sums (numNodeChunks : nat) (chunkCounts : list Z) :
  (numNodeChunks <= length chunkCounts)%nat ->
  Forall (fun c => 0 <= c < 2 ^ 64) chunkCounts ->
  let r := DistGraphConvert.prefix_sum numNodeChunks chunkCounts in
  length r = length chunkCounts /\
  (forall i, (i < numNodeChunks)%nat ->
     r !! i =
     Some (DistGraphConvert.wrap64
             (DistGraphConvert.total (take (S i) chunkCounts)))) /\
  (forall i, (numNodeChunks <= i)%nat -> r !! i = chunkCounts !! i) /\
  (DistGraphConvert.total chunkCounts < 2 ^ 64 ->
   forall i, (i < numNodeChunks)%nat ->
     r !! i = Some (DistGraphConvert.total (take (S i) chunkCounts))).
Proof.
  intros Hn Hrange r.
  assert (Hfirst : forall j, (j < 1)%nat -> (j < length chunkCounts)%nat ->
            chunkCounts !! j =
            Some (DistGraphConvert.wrap64
                    (DistGraphConvert.total (take (S j) chunkCounts)))).
  { intros j Hj Hlt. replace j with 0%nat by lia.
    destruct chunkCounts as [|c0 rest]; [simpl in Hlt; lia|].
    apply Forall_cons in Hrange as [Hc0 _]. simpl.
    unfold DistGraphConvert.wrap64. rewrite Z.add_0_r.
    by rewrite Z.mod_small. }
  assert (Hspec :
    length r = length chunkCounts /\
    (forall i, (i < numNodeChunks)%nat ->
       r !! i =
       Some (DistGraphConvert.wrap64
               (DistGraphConvert.total (take (S i) chunkCounts)))) /\
    (forall i, (numNodeChunks <= i)%nat -> r !! i = chunkCounts !! i)).
  { subst r. unfold DistGraphConvert.prefix_sum.
    destruct numNodeChunks as [|k].
    { simpl. split; [done|]. split; [intros i Hi; lia | done]. }
    replace (S k - 1)%nat with k by lia.
    assert (Hstart : forall j, (j < 1)%nat ->
              chunkCounts !! j =
              Some (DistGraphConvert.wrap64
                      (DistGraphConvert.total (take (S j) chunkCounts)))).
    { intros j Hj. apply Hfirst; lia. }
    destruct (prefix_loop_spec chunkCounts k 1 chunkCounts (le_n 1) Hn
                eq_refl Hstart (fun j _ => eq_refl)) as (Hl & Hd & Hr).
    split; [done|]. split.
    - intros i Hi. apply Hd. lia.
    - intros i Hi. apply Hr. lia. }
  destruct Hspec as (Hl & Hd & Hr).
  split; [done|]. split; [done|]. split; [done|].
  intros Htot i Hi. rewrite Hd by done. f_equal.
  unfold DistGraphConvert.wrap64. apply Z.mod_small.
  assert (Hnn : forall l : list Z, Forall (fun c => 0 <= c < 2 ^ 64) l ->
                  0 <= DistGraphConvert.total l).
  { induction 1 as [|c l Hc _ IHl]; simpl; lia. }
  rewrite <- (take_drop (S i) chunkCounts) in Htot, Hrange.
  apply Forall_app in Hrange as [Ht Hdrop].
  assert (Happ : forall l1 l2 : list Z,
            DistGraphConvert.total (l1 ++ l2) =
            DistGraphConvert.total l1 + DistGraphConvert.total l2).
  { induction l1 as [|c l1 IHl1]; intros l2; simpl; [lia|].
    specialize (IHl1 l2). unfold DistGraphConvert.total in *. lia. }
  rewrite Happ in Htot.
  pose proof (Hnn _ Ht). pose proof (Hnn _ Hdrop). lia.
Qed.

Lemma prefix_sum_sums_witness :
  DistGraphConvert.prefix_sum 4 [3; 0; 2; 5] = [3; 3; 5; 10] /\
  DistGraphConvert.prefix_sum 4 [3; 0; 2; 5] !! 3%nat =
    Some (DistGraphConvert.total (take 4 [3; 0; 2; 5])).
Proof.
  split; [by vm_compute|].
  destruct (prefix_sum_sums 4 [3; 0; 2; 5]) as (_ & _ & _ & Hexact).
  - simpl. lia.
  - repeat constructor; lia.
  - apply Hexact; [by vm_compute | lia].
Defined.

(** ** From the loader to the passes *)

(** The passes read back the sources that the loader laid out. *)
Lemma edge_src_edge_words (is_void : bool) (es : list (Z * Z * Z)) :
  forall i e, es !! i = Some e ->
    DistGraphConvert.edge_src is_void
      (flat_map (DistGraphConvert.edge_words is_void) es) i = fst (fst e).
Proof.
  induction es as [|[[src dst] data] es IH]; intros i e Hi; [done|].
  destruct i as [|i].
  - injection Hi as <-. unfold DistGraphConvert.edge_src. simpl.
    by destruct is_void.
  - simpl in Hi. specialize (IH i e Hi).
    unfold DistGraphConvert.edge_src in *. cbn [flat_map].
    destruct is_void; cbn [DistGraphConvert.edge_words] in *.
    + replace (S i * 2)%nat with (2 + i * 2)%nat by lia. exact IH.
    + replace (S i * 3)%nat with (3 + i * 3)%nat by lia. exact IH.
Qed.

Lemma localNumEdges_edge_words (is_void : bool) (es : list (Z * Z * Z)) :
  DistGraphConvert.localNumEdges is_void
    (flat_map (DistGraphConvert.edge_words is_void) es) = length es.
Proof.
  unfold DistGraphConvert.localNumEdges.
  rewrite getNumEdges_edge_words. lia.
Qed.

(** X23.  The unique source nodes of a loaded vector are ids of the
    graph: whatever findUniqueSourceNodes returns on the vector that a
    load returned is below the totalNumNodes of that load. *)
Theorem loaded_sources_below_totalNumNodes (Stream : Type)
    (tellg : Stream -> Z) (seekg : Z -> Stream -> Stream)
    (extract : Stream -> Z * Stream) (fuel : nat) (is_void : bool)
    (edgeListFile : Stream) (localStartByte localEndByte totalNumNodes : Z)
    (v : list Z) (k : Z) (threads : nat) (sched : list (nat * nat)) (x : Z) :
  DistGraphConvert.loadEdgesFromEdgeList Stream tellg seekg extract fuel
    is_void edgeListFile localStartByte localEndByte totalNumNodes =
    Some (DistGraphConvert.ReturnedEdges v k) ->
  map snd sched ≡ₚ seq 0 (DistGraphConvert.localNumEdges is_void v) ->
  Forall (fun it => (fst it < threads)%nat) sched ->
  x ∈ DistGraphConvert.findUniqueSourceNodes is_void threads sched v ->
  x < totalNumNodes.
Proof.
  unfold DistGraphConvert.loadEdgesFromEdgeList. intros Hret Hperm Htid Hx.
  apply (load_loop_inv Stream tellg extract is_void localEndByte
           totalNumNodes fuel _ []) in Hret; [|constructor].
  destruct Hret as (es & -> & Hok & _).
  rewrite localNumEdges_edge_words in Hperm.
  unfold DistGraphConvert.findUniqueSourceNodes in Hx.
  rewrite merge_threads_fold, findUniqueSourceNodes_body_fold in Hx
    by (by rewrite length_replicate).
  destruct Hx as [Hx|[(t & Ht & Hx)|((tid & i) & Hit & Hx)]].
  - by apply elem_of_empty in Hx.
  - apply elem_of_replicate in Ht as [-> _]. by apply elem_of_empty in Hx.
  - assert (Hi : i ∈ map snd sched).
    { apply list_elem_of_In, in_map_iff. exists (tid, i).
      split; [done | by apply list_elem_of_In]. }
    rewrite Hperm in Hi. apply elem_of_seq in Hi.
    destruct (lookup_lt_is_Some_2 es i ltac:(lia)) as [e He].
    simpl in Hx. rewrite (edge_src_edge_words is_void es i e He) in Hx.
    subst x. by destruct (Forall_lookup_1 _ _ _ _ Hok He).
Qed.

Lemma loaded_sources_below_totalNumNodes_witness :
  DistGraphConvert.findUniqueSourceNodes false 2
    [(1%nat, 1%nat); (0%nat, 0%nat)] [0; 1; 5; 1; 0; 7] = {[ 0; 1 ]} /\
  (1 : Z) < 2.
Proof.
  split; [by vm_compute|].
  apply (loaded_sources_below_totalNumNodes DistGraphConvert.TokenStream
           DistGraphConvert.token_tellg DistGraphConvert.token_seekg
           DistGraphConvert.token_extract 5 false DistGraphConvert.two_edges
           0 12 2 [0; 1; 5; 1; 0; 7] 2 2 [(1%nat, 1%nat); (0%nat, 0%nat)] 1).
  - by vm_compute.
  - vm_compute. apply perm_swap.
  - repeat constructor; simpl; lia.
  - by vm_compute.
Defined.

(** ** Distributing the edges: sendAssignedEdges *)

Lemma if_bool_false {A : Type} (b : bool) (x y : A) :
  b = false -> (if b then x else y) = y.
Proof. by intros ->. Qed.

Lemma if_bool_true {A : Type} (b : bool) (x y : A) :
  b = true -> (if b then x else y) = x.
Proof. by intros ->. Qed.

Section SendAssignedEdges.
Variable findOwner : Z -> list (Z * Z) -> Z.
Variable buffer_size : list (Z * list Z * list Z) -> Z.
Variable is_void : bool.
Variable hostID : Z.
Variable hostToNodes : list (Z * Z).
Variable localEdges : list Z.

Local Abbreviation body :=
  (DistGraphConvert.sendAssignedEdges_body findOwner buffer_size is_void
     hostID hostToNodes localEdges).
Local Abbreviation cleanup_thread :=
  (DistGraphConvert.cleanup_thread buffer_size is_void hostID hostToNodes).
Local Abbreviation cleanup_host :=
  (DistGraphConvert.cleanup_host buffer_size is_void hostID hostToNodes).
Local Abbreviation remote_edge :=
  (DistGraphConvert.remote_edge buffer_size is_void hostToNodes).
Local Abbreviation owner_of :=
  (DistGraphConvert.owner_of findOwner is_void localEdges hostToNodes).
Local Abbreviation edge_dst := (DistGraphConvert.edge_dst is_void localEdges).
Local Abbreviation edge_data := (DistGraphConvert.edge_data localEdges).
Local Abbreviation local_id :=
  (DistGraphConvert.local_id findOwner is_void hostToNodes localEdges).
Local Abbreviation kept :=
  (DistGraphConvert.kept findOwner is_void hostID hostToNodes localEdges).

Lemma kept_cons (lid tid i : nat) (sched : list (nat * nat)) :
  kept lid ((tid, i) :: sched) =
  if decide (owner_of i = hostID /\ Z.to_nat (local_id i) = lid)
  then i :: kept lid sched else kept lid sched.
Proof.
  unfold DistGraphConvert.kept. cbn [map]. rewrite filter_cons.
  unfold DistGraphConvert.owner_of. by destruct (decide _).
Qed.

Lemma cleanup_thread_local (totalNumHosts : nat) (order : list nat) :
  forall st,
    DistGraphConvert.localSrcToDest
      (fold_left (cleanup_thread totalNumHosts) order st) =
      DistGraphConvert.localSrcToDest st /\
    DistGraphConvert.localSrcToData
      (fold_left (cleanup_thread totalNumHosts) order st) =
      DistGraphConvert.localSrcToData st.
Proof.
  induction order as [|tid order IH]; intros st; [done|]. cbn [fold_left].
  destruct (IH (cleanup_thread totalNumHosts st tid)) as [-> ->].
  unfold DistGraphConvert.cleanup_thread.
  destruct (DistGraphConvert.perThread st !! tid) as [t|]; [|done].
  by destruct (fold_left _ (seq 0 totalNumHosts) _) as [t' net'].
Qed.

Lemma body_fold_local (sched : list (nat * nat)) :
  forall st,
    let st' := fold_left body sched st in
    (forall lid v, DistGraphConvert.localSrcToDest st !! lid = Some v ->
       DistGraphConvert.localSrcToDest st' !! lid =
       Some (v ++ map edge_dst (kept lid sched))) /\
    (is_void = false ->
     forall lid v, DistGraphConvert.localSrcToData st !! lid = Some v ->
       DistGraphConvert.localSrcToData st' !! lid =
       Some (v ++ map edge_data (kept lid sched))) /\
    (is_void = true ->
     DistGraphConvert.localSrcToData st' = DistGraphConvert.localSrcToData st).
Proof.
  induction sched as [|[tid i] sched IH]; intros st.
  { cbn [fold_left]. split; [|split; [|done]].
    - intros lid v Hv. by rewrite app_nil_r.
    - intros _ lid v Hv. by rewrite app_nil_r. }
  cbv zeta. cbn [fold_left].
  destruct (IH (body st (tid, i))) as (IHd & IHx & IHv). clear IH.
  assert (Hstep :
    (owner_of i <> hostID /\
     DistGraphConvert.localSrcToDest (body st (tid, i)) =
       DistGraphConvert.localSrcToDest st /\
     DistGraphConvert.localSrcToData (body st (tid, i)) =
       DistGraphConvert.localSrcToData st) \/
    (owner_of i = hostID /\
     DistGraphConvert.localSrcToDest (body st (tid, i)) =
       alter (fun v => v ++ [edge_dst i]) (Z.to_nat (local_id i))
             (DistGraphConvert.localSrcToDest st) /\
     DistGraphConvert.localSrcToData (body st (tid, i)) =
       if is_void then DistGraphConvert.localSrcToData st
       else alter (fun v => v ++ [edge_data i]) (Z.to_nat (local_id i))
                  (DistGraphConvert.localSrcToData st))).
  { unfold DistGraphConvert.sendAssignedEdges_body.
    fold (owner_of i). cbv zeta.
    destruct (Z.eqb_spec (owner_of i) hostID) as [Heq|Hne]; cbn [negb].
    - right. by repeat split.
    - left. split; [done|].
      destruct (DistGraphConvert.perThread st !! tid) as [t|]; [|done].
      by destruct (remote_edge _ _ _ _ _ _) as [t' net']. }
  destruct Hstep as [(Hne & Hd & Hx)|(Heq & Hd & Hx)].
  - rewrite Hd in IHd. rewrite Hx in IHx, IHv.
    split; [|split; [|done]].
    + intros lid v Hv. rewrite kept_cons.
      destruct (decide _) as [[? _]|]; [done|]. by apply IHd.
    + intros Hvoid lid v Hv. rewrite kept_cons.
      destruct (decide _) as [[? _]|]; [done|]. by apply IHx.
  - rewrite Hd in IHd. split; [|split].
    + intros lid v Hv. rewrite kept_cons.
      destruct (decide (Z.to_nat (local_id i) = lid)) as [Hl|Hl].
      * destruct (decide _) as [_|Hn]; [|by destruct Hn].
        rewrite (IHd lid (v ++ [edge_dst i])).
        -- by rewrite <- app_assoc.
        -- by rewrite Hl, list_lookup_alter_eq, Hv.
      * destruct (decide _) as [[_ ?]|_]; [done|].
        apply IHd. by rewrite list_lookup_alter_ne.
    + intros Hvoid lid v Hv.
      assert (Hx' :
        DistGraphConvert.localSrcToData (body st (tid, i)) =
        alter (fun v => v ++ [edge_data i]) (Z.to_nat (local_id i))
              (DistGraphConvert.localSrcToData st)).
      { by rewrite Hx, (if_bool_false _ _ _ Hvoid). }
      rewrite Hx' in IHx. rewrite kept_cons.
      destruct (decide (Z.to_nat (local_id i) = lid)) as [Hl|Hl].
      * destruct (decide _) as [_|Hn]; [|by destruct Hn].
        rewrite (IHx Hvoid lid (v ++ [edge_data i])).
        -- by rewrite <- app_assoc.
        -- by rewrite Hl, list_lookup_alter_eq, Hv.
      * destruct (decide _) as [[_ ?]|_]; [done|].
        apply IHx; [done|]. by rewrite list_lookup_alter_ne.
    + intros Hvoid. by rewrite (IHv Hvoid), Hx, (if_bool_true _ _ _ Hvoid).
Qed.

(** X24.  The edges that sendAssignedEdges keeps on the host.  Whatever
    the threads and the order of the do_all, on return the vector of every
    local node holds what it held before, followed by the destinations of
    the local edges that the host owns and whose source has that local id,
    in the order in which their loop bodies ran; the data of these edges
    are in localSrcToData at the same positions (overload for edges with
    data, which starts from one empty vector for each local node and
    aborts when localSrcToData is not empty on entry); the overload without
    data leaves localSrcToData alone. *)
Theorem sendAssignedEdges_keeps_own_edges (numThreads totalNumHosts : nat)
    (sched : list (nat * nat)) (order : list nat)
    (localSrcToDest0 localSrcToData0 : list (list Z)) :
  let result :=
    DistGraphConvert.sendAssignedEdges findOwner buffer_size is_void hostID
      hostToNodes localEdges numThreads totalNumHosts sched order
      localSrcToDest0 localSrcToData0 in
  (result = None <-> is_void = false /\ localSrcToData0 <> []) /\
  forall st, result = Some st ->
    (forall lid v, localSrcToDest0 !! lid = Some v ->
       DistGraphConvert.localSrcToDest st !! lid =
       Some (v ++ map edge_dst (kept lid sched))) /\
    (is_void = false ->
     forall lid, (lid < length localSrcToDest0)%nat ->
       DistGraphConvert.localSrcToData st !! lid =
       Some (map edge_data (kept lid sched))) /\
    (is_void = true -> DistGraphConvert.localSrcToData st = localSrcToData0).
Proof.
  intros result. subst result. unfold DistGraphConvert.sendAssignedEdges.
  assert (Hnone :
    negb is_void && negb (bool_decide (localSrcToData0 = [])) = true <->
    is_void = false /\ localSrcToData0 <> []).
  { rewrite andb_true_iff, !negb_true_iff, bool_decide_eq_false.
    by destruct is_void. }
  destruct (negb is_void && negb (bool_decide (localSrcToData0 = [])))
    eqn:Hassert.
  { split; [by rewrite <- Hnone | done]. }
  split.
  { split; [done|]. intros H. apply Hnone in H. congruence. }
  intros st [= <-].
  match goal with
  | |- context [fold_left body sched ?s0] =>
      destruct (body_fold_local sched s0) as (Hd & Hx & Hv);
      destruct (cleanup_thread_local totalNumHosts order
                  (fold_left body sched s0)) as [-> ->]
  end.
  cbn [DistGraphConvert.localSrcToDest DistGraphConvert.localSrcToData]
    in Hd, Hx, Hv.
  split; [exact Hd|]. split.
  - intros Hvoid lid Hlid. rewrite (Hx Hvoid lid []); [done|].
    rewrite (if_bool_false _ _ _ Hvoid). by apply lookup_replicate_2.
  - intros Hvoid. by rewrite (Hv Hvoid), (if_bool_true _ _ _ Hvoid).
Qed.

End SendAssignedEdges.

Lemma sendAssignedEdges_keeps_own_edges_witness :
  exists st,
    DistGraphConvert.sendAssignedEdges DistGraphConvert.owner_by_range
      DistGraphConvert.sixteen_each false 0 DistGraphConvert.two_owners
      DistGraphConvert.four_edges 2 2
      [(0, 0); (1, 1); (0, 2); (1, 3)]%nat [0; 1]%nat [[]; []] [] = Some st /\
    DistGraphConvert.localSrcToDest st = [[1]; [2]] /\
    DistGraphConvert.localSrcToData st = [[5]; [4]] /\
    DistGraphConvert.net st = [(1, [(2, [0], [7]); (3, [0], [9])])] /\
    DistGraphConvert.localSrcToDest st !! 1%nat =
      Some ([] ++ map (DistGraphConvert.edge_dst false
                         DistGraphConvert.four_edges)
                      (DistGraphConvert.kept DistGraphConvert.owner_by_range
                         false 0 DistGraphConvert.two_owners
                         DistGraphConvert.four_edges 1
                         [(0, 0); (1, 1); (0, 2); (1, 3)]%nat)).
Proof.
  destruct (DistGraphConvert.sendAssignedEdges DistGraphConvert.owner_by_range
      DistGraphConvert.sixteen_each false 0 DistGraphConvert.two_owners
      DistGraphConvert.four_edges 2 2
      [(0, 0); (1, 1); (0, 2); (1, 3)]%nat [0; 1]%nat [[]; []] [])
    as [st|] eqn:Hret; [|by vm_compute in Hret].
  exists st. split; [done|].
  destruct (sendAssignedEdges_keeps_own_edges
              DistGraphConvert.owner_by_range DistGraphConvert.sixteen_each
              false 0 DistGraphConvert.two_owners DistGraphConvert.four_edges
              2 2 [(0, 0); (1, 1); (0, 2); (1, 3)]%nat [0; 1]%nat [[]; []] [])
    as [_ Hst].
  destruct (Hst st Hret) as (Hd & _ & _).
  vm_compute in Hret. injection Hret as <-.
  split; [done|]. split; [done|]. split; [done|].
  by apply Hd.
Defined.

Section SendRemote.
Variable findOwner : Z -> list (Z * Z) -> Z.
Variable buffer_size : list (Z * list Z * list Z) -> Z.
Variable hostID : Z.
Variable hostToNodes : list (Z * Z).
Variable localEdges : list Z.
Variable totalNumHosts : nat.

Local Abbreviation held iv := (DistGraphConvert.held iv hostToNodes).
Local Abbreviation record_edges := DistGraphConvert.record_edges.
Local Abbreviation buffer_edges := DistGraphConvert.buffer_edges.
Local Abbreviation received_by := DistGraphConvert.received_by.
Local Abbreviation storage_ok := DistGraphConvert.storage_ok.
Local Abbreviation first_of := (DistGraphConvert.first_of hostToNodes).

Lemma record_edges_snoc (is_void : bool) (g d x : Z) (dsts datas : list Z) :
  (is_void = false -> length datas = length dsts) ->
  record_edges is_void (g, dsts ++ [d], datas ++ [x]) =
  record_edges is_void (g, dsts, datas) ++ [(g, d, if is_void then 0 else x)].
Proof.
  intros Hlen. unfold DistGraphConvert.record_edges. destruct is_void.
  - by rewrite map_app.
  - specialize (Hlen eq_refl). revert datas Hlen.
    induction dsts as [|d0 dsts IH]; intros [|x0 datas] Hlen;
      simpl in *; try done.
    f_equal. apply IH. lia.
Qed.

Lemma record_edges_void (g : Z) (dsts datas datas' : list Z) :
  record_edges true (g, dsts, datas) = record_edges true (g, dsts, datas').
Proof. done. Qed.

Lemma record_edges_nil (is_void : bool) (g : Z) (datas : list Z) :
  record_edges is_void (g, [], datas) = [].
Proof. by destruct is_void. Qed.

Lemma buffer_edges_snoc (is_void : bool) (b : list (Z * list Z * list Z))
    (r : Z * list Z * list Z) :
  buffer_edges is_void (b ++ [r]) =
  buffer_edges is_void b ++ record_edges is_void r.
Proof.
  unfold DistGraphConvert.buffer_edges. rewrite flat_map_app. simpl.
  by rewrite app_nil_r.
Qed.

Lemma received_by_app (is_void : bool) (h : Z)
    (net sent : list (Z * list (Z * list Z * list Z))) :
  received_by is_void h (net ++ sent) =
  received_by is_void h net ++ received_by is_void h sent.
Proof. unfold DistGraphConvert.received_by. apply flat_map_app. Qed.

(** The messages of one step all go to one host. *)
Lemma received_by_sent (is_void : bool) (h h' : Z)
    (sent : list (Z * list (Z * list Z * list Z))) :
  Forall (fun m => fst m = h') sent ->
  received_by is_void h sent =
  if decide (h = h')
  then flat_map (fun m => buffer_edges is_void (snd m)) sent else [].
Proof.
  unfold DistGraphConvert.received_by.
  induction 1 as [|m sent Hm _ IH]; simpl; [by destruct (decide _)|].
  rewrite IH, Hm. destruct (decide (h = h')) as [->|Hne].
  - by rewrite Z.eqb_refl.
  - destruct (Z.eqb_spec h' h); [congruence|done].
Qed.

(** The storage of a thread at the entries of the host [h]. *)
Lemma storage_lookups (is_void : bool) (t : DistGraphConvert.ThreadStorage)
    (h : nat) :
  storage_ok is_void totalNumHosts t -> (h < totalNumHosts)%nat ->
  exists dv xv buf last,
    DistGraphConvert.dstVectors t !! h = Some dv /\
    DistGraphConvert.dataVectors t !! h = Some xv /\
    DistGraphConvert.sendBuffers t !! h = Some buf /\
    DistGraphConvert.lastSourceSentStorage t !! h = Some last /\
    (is_void = false -> length xv = length dv).
Proof.
  intros (Hl1 & Hl2 & Hl3 & Hl4 & Hdata) Hh.
  destruct (lookup_lt_is_Some_2 (DistGraphConvert.dstVectors t) h)
    as [dv Hdv]; [lia|].
  destruct (lookup_lt_is_Some_2 (DistGraphConvert.dataVectors t) h)
    as [xv Hxv]; [lia|].
  destruct (lookup_lt_is_Some_2 (DistGraphConvert.sendBuffers t) h)
    as [buf Hbuf]; [lia|].
  destruct (lookup_lt_is_Some_2 (DistGraphConvert.lastSourceSentStorage t) h)
    as [last Hlast]; [lia|].
  exists dv, xv, buf, last. repeat split; try done.
  intros Hvoid. specialize (Hdata Hvoid h). by rewrite Hdv, Hxv in Hdata.
Qed.

(** A storage whose entries for the host [h] are replaced. *)
Lemma storage_update (is_void : bool) (t t' : DistGraphConvert.ThreadStorage)
    (h : nat) (dv xv : list Z) (buf : list (Z * list Z * list Z)) (last : Z) :
  storage_ok is_void totalNumHosts t -> (h < totalNumHosts)%nat ->
  (is_void = false -> length xv = length dv) ->
  DistGraphConvert.dstVectors t' = <[h := dv]> (DistGraphConvert.dstVectors t) ->
  DistGraphConvert.dataVectors t' =
    (if is_void then DistGraphConvert.dataVectors t
     else <[h := xv]> (DistGraphConvert.dataVectors t)) ->
  DistGraphConvert.sendBuffers t' =
    <[h := buf]> (DistGraphConvert.sendBuffers t) ->
  DistGraphConvert.lastSourceSentStorage t' =
    <[h := last]> (DistGraphConvert.lastSourceSentStorage t) ->
  storage_ok is_void totalNumHosts t' /\
  (forall h', h' <> h -> held is_void t' h' = held is_void t h') /\
  held is_void t' h =
    buffer_edges is_void buf ++
    record_edges is_void (DistGraphConvert.wrap64 (last + first_of (Z.of_nat h)),
                          dv, xv).
Proof.
  intros Hok Hh Hlen E1 E2 E3 E4.
  destruct (storage_lookups is_void t h Hok Hh)
    as (dv0 & xv0 & buf0 & last0 & Hdv & Hxv & Hbuf & Hlast & _).
  destruct Hok as (Hl1 & Hl2 & Hl3 & Hl4 & Hdata).
  split; [|split].
  - unfold DistGraphConvert.storage_ok. rewrite E1, E2, E3, E4.
    rewrite !length_insert.
    split; [done|]. split; [by destruct is_void; rewrite ?length_insert|].
    split; [done|]. split; [done|].
    intros Hvoid h0. rewrite Hvoid. specialize (Hdata Hvoid h0).
    destruct (decide (h0 = h)) as [->|Hne].
    + rewrite !list_lookup_insert_eq by lia. simpl. by apply Hlen.
    + by rewrite !list_lookup_insert_ne.
  - intros h' Hne. unfold DistGraphConvert.held. rewrite E1, E2, E3, E4.
    rewrite !list_lookup_insert_ne by done.
    destruct is_void; [done|]. by rewrite list_lookup_insert_ne.
  - unfold DistGraphConvert.held. rewrite E1, E2, E3, E4.
    rewrite !list_lookup_insert_eq by lia. simpl.
    destruct is_void; [done|]. by rewrite list_lookup_insert_eq by lia.
Qed.

Lemma held_lookups (is_void : bool) (t : DistGraphConvert.ThreadStorage)
    (h : nat) (dv xv : list Z) (buf : list (Z * list Z * list Z)) (last : Z) :
  DistGraphConvert.dstVectors t !! h = Some dv ->
  DistGraphConvert.dataVectors t !! h = Some xv ->
  DistGraphConvert.sendBuffers t !! h = Some buf ->
  DistGraphConvert.lastSourceSentStorage t !! h = Some last ->
  held is_void t h =
    buffer_edges is_void buf ++
    record_edges is_void (DistGraphConvert.wrap64 (last + first_of (Z.of_nat h)),
                          dv, xv).
Proof.
  intros Hdv Hxv Hbuf Hlast. unfold DistGraphConvert.held.
  by rewrite Hdv, Hxv, Hbuf, Hlast.
Qed.

(** One edge for another host: what the thread holds for that host and
    what it sends to it, together, grow by the edge. *)
Lemma remote_edge_step (is_void : bool) (t : DistGraphConvert.ThreadStorage)
    (net : list (Z * list (Z * list Z * list Z)))
    (owner localID dst data : Z) :
  storage_ok is_void totalNumHosts t ->
  0 <= owner -> (Z.to_nat owner < totalNumHosts)%nat ->
  let r := DistGraphConvert.remote_edge buffer_size is_void hostToNodes t net
             owner localID dst data in
  storage_ok is_void totalNumHosts (fst r) /\
  (forall h', h' <> Z.to_nat owner ->
     held is_void (fst r) h' = held is_void t h') /\
  exists sent,
    snd r = net ++ sent /\ Forall (fun m => fst m = owner) sent /\
    flat_map (fun m => buffer_edges is_void (snd m)) sent ++
    held is_void (fst r) (Z.to_nat owner) =
    held is_void t (Z.to_nat owner) ++
    [(DistGraphConvert.wrap64 (localID + first_of owner), dst,
      if is_void then 0 else data)].
Proof.
  intros Hok Hown Hh r. subst r.
  destruct (storage_lookups is_void t _ Hok Hh)
    as (dv & xv & buf & last & Hdv & Hxv & Hbuf & Hlast & Hlen).
  rewrite (held_lookups is_void t _ dv xv buf last) by done.
  rewrite Z2Nat.id by done.
  unfold DistGraphConvert.remote_edge. rewrite Hdv, Hxv, Hbuf, Hlast.
  cbn [default from_option id].
  destruct (Z.eqb_spec last localID) as [->|Hne].
  - (* the source of the vectors *)
    cbn [fst snd].
    match goal with
    | |- context [DistGraphConvert.mkThreadStorage ?a ?b ?c ?d] =>
        destruct (storage_update is_void t
                    (DistGraphConvert.mkThreadStorage a b c d)
                    (Z.to_nat owner) (dv ++ [dst]) (xv ++ [data]) buf localID
                    Hok Hh) as (Hok' & Hother & Hheld);
        try done
    end.
    { intros Hv. rewrite !length_app. simpl. by rewrite (Hlen Hv). }
    { symmetry. by apply list_insert_id. }
    { symmetry. by apply list_insert_id. }
    split; [exact Hok'|]. split; [exact Hother|].
    exists []. split; [by rewrite app_nil_r|]. split; [constructor|].
    rewrite Hheld, Z2Nat.id by done. cbn [flat_map app].
    rewrite record_edges_snoc by done. by rewrite app_assoc.
  - (* another source *)
    destruct dv as [|d0 dv]; cbn [length Nat.ltb Nat.leb].
    + (* nothing collected yet *)
      cbn [fst snd].
      match goal with
      | |- context [DistGraphConvert.mkThreadStorage ?a ?b ?c ?d] =>
          destruct (storage_update is_void t
                      (DistGraphConvert.mkThreadStorage a b c d)
                      (Z.to_nat owner) ([] ++ [dst]) (xv ++ [data]) buf
                      localID Hok Hh) as (Hok' & Hother & Hheld);
          try done
      end.
      { intros Hv. rewrite !length_app. simpl. by rewrite (Hlen Hv). }
      split; [exact Hok'|]. split; [exact Hother|].
      exists []. split; [by rewrite app_nil_r|]. split; [constructor|].
      rewrite Hheld, Z2Nat.id by done. cbn [flat_map app].
      rewrite record_edges_nil.
      destruct is_void; [by rewrite app_nil_r|].
      specialize (Hlen eq_refl). destruct xv; [|done].
      by rewrite app_nil_r.
    + (* the vectors are serialized *)
      set (b := DistGraphConvert.serialize is_void buf
                  (DistGraphConvert.wrap64 (last + first_of owner))
                  (d0 :: dv) xv).
      assert (Hb : buffer_edges is_void b =
                   buffer_edges is_void buf ++
                   record_edges is_void
                     (DistGraphConvert.wrap64 (last + first_of owner),
                      d0 :: dv, xv)).
      { unfold b, DistGraphConvert.serialize. rewrite buffer_edges_snoc.
        by destruct is_void. }
      destruct (1400 <? buffer_size b); cbn [fst snd].
      * match goal with
        | |- context [DistGraphConvert.mkThreadStorage ?a ?b ?c ?d] =>
            destruct (storage_update is_void t
                        (DistGraphConvert.mkThreadStorage a b c d)
                        (Z.to_nat owner) ([] ++ [dst]) ([] ++ [data]) []
                        localID Hok Hh) as (Hok' & Hother & Hheld);
            try done
        end.
        split; [exact Hok'|]. split; [exact Hother|].
        exists [(owner, b)]. split; [done|].
        split; [by repeat constructor|].
        rewrite Hheld, Z2Nat.id by done. cbn [flat_map app snd].
        rewrite app_nil_r, Hb. cbn [DistGraphConvert.buffer_edges flat_map].
        by destruct is_void.
      * match goal with
        | |- context [DistGraphConvert.mkThreadStorage ?a ?b0 ?c ?d] =>
            destruct (storage_update is_void t
                        (DistGraphConvert.mkThreadStorage a b0 c d)
                        (Z.to_nat owner) ([] ++ [dst]) ([] ++ [data]) b
                        localID Hok Hh) as (Hok' & Hother & Hheld);
            try done
        end.
        split; [exact Hok'|]. split; [exact Hother|].
        exists []. split; [by rewrite app_nil_r|]. split; [constructor|].
        rewrite Hheld, Hb, Z2Nat.id by done. cbn [flat_map app].
        by destruct is_void.
Qed.

Hypothesis buffer_size_pos : forall b, b <> [] -> 0 < buffer_size b.

(** The cleanup for one host: the thread holds nothing more for it. *)
Lemma cleanup_host_step (is_void : bool) (t : DistGraphConvert.ThreadStorage)
    (net : list (Z * list (Z * list Z * list Z))) (h : nat) :
  storage_ok is_void totalNumHosts t -> (h < totalNumHosts)%nat ->
  let r := DistGraphConvert.cleanup_host buffer_size is_void hostID
             hostToNodes (t, net) h in
  storage_ok is_void totalNumHosts (fst r) /\
  (forall h', h' <> h -> held is_void (fst r) h' = held is_void t h') /\
  exists sent,
    snd r = net ++ sent /\ Forall (fun m => fst m = Z.of_nat h) sent /\
    (Z.of_nat h = hostID -> sent = [] /\ fst r = t) /\
    (Z.of_nat h <> hostID ->
     held is_void (fst r) h = [] /\
     flat_map (fun m => buffer_edges is_void (snd m)) sent = held is_void t h).
Proof.
  intros Hok Hh r. subst r. unfold DistGraphConvert.cleanup_host.
  destruct (Z.eqb_spec (Z.of_nat h) hostID) as [Heq|Hne].
  { cbn [fst snd]. split; [done|]. split; [done|].
    exists []. by rewrite app_nil_r. }
  destruct (storage_lookups is_void t _ Hok Hh)
    as (dv & xv & buf & last & Hdv & Hxv & Hbuf & Hlast & Hlen).
  rewrite (held_lookups is_void t _ dv xv buf last) by done.
  rewrite Hdv, Hxv, Hbuf, Hlast. cbn [default from_option id].
  destruct dv as [|d0 dv]; cbn [length Nat.ltb Nat.leb].
  - (* no vector to serialize *)
    rewrite record_edges_nil, app_nil_r.
    destruct (Z.ltb_spec 0 (buffer_size buf)) as [Hpos|Hzero]; cbn [fst snd].
    + match goal with
      | |- context [DistGraphConvert.mkThreadStorage ?a ?b ?c ?d] =>
          destruct (storage_update is_void t
                      (DistGraphConvert.mkThreadStorage a b c d)
                      h [] xv [] last Hok Hh) as (Hok' & Hother & Hheld);
          try done
      end.
      { symmetry. by apply list_insert_id. }
      split; [exact Hok'|]. split; [exact Hother|].
      exists [(Z.of_nat h, buf)]. split; [done|].
      split; [by repeat constructor|]. split; [done|]. intros _.
      rewrite Hheld, record_edges_nil. cbn [flat_map snd app].
      by rewrite !app_nil_r.
    + assert (Hbuf0 : buf = []).
      { destruct buf as [|r0 buf]; [done|].
        pose proof (buffer_size_pos (r0 :: buf) ltac:(done)). lia. }
      subst buf.
      match goal with
      | |- context [DistGraphConvert.mkThreadStorage ?a ?b ?c ?d] =>
          destruct (storage_update is_void t
                      (DistGraphConvert.mkThreadStorage a b c d)
                      h [] xv [] last Hok Hh) as (Hok' & Hother & Hheld);
          try done
      end.
      { symmetry. by apply list_insert_id. }
      split; [exact Hok'|]. split; [exact Hother|].
      exists []. split; [by rewrite app_nil_r|]. split; [constructor|].
      split; [done|]. intros _.
      by rewrite Hheld, record_edges_nil.
  - (* the vectors are serialized and the buffer is sent *)
    set (b := DistGraphConvert.serialize is_void buf
                (DistGraphConvert.wrap64 (last + first_of (Z.of_nat h)))
                (d0 :: dv) xv).
    assert (Hb : buffer_edges is_void b =
                 buffer_edges is_void buf ++
                 record_edges is_void
                   (DistGraphConvert.wrap64 (last + first_of (Z.of_nat h)),
                    d0 :: dv, xv)).
    { unfold b, DistGraphConvert.serialize. rewrite buffer_edges_snoc.
      by destruct is_void. }
    assert (Hpos : 0 < buffer_size b).
    { apply buffer_size_pos. unfold b, DistGraphConvert.serialize.
      by destruct buf. }
    destruct (Z.ltb_spec 0 (buffer_size b)); [|lia]. cbn [fst snd].
    match goal with
    | |- context [DistGraphConvert.mkThreadStorage ?a ?b0 ?c ?d] =>
        destruct (storage_update is_void t
                    (DistGraphConvert.mkThreadStorage a b0 c d)
                    h [] [] [] last Hok Hh) as (Hok' & Hother & Hheld);
        try done
    end.
    { symmetry. by apply list_insert_id. }
    split; [exact Hok'|]. split; [exact Hother|].
    exists [(Z.of_nat h, b)]. split; [done|].
    split; [by repeat constructor|]. split; [done|]. intros _.
    rewrite Hheld, record_edges_nil. cbn [flat_map snd app].
    by rewrite !app_nil_r, Hb.
Qed.

(** The cleanup of a thread for the hosts [hs]. *)
Lemma cleanup_hosts_fold (is_void : bool) (hs : list nat) :
  forall t net,
    storage_ok is_void totalNumHosts t -> NoDup hs ->
    Forall (fun h => (h < totalNumHosts)%nat) hs ->
    let r := fold_left (DistGraphConvert.cleanup_host buffer_size is_void
                          hostID hostToNodes) hs (t, net) in
    storage_ok is_void totalNumHosts (fst r) /\
    (forall h, h ∉ hs \/ Z.of_nat h = hostID ->
       held is_void (fst r) h = held is_void t h) /\
    (forall h, h ∈ hs -> Z.of_nat h <> hostID -> held is_void (fst r) h = []) /\
    (forall h0 : nat,
       received_by is_void (Z.of_nat h0) (snd r) =
       received_by is_void (Z.of_nat h0) net ++
       if decide (h0 ∈ hs /\ Z.of_nat h0 <> hostID) then held is_void t h0
       else []) /\
    (Forall (fun m => fst m <> hostID) net ->
     Forall (fun m => fst m <> hostID) (snd r)).
Proof.
  induction hs as [|h hs IH]; intros t net Hok Hnd Hhs.
  { cbn [fold_left fst snd]. split; [done|]. split; [done|].
    split; [intros h Hh; by apply elem_of_nil in Hh|].
    split; [|done]. intros h0.
    destruct (decide _) as [[Hin _]|_]; [by apply elem_of_nil in Hin|].
    by rewrite app_nil_r. }
  apply NoDup_cons in Hnd as [Hnotin Hnd].
  apply Forall_cons in Hhs as [Hh Hhs]. cbv zeta. cbn [fold_left].
  destruct (cleanup_host_step is_void t net h Hok Hh)
    as (Hok1 & Hother1 & sent & Hnet1 & Hto & Hself & Hrem).
  destruct (DistGraphConvert.cleanup_host buffer_size is_void hostID
              hostToNodes (t, net) h) as [t1 net1].
  cbn [fst snd] in *. subst net1.
  destruct (IH t1 (net ++ sent) Hok1 Hnd Hhs)
    as (Hok2 & Hsame2 & Hnil2 & Hrecv2 & Hnot2). clear IH.
  split; [done|]. split; [|split; [|split]].
  - intros h' Hh'. rewrite Hsame2.
    + destruct (decide (h' = h)) as [->|Hne]; [|by apply Hother1].
      destruct Hh' as [Hh'|Hh']; [by destruct Hh'; apply list_elem_of_here|].
      by destruct (Hself Hh') as [_ ->].
    + destruct Hh' as [Hh'|Hh']; [|by right].
      left. intros Hin. apply Hh'. by apply list_elem_of_further.
  - intros h' Hin Hne. apply elem_of_cons in Hin as [->|Hin].
    + rewrite Hsame2 by by left. by apply Hrem.
    + by apply Hnil2.
  - intros h0. rewrite Hrecv2, received_by_app, (received_by_sent _ _ _ _ Hto).
    rewrite <- app_assoc. f_equal.
    destruct (decide (h0 = h)) as [->|Hne].
    + destruct (decide (Z.of_nat h = Z.of_nat h)) as [_|?]; [|done].
      destruct (decide (h ∈ hs /\ _)) as [[? _]|_]; [done|].
      rewrite app_nil_r.
      destruct (decide (h ∈ h :: hs /\ Z.of_nat h <> hostID)) as [[_ Hr]|Hn].
      * by apply Hrem.
      * destruct (decide (Z.of_nat h = hostID)) as [Heq|Hneq].
        -- by destruct (Hself Heq) as [-> _].
        -- destruct Hn. split; [apply list_elem_of_here | done].
    + destruct (decide (Z.of_nat h0 = Z.of_nat h)) as [?|_]; [lia|].
      cbn [app]. rewrite (Hother1 h0 Hne).
      destruct (decide (h0 ∈ hs /\ _)) as [[Hin Hr]|Hn];
        destruct (decide (h0 ∈ h :: hs /\ _)) as [[Hin' Hr']|Hn']; try done.
      * destruct Hn'. split; [by apply list_elem_of_further | done].
      * destruct Hn. split; [|done].
        by apply elem_of_cons in Hin' as [?|?].
  - intros Hnet. apply Hnot2, Forall_app. split; [done|].
    destruct (decide (Z.of_nat h = hostID)) as [Heq|Hneq].
    + by destruct (Hself Heq) as [-> _].
    + eapply Forall_impl; [exact Hto|]. intros m Hm. by rewrite Hm.
Qed.

Local Abbreviation body iv :=
  (DistGraphConvert.sendAssignedEdges_body findOwner buffer_size iv
     hostID hostToNodes localEdges).
Local Abbreviation cleanup_thread iv :=
  (DistGraphConvert.cleanup_thread buffer_size iv hostID hostToNodes).
Local Abbreviation owner_of iv :=
  (DistGraphConvert.owner_of findOwner iv localEdges hostToNodes).
Local Abbreviation local_id iv :=
  (DistGraphConvert.local_id findOwner iv hostToNodes localEdges).
Local Abbreviation edge_of iv := (DistGraphConvert.edge_of iv localEdges).
Local Abbreviation edge_src iv := (DistGraphConvert.edge_src iv localEdges).

(** Replacing one element of a list, under a flat_map. *)
Lemma flat_map_insert_perm {A B : Type} (f : A -> list B) (ts : list A) :
  forall (tid : nat) (t t' : A),
    ts !! tid = Some t ->
    exists rest,
      flat_map f ts ≡ₚ f t ++ rest /\
      flat_map f (<[tid := t']> ts) ≡ₚ f t' ++ rest.
Proof.
  induction ts as [|x ts IH]; intros [|tid] t t' Hin; try done.
  - injection Hin as ->. by exists (flat_map f ts).
  - destruct (IH tid t t' Hin) as (rest & H1 & H2).
    exists (f x ++ rest). cbn [flat_map insert list_insert].
    split.
    + rewrite H1. apply Permutation_app_swap_app.
    + change (list_insert tid t' ts) with (<[tid := t']> ts).
      rewrite H2. apply Permutation_app_swap_app.
Qed.

(** One run of the loop body: what has been sent to the host [h0] and
    what the threads hold for it, together, grow by the edge when the
    host owns it. *)
Lemma body_step (is_void : bool) (h0 : nat) (st : DistGraphConvert.Pass2)
    (tid i : nat) :
  Forall (storage_ok is_void totalNumHosts) (DistGraphConvert.perThread st) ->
  (tid < length (DistGraphConvert.perThread st))%nat ->
  0 <= owner_of is_void i ->
  (Z.to_nat (owner_of is_void i) < totalNumHosts)%nat ->
  DistGraphConvert.wrap64
    (local_id is_void i + first_of (owner_of is_void i)) =
    edge_src is_void i ->
  Z.of_nat h0 <> hostID ->
  let st' := body is_void st (tid, i) in
  Forall (storage_ok is_void totalNumHosts) (DistGraphConvert.perThread st') /\
  length (DistGraphConvert.perThread st') =
    length (DistGraphConvert.perThread st) /\
  (Forall (fun m => fst m <> hostID) (DistGraphConvert.net st) ->
   Forall (fun m => fst m <> hostID) (DistGraphConvert.net st')) /\
  received_by is_void (Z.of_nat h0) (DistGraphConvert.net st') ++
  flat_map (fun t => held is_void t h0) (DistGraphConvert.perThread st') ≡ₚ
  (received_by is_void (Z.of_nat h0) (DistGraphConvert.net st) ++
   flat_map (fun t => held is_void t h0) (DistGraphConvert.perThread st)) ++
  (if decide (owner_of is_void i = Z.of_nat h0) then [edge_of is_void i]
   else []).
Proof.
  intros Hok Htid Hown Hh Hsrc Hh0 st'. subst st'.
  unfold DistGraphConvert.sendAssignedEdges_body.
  fold (owner_of is_void i). fold (local_id is_void i). cbv zeta.
  destruct (Z.eqb_spec (owner_of is_void i) hostID) as [Heq|Hne]; cbn [negb].
  { cbn [DistGraphConvert.perThread DistGraphConvert.net].
    split; [done|]. split; [done|]. split; [done|].
    destruct (decide _) as [Hd|_]; [congruence|]. by rewrite app_nil_r. }
  destruct (lookup_lt_is_Some_2 _ _ Htid) as [t Ht]. rewrite Ht.
  assert (Hokt : storage_ok is_void totalNumHosts t).
  { eapply Forall_lookup_1; [exact Hok | exact Ht]. }
  destruct (remote_edge_step is_void t (DistGraphConvert.net st)
              (owner_of is_void i) (local_id is_void i)
              (DistGraphConvert.edge_dst is_void localEdges i)
              (DistGraphConvert.edge_data localEdges i) Hokt Hown Hh)
    as (Hok' & Hother & sent & Hnet & Hto & Hgrow).
  destruct (DistGraphConvert.remote_edge _ _ _ _ _ _ _ _ _) as [t' net'].
  cbn [fst snd] in *. subst net'.
  cbn [DistGraphConvert.perThread DistGraphConvert.net].
  split; [by apply Forall_insert|]. split; [by rewrite length_insert|].
  split.
  { intros Hnet. apply Forall_app. split; [done|].
    eapply Forall_impl; [exact Hto|]. intros m Hm. by rewrite Hm. }
  rewrite received_by_app, (received_by_sent _ _ _ _ Hto).
  destruct (flat_map_insert_perm (fun t => held is_void t h0) _ tid t t' Ht)
    as (rest & H1 & H2).
  rewrite H1, H2.
  destruct (decide (owner_of is_void i = Z.of_nat h0)) as [Heq|Hneq].
  - destruct (decide (Z.of_nat h0 = owner_of is_void i)) as [_|?]; [|done].
    rewrite Heq, Nat2Z.id in Hgrow. rewrite Heq in Hsrc.
    rewrite <- !app_assoc. f_equiv. rewrite (app_assoc _ _ rest), Hgrow.
    rewrite Hsrc. rewrite <- !app_assoc. f_equiv.
    apply Permutation_app_comm.
  - destruct (decide (Z.of_nat h0 = owner_of is_void i)) as [?|_]; [done|].
    rewrite Hother by lia. by rewrite !app_nil_r.
Qed.

(** The whole do_all. *)
Lemma body_fold (is_void : bool) (h0 : nat) (sched : list (nat * nat)) :
  forall st,
    Forall (storage_ok is_void totalNumHosts) (DistGraphConvert.perThread st) ->
    Forall (fun it =>
              (fst it < length (DistGraphConvert.perThread st))%nat /\
              0 <= owner_of is_void (snd it) /\
              (Z.to_nat (owner_of is_void (snd it)) < totalNumHosts)%nat /\
              DistGraphConvert.wrap64
                (local_id is_void (snd it) +
                 first_of (owner_of is_void (snd it))) =
                edge_src is_void (snd it)) sched ->
    Z.of_nat h0 <> hostID ->
    let st' := fold_left (body is_void) sched st in
    Forall (storage_ok is_void totalNumHosts) (DistGraphConvert.perThread st') /\
    length (DistGraphConvert.perThread st') =
      length (DistGraphConvert.perThread st) /\
    (Forall (fun m => fst m <> hostID) (DistGraphConvert.net st) ->
     Forall (fun m => fst m <> hostID) (DistGraphConvert.net st')) /\
    received_by is_void (Z.of_nat h0) (DistGraphConvert.net st') ++
    flat_map (fun t => held is_void t h0) (DistGraphConvert.perThread st') ≡ₚ
    (received_by is_void (Z.of_nat h0) (DistGraphConvert.net st) ++
     flat_map (fun t => held is_void t h0) (DistGraphConvert.perThread st)) ++
    map (edge_of is_void)
        (filter (fun i => owner_of is_void i = Z.of_nat h0) (map snd sched)).
Proof.
  induction sched as [|[tid i] sched IH]; intros st Hok Hsched Hh0.
  { cbn [fold_left map]. rewrite filter_nil. cbn [map].
    by rewrite app_nil_r. }
  apply Forall_cons in Hsched as [(Htid & Hown & Hh & Hsrc) Hsched].
  cbn [fst snd] in Htid, Hown, Hh, Hsrc. cbv zeta. cbn [fold_left].
  destruct (body_step is_void h0 st tid i Hok Htid Hown Hh Hsrc Hh0)
    as (Hok1 & Hlen1 & Hnet1 & Hperm1).
  destruct (IH (body is_void st (tid, i)) Hok1) as (Hok2 & Hlen2 & Hnet2 & Hperm2).
  { by rewrite Hlen1. }
  { done. }
  split; [done|]. split; [by rewrite Hlen2|]. split; [by intros ?; apply Hnet2, Hnet1|].
  rewrite Hperm2, Hperm1. rewrite <- !app_assoc. do 2 f_equiv.
  cbn [map]. rewrite filter_cons. cbn [snd].
  by destruct (decide _).
Qed.

(** A thread that holds nothing for the other hosts. *)
Local Abbreviation clean iv t :=
  (forall h : nat, (h < totalNumHosts)%nat -> Z.of_nat h <> hostID ->
     held iv t h = []).

(** The cleanup of one thread. *)
Lemma cleanup_thread_step (is_void : bool) (h0 : nat)
    (st : DistGraphConvert.Pass2) (tid : nat) :
  Forall (storage_ok is_void totalNumHosts) (DistGraphConvert.perThread st) ->
  Z.of_nat h0 <> hostID ->
  let st' := cleanup_thread is_void totalNumHosts st tid in
  Forall (storage_ok is_void totalNumHosts) (DistGraphConvert.perThread st') /\
  (Forall (fun m => fst m <> hostID) (DistGraphConvert.net st) ->
   Forall (fun m => fst m <> hostID) (DistGraphConvert.net st')) /\
  received_by is_void (Z.of_nat h0) (DistGraphConvert.net st') ++
  flat_map (fun t => held is_void t h0) (DistGraphConvert.perThread st') ≡ₚ
  received_by is_void (Z.of_nat h0) (DistGraphConvert.net st) ++
  flat_map (fun t => held is_void t h0) (DistGraphConvert.perThread st) /\
  (forall tid' t', DistGraphConvert.perThread st' !! tid' = Some t' ->
     (tid' = tid /\ clean is_void t') \/
     (tid' <> tid /\ DistGraphConvert.perThread st !! tid' = Some t')).
Proof.
  intros Hok Hne st'. subst st'. unfold DistGraphConvert.cleanup_thread.
  destruct (DistGraphConvert.perThread st !! tid) as [t|] eqn:Ht.
  2:{ split; [done|]. split; [done|]. split; [done|].
      intros tid' t' Ht'. right. split; [congruence|done]. }
  assert (Hokt : storage_ok is_void totalNumHosts t).
  { eapply Forall_lookup_1; [exact Hok | exact Ht]. }
  destruct (cleanup_hosts_fold is_void (seq 0 totalNumHosts) t
              (DistGraphConvert.net st) Hokt (NoDup_seq _ _))
    as (Hok' & Hsame & Hnil & Hrecv & Hnot).
  { apply Forall_forall. intros h Hh. apply elem_of_seq in Hh. lia. }
  destruct (fold_left _ (seq 0 totalNumHosts) _) as [t' net'].
  cbn [fst snd] in *.
  cbn [DistGraphConvert.perThread DistGraphConvert.net].
  assert (Hclean : clean is_void t').
  { intros h Hh Hhne. apply Hnil; [|done]. apply elem_of_seq. lia. }
  split; [by apply Forall_insert|]. split; [done|]. split.
  - rewrite Hrecv.
    destruct (flat_map_insert_perm (fun t => held is_void t h0) _ tid t t' Ht)
      as (rest & H1 & H2).
    rewrite H1, H2. destruct (decide _) as [[Hin _]|Hn].
    + rewrite (Hnil h0 Hin Hne). by rewrite <- app_assoc.
    + rewrite Hsame; [by rewrite app_nil_r|].
      left. intros Hin. by apply Hn.
  - intros tid' t'' Ht''. destruct (decide (tid' = tid)) as [->|Hneq].
    + left. split; [done|].
      rewrite list_lookup_insert_eq in Ht''
        by (by eapply lookup_lt_Some).
      by injection Ht'' as <-.
    + right. split; [done|]. by rewrite list_lookup_insert_ne in Ht''.
Qed.

(** The cleanup of the threads of [order]. *)
Lemma cleanup_thread_fold (is_void : bool) (h0 : nat) (order : list nat) :
  forall st,
    Forall (storage_ok is_void totalNumHosts) (DistGraphConvert.perThread st) ->
    Z.of_nat h0 <> hostID ->
    let st' := fold_left (cleanup_thread is_void totalNumHosts) order st in
    (Forall (fun m => fst m <> hostID) (DistGraphConvert.net st) ->
     Forall (fun m => fst m <> hostID) (DistGraphConvert.net st')) /\
    received_by is_void (Z.of_nat h0) (DistGraphConvert.net st') ++
    flat_map (fun t => held is_void t h0) (DistGraphConvert.perThread st') ≡ₚ
    received_by is_void (Z.of_nat h0) (DistGraphConvert.net st) ++
    flat_map (fun t => held is_void t h0) (DistGraphConvert.perThread st) /\
    (forall tid t', DistGraphConvert.perThread st' !! tid = Some t' ->
       (tid ∈ order -> clean is_void t') /\
       (tid ∉ order -> DistGraphConvert.perThread st !! tid = Some t')).
Proof.
  induction order as [|tid0 order IH]; intros st Hok Hne.
  { cbn [fold_left]. split; [done|]. split; [done|].
    intros tid t' Ht'. split; [|done]. intros Hin. by apply elem_of_nil in Hin. }
  cbv zeta. cbn [fold_left].
  destruct (cleanup_thread_step is_void h0 st tid0 Hok Hne)
    as (Hok1 & Hnet1 & Hperm1 & Hthr1).
  destruct (IH (cleanup_thread is_void totalNumHosts st tid0) Hok1 Hne)
    as (Hnet2 & Hperm2 & Hthr2).
  split; [by intros ?; apply Hnet2, Hnet1|].
  split; [by rewrite Hperm2|].
  intros tid t' Ht'. destruct (Hthr2 tid t' Ht') as [Hin Hout]. split.
  - intros Hmem. destruct (decide (tid ∈ order)) as [Hd|Hd]; [by apply Hin|].
    apply elem_of_cons in Hmem as [->|?]; [|done].
    by destruct (Hthr1 tid0 t' (Hout Hd)) as [[_ Hc]|[? _]].
  - intros Hmem. apply not_elem_of_cons in Hmem as [Hneq Hmem].
    by destruct (Hthr1 tid t' (Hout Hmem)) as [[? _]|[_ ?]].
Qed.

(** The storage that every thread starts with. *)
Lemma initial_storage (is_void : bool) (h : nat) :
  let storage :=
    DistGraphConvert.mkThreadStorage
      (replicate totalNumHosts []) (replicate totalNumHosts [])
      (replicate totalNumHosts []) (replicate totalNumHosts 0) in
  storage_ok is_void totalNumHosts storage /\ held is_void storage h = [].
Proof.
  assert (Hnil : forall A (k : nat),
            default [] (replicate totalNumHosts (@nil A) !! k) = []).
  { intros A k. destruct (replicate _ _ !! k) as [x|] eqn:Hx; [|done].
    by apply lookup_replicate in Hx as [-> _]. }
  cbv zeta. split.
  - unfold DistGraphConvert.storage_ok.
    cbn [DistGraphConvert.dstVectors DistGraphConvert.dataVectors
         DistGraphConvert.sendBuffers DistGraphConvert.lastSourceSentStorage].
    by rewrite !length_replicate.
  - unfold DistGraphConvert.held.
    cbn [DistGraphConvert.dstVectors DistGraphConvert.dataVectors
         DistGraphConvert.sendBuffers DistGraphConvert.lastSourceSentStorage].
    rewrite !Hnil. by rewrite record_edges_nil.
Qed.

Lemma flat_map_all_nil {A B : Type} (f : A -> list B) (l : list A) :
  (forall x, x ∈ l -> f x = []) -> flat_map f l = [].
Proof.
  induction l as [|x l IH]; intros Hl; [done|]. simpl.
  rewrite (Hl x) by apply list_elem_of_here. apply IH.
  intros y Hy. by apply Hl, list_elem_of_further.
Qed.

Lemma flat_map_replicate_nil {A B : Type} (f : A -> list B) (x : A) (n : nat) :
  f x = [] -> flat_map f (replicate n x) = [].
Proof. intros Hx. induction n as [|n IH]; [done|]. simpl. by rewrite Hx, IH. Qed.

(** X25.  The edges that sendAssignedEdges sends away.  When every source
    lies at or after the first node of the host that findOwner gives for
    it, the owners are hosts, a buffer that holds something has a positive
    size and every thread takes part in the cleanup, then, whatever the
    threads and the order of the do_all, the messages for every other host
    hold, up to their order, exactly the local edges of which it owns the
    source, with their global source, destination and data; no message is
    addressed to the host itself, and on return no thread holds an edge
    for another host. *)
Theorem sendAssignedEdges_sends_remote_edges (is_void : bool)
    (numThreads : nat) (sched : list (nat * nat)) (order : list nat)
    (localSrcToDest0 localSrcToData0 : list (list Z))
    (st : DistGraphConvert.Pass2) :
  map snd sched ≡ₚ seq 0 (DistGraphConvert.localNumEdges is_void localEdges) ->
  Forall (fun it => (fst it < numThreads)%nat) sched ->
  (forall tid, (tid < numThreads)%nat -> tid ∈ order) ->
  (forall i, (i < DistGraphConvert.localNumEdges is_void localEdges)%nat ->
     0 <= owner_of is_void i < Z.of_nat totalNumHosts /\
     0 <= first_of (owner_of is_void i) <= edge_src is_void i /\
     edge_src is_void i < 2 ^ 32) ->
  DistGraphConvert.sendAssignedEdges findOwner buffer_size is_void hostID
    hostToNodes localEdges numThreads totalNumHosts sched order
    localSrcToDest0 localSrcToData0 = Some st ->
  (forall h : nat, (h < totalNumHosts)%nat -> Z.of_nat h <> hostID ->
     received_by is_void (Z.of_nat h) (DistGraphConvert.net st) ≡ₚ
     map (edge_of is_void)
         (DistGraphConvert.owned_by findOwner is_void localEdges hostToNodes
            (Z.of_nat h))) /\
  Forall (fun m => fst m <> hostID) (DistGraphConvert.net st) /\
  (forall t (h : nat), t ∈ DistGraphConvert.perThread st ->
     (h < totalNumHosts)%nat -> Z.of_nat h <> hostID ->
     held is_void t h = []).
Proof.
  intros Hsched Htids Horder Hedges.
  unfold DistGraphConvert.sendAssignedEdges.
  destruct (negb is_void && negb (bool_decide (localSrcToData0 = [])));
    [done|].
  intros [= <-].
  set (storage := DistGraphConvert.mkThreadStorage _ _ _ _).
  set (st0 := DistGraphConvert.mkPass2 _ _ _ _).
  assert (Hok0 : Forall (storage_ok is_void totalNumHosts)
                   (DistGraphConvert.perThread st0)).
  { apply Forall_replicate, (initial_storage is_void 0). }
  assert (Hsched0 :
    Forall (fun it =>
              (fst it < length (DistGraphConvert.perThread st0))%nat /\
              0 <= owner_of is_void (snd it) /\
              (Z.to_nat (owner_of is_void (snd it)) < totalNumHosts)%nat /\
              DistGraphConvert.wrap64
                (local_id is_void (snd it) +
                 first_of (owner_of is_void (snd it))) =
                edge_src is_void (snd it)) sched).
  { apply Forall_forall. intros [tid i] Hin.
    assert (Htid : (tid < numThreads)%nat).
    { by apply (proj1 (Forall_forall _ _) Htids (tid, i)). }
    assert (Hi : (i < DistGraphConvert.localNumEdges is_void localEdges)%nat).
    { assert (Hmem : i ∈ map snd sched).
      { apply list_elem_of_fmap. by exists (tid, i). }
      rewrite Hsched in Hmem. apply elem_of_seq in Hmem. lia. }
    destruct (Hedges i Hi) as (Hown & Hfirst & Hsrc). cbn [fst snd].
    unfold st0. cbn [DistGraphConvert.perThread]. rewrite length_replicate.
    split; [done|]. split; [lia|]. split; [lia|].
    unfold DistGraphConvert.local_id. fold (edge_src is_void i).
    fold (owner_of is_void i). unfold wrap32, DistGraphConvert.wrap64.
    rewrite (Z.mod_small (_ - _)) by lia. rewrite Z.mod_small by lia. lia. }
  assert (Hall : forall h0 : nat, Z.of_nat h0 <> hostID ->
    let st1 := fold_left (body is_void) sched st0 in
    let st2 := fold_left (cleanup_thread is_void totalNumHosts) order st1 in
    Forall (fun m => fst m <> hostID) (DistGraphConvert.net st2) /\
    received_by is_void (Z.of_nat h0) (DistGraphConvert.net st2) ++
    flat_map (fun t => held is_void t h0) (DistGraphConvert.perThread st2) ≡ₚ
    map (edge_of is_void)
      (DistGraphConvert.owned_by findOwner is_void localEdges hostToNodes
         (Z.of_nat h0)) /\
    (forall t (h : nat), t ∈ DistGraphConvert.perThread st2 ->
       (h < totalNumHosts)%nat -> Z.of_nat h <> hostID ->
       held is_void t h = [])).
  { intros h0 Hne st1 st2. subst st1 st2.
    destruct (body_fold is_void h0 sched st0 Hok0 Hsched0 Hne)
      as (Hok1 & Hlen1 & Hnet1 & Hperm1).
    destruct (cleanup_thread_fold is_void h0 order _ Hok1 Hne)
      as (Hnet2 & Hperm2 & Hthr).
    split; [by apply Hnet2, Hnet1, Forall_nil|]. split.
    - rewrite Hperm2, Hperm1. unfold st0 at 1 2.
      cbn [DistGraphConvert.perThread DistGraphConvert.net].
      rewrite (flat_map_replicate_nil _ storage numThreads)
        by apply (initial_storage is_void h0).
      cbn [DistGraphConvert.received_by flat_map app].
      unfold DistGraphConvert.owned_by. fold (edge_src is_void).
      apply Permutation_map. rewrite Hsched. done.
    - intros t h Hin Hh Hhne.
      apply list_elem_of_lookup in Hin as [tid Htid].
      destruct (Hthr tid t Htid) as [Hin Hout].
      destruct (decide (tid ∈ order)) as [Hd|Hd]; [by apply Hin|].
      specialize (Hout Hd). apply lookup_lt_Some in Hout.
      rewrite Hlen1 in Hout. unfold st0 in Hout.
      cbn [DistGraphConvert.perThread] in Hout.
      rewrite length_replicate in Hout. destruct Hd. by apply Horder. }
  assert (Hsome : Z.of_nat (Z.to_nat hostID + 1) <> hostID) by lia.
  split; [|split].
  - intros h Hh Hne. destruct (Hall h Hne) as (_ & Hperm & Hclean).
    rewrite <- Hperm.
    rewrite (flat_map_all_nil (fun t => held is_void t h)).
    + by rewrite app_nil_r.
    + intros t Ht. by apply Hclean.
  - by destruct (Hall _ Hsome) as (? & _ & _).
  - by destruct (Hall _ Hsome) as (_ & _ & ?).
Qed.

End SendRemote.

Lemma sendAssignedEdges_sends_remote_edges_witness :
  exists st,
    DistGraphConvert.sendAssignedEdges DistGraphConvert.owner_by_range
      DistGraphConvert.sixteen_each false 0 DistGraphConvert.two_owners
      DistGraphConvert.four_edges 2 2
      [(1, 1); (0, 0); (0, 3); (1, 2)]%nat [1; 0]%nat [[]; []] [] = Some st /\
    DistGraphConvert.net st = [(1, [(2, [0], [7])]); (1, [(3, [0], [9])])] /\
    DistGraphConvert.received_by false 1 (DistGraphConvert.net st) ≡ₚ
    map (DistGraphConvert.edge_of false DistGraphConvert.four_edges)
        (DistGraphConvert.owned_by DistGraphConvert.owner_by_range false
           DistGraphConvert.four_edges DistGraphConvert.two_owners 1).
Proof.
  destruct (DistGraphConvert.sendAssignedEdges DistGraphConvert.owner_by_range
      DistGraphConvert.sixteen_each false 0 DistGraphConvert.two_owners
      DistGraphConvert.four_edges 2 2
      [(1, 1); (0, 0); (0, 3); (1, 2)]%nat [1; 0]%nat [[]; []] [])
    as [st|] eqn:Hret; [|by vm_compute in Hret].
  exists st. split; [done|].
  assert (Hsize : forall b : list (Z * list Z * list Z),
            b <> [] -> 0 < DistGraphConvert.sixteen_each b).
  { intros [|r b] Hb; [done|]. unfold DistGraphConvert.sixteen_each.
    cbn [length]. lia. }
  assert (Hsched :
    map snd [(1, 1); (0, 0); (0, 3); (1, 2)]%nat ≡ₚ
    seq 0 (DistGraphConvert.localNumEdges false DistGraphConvert.four_edges)).
  { vm_compute. etransitivity; [apply perm_swap|].
    do 2 apply perm_skip. apply perm_swap. }
  assert (Htids : Forall (fun it : nat * nat => (fst it < 2)%nat)
                    [(1, 1); (0, 0); (0, 3); (1, 2)]%nat).
  { repeat constructor. }
  assert (Horder : forall tid : nat, (tid < 2)%nat -> tid ∈ [1; 0]%nat).
  { intros [|[|tid]] Htid; [set_solver | set_solver | lia]. }
  assert (Hedges : forall i : nat,
    (i < DistGraphConvert.localNumEdges false DistGraphConvert.four_edges)%nat ->
    0 <= DistGraphConvert.owner_of DistGraphConvert.owner_by_range false
           DistGraphConvert.four_edges DistGraphConvert.two_owners i <
      Z.of_nat 2 /\
    0 <= DistGraphConvert.first_of DistGraphConvert.two_owners
           (DistGraphConvert.owner_of DistGraphConvert.owner_by_range false
              DistGraphConvert.four_edges DistGraphConvert.two_owners i) <=
      DistGraphConvert.edge_src false DistGraphConvert.four_edges i /\
    DistGraphConvert.edge_src false DistGraphConvert.four_edges i < 2 ^ 32).
  { intros [|[|[|[|i]]]] Hi;
      [vm_compute; intuition congruence .. | vm_compute in Hi; lia]. }
  destruct (sendAssignedEdges_sends_remote_edges
              DistGraphConvert.owner_by_range DistGraphConvert.sixteen_each
              0 DistGraphConvert.two_owners DistGraphConvert.four_edges 2
              Hsize false 2 [(1, 1); (0, 0); (0, 3); (1, 2)]%nat [1; 0]%nat
              [[]; []] [] st Hsched Htids Horder Hedges Hret)
    as (Hrecv & _ & _).
  split; [|apply (Hrecv 1%nat); [lia | done]].
  vm_compute in Hret. by injection Hret as <-.
Defined.
